(** * A shallow embedding of the T editor core (package [edit], [edit/buffer], [re1])

    The Go code is modelled the way it is written: [int64] and [int32]
    values are integers of [Z] with their wrap-around written out, runes are
    [int32] code points, slices are lists, Go maps are [gmap]s whose missing
    keys read as the zero value, and methods that update their receiver
    return the updated receiver. *)

From Stdlib Require Import ZArith Lia Bool List.
From Stdlib Require DecimalPos.
From stdpp Require Import base gmap list strings.

Local Open Scope Z_scope.

(** ** Machine integers *)

Definition min_int64 : Z := - 2 ^ 63.
Definition max_int64 : Z := 2 ^ 63 - 1.
Definition min_int32 : Z := - 2 ^ 31.
Definition max_int32 : Z := 2 ^ 31 - 1.

(** The value an [int64] holds after an arithmetic result [z]. *)
Definition wrap64 (z : Z) : Z := (z + 2 ^ 63) mod 2 ^ 64 - 2 ^ 63.

(** The conversion [rune(z)] (that is [int32(z)]) of an integer. *)
Definition wrap32 (z : Z) : Z := (z + 2 ^ 31) mod 2 ^ 32 - 2 ^ 31.

Definition is_int64 (z : Z) : Prop := min_int64 <= z <= max_int64.
Definition is_int32 (z : Z) : Prop := min_int32 <= z <= max_int32.

(** A rune is an [int32]. *)
Abbreviation rune := Z (only parsing).

(** ** Ranges: [type addr struct{ from, to int64 }] *)

Record addr : Type := mkAddr { from : Z; to : Z }.

Definition addr_zero : addr := mkAddr 0 0.

Definition addr_eqb (a b : addr) : bool :=
  (from a =? from b) && (to a =? to b).

(** [func (a addr) size() int64 { return a.to - a.from }] *)
Definition addr_size (a : addr) : Z := wrap64 (to a - from a).

(** [func (a addr) contains(p int64) bool] *)
Definition contains (a : addr) (p : Z) : bool :=
  (from a <=? p) && (p <? to a).

(** [func (a addr) update(b addr, n int64) addr]: the receiver is a copy
    that is assigned to field by field; every assignment is one [let]. *)
Definition update (a b : addr) (n : Z) : addr :=
  let a :=
    (* Clip, unless b is entirely within a. *)
    if (from b <=? from a) || (to a <? to b) then
      let a := if contains b (from a) then mkAddr (to b) (to a) else a in
      let a := if contains b (wrap64 (to a - 1))
               then mkAddr (from a) (from b) else a in
      if to a <? from a then mkAddr (from a) (from a) else a
    else a in
  (* Move. *)
  let d := wrap64 (n - addr_size b) in
  let a := if to b <=? to a then mkAddr (from a) (wrap64 (to a + d)) else a in
  if to b <=? from a then mkAddr (wrap64 (from a + d)) (to a) else a.

(** The two steps of the specification, read over the integers.  Step 1
    clips unless [a.from < b.from] and [b.to <= a.to]; step 2 moves by
    [d = n - b.size()]. *)
Definition spec_clip (a b : addr) : addr :=
  if (from a <? from b) && (to b <=? to a) then a
  else
    let a := if (from b <=? from a) && (from a <? to b)
             then mkAddr (to b) (to a) else a in
    let a := if (from b <=? to a - 1) && (to a - 1 <? to b)
             then mkAddr (from a) (from b) else a in
    if from a >? to a then mkAddr (from a) (from a) else a.

Definition spec_move (a b : addr) (n : Z) : addr :=
  let d := n - (to b - from b) in
  let a := if to a >=? to b then mkAddr (from a) (to a + d) else a in
  if from a >=? to b then mkAddr (from a + d) (to a) else a.

Definition update_spec (a b : addr) (n : Z) : addr :=
  spec_move (spec_clip a b) b n.

(** The [int64] representation of a range of integers. *)
Definition wrap_addr (a : addr) : addr := mkAddr (wrap64 (from a)) (wrap64 (to a)).

(** A range as the specification has it: [0 <= from <= to], both [int64]. *)
Definition is_range (a : addr) : Prop :=
  0 <= from a <= to a /\ to a <= max_int64.

(** A range that lies within a buffer of [sz] runes. *)
Definition range_in (a : addr) (sz : Z) : Prop :=
  0 <= from a <= to a /\ to a <= sz.

(** Where a rune offset [p] of the old buffer ends up when the runes of [b]
    are replaced by [n] runes: offsets before [b] stay, offsets at or after
    the end of [b] move by [n - b.size()], offsets inside [b] are gone. *)
Definition moved (b : addr) (n p : Z) : option Z :=
  if p <? from b then Some p
  else if to b <=? p then Some (p + (n - (to b - from b)))
  else None.

(** [q] is an offset of the range [a]. *)
Definition within (a : addr) (q : Z) : Prop := from a <= q < to a.

(** ** Simple addresses *)

(** The implementations of [simpAddrImpl]: [dotAddr], [endAddr], [markAddr],
    [runeAddr], [lineAddr] and [reAddr]. *)
Inductive simpAddrImpl : Type :=
  | dotAddr
  | endAddr
  | markAddr (r : rune)
  | runeAddr (n : Z)
  | lineAddr (neg : bool) (n : Z)
  | reAddr (rev : bool) (re : list rune).

(** [type simpleAddr struct { simpAddrImpl }]: every [SimpleAddress] of the
    package is a [simpleAddr]. *)
Record SimpleAddress : Type := simpleAddr { impl : simpAddrImpl }.

(** The [reverse()] methods. *)
Definition reverse (a : SimpleAddress) : SimpleAddress :=
  match impl a with
  | dotAddr => simpleAddr dotAddr
  | endAddr => simpleAddr endAddr
  | markAddr m => simpleAddr (markAddr m)
  | runeAddr n => simpleAddr (runeAddr (wrap64 (- n)))
  | lineAddr neg n => simpleAddr (lineAddr (negb neg) n)
  | reAddr rev re => simpleAddr (reAddr (negb rev) re)
  end.

(** The values the Go types can hold: [markAddr] is a [rune], [runeAddr] an
    [int64], the [n] of a [lineAddr] an [int]. *)
Definition simple_wf (a : SimpleAddress) : Prop :=
  match impl a with
  | markAddr m => is_int32 m
  | runeAddr n => is_int64 n
  | lineAddr _ n => is_int64 n
  | reAddr _ re => Forall is_int32 re
  | _ => True
  end.

(** ** Results of fallible code *)

(** Go errors are compared by the tests through their messages; the model
    keeps a constructor per error the modelled code creates. *)
Inductive error : Type :=
  | ErrAddressOutOfRange   (* buffer.AddressError, runes: out-of-range access *)
  | ErrCount               (* buffer.CountError *)
  | ErrEOF                 (* io.EOF *)
  | ErrNoMatch             (* edit.ErrNoMatch *)
  | ErrBadMark             (* "bad mark: ..." *)
  | ErrRuneRange           (* "rune address out of range" *)
  | ErrLineRange           (* "line address out of range" *)
  | ErrAlreadyClosed       (* "already closed" *)
  | ErrNotInSequence       (* "changes not in sequence" *)
  | ErrValueOutOfRange     (* strconv: "value out of range" *)
  | ErrParse (pos : Z).    (* re1.ParseError *)

(** What a call comes to: a value, a returned error, or a panic. *)
Inductive res (A : Type) : Type :=
  | Ok (a : A)
  | Err (e : error)
  | Panic.
Arguments Ok {A} a.
Arguments Err {A} e.
Arguments Panic {A}.

Definition bind {A B : Type} (r : res A) (k : A -> res B) : res B :=
  match r with
  | Ok a => k a
  | Err e => Err e
  | Panic => Panic
  end.

Global Instance res_bind : MBind res := fun A B k r => bind r k.
Global Instance res_ret : MRet res := fun A a => Ok a.

(** ** The rune buffer *)

(** Modelled from the spec: [runes.Buffer] is not in the sources.  The spec
    gives it [size()], [rune(i)], [read], [insert(runes, at)] and
    [delete(n, at)] over a sequence of 32-bit runes; the journal stores its
    headers in it as runes.  The model is the sequence itself, and an access
    outside [0, size] is an error. *)
Abbreviation RuneBuffer := (list Z) (only parsing).

Definition Zlength {A : Type} (l : list A) : Z := Z.of_nat (length l).

Definition slice {A : Type} (l : list A) (lo hi : Z) : list A :=
  take (Z.to_nat (hi - lo)) (drop (Z.to_nat lo) l).

Definition rb_Size (b : RuneBuffer) : Z := Zlength b.

(** [b.Rune(i)] *)
Definition rb_Rune (b : RuneBuffer) (i : Z) : res rune :=
  if 0 <=? i
  then match b !! Z.to_nat i with
       | Some r => Ok r
       | None => Err ErrAddressOutOfRange
       end
  else Err ErrAddressOutOfRange.

(** [b.Read(rs, at)] with [len(rs) = n]: the runes read. *)
Definition rb_Read (b : RuneBuffer) (n at_ : Z) : res (list rune) :=
  if (0 <=? at_) && (0 <=? n) && (at_ + n <=? rb_Size b)
  then Ok (slice b at_ (at_ + n))
  else Err ErrAddressOutOfRange.

(** [b.Insert(rs, at)]: the buffer afterwards. *)
Definition rb_Insert (b : RuneBuffer) (rs : list rune) (at_ : Z) : res RuneBuffer :=
  if (0 <=? at_) && (at_ <=? rb_Size b)
  then Ok (take (Z.to_nat at_) b ++ rs ++ drop (Z.to_nat at_) b)
  else Err ErrAddressOutOfRange.

(** [b.Delete(n, at)]: the buffer afterwards. *)
Definition rb_Delete (b : RuneBuffer) (n at_ : Z) : res RuneBuffer :=
  if n <? 0 then Err ErrCount
  else if (0 <=? at_) && (at_ + n <=? rb_Size b)
  then Ok (take (Z.to_nat at_) b ++ drop (Z.to_nat (at_ + n)) b)
  else Err ErrAddressOutOfRange.

(** ** The journal of [log.go] *)

(** [type log struct { runes *runes.Buffer; n int }] *)
Record log : Type := mkLog { log_runes : RuneBuffer; log_n : Z }.

(** [type header struct { addr; size0 int64; seq int32 }] *)
Record header : Type := mkHeader { hdr_addr : addr; size0 : Z; hdr_seq : Z }.

(** [type entry struct { header; runes []rune }] *)
Record entry : Type := mkEntry { ent_header : header; ent_runes : list rune }.

Definition headerRunes : Z := 7.

(** [func (h header) insert(b *runes.Buffer, to int64) error]: the seven
    runes, each an [int32] conversion, and the insertion. *)
Definition header_runes (h : header) : list rune :=
  [ wrap32 (Z.land (from (hdr_addr h)) 0xFFFFFFFF);
    wrap32 (Z.shiftr (from (hdr_addr h)) 32);
    wrap32 (Z.land (to (hdr_addr h)) 0xFFFFFFFF);
    wrap32 (Z.shiftr (to (hdr_addr h)) 32);
    wrap32 (Z.land (size0 h) 0xFFFFFFFF);
    wrap32 (Z.shiftr (size0 h) 32);
    hdr_seq h ].

Definition header_insert (h : header) (b : RuneBuffer) (to_ : Z) : res RuneBuffer :=
  rb_Insert b (header_runes h) to_.

(** [int64(lo) | int64(hi)<<32] *)
Definition join64 (lo hi : rune) : Z := Z.lor lo (wrap64 (Z.shiftl hi 32)).

(** [func readHeader(b *runes.Buffer, from int64) (header, error)] *)
Definition readHeader (b : RuneBuffer) (from_ : Z) : res header :=
  rs ← rb_Read b headerRunes from_;
  match rs with
  | [r0; r1; r2; r3; r4; r5; r6] =>
      Ok (mkHeader (mkAddr (join64 r0 r1) (join64 r2 r3)) (join64 r4 r5) r6)
  | _ => Panic
  end.

(** The part of [edit.Buffer] that the journal reads: its runes and [seq]. *)
Record BufferView : Type := mkView { view_runes : RuneBuffer; view_seq : Z }.

(** [func (l *log) push(b *Buffer, a addr, n int64) error].  The log is
    returned as it is left, also when an error is returned. *)
Definition log_push (l : log) (b : BufferView) (a : addr) (n : Z) : log * res unit :=
  if addr_size a <? 0 then (l, Panic) (* make([]rune, a.size()) *)
  else
    match rb_Read (view_runes b) (addr_size a) (from a) with
    | Err e => (l, Err e)
    | Panic => (l, Panic)
    | Ok rs =>
        match rb_Insert (log_runes l) rs (rb_Size (log_runes l)) with
        | Err e => (l, Err e)
        | Panic => (l, Panic)
        | Ok lr =>
            let h := mkHeader (mkAddr (from a) (wrap64 (from a + n)))
                              (addr_size a) (view_seq b) in
            match header_insert h lr (rb_Size lr) with
            | Err e => (mkLog lr (log_n l), Err e)
            | Panic => (mkLog lr (log_n l), Panic)
            | Ok lr' => (mkLog lr' (wrap64 (log_n l + 1)), Ok tt)
            end
        end
    end.

(** [func (l *log) top() (header, error)] *)
Definition log_top (l : log) : res header :=
  let from_ := wrap64 (rb_Size (log_runes l) - headerRunes) in
  if from_ <? 0 then Panic
  else readHeader (log_runes l) (wrap64 (rb_Size (log_runes l) - headerRunes)).

(** [func (l *log) pop() (entry, error)] *)
Definition log_pop (l : log) : log * res entry :=
  let from_ := wrap64 (rb_Size (log_runes l) - headerRunes) in
  if from_ <? 0 then (l, Panic)
  else
    match readHeader (log_runes l) (wrap64 (rb_Size (log_runes l) - headerRunes)) with
    | Err e => (l, Err e)
    | Panic => (l, Panic)
    | Ok h =>
        let from_ := wrap64 (from_ - size0 h) in
        if from_ <? 0 then (l, Panic)
        else if size0 h <? 0 then (l, Panic) (* make([]rune, e.size0) *)
        else
          match rb_Read (log_runes l) (size0 h) from_ with
          | Err e => (l, Err e)
          | Panic => (l, Panic)
          | Ok rs =>
              match rb_Delete (log_runes l)
                      (wrap64 (rb_Size (log_runes l) - from_)) from_ with
              | Err e => (l, Err e)
              | Panic => (l, Panic)
              | Ok lr => (mkLog lr (wrap64 (log_n l - 1)), Ok (mkEntry h rs))
              end
        end
    end.

(** ** Buffers and editors *)

(** A [*Editor]: editors are compared and listed by address. *)
Abbreviation ptr := nat (only parsing).

(** Modelled from the spec: the pending journal that this version of the
    editor uses ([newLog], [clear], [append], [close], [logFirst] and the
    entry methods [end], [next], [store], [data]) is not in the sources.
    An entry names the range [at] of the buffer that changes, the number of
    runes [size] it changes to, and those runes; the journal is the
    sequence of its entries, first to last, and closing it frees it. *)
Record change : Type := mkChange { ch_at : addr; ch_size : Z; ch_data : list rune }.

Record pendlog : Type := mkPend { pend_entries : list change; pend_closed : bool }.

Definition newLog : pendlog := mkPend [] false.
Definition pend_clear (l : pendlog) : pendlog := mkPend [] (pend_closed l).
Definition pend_close (l : pendlog) : pendlog := mkPend [] true.

(** [type Editor struct { buf *Buffer; who int32; marks map[rune]addr;
    pending *log }]; the buffer is the one the editor is stored in. *)
Record Editor : Type :=
  mkEditor { ed_who : Z; marks : gmap Z addr; pending : pendlog }.

(** [type Buffer struct { lock; runes; eds []*Editor; seq, who int32 }],
    together with the editors that the pointers refer to. *)
Record Buffer : Type :=
  mkBuffer { runes : RuneBuffer; eds : list ptr; seq : Z; who : Z;
             editors : gmap ptr Editor }.

Definition set_runes (rs : RuneBuffer) (b : Buffer) : Buffer :=
  mkBuffer rs (eds b) (seq b) (who b) (editors b).
Definition set_eds (l : list ptr) (b : Buffer) : Buffer :=
  mkBuffer (runes b) l (seq b) (who b) (editors b).
Definition set_seq (s : Z) (b : Buffer) : Buffer :=
  mkBuffer (runes b) (eds b) s (who b) (editors b).
Definition set_editors (h : gmap ptr Editor) (b : Buffer) : Buffer :=
  mkBuffer (runes b) (eds b) (seq b) (who b) h.

Definition set_marks (m : gmap Z addr) (e : Editor) : Editor :=
  mkEditor (ed_who e) m (pending e).
Definition set_pending (l : pendlog) (e : Editor) : Editor :=
  mkEditor (ed_who e) (marks e) l.

(** [m[r]] on a Go map: the zero value when the key is missing. *)
Definition mark_get (m : gmap Z addr) (r : rune) : addr :=
  default addr_zero (m !! r).

(** The marks of the editor at [ed]. *)
Definition marks_of (ed : ptr) (b : Buffer) : gmap Z addr :=
  match editors b !! ed with Some e => marks e | None => ∅ end.

Definition dot_rune : rune := 46.

(** [func NewBuffer() *Buffer] *)
Definition NewBuffer : Buffer := mkBuffer [] [] 0 0 ∅.

(** [func NewEditor(buf *Buffer) *Editor]: a new editor at a fresh address
    is appended to [buf.eds]. *)
Definition NewEditor (b : Buffer) : Buffer * ptr :=
  let ed := fresh (dom (editors b)) in
  let e := mkEditor (who b) ∅ newLog in
  (mkBuffer (runes b) (eds b ++ [ed]) (seq b) (wrap32 (who b + 1))
            (<[ed := e]> (editors b)), ed).

(** The first index [i] with [eds[i] == ed]. *)
Fixpoint index_of (ed : ptr) (l : list ptr) : option nat :=
  match l with
  | [] => None
  | p :: l' => if Nat.eqb p ed then Some 0%nat
               else option_map S (index_of ed l')
  end.

(** [func (ed *Editor) Close() error].  [append(eds[:i], eds[:i+1]...)]
    is the first [i] editors followed by the first [i+1]. *)
Definition Editor_Close (ed : ptr) (b : Buffer) : Buffer * res unit :=
  match index_of ed (eds b) with
  | Some i =>
      let b := set_eds (take i (eds b) ++ take (S i) (eds b)) b in
      (set_editors (alter (fun e => set_pending (pend_close (pending e)) e)
                          ed (editors b)) b, Ok tt)
  | None => (b, Err ErrAlreadyClosed)
  end.

(** [func (buf *Buffer) change(at addr, src runes.Reader) error], with the
    runes of [src] given: delete the range, write the runes at its start,
    and update every mark of every editor of [buf.eds] in turn. *)
Definition update_marks (at_ : addr) (n : Z) (h : gmap ptr Editor) (ed : ptr)
  : gmap ptr Editor :=
  alter (fun e => set_marks ((fun a => update a at_ n) <$> marks e) e) ed h.

Definition Buffer_change (at_ : addr) (src : list rune) (b : Buffer)
  : Buffer * res unit :=
  match rb_Delete (runes b) (addr_size at_) (from at_) with
  | Err e => (b, Err e)
  | Panic => (b, Panic)
  | Ok rs =>
      match rb_Insert rs src (from at_) with
      | Err e => (set_runes rs b, Err e)
      | Panic => (set_runes rs b, Panic)
      | Ok rs' =>
          let n := Zlength src in
          let b := set_runes rs' b in
          (set_editors (fold_left (update_marks at_ n) (eds b) (editors b)) b,
           Ok tt)
      end
  end.

(** [func inSequence(l *log) bool]: no entry starts before the end of the
    entry before it, unless the two are the same range. *)
Fixpoint inSequence (l : list change) : bool :=
  match l with
  | e :: ((f :: _) as l') =>
      if negb (addr_eqb (ch_at f) (ch_at e)) && (from (ch_at f) <? to (ch_at e))
      then false else inSequence l'
  | _ => true
  end.

(** The inner loop of [fixAddrs]: every later entry [f] gets
    [f.at = f.at.update(e.at, e.size)] and is stored. *)
Definition fix_later (e : change) (l : list change) : list change :=
  map (fun f => mkChange (update (ch_at f) (ch_at e) (ch_size e))
                         (ch_size f) (ch_data f)) l.

(** The outer loop of [fixAddrs] over the [k] entries from [e] on. *)
Fixpoint fix_loop (k : nat) (at_ : addr) (l : list change) : addr * list change :=
  match k, l with
  | S k, e :: l' =>
      let at_ :=
        if from (ch_at e) =? from at_
        then mkAddr (from at_) (to (update at_ (ch_at e) (ch_size e)))
        else update at_ (ch_at e) (ch_size e) in
      let (at', l'') := fix_loop k at_ (fix_later e l') in
      (at', e :: l'')
  | _, _ => (at_, l)
  end.

(** [func fixAddrs(at addr, l *log) (addr, error)], with the journal as it
    is left. *)
Definition fixAddrs (at_ : addr) (l : pendlog) : pendlog * res addr :=
  if negb (inSequence (pend_entries l)) then (l, Err ErrNotInSequence)
  else
    let (at', es) := fix_loop (length (pend_entries l)) at_ (pend_entries l) in
    (mkPend es (pend_closed l), Ok at').

(** [ed.pending.clear()] *)
Definition clear_pending (ed : ptr) (b : Buffer) : Buffer :=
  set_editors (alter (fun e => set_pending (pend_clear (pending e)) e)
                     ed (editors b)) b.

(** [func pendChanges(ed *Editor, f func() (addr, error)) (int32, addr,
    error)]: clear the journal, read [seq], run phase one. *)
Definition pendChanges (ed : ptr) (f : Buffer -> Buffer * res addr) (b : Buffer)
  : Buffer * res (Z * addr) :=
  match editors b !! ed with
  | None => (b, Panic)
  | Some _ =>
      let b := clear_pending ed b in
      let seq_ := seq b in
      let (b', r) := f b in
      (b', at_ ← r; Ok (seq_, at_))
  end.

(** [func pend(ed *Editor, at addr, src runes.Reader) error]: append the
    change of [at] to the runes of [src] to the journal. *)
Definition pend (ed : ptr) (at_ : addr) (src : list rune) (b : Buffer) : Buffer :=
  set_editors
    (alter (fun e => set_pending
                       (mkPend (pend_entries (pending e)
                                  ++ [mkChange at_ (Zlength src) src])
                               (pend_closed (pending e))) e)
           ed (editors b)) b.

(** The loop of [applyChanges] over the journal entries. *)
Fixpoint apply_loop (l : list change) (b : Buffer) : Buffer * res unit :=
  match l with
  | [] => (b, Ok tt)
  | e :: l' =>
      match Buffer_change (ch_at e) (ch_data e) b with
      | (b', Ok _) => apply_loop l' b'
      | (b', r) => (b', r)
      end
  end.

(** [func applyChanges(ed *Editor, seq int32) (bool, error)] *)
Definition applyChanges (ed : ptr) (seq_ : Z) (b : Buffer) : Buffer * res bool :=
  if negb (seq b =? seq_) then (b, Ok true)
  else
    match editors b !! ed with
    | None => (b, Panic)
    | Some e =>
        match apply_loop (pend_entries (pending e)) b with
        | (b', Ok _) => (set_seq (wrap32 (seq b' + 1)) b', Ok false)
        | (b', Err x) => (b', Err x)
        | (b', Panic) => (b', Panic)
        end
    end.

(** The deferred [ed.marks = marks]. *)
Definition restore_marks (ed : ptr) (m : gmap Z addr) (b : Buffer) : Buffer :=
  set_editors (alter (set_marks m) ed (editors b)) b.

(** [func (ed *Editor) do(f func() (addr, error)) error].  Each unit of
    fuel is one pass from the label [retry]; [None] is the loop still
    running when the fuel is used up.  On every return the deferred
    function stores the snapshot [marks] (on success the editor's own map)
    into [ed.marks]. *)
Fixpoint Editor_do (fuel : nat) (ed : ptr) (f : Buffer -> Buffer * res addr)
    (b : Buffer) : option (Buffer * res unit) :=
  match fuel with
  | O => None
  | S fuel =>
      let snapshot := marks_of ed b in
      match pendChanges ed f b with
      | (b, Err e) => Some (restore_marks ed snapshot b, Err e)
      | (b, Panic) => Some (restore_marks ed snapshot b, Panic)
      | (b, Ok (seq_, at_)) =>
          match editors b !! ed with
          | None => Some (b, Panic)
          | Some e =>
              match fixAddrs at_ (pending e) with
              | (l, Err x) =>
                  let b := set_editors (<[ed := set_pending l e]> (editors b)) b in
                  Some (restore_marks ed snapshot b, Err x)
              | (l, Panic) => Some (b, Panic)
              | (l, Ok at_) =>
                  let b := set_editors (<[ed := set_pending l e]> (editors b)) b in
                  match applyChanges ed seq_ b with
                  | (b, Err x) => Some (restore_marks ed snapshot b, Err x)
                  | (b, Panic) => Some (restore_marks ed snapshot b, Panic)
                  | (b, Ok true) => Editor_do fuel ed f b
                  | (b, Ok false) =>
                      Some (set_editors
                              (alter (fun e => set_marks (<[dot_rune := at_]> (marks e)) e)
                                     ed (editors b)) b, Ok tt)
                  end
              end
          end
      end
  end.

(** ** Line addresses *)

Definition newline : rune := 10.

(** The first loop of [lineAddr.fwd]: move [a.to] forward until the rune
    before it is a newline or the buffer ends.  Each unit of fuel is one
    test of the loop condition; [None] is the loop still running. *)
Fixpoint fwd_to_line_end (fuel : nat) (b : RuneBuffer) (to_ : Z) : option (res Z) :=
  match fuel with
  | O => None
  | S fuel =>
      if to_ <? rb_Size b then
        match rb_Rune b (wrap64 (to_ - 1)) with
        | Err e => Some (Err e)
        | Panic => Some Panic
        | Ok r => if r =? newline then Some (Ok to_)
                  else fwd_to_line_end fuel b (wrap64 (to_ + 1))
        end
      else Some (Ok to_)
  end.

(** The second loop of [lineAddr.fwd], on [l.n] and [a]. *)
Fixpoint fwd_lines (fuel : nat) (b : RuneBuffer) (n : Z) (a : addr)
  : option (res (Z * addr)) :=
  match fuel with
  | O => None
  | S fuel =>
      if (0 <? n) && (to a <? rb_Size b) then
        match rb_Rune b (to a) with
        | Err e => Some (Err e)
        | Panic => Some Panic
        | Ok r =>
            let a := mkAddr (from a) (wrap64 (to a + 1)) in
            if r =? newline then
              let n := wrap64 (n - 1) in
              let a := if 0 <? n then mkAddr (to a) (to a) else a in
              fwd_lines fuel b n a
            else fwd_lines fuel b n a
        end
      else Some (Ok (n, a))
  end.

(** [func (l lineAddr) fwd(from int64, ed *Editor) (addr, error)], on the
    runes of [ed.buf]. *)
Definition lineAddr_fwd (fuel : nat) (n : Z) (from_ : Z) (b : RuneBuffer)
  : option (res addr) :=
  let a := mkAddr from_ from_ in
  let start :=
    if 0 <? to a then
      match fwd_to_line_end fuel b (to a) with
      | None => None
      | Some (Err e) => Some (Err e)
      | Some Panic => Some Panic
      | Some (Ok t) =>
          let a := mkAddr (from a) t in
          Some (Ok (if 0 <? n then mkAddr (to a) (to a) else a))
      end
    else Some (Ok a) in
  match start with
  | None => None
  | Some (Err e) => Some (Err e)
  | Some Panic => Some Panic
  | Some (Ok a) =>
      match fwd_lines fuel b n a with
      | None => None
      | Some (Err e) => Some (Err e)
      | Some Panic => Some Panic
      | Some (Ok (n, a)) =>
          if (1 <? n) || ((n =? 1) && (to a <? rb_Size b))
          then Some (Err ErrLineRange)
          else Some (Ok a)
      end
  end.

(** The lines of a text: a line ends with its newline; what follows the
    last newline, if only the empty string, is the last line. *)
Fixpoint lines (rs : list rune) : list (list rune) :=
  match rs with
  | [] => [[]]
  | r :: rs' =>
      if r =? newline then [r] :: lines rs'
      else match lines rs' with
           | l :: ls => (r :: l) :: ls
           | [] => [[r]]
           end
  end.

(** The range of line [n], counted from 1, of a text: it starts where the
    lines before it end and spans the line, its newline included. *)
Definition line_range (rs : list rune) (n : nat) : option addr :=
  match lines rs !! (n - 1)%nat with
  | Some l =>
      let start := Zlength (concat (take (n - 1) (lines rs))) in
      Some (mkAddr start (start + Zlength l))
  | None => None
  end.

(** The second loop of [fwd] as a recursion over the runes that are left:
    [n] lines still to pass, the range [(f, t)] so far. *)
Fixpoint scan (suf : list rune) (n : nat) (f t : Z) : nat * addr :=
  match suf, n with
  | _, O => (O, mkAddr f t)
  | [], _ => (n, mkAddr f t)
  | r :: s, S n' =>
      if r =? newline
      then scan s n' (match n' with O => f | _ => t + 1 end) (t + 1)
      else scan s n f (t + 1)
  end.

(** ** Addresses *)

(** The implementations of [Address]: [simpleAddr], [compoundAddr] and
    [addAddr]. *)
Inductive Address : Type :=
  | Simple (a : SimpleAddress)
  | compoundAddr (op : rune) (a1 a2 : Address)
  | addAddr (op : rune) (a1 : Address) (a2 : SimpleAddress).

(** The methods [To], [Then], [Plus] and [Minus], the same for the three
    implementations. *)
Definition To (a a2 : Address) : Address := compoundAddr 44 a a2.
Definition Then (a a2 : Address) : Address := compoundAddr 59 a a2.
Definition Plus (a : Address) (a2 : SimpleAddress) : Address := addAddr 43 a a2.
Definition Minus (a : Address) (a2 : SimpleAddress) : Address := addAddr 45 a a2.

(** The constructors of simple addresses. *)
Definition Dot : SimpleAddress := simpleAddr dotAddr.
Definition End : SimpleAddress := simpleAddr endAddr.
Definition Mark (r : rune) : SimpleAddress := simpleAddr (markAddr r).
Definition Rune (n : Z) : SimpleAddress := simpleAddr (runeAddr n).

(** [func Line(n int) SimpleAddress] *)
Definition Line (n : Z) : SimpleAddress :=
  if n <? 0 then simpleAddr (lineAddr true (wrap64 (- n)))
  else simpleAddr (lineAddr false n).

(** [func withTrailingDelim(re string) string], on the runes of [re]:
    [first] is true at index 0, [d] is the first rune. *)
Fixpoint withTrailingDelim_from (d : rune) (first esc : bool) (re : list rune)
  : list rune :=
  match re with
  | [] => []
  | ru :: rest =>
      let last := match rest with [] => true | _ => false end in
      let add := last && (first || negb (ru =? d) || esc) in
      ru :: (if add then [d] else [])
         ++ withTrailingDelim_from d false (negb esc && (ru =? 92)) rest
  end.

Definition withTrailingDelim (re : list rune) : list rune :=
  match re with
  | [] => []
  | d :: _ => withTrailingDelim_from d true false re
  end.

(** [func Regexp(re string) SimpleAddress] *)
Definition Regexp (re : list rune) : SimpleAddress :=
  let re := match re with [] => [47] | _ => re end in
  simpleAddr (reAddr (match re with r :: _ => r =? 63 | [] => false end)
                     (withTrailingDelim re)).

(** [var All Address = Line(0).To(End)] *)
Definition All : Address := To (Simple (Line 0)) (Simple End).

(** *** Printing *)

(** A Go string as the runes it decodes to.  [string(r)] of a rune that is
    not a Unicode scalar value is the replacement character. *)
Definition valid_rune (r : rune) : bool :=
  ((0 <=? r) && (r <? 0xD800)) || ((0xE000 <=? r) && (r <=? 0x10FFFF)).

Definition string_of_rune (r : rune) : list rune :=
  if valid_rune r then [r] else [0xFFFD].

Fixpoint uint_runes (u : Decimal.uint) : list rune :=
  match u with
  | Decimal.Nil => []
  | Decimal.D0 u => 48 :: uint_runes u
  | Decimal.D1 u => 49 :: uint_runes u
  | Decimal.D2 u => 50 :: uint_runes u
  | Decimal.D3 u => 51 :: uint_runes u
  | Decimal.D4 u => 52 :: uint_runes u
  | Decimal.D5 u => 53 :: uint_runes u
  | Decimal.D6 u => 54 :: uint_runes u
  | Decimal.D7 u => 55 :: uint_runes u
  | Decimal.D8 u => 56 :: uint_runes u
  | Decimal.D9 u => 57 :: uint_runes u
  end.

(** [strconv.FormatInt(i, 10)] and [strconv.Itoa(i)] *)
Definition FormatInt (i : Z) : list rune :=
  match Z.to_int i with
  | Decimal.Pos u => uint_runes u
  | Decimal.Neg u => 45 :: uint_runes u
  end.

(** The [String()] methods of the simple addresses. *)
Definition simple_String (a : SimpleAddress) : list rune :=
  match impl a with
  | dotAddr => [46]
  | endAddr => [36]
  | markAddr m => 39 :: string_of_rune m
  | runeAddr n =>
      if n <? 0 then [45; 35] ++ FormatInt (wrap64 (- n))
      else 35 :: FormatInt n
  | lineAddr neg n =>
      if neg then 45 :: FormatInt n else FormatInt n
  | reAddr _ re => re
  end.

(** The [String()] methods of [Address]. *)
Fixpoint Address_String (a : Address) : list rune :=
  match a with
  | Simple s => simple_String s
  | compoundAddr op a1 a2 =>
      Address_String a1 ++ string_of_rune op ++ Address_String a2
  | addAddr op a1 a2 =>
      Address_String a1 ++ string_of_rune op ++ simple_String a2
  end.

(** The runes of a string literal, for the examples. *)
Definition runes_of (s : string) : list rune :=
  map (fun c => Z.of_nat (Ascii.nat_of_ascii c)) (String.list_ascii_of_string s).

(** *** Parsing *)

Definition is_digit (r : rune) : bool := (48 <=? r) && (r <=? 57).

(** [strings.ContainsRune(simpleFirst, r)] with
    [simpleFirst = "#/?$.'" + digits] *)
Definition is_simpleFirst (r : rune) : bool :=
  (r =? 35) || (r =? 47) || (r =? 63) || (r =? 36) || (r =? 46) || (r =? 39)
  || is_digit r.

(** [unicode.IsSpace] *)
Definition IsSpace (r : rune) : bool :=
  ((9 <=? r) && (r <=? 13)) || (r =? 32) || (r =? 0x85) || (r =? 0xA0)
  || (r =? 0x1680) || ((0x2000 <=? r) && (r <=? 0x200A))
  || (r =? 0x2028) || (r =? 0x2029) || (r =? 0x202F) || (r =? 0x205F)
  || (r =? 0x3000).

(** [func isMarkRune(r rune) bool] *)
Definition isMarkRune (r : rune) : bool :=
  ((97 <=? r) && (r <=? 122)) || ((65 <=? r) && (r <=? 90)).

(** [strconv.ParseInt(s, 10, 64)] and [strconv.Atoi(s)] on a string of
    digits: the value, or the largest [int64] and a range error. *)
Definition digits_value (s : list rune) : Z :=
  fold_left (fun acc d => acc * 10 + (d - 48)) s 0.

Definition ParseInt (s : list rune) : Z * option error :=
  let v := digits_value s in
  if v <=? max_int64 then (v, None) else (max_int64, Some ErrValueOutOfRange).

(** What a parsing function returns: the address or nil, the runes that
    are left, and the error or nil. *)
Definition parsed (A : Type) : Type := option A * list rune * option error.

(** The scan [for ; n < len(rs) && unicode.IsSpace(rs[n]) && rs[n] != '\n';
    n++] of [parseMarkAddr], as the runes from [rs[n]] on. *)
Fixpoint skip_space (rs : list rune) : list rune :=
  match rs with
  | r :: rest => if IsSpace r && negb (r =? newline) then skip_space rest else rs
  | [] => []
  end.

(** [func parseMarkAddr(rs []rune) (SimpleAddress, []rune, error)], for
    [rs[0] == '\'']. *)
Definition parseMarkAddr (rs : list rune) : parsed SimpleAddress :=
  match skip_space (tail rs) with
  | r :: rest =>
      if isMarkRune r then (Some (Mark r), rest, None)
      else (None, r :: rest, Some ErrBadMark)
  | [] => (None, [], Some ErrBadMark)
  end.

(** The digits at the start of [rs], and the rest. *)
Fixpoint span_digits (rs : list rune) : list rune * list rune :=
  match rs with
  | r :: rest =>
      if is_digit r then let (ds, rest') := span_digits rest in (r :: ds, rest')
      else ([], rs)
  | [] => ([], [])
  end.

(** [func parseRuneAddr(rs []rune) (SimpleAddress, []rune, error)], for
    [rs[0] == '#']. *)
Definition parseRuneAddr (rs : list rune) : parsed SimpleAddress :=
  let (ds, rest) := span_digits (tail rs) in
  let s := match ds with [] => [49] | _ => ds end in
  let (r, err) := ParseInt s in
  (Some (Rune r), rest, err).

(** [func parseLineAddr(rs []rune) (SimpleAddress, []rune, error)], for
    [rs[0]] a digit. *)
Definition parseLineAddr (rs : list rune) : parsed SimpleAddress :=
  let (ds, rest) := span_digits rs in
  let (l, err) := ParseInt ds in
  (Some (Line l), rest, err).

(** Modelled from the spec: [parseRegexp] is not in the sources.  A
    delimited regular expression starts with its delimiter and runs up to
    and including the next unescaped delimiter, or up to the end of the
    input or a newline, which ends the address. *)
Fixpoint regexp_extent (d : rune) (esc : bool) (rs : list rune)
  : list rune * list rune :=
  match rs with
  | [] => ([], [])
  | r :: rest =>
      if r =? newline then ([], rs)
      else if negb esc && (r =? d) then ([r], rest)
      else let (e, rest') := regexp_extent d (negb esc && (r =? 92)) rest in
           (r :: e, rest')
  end.

Definition parseRegexp (rs : list rune) : list rune * list rune * option error :=
  match rs with
  | d :: rest => let (e, rest') := regexp_extent d false rest in
                 (d :: e, rest', None)
  | [] => ([], [], None)
  end.

(** [func parseSimpleAddr(rs []rune) (SimpleAddress, []rune, error)] *)
Fixpoint parseSimpleAddr (rs : list rune) : parsed SimpleAddress :=
  match rs with
  | [] => (None, rs, None)
  | r :: rest =>
      if r =? 39 then parseMarkAddr rs
      else if r =? 35 then parseRuneAddr rs
      else if is_digit r then parseLineAddr rs
      else if (r =? 47) || (r =? 63) then
        match parseRegexp rs with
        | (_, rs', Some err) => (None, rs', Some err)
        | (exp, rs', None) => (Some (Regexp exp), rs', None)
        end
      else if r =? 36 then (Some End, rest, None)
      else if r =? 46 then (Some Dot, rest, None)
      else if IsSpace r && negb (r =? newline) then parseSimpleAddr rest
      else (None, rs, None)
  end.

(** [func parseCompoundAddr(rs []rune) (Address, []rune, error)], with the
    loop variable [a1] as an argument.  Each unit of fuel is one pass of
    the loop or one call; [None] is the parser still running, or the
    [addAddr] with a nil operand that the first case would build if
    [parseSimpleAddr] returned nil without an error for a rune of
    [simpleFirst], which it does not. *)
Fixpoint parseCompoundAddr_from (fuel : nat) (a1 : option Address)
    (rs : list rune) : option (parsed Address) :=
  match fuel with
  | O => None
  | S fuel =>
      match rs with
      | [] => Some (a1, rs, None)
      | r :: rest =>
          if is_simpleFirst r then
            match parseSimpleAddr rs with
            | (_, rs', Some err) => Some (None, rs', Some err)
            | (Some a2, rs', None) =>
                match a1 with
                | Some a => parseCompoundAddr_from fuel (Some (Plus a a2)) rs'
                | None => parseCompoundAddr_from fuel (Some (Simple a2)) rs'
                end
            | (None, rs', None) =>
                match a1 with
                | Some a => None
                | None => parseCompoundAddr_from fuel None rs'
                end
            end
          else if (r =? 43) || (r =? 45) then
            let a1 := match a1 with Some a => a | None => Simple Dot end in
            match parseSimpleAddr rest with
            | (_, rs', Some err) => Some (None, rs', Some err)
            | (a2, rs', None) =>
                let a2 := match a2 with Some a => a | None => Line 1 end in
                parseCompoundAddr_from fuel
                  (Some (if r =? 43 then Plus a1 a2 else Minus a1 a2)) rs'
            end
          else if (r =? 44) || (r =? 59) then
            let a1 := match a1 with Some a => a | None => Simple (Line 0) end in
            match parseCompoundAddr_from fuel None rest with
            | None => None
            | Some (_, rs', Some err) => Some (None, rs', Some err)
            | Some (a2, rs', None) =>
                let a2 := match a2 with Some a => a | None => Simple End end in
                parseCompoundAddr_from fuel
                  (Some (if r =? 44 then To a1 a2 else Then a1 a2)) rs'
            end
          else if IsSpace r && negb (r =? newline) then
            parseCompoundAddr_from fuel a1 rest
          else Some (a1, rs, None)
      end
  end.

Definition parseCompoundAddr (fuel : nat) (rs : list rune) : option (parsed Address) :=
  parseCompoundAddr_from fuel None rs.

(** [func Addr(rs []rune) (Address, []rune, error)] *)
Definition Addr (fuel : nat) (rs : list rune) : option (parsed Address) :=
  match parseCompoundAddr fuel rs with
  | None => None
  | Some (a, rs, err) =>
      Some (a, match rs with r :: rest => if r =? newline then rest else rs
                        | [] => rs end, err)
  end.

(** ** Package [re1]: the automaton *)

Definition eof : rune := -1.

(** The implementations of [label]. *)
Inductive label : Type :=
  | dotLabel
  | runeLabel (r : rune)
  | bolLabel
  | eolLabel
  | classLabel (runes : list rune) (ranges : list (rune * rune)) (neg : bool).

(** The [ok(prev, cur rune) bool] methods. *)
Definition label_ok (l : label) (p c : rune) : bool :=
  match l with
  | dotLabel => negb (c =? newline) && negb (c =? eof)
  | runeLabel r => c =? r
  | bolLabel => (p =? eof) || (p =? newline)
  | eolLabel => (c =? eof) || (c =? newline)
  | classLabel runes ranges neg =>
      if c =? eof then false
      else if existsb (fun r => c =? r) runes then negb neg
      else if existsb (fun r => (fst r <=? c) && (c <=? snd r)) ranges
           then negb neg
      else neg
  end.

(** The [epsilon() bool] methods. *)
Definition label_epsilon (l : label) : bool :=
  match l with
  | bolLabel | eolLabel => true
  | _ => false
  end.

(** [type edge struct { label label; to *node }]; a [*node] is an index
    into the nodes of the expression, [None] is nil. *)
Record edge : Type := mkEdge { e_label : option label; e_to : option nat }.

Definition edge_epsilon (e : edge) : bool :=
  match e_label e with None => true | Some l => label_epsilon l end.

Definition edge_ok (e : edge) (p c : rune) : bool :=
  match e_label e with None => false | Some l => label_ok l p c end.

(** [type node struct { n int; out [2]edge; sub int }] *)
Record node : Type := mkNode { nd_n : Z; out0 : edge; out1 : edge; sub : Z }.

Definition node_zero : node := mkNode 0 (mkEdge None None) (mkEdge None None) 0.

(** The two implementations of [re1.Runes] in package [edit], [forward]
    and [reverse], over the runes of a buffer: [Rune] records the first
    error in [err] and returns -1 from then on. *)
Record Runes : Type :=
  mkRunes { rs_buf : RuneBuffer; rs_rev : bool; rs_err : option error }.

Definition Runes_Size (rs : Runes) : Z := rb_Size (rs_buf rs).

(** [func (rs *forward) Rune(i int64) rune] *)
Definition forward_Rune (rs : Runes) (i : Z) : Runes * rune :=
  match rs_err rs with
  | Some _ => (rs, -1)
  | None =>
      match rb_Rune (rs_buf rs) i with
      | Ok r => (rs, r)
      | Err e => (mkRunes (rs_buf rs) (rs_rev rs) (Some e), -1)
      | Panic => (rs, -1)
      end
  end.

(** [Rune] of the view: [func (rs *reverse) Rune(i int64) rune] is
    [rs.forward.Rune(rs.Size() - i - 1)]. *)
Definition Runes_Rune (rs : Runes) (i : Z) : Runes * rune :=
  if rs_rev rs then forward_Rune rs (wrap64 (wrap64 (Runes_Size rs - i) - 1))
  else forward_Rune rs i.

(** [type state struct { n *node; es [][2]int64 }] *)
Record state : Type := mkState { st_n : option nat; st_es : list (Z * Z) }.

(** [type mach struct]: the machine, without its pointer to the
    expression, which the functions take as an argument. *)
Record mach : Type :=
  mkMach { m_rs : Runes; m_at : Z; m_es : option (list (Z * Z));
           m_l0 : option label;
           m_open : list state; m_closed : list state;
           m_seen : list bool; m_s : state }.

(** [type Regexp struct]: the nodes it points to are [re_nodes]. *)
Record re1_Regexp : Type :=
  mkRegexp { re_expr : list rune; re_start : option nat; re_end : option nat;
             re_n : Z; re_nsub : Z;
             re_nodes : list node; re_ms : list mach }.

(** What a computation of the automaton comes to: it does not return
    errors, but an index out of range or a nil pointer makes it panic. *)
Inductive run (A : Type) : Type :=
  | Done (a : A)
  | Panicked.
Arguments Done {A} a.
Arguments Panicked {A}.

Global Instance run_bind : MBind run := fun A B k r =>
  match r with Done a => k a | Panicked => Panicked end.
Global Instance run_ret : MRet run := fun A a => Done a.

(** Indexing, with Go's run-time checks. *)
Definition idx {A : Type} (l : list A) (i : nat) : run A :=
  match l !! i with Some x => Done x | None => Panicked end.

Definition idxZ {A : Type} (l : list A) (i : Z) : run A :=
  if i <? 0 then Panicked else idx l (Z.to_nat i).

Definition upd {A : Type} (l : list A) (i : nat) (x : A) : run (list A) :=
  if (i <? length l)%nat then Done (<[i := x]> l) else Panicked.

Definition updZ {A : Type} (l : list A) (i : Z) (x : A) : run (list A) :=
  if i <? 0 then Panicked else upd l (Z.to_nat i) x.

(** [*p] for a [*node]. *)
Definition deref (nodes : list node) (p : option nat) : run node :=
  match p with None => Panicked | Some i => idx nodes i end.

(** [copy(dst, src)]: the destination afterwards. *)
Definition copy {A : Type} (dst src : list A) : list A :=
  take (length dst) src ++ drop (length src) dst.

Definition ptr_eqb (p q : option nat) : bool :=
  match p, q with
  | None, None => true
  | Some i, Some j => Nat.eqb i j
  | _, _ => false
  end.

Definition set_rs (rs : Runes) (m : mach) : mach :=
  mkMach rs (m_at m) (m_es m) (m_l0 m) (m_open m) (m_closed m) (m_seen m) (m_s m).
Definition set_at (at_ : Z) (m : mach) : mach :=
  mkMach (m_rs m) at_ (m_es m) (m_l0 m) (m_open m) (m_closed m) (m_seen m) (m_s m).
Definition set_es (es : option (list (Z * Z))) (m : mach) : mach :=
  mkMach (m_rs m) (m_at m) es (m_l0 m) (m_open m) (m_closed m) (m_seen m) (m_s m).
Definition set_open (l : list state) (m : mach) : mach :=
  mkMach (m_rs m) (m_at m) (m_es m) (m_l0 m) l (m_closed m) (m_seen m) (m_s m).
Definition set_closed (l : list state) (m : mach) : mach :=
  mkMach (m_rs m) (m_at m) (m_es m) (m_l0 m) (m_open m) l (m_seen m) (m_s m).
Definition set_seen (l : list bool) (m : mach) : mach :=
  mkMach (m_rs m) (m_at m) (m_es m) (m_l0 m) (m_open m) (m_closed m) l (m_s m).
Definition set_s (s : state) (m : mach) : mach :=
  mkMach (m_rs m) (m_at m) (m_es m) (m_l0 m) (m_open m) (m_closed m) (m_seen m) s.

(** [func (m *mach) runes() (p, c rune)] *)
Definition mach_runes (m : mach) : mach * (rune * rune) :=
  let (rs, p) :=
    if (0 <? m_at m) && (wrap64 (m_at m - 1) <? Runes_Size (m_rs m))
    then Runes_Rune (m_rs m) (wrap64 (m_at m - 1))
    else (m_rs m, eof) in
  let (rs, c) :=
    if m_at m <? Runes_Size rs then Runes_Rune rs (m_at m) else (rs, eof) in
  (set_rs rs m, (p, c)).

(** [m.open[k].n = to; copy(m.open[k].es, es)] on a list of states. *)
Definition put_state (l : list state) (k : nat) (to_ : option nat)
    (es : list (Z * Z)) : run (list state) :=
  o ← idx l k;
  upd l k (mkState to_ (copy (st_es o) es)).

(** [m.seen[p.n]] and [m.seen[p.n] = true] for a non-nil [p]. *)
Definition seen_get (re : re1_Regexp) (m : mach) (p : option nat) : run bool :=
  nd ← deref (re_nodes re) p;
  idxZ (m_seen m) (nd_n nd).

Definition seen_set (re : re1_Regexp) (m : mach) (p : option nat) : run mach :=
  nd ← deref (re_nodes re) p;
  seen ← updZ (m_seen m) (nd_n nd) true;
  Done (set_seen seen m).

(** The first loops of [εclose] and [advance]. *)
Definition clear_seen (m : mach) : mach :=
  set_seen (map (fun _ => false) (m_seen m)) m.

Fixpoint mark_open (re : re1_Regexp) (m : mach) (i : nat) (k : nat) : run mach :=
  match k with
  | O => Done m
  | S k =>
      o ← idx (m_open m) i;
      m ← seen_set re m (st_n o);
      mark_open re m (S i) k
  end.

(** One pass of [for _, e := range s.n.out] in [εclose]. *)
Definition eclose_edge (re : re1_Regexp) (p c : rune) (e : edge)
    (acc : mach * nat * bool) : run (mach * nat * bool) :=
  let '(m, nopen, adv) := acc in
  let adv := adv || (match e_to e with Some _ => true | None => false end
                     && negb (edge_epsilon e)) in
  match e_to e with
  | None => Done (m, nopen, adv)
  | Some _ =>
      if negb (edge_epsilon e) then Done (m, nopen, adv)
      else
        sn ← seen_get re m (e_to e);
        if (sn : bool) then Done (m, nopen, adv)
        else
          m ← seen_set re m (e_to e);
          if match e_label e with None => true | Some _ => false end
             || edge_ok e p c
          then
            open ← put_state (m_open m) nopen (e_to e) (st_es (m_s m));
            Done (set_open open m, S nopen, adv)
          else Done (m, nopen, adv)
  end.

(** [s.es[k][0] = at] and [s.es[k][1] = at]. *)
Definition set_fst (es : list (Z * Z)) (k at_ : Z) : run (list (Z * Z)) :=
  e ← idxZ es k; updZ es k (at_, snd e).
Definition set_snd (es : list (Z * Z)) (k at_ : Z) : run (list (Z * Z)) :=
  e ← idxZ es k; updZ es k (fst e, at_).

(** The zeroed [make([][2]int64, n)]. *)
Definition make_es (n : Z) : run (list (Z * Z)) :=
  if n <? 0 then Panicked else Done (replicate (Z.to_nat n) (0, 0)).

(** One pass of the loop [for nopen > 0] of [εclose], entered with
    [nopen = S k]. *)
Definition eclose_body (re : re1_Regexp) (p c : rune) (m : mach)
    (k nclosed : nat) : run (mach * nat * nat) :=
  o ← idx (m_open m) k;
  let s := mkState (st_n o) (copy (st_es (m_s m)) (st_es o)) in
  nd ← deref (re_nodes re) (st_n s);
  es ← (if 0 <? sub nd then set_fst (st_es s) (wrap64 (sub nd - 1)) (m_at m)
        else if sub nd <? 0
             then set_snd (st_es s) (wrap64 (wrap64 (- sub nd) - 1)) (m_at m)
        else Done (st_es s));
  let s := mkState (st_n s) es in
  let m := set_s s m in
  is_match ← (if ptr_eqb (st_n s) (re_end re)
              then e0 ← idx es 0; Done (fst e0 <=? snd e0)
              else Done false);
  if (is_match : bool) then
    mes ← (match m_es m with
            | None => make_es (re_nsub re)
            | Some mes => Done mes
            end);
    Done (set_es (Some (copy mes es)) m, k, nclosed)
  else
    r0 ← eclose_edge re p c (out0 nd) (m, k, false);
    r1 ← eclose_edge re p c (out1 nd) r0;
    let '(m, nopen, adv) := r1 in
    if (adv : bool) then
      closed ← put_state (m_closed m) nclosed (st_n s) es;
      Done (set_closed closed m, nopen, S nclosed)
    else Done (m, nopen, nclosed).

(** The loop [for nopen > 0] of [εclose].  Each unit of fuel is one test
    of the loop condition; [None] is the loop still running. *)
Fixpoint eclose_loop (fuel : nat) (re : re1_Regexp) (p c : rune) (m : mach)
    (nopen nclosed : nat) : option (run (mach * nat)) :=
  match fuel with
  | O => None
  | S fuel =>
      match nopen with
      | O => Some (Done (m, nclosed))
      | S k =>
          match eclose_body re p c m k nclosed with
          | Done (m, nopen, nclosed) => eclose_loop fuel re p c m nopen nclosed
          | Panicked => Some Panicked
          end
      end
  end.

(** [func (m *mach) εclose(p, c rune, nopen int) int] *)
Definition eclose (fuel : nat) (re : re1_Regexp) (p c : rune) (m : mach)
    (nopen : nat) : option (run (mach * nat)) :=
  match mark_open re (clear_seen m) 0 nopen with
  | Done m => eclose_loop fuel re p c m nopen 0
  | Panicked => Some Panicked
  end.

(** One pass of [for _, e := range s.n.out] in [advance], for the closed
    state with submatches [es]. *)
Definition advance_edge (re : re1_Regexp) (p c : rune) (es : list (Z * Z))
    (e : edge) (acc : mach * nat) : run (mach * nat) :=
  let (m, nopen) := acc in
  match e_to e with
  | None => Done (m, nopen)
  | Some _ =>
      sn ← seen_get re m (e_to e);
      if negb sn && negb (edge_epsilon e) && edge_ok e p c then
        m ← seen_set re m (e_to e);
        open ← put_state (m_open m) nopen (e_to e) es;
        Done (set_open open m, S nopen)
      else Done (m, nopen)
  end.

(** The loop [for i := 0; i < nclosed; i++] of [advance], from [i] for
    [k] passes. *)
Fixpoint advance_loop (re : re1_Regexp) (p c : rune) (m : mach)
    (i k nopen : nat) : run (mach * nat) :=
  match k with
  | O => Done (m, nopen)
  | S k =>
      s ← idx (m_closed m) i;
      nd ← deref (re_nodes re) (st_n s);
      r0 ← advance_edge re p c (st_es s) (out0 nd) (m, nopen);
      r1 ← advance_edge re p c (st_es s) (out1 nd) r0;
      advance_loop re p c (fst r1) (S i) k (snd r1)
  end.

(** [func (m *mach) advance(p, c rune, nclosed int) int] *)
Definition advance (re : re1_Regexp) (p c : rune) (m : mach) (nclosed : nat)
  : run (mach * nat) :=
  advance_loop re p c (clear_seen m) 0 nclosed 0.

(** The loop of [match()].  Each unit of [fuel] is one pass; every call
    of [εclose] has [efuel] for its own loop. *)
Fixpoint match_loop (efuel fuel : nat) (re : re1_Regexp) (m : mach) (p c : rune)
    (nopen : nat) : option (run (mach * option (list (Z * Z)))) :=
  match fuel with
  | O => None
  | S fuel =>
      match eclose efuel re p c m nopen with
      | None => None
      | Some Panicked => Some Panicked
      | Some (Done (m, O)) => Some (Done (m, m_es m))
      | Some (Done (m, nclosed)) =>
          match advance re p c m nclosed with
          | Panicked => Some Panicked
          | Done (m, nopen) =>
              let m := set_at (wrap64 (m_at m + 1)) m in
              let (m, pc) := mach_runes m in
              match_loop efuel fuel re m (fst pc) (snd pc) nopen
          end
      end
  end.

(** [func (m *mach) match() [][2]int64] *)
Definition mach_match (fuel : nat) (re : re1_Regexp) (m : mach)
  : option (run (mach * option (list (Z * Z)))) :=
  let (m, pc) := mach_runes m in
  let (p, c) := pc in
  if match m_l0 m with Some l => negb (label_ok l p c) | None => false end
  then Some (Done (m, None))
  else
    match (o ← idx (m_open m) 0; upd (m_open m) 0 (mkState (re_start re) (st_es o))) with
    | Panicked => Some Panicked
    | Done open => match_loop fuel fuel re (set_open open m) p c 1
    end.

(** [func newMach(re *Regexp) *mach] *)
Definition newMach (re : re1_Regexp) : run mach :=
  if (re_n re <? 0) || (re_nsub re <? 0) then Panicked
  else
    let n := Z.to_nat (re_n re) in
    let es := replicate (Z.to_nat (re_nsub re)) (0, 0) in
    start ← deref (re_nodes re) (re_start re);
    s0 ← deref (re_nodes re) (e_to (out0 start));
    let l0 :=
      if match e_to (out1 s0) with None => true | Some _ => false end
         && negb (edge_epsilon (out0 s0))
      then e_label (out0 s0) else None in
    Done (mkMach (mkRunes [] false None) 0 None l0
               (replicate n (mkState None es)) (replicate n (mkState None es))
               (replicate n false) (mkState None es)).

Definition set_ms (ms : list mach) (re : re1_Regexp) : re1_Regexp :=
  mkRegexp (re_expr re) (re_start re) (re_end re) (re_n re) (re_nsub re)
           (re_nodes re) ms.

(** [func (re *Regexp) get(rs Runes) *mach] *)
Definition Regexp_get (re : re1_Regexp) (rs : Runes) : run (re1_Regexp * mach) :=
  match last (re_ms re) with
  | Some m => Done (set_ms (removelast (re_ms re)) re, set_rs rs m)
  | None => m ← newMach re; Done (re, set_rs rs m)
  end.

Definition nCache : nat := 2.

(** [func (re *Regexp) put(m *mach)] *)
Definition Regexp_put (re : re1_Regexp) (m : mach) : re1_Regexp :=
  let m := set_es None m in
  if (length (re_ms re) <? nCache)%nat then set_ms (re_ms re ++ [m]) re else re.

(** The two loops of [Match], from [i]: [wrapped] is false in the first
    loop, which runs while [i <= rs.Size()], and true in the second, which
    runs while [i < from].  Each unit of [fuel] is one test of a loop
    condition; every call of [match()] has [mfuel]. *)
Fixpoint Match_loop (mfuel fuel : nat) (re : re1_Regexp) (from_ : Z)
    (wrapped : bool) (m : mach) (i : Z)
  : option (run (mach * option (list (Z * Z)))) :=
  match fuel with
  | O => None
  | S fuel =>
      if if wrapped then i <? from_ else i <=? Runes_Size (m_rs m) then
        match mach_match mfuel re (set_at i m) with
        | None => None
        | Some Panicked => Some Panicked
        | Some (Done (m, Some es)) => Some (Done (m, Some es))
        | Some (Done (m, None)) =>
            Match_loop mfuel fuel re from_ wrapped m (wrap64 (i + 1))
        end
      else if wrapped then Some (Done (m, None))
      else Match_loop mfuel fuel re from_ true m 0
  end.

(** [func (re *Regexp) Match(rs Runes, from int64) [][2]int64]: the
    expression with its cache of machines, the view as the machine leaves
    it, and the match or nil.  The deferred [put] also runs on a panic. *)
Definition Regexp_Match (fuel : nat) (re : re1_Regexp) (rs : Runes) (from_ : Z)
  : option (run (re1_Regexp * Runes * option (list (Z * Z)))) :=
  match Regexp_get re rs with
  | Panicked => Some Panicked
  | Done (re, m) =>
      match Match_loop fuel fuel re from_ false m from_ with
      | None => None
      | Some Panicked => Some Panicked
      | Some (Done (m, es)) => Some (Done (Regexp_put re m, m_rs m, es))
      end
  end.

(** ** Package [re1]: the compiler *)

(** [type token rune] with the meta tokens of the [const] block. *)
Definition tok_or : Z := -3.
Definition tok_dot : Z := -4.
Definition tok_star : Z := -5.
Definition tok_plus : Z := -6.
Definition tok_question : Z := -7.
Definition tok_dollar : Z := -8.
Definition tok_carrot : Z := -9.
Definition tok_oparen : Z := -10.
Definition tok_cparen : Z := -11.
Definition tok_obrace : Z := -12.
Definition tok_cbrace : Z := -13.

(** [type parser struct] *)
Record parser : Type :=
  mkParser { p_rs : list rune; p_prev : Z; p_pos : Z; p_nsub : Z;
             p_delim : rune; p_reverse : bool; p_literal : bool }.

Definition set_pos (pos : Z) (p : parser) : parser :=
  mkParser (p_rs p) (p_prev p) pos (p_nsub p) (p_delim p) (p_reverse p) (p_literal p).
Definition set_prev (prev : Z) (p : parser) : parser :=
  mkParser (p_rs p) prev (p_pos p) (p_nsub p) (p_delim p) (p_reverse p) (p_literal p).
Definition set_nsub (n : Z) (p : parser) : parser :=
  mkParser (p_rs p) (p_prev p) (p_pos p) n (p_delim p) (p_reverse p) (p_literal p).

(** The parsing functions work on the parser and on the nodes allocated so
    far.  A [ParseError] panic, which [Compile] recovers, is [Err (ErrParse
    pos)]; any other panic is [Panic]; [None] is a function still
    running when its fuel is used up. *)
Definition PM (A : Type) : Type :=
  parser * list node -> option (res (A * (parser * list node))).

Definition pm_ret {A : Type} (a : A) : PM A := fun st => Some (Ok (a, st)).

Definition pm_bind {A B : Type} (m : PM A) (k : A -> PM B) : PM B :=
  fun st =>
    match m st with
    | None => None
    | Some (Err e) => Some (Err e)
    | Some Panic => Some Panic
    | Some (Ok (a, st)) => k a st
    end.

Global Instance PM_ret : MRet PM := @pm_ret.
Global Instance PM_bind : MBind PM := fun A B k m => pm_bind m k.

Definition pm_lift {A : Type} (r : run A) : PM A :=
  fun st => Some (match r with
                  | Done a => Ok (a, st)
                  | Panicked => Panic
                  end).
Definition pm_error {A : Type} (pos : Z) : PM A := fun _ => Some (Err (ErrParse pos)).
Definition pm_panic {A : Type} : PM A := fun _ => Some Panic.
Definition pm_stuck {A : Type} : PM A := fun _ => None.
Definition get_parser : PM parser := fun st => Some (Ok (fst st, st)).
Definition put_parser (p : parser) : PM unit := fun st => Some (Ok (tt, (p, snd st))).
Definition get_nodes : PM (list node) := fun st => Some (Ok (snd st, st)).
Definition put_nodes (h : list node) : PM unit := fun st => Some (Ok (tt, (fst st, h))).

(** [new(node)] *)
Definition new_node : PM (option nat) :=
  h ← get_nodes;
  put_nodes (h ++ [node_zero]);;
  mret (Some (length h)).

(** [n.out[k].to = to], [n.out[0].label = l], [n.sub = v], [n.n = v] for
    the node at [n]. *)
Definition modify_node (n : option nat) (f : node -> node) : PM unit :=
  h ← get_nodes;
  nd ← pm_lift (deref h n);
  match n with
  | Some i => put_nodes (<[i := f nd]> h)
  | None => pm_panic
  end.

Definition set_to0 (n to_ : option nat) : PM unit :=
  modify_node n (fun nd => mkNode (nd_n nd) (mkEdge (e_label (out0 nd)) to_)
                                  (out1 nd) (sub nd)).
Definition set_to1 (n to_ : option nat) : PM unit :=
  modify_node n (fun nd => mkNode (nd_n nd) (out0 nd)
                                  (mkEdge (e_label (out1 nd)) to_) (sub nd)).
Definition set_label0 (n : option nat) (l : label) : PM unit :=
  modify_node n (fun nd => mkNode (nd_n nd) (mkEdge (Some l) (e_to (out0 nd)))
                                  (out1 nd) (sub nd)).
Definition set_sub (n : option nat) (v : Z) : PM unit :=
  modify_node n (fun nd => mkNode (nd_n nd) (out0 nd) (out1 nd) v).
Definition set_n (n : option nat) (v : Z) : PM unit :=
  modify_node n (fun nd => mkNode v (out0 nd) (out1 nd) (sub nd)).

(** A [*Regexp] while parsing: its [start] and [end]. *)
Definition frag : Type := option nat * option nat.

(** [p.rs[i]] *)
Definition rs_at (p : parser) (i : Z) : PM rune := pm_lift (idxZ (p_rs p) i).

(** [func (p *parser) eof() bool] *)
Definition parser_eof : PM bool :=
  p ← get_parser;
  if p_pos p =? Zlength (p_rs p) then mret true
  else r ← rs_at p (p_pos p); mret (r =? p_delim p).

(** [func (p *parser) back()] *)
Definition parser_back : PM unit :=
  p ← get_parser; put_parser (set_pos (p_prev p) p).

(** The token of a rune that is not escaped. *)
Definition meta_token (r : rune) : Z :=
  if r =? 46 then tok_dot
  else if r =? 42 then tok_star
  else if r =? 43 then tok_plus
  else if r =? 63 then tok_question
  else if r =? 91 then tok_obrace
  else if r =? 93 then tok_cbrace
  else if r =? 40 then tok_oparen
  else if r =? 41 then tok_cparen
  else if r =? 124 then tok_or
  else if r =? 36 then tok_dollar
  else if r =? 94 then tok_carrot
  else r.

(** [func (p *parser) next() (t token)] *)
Definition parser_next : PM Z :=
  e ← parser_eof;
  if (e : bool) then mret eof
  else
    p ← get_parser;
    let p := set_pos (wrap64 (p_pos p + 1)) (set_prev (p_pos p) p) in
    put_parser p;;
    r ← rs_at p (wrap64 (p_pos p - 1));
    if p_literal p then mret r
    else if r =? 92 then
      if p_pos p =? Zlength (p_rs p) then mret 92
      else
        r' ← rs_at p (p_pos p);
        put_parser (set_pos (wrap64 (p_pos p + 1)) p);;
        mret (if r' =? 110 then newline else r')
    else mret (meta_token r).

(** [func (p *parser) peek() token] *)
Definition parser_peek : PM Z :=
  e ← parser_eof;
  if (e : bool) then mret eof
  else t ← parser_next; parser_back;; mret t.

(** [func subexpr(e *Regexp, n int) *Regexp] *)
Definition subexpr (e : option frag) (n : Z) : PM frag :=
  start ← new_node;
  end_ ← new_node;
  match e with
  | None => pm_panic
  | Some (e_start, e_end) =>
      set_to0 start e_start;;
      set_to0 e_end end_;;
      set_sub start (wrap64 (n + 1));;
      set_sub end_ (wrap64 (wrap64 (- n) - 1));;
      mret (start, end_)
  end.

(** The loop of [charClass]; [p0] is the position of the bracket. *)
Fixpoint charClass_loop (fuel : nat) (p0 : Z) (runes : list rune)
    (ranges : list (rune * rune)) (neg : bool) : PM label :=
  match fuel with
  | O => pm_stuck
  | S fuel =>
      p ← get_parser;
      let len := Zlength (p_rs p) in
      r ← (if p_pos p <? len
           then r ← rs_at p (p_pos p);
                put_parser (set_pos (wrap64 (p_pos p + 1)) p);; mret r
           else mret eof);
      p ← get_parser;
      if r =? 93 then
        if (match runes with [] => true | _ => false end)
           && (match ranges with [] => true | _ => false end)
        then pm_error p0
        else mret (classLabel (if neg then runes ++ [newline] else runes)
                              ranges neg)
      else if (r =? eof) || (r =? p_delim p) then pm_error p0
      else if r =? 45 then pm_error (wrap64 (p_pos p - 1))
      else
        r ← (if (r =? 92) && (p_pos p <? len)
             then r' ← rs_at p (p_pos p);
                  put_parser (set_pos (wrap64 (p_pos p + 1)) p);; mret r'
             else mret r);
        p ← get_parser;
        dash ← (if len <=? p_pos p then mret false
                else r' ← rs_at p (p_pos p); mret (r' =? 45));
        if negb dash then charClass_loop fuel p0 (runes ++ [r]) ranges neg
        else
          let p := set_pos (wrap64 (p_pos p + 1)) p in
          put_parser p;;
          if len <=? p_pos p then pm_error (wrap64 (p_pos p - 1))
          else
            u ← rs_at p (p_pos p);
            if u <=? r then pm_error (p_pos p)
            else
              put_parser (set_pos (wrap64 (p_pos p + 1)) p);;
              charClass_loop fuel p0 runes (ranges ++ [(r, u)]) neg
  end.

(** [func charClass(p *parser) label] *)
Definition charClass (fuel : nat) : PM label :=
  p ← get_parser;
  let p0 := wrap64 (p_pos p - 1) in
  neg ← (if p_pos p <? Zlength (p_rs p)
         then r ← rs_at p (p_pos p);
              if r =? 94
              then put_parser (set_pos (wrap64 (p_pos p + 1)) p);; mret true
              else mret false
         else mret false);
  charClass_loop fuel p0 [] [] neg.

(** [func e2p(l *Regexp, p *parser) *Regexp].  Each unit of fuel is one
    call. *)
Fixpoint e2p (fuel : nat) (l : frag) : PM (option frag) :=
  match fuel with
  | O => pm_stuck
  | S fuel =>
      let (l_start, l_end) := l in
      start ← new_node;
      end_ ← new_node;
      t ← parser_next;
      if (t =? tok_star) || (t =? tok_plus) then
        (if t =? tok_star then set_to1 start l_end else mret tt);;
        set_to0 start l_start;;
        set_to0 l_end l_start;;
        set_to1 l_end end_;;
        e2p fuel (start, end_)
      else if t =? tok_question then
        set_to0 start l_start;;
        set_to1 start l_end;;
        e2p fuel (start, l_end)
      else if t =? eof then mret (Some l)
      else parser_back;; mret (Some l)
  end.

(** [func e0], [func e1], [func e2] and [func e3].  Each unit of fuel is
    one call. *)
Fixpoint e0 (fuel : nat) : PM (option frag) :=
  match fuel with
  | O => pm_stuck
  | S fuel =>
      l ← e1 fuel;
      match l with
      | None => mret None
      | Some (l_start, l_end) =>
          t ← parser_peek;
          if negb (t =? tok_or) then mret l
          else
            parser_next;;
            e ← parser_eof;
            if (e : bool) then p ← get_parser; pm_error (wrap64 (p_pos p - 1))
            else
              r ← e0 fuel;
              start ← new_node;
              end_ ← new_node;
              match r with
              | None => set_to0 start l_start;; pm_panic
              | Some (r_start, r_end) =>
                  set_to0 start l_start;;
                  set_to1 start r_start;;
                  set_to0 l_end end_;;
                  set_to0 r_end end_;;
                  mret (Some (start, end_))
              end
      end
  end
with e1 (fuel : nat) : PM (option frag) :=
  match fuel with
  | O => pm_stuck
  | S fuel =>
      l ← e2 fuel;
      match l with
      | None => mret None
      | Some _ =>
          e ← parser_eof;
          if (e : bool) then mret l
          else
            r ← e1 fuel;
            match r with
            | None => mret l
            | Some _ =>
                p ← get_parser;
                let (l', r') := if p_reverse p then (r, l) else (l, r) in
                match l', r' with
                | Some (l_start, l_end), Some (r_start, r_end) =>
                    new_node;;
                    set_to0 l_end r_start;;
                    mret (Some (l_start, r_end))
                | _, _ => pm_panic
                end
            end
      end
  end
with e2 (fuel : nat) : PM (option frag) :=
  match fuel with
  | O => pm_stuck
  | S fuel =>
      l ← e3 fuel;
      e ← parser_eof;
      match l with
      | None => mret None
      | Some l' => if (e : bool) then mret l else e2p fuel l'
      end
  end
with e3 (fuel : nat) : PM (option frag) :=
  match fuel with
  | O => pm_stuck
  | S fuel =>
      start ← new_node;
      end_ ← new_node;
      set_to0 start end_;;
      t ← parser_next;
      p ← get_parser;
      if t =? tok_oparen then
        let o := wrap64 (p_pos p - 1) in
        t' ← parser_peek;
        if t' =? tok_cparen then pm_error o
        else
          e ← e0 fuel;
          t'' ← parser_next;
          if negb (t'' =? tok_cparen) then pm_error o
          else
            p ← get_parser;
            re ← subexpr e (p_nsub p);
            p ← get_parser;
            put_parser (set_nsub (wrap64 (p_nsub p + 1)) p);;
            mret (Some re)
      else if t =? tok_obrace then
        l ← charClass fuel; set_label0 start l;; mret (Some (start, end_))
      else if t =? tok_dot then
        set_label0 start dotLabel;; mret (Some (start, end_))
      else if ((t =? tok_carrot) && negb (p_reverse p))
              || ((t =? tok_dollar) && p_reverse p) then
        set_label0 start bolLabel;; mret (Some (start, end_))
      else if ((t =? tok_carrot) && p_reverse p)
              || ((t =? tok_dollar) && negb (p_reverse p)) then
        set_label0 start eolLabel;; mret (Some (start, end_))
      else if t <? 0 then parser_back;; mret None
      else set_label0 start (runeLabel t);; mret (Some (start, end_))
  end.

(** [s, stk = stk[len(stk)-1], stk[:len(stk)-1]] *)
Definition pop_stack {A : Type} (stk : list A) : option (A * list A) :=
  match last stk with
  | Some s => Some (s, removelast stk)
  | None => None
  end.

(** One pass of [for _, e := range s.out] in [numberStates]. *)
Definition number_edge (start : option nat) (e : edge)
    (acc : list (option nat) * Z) : PM (list (option nat) * Z) :=
  let (stk, n) := acc in
  match e_to e with
  | None => mret acc
  | Some _ =>
      if ptr_eqb (e_to e) start then mret acc
      else
        h ← get_nodes;
        t ← pm_lift (deref h (e_to e));
        if 0 <? nd_n t then mret acc
        else set_n (e_to e) n;; mret (stk ++ [e_to e], wrap64 (n + 1))
  end.

(** The loop of [numberStates]: the stack and the next number [n]. *)
Fixpoint numberStates_loop (fuel : nat) (start : option nat)
    (stk : list (option nat)) (n : Z) : PM Z :=
  match fuel with
  | O => pm_stuck
  | S fuel =>
      match pop_stack stk with
      | None => mret n
      | Some (s, stk) =>
          h ← get_nodes;
          nd ← pm_lift (deref h s);
          r0 ← number_edge start (out0 nd) (stk, n);
          r1 ← number_edge start (out1 nd) r0;
          numberStates_loop fuel start (fst r1) (snd r1)
      end
  end.

(** [type Options struct { Delimited, Reverse, Literal bool }] *)
Record Options : Type :=
  mkOptions { Delimited : bool; Reverse : bool; Literal : bool }.

Definition set_delim (d : rune) (p : parser) : parser :=
  mkParser (p_rs p) (p_prev p) (p_pos p) (p_nsub p) d (p_reverse p) (p_literal p).

(** The body of [Compile]. *)
Definition Compile_body (fuel : nat) (opts : Options) : PM re1_Regexp :=
  p ← get_parser;
  (if Delimited opts
   then d ← rs_at p 0; put_parser (set_pos 1 (set_delim d p))
   else mret tt);;
  re ← e0 fuel;
  p ← get_parser;
  let n := p_pos p in
  re ← (match re with
        | Some f => mret f
        | None => start ← new_node; end_ ← new_node;
                  set_to0 start end_;; mret (start, end_)
        end);
  re ← subexpr (Some re) 0;
  p ← get_parser;
  let nsub := p_nsub p in
  t ← parser_peek;
  p ← get_parser;
  if (t =? tok_cparen) || (t =? tok_cbrace) then pm_error (p_pos p)
  else
    n ← (if Delimited opts && (n <? Zlength (p_rs p))
         then r ← rs_at p n; d ← rs_at p 0;
              if r =? d then mret (wrap64 (n + 1)) else pm_panic
         else mret n);
    states ← numberStates_loop fuel (fst re) [fst re] 1;
    h ← get_nodes;
    mret (mkRegexp (take (Z.to_nat n) (p_rs p)) (fst re) (snd re) states nsub h []).

(** [func Compile(rs []rune, opts Options) (re *Regexp, err error)] *)
Definition Compile (fuel : nat) (rs : list rune) (opts : Options)
  : option (res re1_Regexp) :=
  match Compile_body fuel opts
          (mkParser rs 0 0 1 0 (Reverse opts) (Literal opts), []) with
  | None => None
  | Some (Ok (re, _)) => Some (Ok re)
  | Some (Err e) => Some (Err e)
  | Some Panic => Some Panic
  end.

(** ** Regular expression addresses *)

(** [func (r reAddr) whereFrom(from int64, ed *Editor) (a addr, err
    error)], on the runes of [ed.buf]. *)
Definition reAddr_whereFrom (fuel : nat) (rev : bool) (re : list rune)
    (from_ : Z) (b : RuneBuffer) : option (res addr) :=
  match Compile fuel re (mkOptions true rev false) with
  | None => None
  | Some (Err e) => Some (Err e)
  | Some Panic => Some Panic
  | Some (Ok cre) =>
      let rs := mkRunes b rev None in
      let from_ := if rev then wrap64 (Runes_Size rs - from_) else from_ in
      match Regexp_Match fuel cre rs from_ with
      | None => None
      | Some Panicked => Some Panic
      | Some (Done (_, rs, m)) =>
          match rs_err rs, m with
          | Some e, _ => Some (Err e)
          | None, None => Some (Err ErrNoMatch)
          | None, Some es =>
              match es with
              | [] => Some Panic
              | (m0, m1) :: _ =>
                  Some (Ok (if rev
                            then mkAddr (wrap64 (Runes_Size rs - m1))
                                        (wrap64 (Runes_Size rs - m0))
                            else mkAddr m0 m1))
              end
          end
      end
  end.

(** The nodes that [εclose] or [advance] can still mark. *)
Fixpoint unseen (l : list bool) : nat :=
  match l with
  | [] => 0
  | b :: l => (if b then 0 else 1) + unseen l
  end.

(** An expression as [Compile] builds it and [Match] leaves it: no edge
    is labelled with the rune -1, which stands for the end of the text,
    and the machines of its cache are those [newMach] made for it. *)
Definition edge_wf (e : edge) : Prop :=
  match e_label e with
  | Some (runeLabel r) => 0 <= r
  | _ => True
  end.

Definition node_wf (nd : node) : Prop := edge_wf (out0 nd) /\ edge_wf (out1 nd).

Definition mach_for (re : re1_Regexp) (m : mach) : Prop :=
  length (m_open m) = Z.to_nat (re_n re)
  /\ length (m_seen m) = Z.to_nat (re_n re)
  /\ m_es m = None.

Definition re_ok (re : re1_Regexp) : Prop :=
  Forall node_wf (re_nodes re) /\ Forall (mach_for re) (re_ms re).

(** Trying the start positions of a list in turn, the machine going from
    one try to the next, until [match()] returns a match. *)
Fixpoint try_positions (mfuel : nat) (re : re1_Regexp) (m : mach) (l : list Z)
  : option (run (mach * option (list (Z * Z)))) :=
  match l with
  | [] => Some (Done (m, None))
  | i :: l =>
      match mach_match mfuel re (set_at i m) with
      | Some (Done (m, None)) => try_positions mfuel re m l
      | r => r
      end
  end.

(** [lo, lo+1, ..., lo+k-1] *)
Fixpoint Zseq (lo : Z) (k : nat) : list Z :=
  match k with
  | O => []
  | S k => lo :: Zseq (lo + 1) k
  end.

(** The start positions in the order of the specification: [from, from+1,
    ..., size], then [0, 1, ..., from-1]. *)
Definition positions (from_ size_ : Z) : list Z :=
  Zseq from_ (Z.to_nat (size_ - from_ + 1)) ++ Zseq 0 (Z.to_nat from_).

(** What [εclose] and [advance] keep of the machine: the sizes of its
    arrays, the text and the position. *)
Definition keeps (m m' : mach) : Prop :=
  length (m_open m') = length (m_open m)
  /\ length (m_seen m') = length (m_seen m)
  /\ m_rs m' = m_rs m
  /\ m_at m' = m_at m.

(** What [match()] keeps: the sizes of the arrays and the text read. *)
Definition same_shape (m m' : mach) : Prop :=
  length (m_open m') = length (m_open m)
  /\ length (m_seen m') = length (m_seen m)
  /\ rs_buf (m_rs m') = rs_buf (m_rs m)
  /\ rs_rev (m_rs m') = rs_rev (m_rs m).

(** A machine whose loops have fuel [fuel], on a text of [size_] runes. *)
Definition fits (fuel : nat) (size_ : Z) (m : mach) : Prop :=
  (length (m_open m) + 2 * length (m_seen m) < fuel)%nat
  /\ Runes_Size (m_rs m) = size_.

(** [Match] as the specification describes it: on the machine that [get]
    hands out, try the start positions [from, ..., size, 0, ..., from-1]
    in this order and return the first match, or nil when none matches. *)
Definition Match_spec (fuel : nat) (re : re1_Regexp) (rs : Runes) (from_ : Z)
  : option (run (re1_Regexp * Runes * option (list (Z * Z)))) :=
  match Regexp_get re rs with
  | Panicked => Some Panicked
  | Done (re, m) =>
      match try_positions fuel re m (positions from_ (Runes_Size rs)) with
      | None => None
      | Some Panicked => Some Panicked
      | Some (Done (m, es)) => Some (Done (Regexp_put re m, m_rs m, es))
      end
  end.

(** A label that [Compile] may put on an edge. *)
Definition label_wf (l : label) : Prop :=
  match l with
  | runeLabel r => 0 <= r
  | _ => True
  end.

(** A parsing function whose results satisfy [Q]. *)
Definition pm_post {A : Type} (m : PM A) (Q : A -> Prop) : Prop :=
  forall st a st', m st = Some (Ok (a, st')) -> Q a.

(** A parsing function that keeps the nodes well-formed. *)
Definition pm_keeps_wf {A : Type} (m : PM A) : Prop :=
  forall p h a p' h',
    Forall node_wf h -> m (p, h) = Some (Ok (a, (p', h'))) -> Forall node_wf h'.

(** The invariant of a buffer's marks: every mark of every editor of
    [buf.eds] is a range within the buffer. *)
Definition marks_in (b : Buffer) : Prop :=
  forall ed e r a,
    ed ∈ eds b -> editors b !! ed = Some e -> marks e !! r = Some a ->
    range_in a (rb_Size (runes b)).

(** The runes of a text after the range [at_] is replaced by [src]. *)
Definition replaced (rs : list rune) (at_ : addr) (src : list rune) : list rune :=
  take (Z.to_nat (from at_)) rs ++ src ++ drop (Z.to_nat (to at_)) rs.

(** ** Package [runes]: readers *)

(** [const MinRead = bytes.MinRead] *)
Definition MinRead : nat := 512.

(** [type Reader interface { Read([]rune) (int, error) }].  A call
    [r.Read(p)] is given the reader and [len(p)]; it comes to the reader
    afterwards, the runes [p[:n]] for the count [n] it returns, and the
    error or nil. *)
Class Reader (S : Type) : Type :=
  Read : S -> nat -> run (S * list rune * option error).

(** [type SliceReader struct { rs []rune }] *)
Record SliceReader : Type := mkSliceReader { sr_rs : list rune }.

(** [func (r *SliceReader) Read(p []rune) (int, error)] *)
Definition SliceReader_Read (r : SliceReader) (p : nat)
  : run (SliceReader * list rune * option error) :=
  match sr_rs r with
  | [] => Done (r, [], Some ErrEOF)
  | _ => Done (mkSliceReader (drop p (sr_rs r)), take p (sr_rs r), None)
  end.

Global Instance SliceReader_Reader : Reader SliceReader := SliceReader_Read.

(** [func (r SliceReader) Size() int64] *)
Definition SliceReader_Size (r : SliceReader) : Z := Zlength (sr_rs r).

(** [type LimitedReader struct { Reader; N int64; n int64 }] *)
Record LimitedReader (S : Type) : Type :=
  mkLimitedReader { lr_Reader : S; lr_N : Z; lr_n : Z }.
Arguments mkLimitedReader {S} _ _ _.
Arguments lr_Reader {S} _.
Arguments lr_N {S} _.
Arguments lr_n {S} _.

(** [func (r *LimitedReader) Size() int64 { return r.N - r.n }] *)
Definition LimitedReader_Size {S : Type} (r : LimitedReader S) : Z :=
  wrap64 (lr_N r - lr_n r).

(** [func (r *LimitedReader) Read(p []rune) (int, error)]; the slice
    expression [p[:n]] panics for a negative [n]. *)
Definition LimitedReader_Read {S : Type} `{Reader S} (r : LimitedReader S) (p : nat)
  : run (LimitedReader S * list rune * option error) :=
  if lr_N r <=? lr_n r then Done (r, [], Some ErrEOF)
  else
    let n := Z.of_nat p in
    let n := if LimitedReader_Size r <? n then LimitedReader_Size r else n in
    if n <? 0 then Panicked
    else
      '(s, out, err) ← Read (lr_Reader r) (Z.to_nat n);
      Done (mkLimitedReader s (lr_N r) (wrap64 (lr_n r + Zlength out)), out, err).

Global Instance LimitedReader_Reader {S : Type} `{Reader S} : Reader (LimitedReader S) :=
  LimitedReader_Read.

(** The loop of [ReadAll].  Each unit of fuel is one pass; [None] is the
    loop still running. *)
Fixpoint ReadAll_loop {S : Type} `{Reader S} (fuel : nat) (r : S) (rs : list rune)
  : option (run (S * list rune * option error)) :=
  match fuel with
  | O => None
  | Datatypes.S fuel =>
      match Read r MinRead with
      | Panicked => Some Panicked
      | Done (r, out, err) =>
          let rs := rs ++ out in
          match err with
          | Some ErrEOF => Some (Done (r, rs, None))
          | Some e => Some (Done (r, rs, Some e))
          | None => ReadAll_loop fuel r rs
          end
      end
  end.

(** [func ReadAll(r Reader) ([]rune, error)], with the reader as it is
    left. *)
Definition ReadAll {S : Type} `{Reader S} (fuel : nat) (r : S)
  : option (run (S * list rune * option error)) :=
  ReadAll_loop fuel r [].

(** A reader that returns no more runes than the slice it is given
    holds, and does not panic. *)
Definition reads_within {S : Type} `{Reader S} : Prop :=
  forall (r : S) p, exists r' out err,
    Read r p = Done (r', out, err) /\ (length out <= p)%nat.

(** ** The line numbers of a range: [Editor.lines] *)

(** The first loop of [Editor.lines]: count the newlines before
    [at.from].  Each unit of fuel is one test of the loop condition. *)
Fixpoint lines_upto (fuel : nat) (b : RuneBuffer) (from_ : Z) (i l0 : Z)
  : option (res (Z * Z)) :=
  match fuel with
  | O => None
  | S fuel =>
      if i <? from_ then
        match rb_Rune b i with
        | Err e => Some (Err e)
        | Panic => Some Panic
        | Ok r =>
            lines_upto fuel b from_ (wrap64 (i + 1))
              (if r =? newline then wrap64 (l0 + 1) else l0)
        end
      else Some (Ok (i, l0))
  end.

(** The second loop: count the newlines of the range but the last rune. *)
Fixpoint lines_within (fuel : nat) (b : RuneBuffer) (to_ : Z) (i l1 : Z)
  : option (res Z) :=
  match fuel with
  | O => None
  | S fuel =>
      if i <? to_ then
        match rb_Rune b i with
        | Err e => Some (Err e)
        | Panic => Some Panic
        | Ok r =>
            lines_within fuel b to_ (wrap64 (i + 1))
              (if (r =? newline) && (i <? wrap64 (to_ - 1))
               then wrap64 (l1 + 1) else l1)
        end
      else Some (Ok l1)
  end.

(** [func (ed *Editor) lines(at addr) (l0, l1 int64, err error)], on the
    runes of [ed.buf]. *)
Definition Editor_lines (fuel : nat) (at_ : addr) (b : RuneBuffer)
  : option (res (Z * Z)) :=
  match lines_upto fuel b (from at_) 0 1 with
  | None => None
  | Some (Err e) => Some (Err e)
  | Some Panic => Some Panic
  | Some (Ok (i, l0)) =>
      match lines_within fuel b (to at_) i l0 with
      | None => None
      | Some (Err e) => Some (Err e)
      | Some Panic => Some Panic
      | Some (Ok l1) => Some (Ok (l0, l1))
      end
  end.

(** The number of newlines of a text. *)
Fixpoint count_newlines (rs : list rune) : Z :=
  match rs with
  | [] => 0
  | r :: rs => (if r =? newline then 1 else 0) + count_newlines rs
  end.

(** ** Evaluating addresses *)

(** The loop [for a.from > 0] of [lineAddr.rev], which it runs twice: move
    [a.from] back until the rune before it is a newline or the buffer
    starts.  Each unit of fuel is one test of the loop condition. *)
Fixpoint rev_to_line_start (fuel : nat) (b : RuneBuffer) (f : Z) : option (res Z) :=
  match fuel with
  | O => None
  | S fuel =>
      if 0 <? f then
        match rb_Rune b (wrap64 (f - 1)) with
        | Err e => Some (Err e)
        | Panic => Some Panic
        | Ok r => if r =? newline then Some (Ok f)
                  else rev_to_line_start fuel b (wrap64 (f - 1))
        end
      else Some (Ok f)
  end.

(** The loop [for l.n > 0 && a.from > 0] of [lineAddr.rev], on [l.n] and
    [a]. *)
Fixpoint rev_lines (fuel : nat) (b : RuneBuffer) (n : Z) (a : addr)
  : option (res (Z * addr)) :=
  match fuel with
  | O => None
  | S fuel =>
      if (0 <? n) && (0 <? from a) then
        match rb_Rune b (wrap64 (from a - 1)) with
        | Err e => Some (Err e)
        | Panic => Some Panic
        | Ok r =>
            let a := mkAddr (wrap64 (from a - 1)) (to a) in
            if r =? newline then
              rev_lines fuel b (wrap64 (n - 1)) (mkAddr (from a) (wrap64 (from a + 1)))
            else if from a =? 0 then rev_lines fuel b n (mkAddr (from a) (from a))
            else rev_lines fuel b n a
        end
      else Some (Ok (n, a))
  end.

(** [func (l lineAddr) rev(from int64, ed *Editor) (addr, error)], on the
    runes of [ed.buf]. *)
Definition lineAddr_rev (fuel : nat) (n : Z) (from_ : Z) (b : RuneBuffer)
  : option (res addr) :=
  let a := mkAddr from_ from_ in
  let start :=
    if from a <? rb_Size b then
      match rev_to_line_start fuel b (from a) with
      | None => None
      | Some (Err e) => Some (Err e)
      | Some Panic => Some Panic
      | Some (Ok f) => Some (Ok (mkAddr f f))
      end
    else Some (Ok a) in
  match start with
  | None => None
  | Some (Err e) => Some (Err e)
  | Some Panic => Some Panic
  | Some (Ok a) =>
      match rev_lines fuel b n a with
      | None => None
      | Some (Err e) => Some (Err e)
      | Some Panic => Some Panic
      | Some (Ok (n, a)) =>
          if 1 <? n then Some (Err ErrLineRange)
          else
            match rev_to_line_start fuel b (from a) with
            | None => None
            | Some (Err e) => Some (Err e)
            | Some Panic => Some Panic
            | Some (Ok f) => Some (Ok (mkAddr f (to a)))
            end
      end
  end.

(** [ed.marks['.'] = a] *)
Definition set_dot (ed : ptr) (a : addr) (b : Buffer) : Buffer :=
  set_editors (alter (fun e => set_marks (<[dot_rune := a]> (marks e)) e)
                     ed (editors b)) b.

(** The check of [dotAddr.whereFrom] and [markAddr.whereFrom] that makes
    them panic. *)
Definition bad_mark (a : addr) (b : Buffer) : bool :=
  (from a <? 0) || (to a <? from a) || (rb_Size (runes b) <? to a).

(** The [whereFrom(from int64, ed *Editor) (addr, error)] methods of the
    simple addresses; none of them writes to the editor. *)
Definition simple_whereFrom (fuel : nat) (a : SimpleAddress) (from_ : Z)
    (ed : ptr) (b : Buffer) : option (res addr) :=
  match impl a with
  | dotAddr =>
      match editors b !! ed with
      | None => Some Panic
      | Some e =>
          let a := mark_get (marks e) dot_rune in
          if bad_mark a b then Some Panic else Some (Ok a)
      end
  | endAddr => Some (Ok (mkAddr (rb_Size (runes b)) (rb_Size (runes b))))
  | markAddr m =>
      match editors b !! ed with
      | None => Some Panic
      | Some e =>
          let a := mark_get (marks e) m in
          if bad_mark a b then Some Panic
          else if negb (isMarkRune m) && negb (m =? dot_rune)
          then Some (Err ErrBadMark)
          else Some (Ok a)
      end
  | runeAddr n =>
      let m := wrap64 (from_ + n) in
      if (m <? 0) || (rb_Size (runes b) <? m) then Some (Err ErrRuneRange)
      else Some (Ok (mkAddr m m))
  | lineAddr neg n =>
      if neg then lineAddr_rev fuel n from_ (runes b)
      else lineAddr_fwd fuel n from_ (runes b)
  | reAddr rev re => reAddr_whereFrom fuel rev re from_ (runes b)
  end.

(** The [whereFrom] methods of [simpleAddr], [compoundAddr] and
    [addAddr], with the buffer (and in it the editor) as it is left. *)
Fixpoint Address_whereFrom (fuel : nat) (a : Address) (from_ : Z) (ed : ptr)
    (b : Buffer) : option (Buffer * res addr) :=
  match a with
  | Simple s =>
      match simple_whereFrom fuel s from_ ed b with
      | None => None
      | Some r => Some (b, r)
      end
  | compoundAddr op a1 a2 =>
      match Address_whereFrom fuel a1 from_ ed b with
      | None => None
      | Some (b, Err e) => Some (b, Err e)
      | Some (b, Panic) => Some (b, Panic)
      | Some (b, Ok r1) =>
          if op =? 44 then
            match Address_whereFrom fuel a2 from_ ed b with
            | None => None
            | Some (b, Err e) => Some (b, Err e)
            | Some (b, Panic) => Some (b, Panic)
            | Some (b, Ok r2) => Some (b, Ok (mkAddr (from r1) (to r2)))
            end
          else if op =? 59 then
            match editors b !! ed with
            | None => Some (b, Panic)
            | Some e =>
                let origDot := mark_get (marks e) dot_rune in
                match Address_whereFrom fuel a2 (to r1) ed (set_dot ed r1 b) with
                | None => None
                | Some (b, Err e) => Some (set_dot ed origDot b, Err e)
                | Some (b, Panic) => Some (b, Panic)
                | Some (b, Ok r2) => Some (b, Ok (mkAddr (from r1) (to r2)))
                end
            end
          else Some (b, Panic)
      end
  | addAddr op a1 a2 =>
      match Address_whereFrom fuel a1 from_ ed b with
      | None => None
      | Some (b, Err e) => Some (b, Err e)
      | Some (b, Panic) => Some (b, Panic)
      | Some (b, Ok r1) =>
          if op =? 43 then
            match simple_whereFrom fuel a2 (to r1) ed b with
            | None => None
            | Some r => Some (b, r)
            end
          else if op =? 45 then
            match simple_whereFrom fuel (reverse a2) (from r1) ed b with
            | None => None
            | Some r => Some (b, r)
            end
          else Some (b, Panic)
      end
  end.

(** [func (ed *Editor) Where(a Address) (addr, error)]; the [where]
    methods are [whereFrom(0, ed)]. *)
Definition Editor_Where (fuel : nat) (a : Address) (ed : ptr) (b : Buffer)
  : option (Buffer * res addr) :=
  Address_whereFrom fuel a 0 ed b.

(** An address in which [Then] does not occur. *)
Fixpoint no_Then (a : Address) : bool :=
  match a with
  | Simple _ => true
  | compoundAddr op a1 a2 => negb (op =? 59) && no_Then a1 && no_Then a2
  | addAddr _ a1 _ => no_Then a1
  end.

(** The editor [ed] of a test of the address tests: the text [text] in a
    new buffer, dot set to [dot]. *)
Definition address_test (text : list rune) (dot : addr) : Buffer * ptr :=
  let (b, ed) := NewEditor (set_runes text NewBuffer) in
  (set_dot ed dot b, ed).

Definition run_address_test (text : list rune) (dot : addr) (a : Address)
  : option (res addr) :=
  let (b, ed) := address_test text dot in
  option_map snd (Address_whereFrom 40 a (to dot) ed b).

(** A simple address that is not a regular expression, and an address
    without regular expressions. *)
Definition not_reAddr (s : SimpleAddress) : bool :=
  match impl s with reAddr _ _ => false | _ => true end.

Fixpoint no_Regexp (a : Address) : bool :=
  match a with
  | Simple s => not_reAddr s
  | compoundAddr _ a1 a2 => no_Regexp a1 && no_Regexp a2
  | addAddr _ a1 a2 => no_Regexp a1 && not_reAddr a2
  end.

(** An address made of simple addresses with [Plus] and [Minus] only. *)
Fixpoint additive (a : Address) : bool :=
  match a with
  | Simple _ => true
  | compoundAddr _ _ _ => false
  | addAddr _ a1 _ => additive a1
  end.

(** Both ends of a range are offsets of a buffer of [sz] runes. *)
Definition ends_in (a : addr) (sz : Z) : Prop :=
  0 <= from a <= sz /\ 0 <= to a <= sz.


(** A simple address that is printed with the syntax it is parsed with:
    dot, the end, a mark named by a letter, and a rune or line address
    that is not negative. *)
Definition printable (s : SimpleAddress) : bool :=
  match impl s with
  | dotAddr | endAddr => true
  | markAddr m => isMarkRune m
  | runeAddr n => (0 <=? n) && (n <=? max_int64)
  | lineAddr neg n => negb neg && (0 <=? n) && (n <=? max_int64)
  | reAddr _ _ => false
  end.

(** Printable simple addresses joined by [Plus] and [Minus]. *)
Fixpoint chain (a : Address) : bool :=
  match a with
  | Simple s => printable s
  | addAddr op a1 s => ((op =? 43) || (op =? 45)) && chain a1 && printable s
  | compoundAddr _ _ _ => false
  end.

(** Chains joined by [To] and [Then], nested to the right, as the parser
    nests them. *)
Fixpoint canonical (a : Address) : bool :=
  match a with
  | compoundAddr op a1 a2 => ((op =? 44) || (op =? 59)) && chain a1 && canonical a2
  | _ => chain a
  end.

(** The passes of the loop of [parseCompoundAddr] over a printed chain,
    and the passes and calls over a printed canonical address. *)
Fixpoint chain_passes (a : Address) : nat :=
  match a with
  | addAddr _ a1 _ => S (chain_passes a1)
  | _ => 1
  end.

Fixpoint parse_passes (a : Address) : nat :=
  match a with
  | compoundAddr _ a1 a2 => chain_passes a1 + S (parse_passes a2)
  | _ => S (chain_passes a)
  end.


(** Changes in sequence from the offset [pos] of a buffer of [sz] runes:
    each range is a range, starts at or after the end of the one before
    it, and all lie within the buffer. *)
Fixpoint sorted_changes (pos : Z) (es : list change) (sz : Z) : Prop :=
  match es with
  | [] => pos <= sz
  | e :: es => pos <= from (ch_at e) <= to (ch_at e)
               /\ sorted_changes (to (ch_at e)) es sz
  end.

(** The number of runes that the changes write. *)
Fixpoint total_new (es : list change) : Z :=
  match es with
  | [] => 0
  | e :: es => Zlength (ch_data e) + total_new es
  end.

(** The text from [pos] on after all the changes are made at once: each
    range of the text is replaced by the runes of its change, and what
    lies between the ranges is kept. *)
Fixpoint splice (rs : list rune) (pos : Z) (es : list change) : list rune :=
  match es with
  | [] => drop (Z.to_nat pos) rs
  | e :: es => slice rs pos (from (ch_at e)) ++ ch_data e
               ++ splice rs (to (ch_at e)) es
  end.

(** A change whose range is moved by [d]. *)
Definition shift_change (d : Z) (e : change) : change :=
  mkChange (mkAddr (from (ch_at e) + d) (to (ch_at e) + d)) (ch_size e) (ch_data e).

(** ** Package [buffer]: the byte buffer backed by a file *)

Abbreviation byte := Byte.byte (only parsing).

(** Modelled from the spec: the type [Address] of package [buffer], with
    [Size()], [Point] and the error [AddressError], is not in the sources;
    the code uses its fields [From] and [To], and the spec names the
    error "address out of range".  A range is an [addr] here. *)
Definition Point (at_ : Z) : addr := mkAddr at_ at_.

(** The errors of the package: [AddressError], [CountError], [io.EOF],
    and what the operating system reports for the backing file. *)
Inductive buffer_error : Type :=
  | AddressError (a : addr)
  | CountError (n : Z)
  | EOF
  | OSError.

(** [type block struct { start int64; n int }] *)
Record block : Type := mkBlock { blk_start : Z; blk_n : Z }.

(** [type Bytes struct]; [b_f] is nil or the bytes of the backing
    file. *)
Record Bytes : Type :=
  mkBytes { b_f : option (list byte); b_blockSize : Z;
            b_blocks : list block; b_free : list block; b_end : Z;
            b_cached : Z; b_cache : list byte; b_dirty : bool; b_size : Z }.

Definition set_f (f : option (list byte)) (b : Bytes) : Bytes :=
  mkBytes f (b_blockSize b) (b_blocks b) (b_free b) (b_end b) (b_cached b)
          (b_cache b) (b_dirty b) (b_size b).
Definition set_blocks (l : list block) (b : Bytes) : Bytes :=
  mkBytes (b_f b) (b_blockSize b) l (b_free b) (b_end b) (b_cached b)
          (b_cache b) (b_dirty b) (b_size b).
Definition set_free (l : list block) (b : Bytes) : Bytes :=
  mkBytes (b_f b) (b_blockSize b) (b_blocks b) l (b_end b) (b_cached b)
          (b_cache b) (b_dirty b) (b_size b).
Definition set_end (e : Z) (b : Bytes) : Bytes :=
  mkBytes (b_f b) (b_blockSize b) (b_blocks b) (b_free b) e (b_cached b)
          (b_cache b) (b_dirty b) (b_size b).
Definition set_cached (i : Z) (b : Bytes) : Bytes :=
  mkBytes (b_f b) (b_blockSize b) (b_blocks b) (b_free b) (b_end b) i
          (b_cache b) (b_dirty b) (b_size b).
Definition set_cache (c : list byte) (b : Bytes) : Bytes :=
  mkBytes (b_f b) (b_blockSize b) (b_blocks b) (b_free b) (b_end b) (b_cached b)
          c (b_dirty b) (b_size b).
Definition set_dirty (d : bool) (b : Bytes) : Bytes :=
  mkBytes (b_f b) (b_blockSize b) (b_blocks b) (b_free b) (b_end b) (b_cached b)
          (b_cache b) d (b_size b).
Definition set_size (s : Z) (b : Bytes) : Bytes :=
  mkBytes (b_f b) (b_blockSize b) (b_blocks b) (b_free b) (b_end b) (b_cached b)
          (b_cache b) (b_dirty b) s.

(** What a call of the package comes to: a result, an error with the
    buffer as the call leaves it, or a panic. *)
Inductive bres (A : Type) : Type :=
  | BOk (a : A)
  | BErr (e : buffer_error) (b : Bytes)
  | BPanic.
Arguments BOk {A} a.
Arguments BErr {A} e b.
Arguments BPanic {A}.

(** A method of [*Bytes]: from the buffer to a result and the buffer
    afterwards, an error, or a panic. *)
Definition BM (A : Type) : Type := Bytes -> bres (A * Bytes).

Global Instance BM_ret : MRet BM := fun A a b => BOk (a, b).
Global Instance BM_bind : MBind BM := fun A B k m b =>
  match m b with
  | BOk (a, b') => k a b'
  | BErr e b' => BErr e b'
  | BPanic => BPanic
  end.

Definition bm_get : BM Bytes := fun b => BOk (b, b).
Definition bm_modify (f : Bytes -> Bytes) : BM unit := fun b => BOk (tt, f b).
Definition bm_err {A : Type} (e : buffer_error) : BM A := fun b => BErr e b.
Definition bm_panic {A : Type} : BM A := fun _ => BPanic.
Definition bm_lift {A : Type} (o : option A) : BM A :=
  match o with Some a => mret a | None => bm_panic end.

(** The backing file, a reliable one: [WriteAt] writes the bytes at the
    offset, after zeros if the file is shorter, and [ReadAt] reads [n]
    bytes from the offset, or those that are there and [io.EOF]; both
    report an error for a negative offset. *)
Definition file_WriteAt (fl bs : list byte) (off : Z) : option (list byte) :=
  if off <? 0 then None
  else
    let o := Z.to_nat off in
    Some (take o (fl ++ replicate (o - length fl) Byte.x00) ++ bs
          ++ drop (o + length bs) fl).

Definition file_ReadAt (fl : list byte) (n off : Z) : list byte * option buffer_error :=
  if n =? 0 then ([], None)
  else if off <? 0 then ([], Some OSError)
  else
    let data := take (Z.to_nat n) (drop (Z.to_nat off) fl) in
    (data, if Zlength data <? n then Some EOF else None).

(** The slice expression [s[lo:hi]] with its run-time check. *)
Definition subslice {A : Type} (s : list A) (lo hi : Z) : option (list A) :=
  if (0 <=? lo) && (lo <=? hi) && (hi <=? Zlength s) then Some (slice s lo hi)
  else None.

(** [func NewBytes(blockSize int) *Bytes] *)
Definition NewBytes (blockSize : Z) : bres Bytes :=
  if blockSize <? 0 then BPanic
  else BOk (mkBytes None blockSize [] [] 0 (-1)
                    (replicate (Z.to_nat blockSize) Byte.x00) false 0).

(** [func (b *Bytes) Size() int64] *)
Definition Bytes_Size (b : Bytes) : Z := b_size b.

(** [func (b *Bytes) allocBlock() block] *)
Definition allocBlock : BM block := fun b =>
  match last (b_free b) with
  | Some blk => BOk (blk, set_free (removelast (b_free b)) b)
  | None =>
      BOk (mkBlock (b_end b) 0, set_end (wrap64 (b_end b + b_blockSize b)) b)
  end.

(** [func (b *Bytes) freeBlock(blk block)] *)
Definition freeBlock (blk : block) : BM unit :=
  bm_modify (fun b => set_free (b_free b ++ [mkBlock (blk_start blk) 0]) b).

(** [b.blocks = append(b.blocks[:i], append([]block{blk}, b.blocks[i:]...)...)] *)
Definition insert_block (i : nat) (blk : block) : BM unit := fun b =>
  if (i <=? length (b_blocks b))%nat
  then BOk (tt, set_blocks (take i (b_blocks b) ++ blk :: drop i (b_blocks b)) b)
  else BPanic.

(** The loop of [blockAt] over the blocks from index [i], whose first
    byte is at [q0]. *)
Fixpoint blockAt_loop (l : list block) (i : nat) (q0 at_ : Z) : option (nat * Z) :=
  match l with
  | [] => None
  | blk :: l =>
      if (q0 <=? at_) && (at_ <? wrap64 (q0 + blk_n blk)) then Some (i, q0)
      else blockAt_loop l (S i) (wrap64 (q0 + blk_n blk)) at_
  end.

(** [func (b *Bytes) blockAt(at int64) (int, int64)] *)
Definition blockAt (at_ : Z) : BM (nat * Z) :=
  b ← bm_get;
  if (at_ <? 0) || (Bytes_Size b <? at_) then bm_panic
  else if at_ =? Bytes_Size b then
    let i := length (b_blocks b) in
    blk ← allocBlock;
    insert_block i blk;;
    mret (i, at_)
  else bm_lift (blockAt_loop (b_blocks b) 0 0 at_).

(** [func (b *Bytes) file()], which returns the [*os.File]: the bytes of
    the file, which is made when there is none. *)
Definition Bytes_file : BM (list byte) := fun b =>
  match b_f b with
  | Some fl => BOk (fl, b)
  | None => BOk ([], set_f (Some []) b)
  end.

(** [func (b *Bytes) put() error] *)
Definition Bytes_put : BM unit :=
  b ← bm_get;
  if (b_cached b <? 0) || negb (b_dirty b) || (Zlength (b_cache b) =? 0) then mret tt
  else
    blk ← bm_lift (b_blocks b !! Z.to_nat (b_cached b));
    fl ← Bytes_file;
    data ← bm_lift (subslice (b_cache b) 0 (blk_n blk));
    match file_WriteAt fl data (blk_start blk) with
    | None => bm_err OSError
    | Some fl' => bm_modify (fun b => set_dirty false (set_f (Some fl') b))
    end.

(** [func (b *Bytes) get(i int)]; the pointer to a block that it returns
    is [&b.blocks[i]]. *)
Definition Bytes_get (i : nat) : BM unit :=
  b ← bm_get;
  if b_cached b =? Z.of_nat i then
    _ ← bm_lift (b_blocks b !! i); mret tt
  else
    Bytes_put;;
    b ← bm_get;
    blk ← bm_lift (b_blocks b !! i);
    fl ← Bytes_file;
    _ ← bm_lift (subslice (b_cache b) 0 (blk_n blk));
    match file_ReadAt fl (blk_n blk) (blk_start blk) with
    | (_, Some EOF) => bm_panic
    | (_, Some e) => bm_err e
    | (data, None) =>
        bm_modify (fun b => set_dirty false
                              (set_cached (Z.of_nat i)
                                 (set_cache (copy (b_cache b) data) b)))
    end.

(** [b.blocks[i].n = n] *)
Definition set_block_n (i : nat) (n : Z) : BM unit :=
  b ← bm_get;
  blk ← bm_lift (b_blocks b !! i);
  bm_modify (set_blocks (<[i := mkBlock (blk_start blk) n]> (b_blocks b))).

(** [func (b *Bytes) insertAt(at int64) (int, error)] *)
Definition insertAt (at_ : Z) : BM nat :=
  '(i, q0) ← blockAt at_;
  let o := wrap64 (at_ - q0) in
  b ← bm_get;
  blk ← bm_lift (b_blocks b !! i);
  if at_ =? q0 then
    nblk ← allocBlock;
    insert_block i nblk;;
    bm_modify (fun b => if b_cached b =? Z.of_nat i
                        then set_cached (wrap64 (Z.of_nat i + 1)) b else b);;
    mret i
  else
    (if (b_cached b =? Z.of_nat i) && b_dirty b then Bytes_put else Bytes_get i);;
    set_block_n i o;;
    nblk ← allocBlock;
    insert_block (i + 1) nblk;;
    nblk ← allocBlock;
    insert_block (i + 2) nblk;;
    set_block_n (i + 2) (wrap64 (blk_n blk - o));;
    b ← bm_get;
    src ← bm_lift (subslice (b_cache b) o (Zlength (b_cache b)));
    bm_modify (fun b => set_dirty true
                          (set_cached (wrap64 (Z.of_nat i + 2))
                             (set_cache (copy (b_cache b) src) b)));;
    mret (i + 1)%nat.

(** [copy(b.cache[lo:], src)]: the cache afterwards. *)
Definition copy_to_cache (lo : Z) (src : list byte) : BM unit :=
  b ← bm_get;
  dst ← bm_lift (subslice (b_cache b) lo (Zlength (b_cache b)));
  bm_modify (set_cache (take (Z.to_nat lo) (b_cache b) ++ copy dst src)).

(** The end of a pass of the loop of [insert], from [if m > len(bs)] on:
    [m] bytes at most are put into block [i], which is the cached one and
    whose first byte is at [q0]. *)
Definition insert_fill (bs : list byte) (at_ tot : Z) (i : nat) (q0 m : Z)
  : BM (list byte * Z * Z) :=
  b ← bm_get;
  blk ← bm_lift (b_blocks b !! i);
  let m := if Zlength bs <? m then Zlength bs else m in
  let o := wrap64 (at_ - q0) in
  src ← bm_lift (subslice (b_cache b) o (blk_n blk));
  copy_to_cache (wrap64 (o + m)) src;;
  new ← bm_lift (subslice bs 0 m);
  copy_to_cache o new;;
  bm_modify (set_dirty true);;
  rest ← bm_lift (subslice bs m (Zlength bs));
  set_block_n i (wrap64 (blk_n blk + m));;
  bm_modify (fun b => set_size (wrap64 (b_size b + m)) b);;
  mret (rest, wrap64 (at_ + m), wrap64 (tot + m)).

(** One pass of the loop of [insert]: the bytes that are left, [at] and
    [tot] afterwards. *)
Definition insert_body (bs : list byte) (at_ tot : Z) : BM (list byte * Z * Z) :=
  '(i, q0) ← blockAt at_;
  Bytes_get i;;
  b ← bm_get;
  blk ← bm_lift (b_blocks b !! i);
  let m := wrap64 (b_blockSize b - blk_n blk) in
  '(i, q0, m) ← (if m =? 0 then
                   i ← insertAt at_;
                   Bytes_get i;;
                   b ← bm_get;
                   mret (i, at_, b_blockSize b)
                 else mret (i, q0, m));
  insert_fill bs at_ tot i q0 m.

(** The loop of [insert].  Each unit of fuel is one test of the loop
    condition; [None] is the loop still running. *)
Fixpoint insert_loop (fuel : nat) (bs : list byte) (at_ tot : Z) (b : Bytes)
  : option (bres (Z * Bytes)) :=
  match fuel with
  | O => None
  | S fuel =>
      match bs with
      | [] => Some (BOk (tot, b))
      | _ =>
          match insert_body bs at_ tot b with
          | BOk ((rest, at', tot'), b') => insert_loop fuel rest at' tot' b'
          | BErr e b' => Some (BErr e b')
          | BPanic => Some BPanic
          end
      end
  end.

(** [func (b *Bytes) insert(bs []byte, at int64) (int, error)] *)
Definition Bytes_insert (fuel : nat) (bs : list byte) (at_ : Z) (b : Bytes)
  : option (bres (Z * Bytes)) :=
  if (at_ <? 0) || (Bytes_Size b <? at_) then Some (BErr (AddressError (Point at_)) b)
  else insert_loop fuel bs at_ 0 b.

(** [b.blocks = append(b.blocks[:i], b.blocks[i+1:]...)] *)
Definition remove_block (i : nat) : BM unit := fun b =>
  if (i <? length (b_blocks b))%nat
  then BOk (tt, set_blocks (take i (b_blocks b) ++ drop (S i) (b_blocks b)) b)
  else BPanic.

(** One pass of the loop of [delete]: [n] and [tot] afterwards. *)
Definition delete_body (n at_ tot : Z) : BM (Z * Z) :=
  '(i, q0) ← blockAt at_;
  Bytes_get i;;
  b ← bm_get;
  blk ← bm_lift (b_blocks b !! i);
  let o := wrap64 (at_ - q0) in
  let m := wrap64 (blk_n blk - o) in
  let m := if n <? m then n else m in
  (if (o =? 0) && (blk_n blk <=? n) then
     freeBlock blk;;
     remove_block i;;
     bm_modify (set_cached (-1))
   else
     src ← bm_lift (subslice (b_cache b) (wrap64 (o + m)) (Zlength (b_cache b)));
     copy_to_cache o src;;
     bm_modify (set_dirty true);;
     set_block_n i (wrap64 (blk_n blk - m)));;
  bm_modify (fun b => set_size (wrap64 (b_size b - m)) b);;
  mret (wrap64 (n - m), wrap64 (tot + m)).

Fixpoint delete_loop (fuel : nat) (n at_ tot : Z) (b : Bytes)
  : option (bres (Z * Bytes)) :=
  match fuel with
  | O => None
  | S fuel =>
      if 0 <? n then
        match delete_body n at_ tot b with
        | BOk ((n', tot'), b') => delete_loop fuel n' at_ tot' b'
        | BErr e b' => Some (BErr e b')
        | BPanic => Some BPanic
        end
      else Some (BOk (tot, b))
  end.

(** [func (b *Bytes) delete(n, at int64) (int64, error)] *)
Definition Bytes_delete (fuel : nat) (n at_ : Z) (b : Bytes)
  : option (bres (Z * Bytes)) :=
  if n <? 0 then Some (BErr (CountError n) b)
  else if (at_ <? 0) || (Bytes_Size b <? wrap64 (at_ + n))
  then Some (BErr (AddressError (Point at_)) b)
  else delete_loop fuel n at_ 0 b.

(** One pass of the loop of [ReadAt], for a slice [bs] with [len] bytes
    left to fill: the bytes copied, and [at] afterwards. *)
Definition ReadAt_body (len at_ : Z) : BM (list byte * Z) :=
  '(i, q0) ← blockAt at_;
  Bytes_get i;;
  b ← bm_get;
  blk ← bm_lift (b_blocks b !! i);
  let o := wrap64 (at_ - q0) in
  src ← bm_lift (subslice (b_cache b) o (blk_n blk));
  let got := take (Z.to_nat len) src in
  mret (got, wrap64 (at_ + Zlength got)).

(** The loop of [ReadAt]: [len] bytes of [bs] are left to fill, [out] are
    the bytes copied so far, [tot] of them. *)
Fixpoint ReadAt_loop (fuel : nat) (len at_ : Z) (out : list byte) (b : Bytes)
  : option (bres (list byte * option buffer_error * Bytes)) :=
  match fuel with
  | O => None
  | S fuel =>
      if 0 <? len then
        if at_ =? Bytes_Size b then Some (BOk (out, Some EOF, b))
        else
          match ReadAt_body len at_ b with
          | BOk ((got, at'), b') =>
              ReadAt_loop fuel (len - Zlength got) at' (out ++ got) b'
          | BErr e b' => Some (BOk (out, Some e, b'))
          | BPanic => Some BPanic
          end
      else Some (BOk (out, None, b))
  end.

(** [func (b *Bytes) ReadAt(bs []byte, at int64) (int, error)], for a
    slice [bs] of [len] bytes: the bytes read, which are [bs[:n]] for the
    count [n] returned, the error or nil, and the buffer afterwards. *)
Definition Bytes_ReadAt (fuel : nat) (len at_ : Z) (b : Bytes)
  : option (bres (list byte * option buffer_error * Bytes)) :=
  if at_ <? 0 then Some (BOk ([], Some (AddressError (Point at_)), b))
  else if (at_ =? Bytes_Size b) && (len =? 0) then Some (BOk ([], None, b))
  else if Bytes_Size b <=? at_ then Some (BOk ([], Some EOF, b))
  else ReadAt_loop fuel len at_ [] b.

(** [func (b *Bytes) Read(at Address) ([]byte, error)] *)
Definition Bytes_Read (fuel : nat) (at_ : addr) (b : Bytes)
  : option (bres (list byte * Bytes)) :=
  if (from at_ <? 0) || (to at_ <? from at_) || (Bytes_Size b <? to at_)
  then Some (BErr (AddressError at_) b)
  else if addr_size at_ <? 0 then Some BPanic
  else
    match Bytes_ReadAt fuel (addr_size at_) (from at_) b with
    | None => None
    | Some BPanic => Some BPanic
    | Some (BErr e b') => Some (BErr e b')
    | Some (BOk (_, Some e, b')) => Some (BErr e b')
    | Some (BOk (out, None, b')) => Some (BOk (out, b'))
    end.

(** [func (b *Bytes) Write(bs []byte, at Address) error] *)
Definition Bytes_Write (fuel : nat) (bs : list byte) (at_ : addr) (b : Bytes)
  : option (bres (unit * Bytes)) :=
  if (from at_ <? 0) || (to at_ <? from at_) || (Bytes_Size b <? to at_)
  then Some (BErr (AddressError at_) b)
  else
    match Bytes_delete fuel (addr_size at_) (from at_) b with
    | None => None
    | Some BPanic => Some BPanic
    | Some (BErr e b') => Some (BErr e b')
    | Some (BOk (_, b')) =>
        match Bytes_insert fuel bs (from at_) b' with
        | None => None
        | Some BPanic => Some BPanic
        | Some (BErr e b'') => Some (BErr e b'')
        | Some (BOk (_, b'')) => Some (BOk (tt, b''))
        end
    end.

(** The bytes of a string literal, for the examples. *)
Definition bytes_of (s : string) : list byte :=
  map Ascii.byte_of_ascii (String.list_ascii_of_string s).

(** The steps of [TestBufferWrite] and [TestBufferRead], with blocks of 8
    bytes: write [init] into a new buffer, write [w] to the range [at],
    read everything back. *)
Definition write_read (init w : string) (at_ : addr)
  : option (list byte + buffer_error) :=
  match NewBytes 8 with
  | BOk b =>
      match Bytes_Write 40 (bytes_of init) (mkAddr 0 0) b with
      | Some (BOk (_, b)) =>
          match Bytes_Write 40 (bytes_of w) at_ b with
          | Some (BOk (_, b)) =>
              match Bytes_Read 40 (mkAddr 0 (Bytes_Size b)) b with
              | Some (BOk (out, _)) => Some (inl out)
              | Some (BErr e _) => Some (inr e)
              | _ => None
              end
          | Some (BErr e _) => Some (inr e)
          | _ => None
          end
      | _ => None
      end
  | _ => None
  end.

(** The bytes of the backing file, none when there is no file yet. *)
Definition file_bytes (b : Bytes) : list byte := default [] (b_f b).

(** The bytes of block [i]: those at the start of the cache when it is
    the cached block, those at [blk.start] in the file otherwise. *)
Definition block_bytes (b : Bytes) (i : nat) (blk : block) : list byte :=
  if b_cached b =? Z.of_nat i then take (Z.to_nat (blk_n blk)) (b_cache b)
  else slice (file_bytes b) (blk_start blk) (blk_start blk + blk_n blk).

(** The bytes that the buffer holds: those of its blocks, in order. *)
Definition Bytes_content (b : Bytes) : list byte :=
  concat (imap (block_bytes b) (b_blocks b)).

(** The bytes of a block are in the file. *)
Definition on_disk (b : Bytes) (blk : block) : Prop :=
  blk_n blk = 0 \/ blk_start blk + blk_n blk <= Zlength (file_bytes b).

Fixpoint sum_n (l : list block) : Z :=
  match l with
  | [] => 0
  | blk :: l => blk_n blk + sum_n l
  end.

(** A buffer as the methods of [*Bytes] leave it: the cache has the
    block size; the blocks hold at most a block each and [size] bytes in
    all; every block, used or free, has a region of its own in the file,
    before [end]; the bytes of every block that is not the cached,
    modified one are in the file; and the free blocks hold no bytes. *)
Record Bytes_wf (b : Bytes) : Prop := mkBytes_wf {
  bwf_blockSize : 0 < b_blockSize b;
  bwf_cache : Zlength (b_cache b) = b_blockSize b;
  bwf_cached : b_cached b = -1 \/ 0 <= b_cached b < Zlength (b_blocks b);
  bwf_n : Forall (fun blk => 0 <= blk_n blk <= b_blockSize b) (b_blocks b);
  bwf_alloc :
    Forall (fun blk => 0 <= blk_start blk
                       /\ (b_blockSize b | blk_start blk)
                       /\ blk_start blk + b_blockSize b <= b_end b)
           (b_blocks b ++ b_free b);
  bwf_distinct : NoDup (map blk_start (b_blocks b ++ b_free b));
  bwf_end : 0 <= b_end b <= max_int64 /\ (b_blockSize b | b_end b);
  bwf_size : b_size b = sum_n (b_blocks b) /\ b_size b <= max_int64;
  bwf_disk : forall i blk,
    b_blocks b !! i = Some blk ->
    b_cached b <> Z.of_nat i \/ b_dirty b = false -> on_disk b blk;
  bwf_clean : forall i blk,
    b_blocks b !! i = Some blk ->
    b_cached b = Z.of_nat i -> b_dirty b = false -> blk_n blk <> 0 ->
    slice (file_bytes b) (blk_start blk) (blk_start blk + blk_n blk)
    = take (Z.to_nat (blk_n blk)) (b_cache b);
  bwf_free : Forall (fun blk => blk_n blk = 0) (b_free b)
}.

(** Two states of a buffer with the same blocks, free blocks and
    sizes. *)
Definition same_blocks (b b' : Bytes) : Prop :=
  b_blockSize b' = b_blockSize b /\ b_blocks b' = b_blocks b
  /\ b_free b' = b_free b /\ b_end b' = b_end b /\ b_size b' = b_size b.

(** The regions of the file that are given out: each is a block size
    long, starts at a multiple of the block size and ends before [e],
    and no two are the same. *)
Definition alloc_ok (B : Z) (starts : list Z) (e : Z) : Prop :=
  Forall (fun s => 0 <= s /\ (B | s) /\ s + B <= e) starts
  /\ NoDup starts /\ (0 <= e <= max_int64 /\ (B | e)).

(* ================================================================= *)
(** * Properties *)

(** ** Machine integers *)

Lemma wrap64_id z : is_int64 z -> wrap64 z = z.
Proof.
  unfold is_int64, min_int64, max_int64, wrap64. intros H.
  rewrite Z.mod_small; lia.
Qed.

Lemma wrap64_range z : is_int64 (wrap64 z).
Proof.
  unfold is_int64, min_int64, max_int64, wrap64.
  pose proof (Z.mod_pos_bound (z + 2 ^ 63) (2 ^ 64)). lia.
Qed.

Lemma wrap64_neg_neg z : is_int64 z -> wrap64 (- wrap64 (- z)) = z.
Proof.
  intros H.
  destruct (Z.eq_dec z min_int64) as [->|Hne]; [reflexivity|].
  assert (Hn : is_int64 (- z)).
  { unfold is_int64, min_int64, max_int64 in *. lia. }
  rewrite (wrap64_id _ Hn), Z.opp_involutive. now apply wrap64_id.
Qed.

(** ** Ranges *)

Ltac addr_cases :=
  repeat match goal with
  | |- context [if ?c then _ else _] => destruct c eqn:?; cbn [from to] in *
  end.

Ltac bool_lia :=
  repeat match goal with
  | H : (_ && _) = true |- _ => apply andb_true_iff in H; destruct H
  | H : (_ && _) = false |- _ => apply andb_false_iff in H; destruct H
  | H : (_ || _) = true |- _ => apply orb_true_iff in H; destruct H
  | H : (_ || _) = false |- _ => apply orb_false_iff in H; destruct H
  | H : (_ <=? _) = true |- _ => apply Z.leb_le in H
  | H : (_ <=? _) = false |- _ => apply Z.leb_gt in H
  | H : (_ <? _) = true |- _ => apply Z.ltb_lt in H
  | H : (_ <? _) = false |- _ => apply Z.ltb_ge in H
  | H : (_ >? _) = true |- _ => apply Z.gtb_gt in H
  | H : (_ >? _) = false |- _ => rewrite Z.gtb_ltb in H; apply Z.ltb_ge in H
  | H : (_ >=? _) = true |- _ => rewrite Z.geb_leb in H; apply Z.leb_le in H
  | H : (_ >=? _) = false |- _ => rewrite Z.geb_leb in H; apply Z.leb_gt in H
  end.

Lemma addr_size_exact b : is_range b -> addr_size b = to b - from b.
Proof.
  unfold is_range, addr_size. intros H. apply wrap64_id.
  unfold is_int64, min_int64, max_int64 in *. lia.
Qed.

Lemma clip_is_spec_clip a b :
  is_range a -> is_range b ->
  (if (from b <=? from a) || (to a <? to b) then
     let a := if contains b (from a) then mkAddr (to b) (to a) else a in
     let a := if contains b (wrap64 (to a - 1))
              then mkAddr (from a) (from b) else a in
     if to a <? from a then mkAddr (from a) (from a) else a
   else a) = spec_clip a b.
Proof.
  intros Ha Hb. unfold spec_clip, contains.
  destruct a as [af at_], b as [bf bt]. unfold is_range in *. simpl in *.
  assert (Hw : wrap64 (at_ - 1) = at_ - 1).
  { apply wrap64_id. unfold is_int64, min_int64, max_int64 in *. lia. }
  destruct ((bf <=? af) || (at_ <? bt)) eqn:Hclip;
    destruct ((af <? bf) && (bt <=? at_)) eqn:Hskip;
    [ exfalso; bool_lia; lia | | reflexivity | exfalso; bool_lia; lia ].
  destruct ((bf <=? af) && (af <? bt)) eqn:Hfrom; simpl; rewrite Hw;
    destruct ((bf <=? at_ - 1) && (at_ - 1 <? bt)) eqn:Hto; simpl;
    rewrite Z.gtb_ltb; reflexivity.
Qed.

Lemma spec_clip_range a b :
  is_range a -> is_range b -> is_range (spec_clip a b).
Proof.
  unfold is_range, spec_clip, max_int64.
  destruct a as [af at_], b as [bf bt]. simpl.
  intros Ha Hb. addr_cases; bool_lia; lia.
Qed.

(** [update] is the clip of the specification followed by the move in
    [int64] arithmetic. *)
Lemma update_clip_move a b n :
  is_range a -> is_range b ->
  update a b n =
    let c := spec_clip a b in
    let d := wrap64 (n - addr_size b) in
    let c := if to b <=? to c then mkAddr (from c) (wrap64 (to c + d)) else c in
    if to b <=? from c then mkAddr (wrap64 (from c + d)) (to c) else c.
Proof.
  intros Ha Hb. rewrite <- (clip_is_spec_clip a b Ha Hb). reflexivity.
Qed.

(** C1. For ranges [a] and [b] and a count [n >= 0], [a.update(b, n)] is the
    range that the two steps of the specification give, clipping first and
    moving second, as the [int64] fields of the result hold it. *)
Theorem update_refines_spec a b n :
  is_range a -> is_range b -> 0 <= n <= max_int64 ->
  update a b n = wrap_addr (update_spec a b n).
Proof.
  intros Ha Hb Hn. rewrite update_clip_move by assumption.
  rewrite (addr_size_exact b Hb).
  pose proof (spec_clip_range a b Ha Hb) as Hc.
  unfold update_spec, spec_move, wrap_addr.
  destruct (spec_clip a b) as [cf ct]. destruct b as [bf bt].
  unfold is_range, max_int64 in *. simpl in *.
  assert (Hd : wrap64 (n - (bt - bf)) = n - (bt - bf)).
  { apply wrap64_id. unfold is_int64, min_int64, max_int64. lia. }
  rewrite Hd. clear Hd. rewrite !Z.geb_leb.
  assert (Hid : forall z, 0 <= z <= 2 ^ 63 - 1 -> wrap64 z = z).
  { intros z Hz. apply wrap64_id. unfold is_int64, min_int64, max_int64. lia. }
  destruct (bt <=? ct) eqn:Hto; simpl;
    destruct (bt <=? cf) eqn:Hfrom; simpl;
    rewrite ?(Hid cf), ?(Hid ct) by lia; reflexivity.
Qed.

Lemma update_refines_spec_witness :
  update (mkAddr 10 20) (mkAddr 12 18) 100
  = wrap_addr (update_spec (mkAddr 10 20) (mkAddr 12 18) 100).
Proof.
  apply (update_refines_spec (mkAddr 10 20) (mkAddr 12 18) 100);
    unfold is_range, max_int64; simpl; lia.
Defined.

(** When the moved range still fits in [int64] (it does as soon as
    [a.to + n] does), no wrap-around takes place. *)
Lemma update_spec_representable a b n :
  is_range a -> is_range b -> 0 <= n -> to a + n <= max_int64 ->
  wrap_addr (update_spec a b n) = update_spec a b n.
Proof.
  intros Ha Hb Hn Hfit.
  unfold update_spec, spec_move, spec_clip, wrap_addr.
  destruct a as [af at_], b as [bf bt].
  unfold is_range, max_int64 in *. simpl in *.
  assert (Hid : forall z, 0 <= z <= 2 ^ 63 - 1 -> wrap64 z = z).
  { intros z Hz. apply wrap64_id. unfold is_int64, min_int64, max_int64. lia. }
  addr_cases; bool_lia; f_equal; apply Hid; lia.
Qed.

Lemma update_spec_valid a b n sz :
  range_in a sz -> range_in b sz -> 0 <= n ->
  range_in (update_spec a b n) (sz + (n - (to b - from b))).
Proof.
  unfold range_in, update_spec, spec_move, spec_clip.
  destruct a as [af at_], b as [bf bt]. cbn [from to].
  intros Ha Hb Hn. addr_cases; bool_lia; lia.
Qed.

Lemma update_spec_keeps a b n p q :
  range_in a (to a) -> range_in b (to b) -> 0 <= n ->
  within a p -> moved b n p = Some q -> within (update_spec a b n) q.
Proof.
  unfold range_in, within, moved, update_spec, spec_move, spec_clip.
  destruct a as [af at_], b as [bf bt]. cbn [from to].
  intros Ha Hb Hn Hp Hq.
  destruct (p <? bf) eqn:Hp1; [|destruct (bt <=? p) eqn:Hp2];
    inversion Hq; subst q; clear Hq; addr_cases; bool_lia; lia.
Qed.

Lemma update_spec_only a b n q :
  range_in a (to a) -> range_in b (to b) -> 0 <= n ->
  within (update_spec a b n) q ->
  (exists p, within a p /\ moved b n p = Some q)
  \/ from b <= q < from b + n.
Proof.
  unfold range_in, within, moved, update_spec, spec_move, spec_clip.
  destruct a as [af at_], b as [bf bt]. cbn [from to].
  intros Ha Hb Hn Hq.
  destruct (Z_lt_dec q bf) as [Hlt|Hge].
  - left. exists q.
    destruct (q <? bf) eqn:Hq1; [|bool_lia; lia].
    split; [|reflexivity].
    revert Hq. addr_cases; bool_lia; lia.
  - destruct (Z_lt_dec q (bf + n)) as [Hin|Hout]; [right; lia|].
    left. exists (q - (n - (bt - bf))).
    destruct (q - (n - (bt - bf)) <? bf) eqn:Hq1; [bool_lia; lia|].
    destruct (bt <=? q - (n - (bt - bf))) eqn:Hq2; [|bool_lia; lia].
    split; [|f_equal; lia].
    revert Hq. addr_cases; bool_lia; lia.
Qed.

(** C2. For ranges [a] and [b] within a buffer of [sz] runes and a count
    [n >= 0], where the old size and the new size [sz + (n - b.size())] are
    [int64] sizes, [a.update(b, n)] is a valid range of the new buffer, and
    the part of [a] outside [b] is kept: every offset of [a] that survives
    the change is an offset of the result at its new place, and every
    offset of the result is such a survivor or lies in the [n] new runes. *)
Theorem update_valid a b n sz :
  range_in a sz -> range_in b sz -> 0 <= n ->
  sz <= max_int64 -> sz + (n - addr_size b) <= max_int64 ->
  let r := update a b n in
  let sz' := sz + (n - addr_size b) in
  (from r <= to r /\ 0 <= from r /\ to r <= sz')
  /\ (forall p q, within a p -> moved b n p = Some q -> within r q)
  /\ (forall q, within r q ->
        (exists p, within a p /\ moved b n p = Some q)
        \/ from b <= q < from b + n).
Proof.
  intros Ha Hb Hn Hsz Hsz'.
  assert (Hra : is_range a) by (unfold is_range, range_in in *; lia).
  assert (Hrb : is_range b) by (unfold is_range, range_in in *; lia).
  rewrite (addr_size_exact b Hrb) in *.
  assert (Hn' : 0 <= n <= max_int64) by (unfold range_in in *; lia).
  pose proof (update_spec_valid a b n sz Ha Hb Hn) as Hv.
  assert (Hw : update a b n = update_spec a b n).
  { rewrite update_refines_spec by assumption.
    unfold wrap_addr. destruct (update_spec a b n) as [rf rt].
    unfold range_in in Hv. cbn [from to] in *.
    rewrite !wrap64_id; [reflexivity| |];
      unfold is_int64, min_int64, max_int64 in *; lia. }
  cbv zeta. rewrite Hw. split; [|split].
  - unfold range_in in Hv. lia.
  - intros p q. apply update_spec_keeps; unfold range_in in *; lia.
  - intros q. apply update_spec_only; unfold range_in in *; lia.
Qed.

Lemma update_valid_witness :
  let a := mkAddr 10 20 in
  let b := mkAddr 0 15 in
  let r := update a b 10 in
  let sz' := 30 + (10 - addr_size b) in
  (from r <= to r /\ 0 <= from r /\ to r <= sz')
  /\ (forall p q, within a p -> moved b 10 p = Some q -> within r q)
  /\ (forall q, within r q ->
        (exists p, within a p /\ moved b 10 p = Some q)
        \/ from b <= q < from b + 10).
Proof.
  apply (update_valid (mkAddr 10 20) (mkAddr 0 15) 10 30);
    try (unfold range_in; simpl; lia); vm_compute; discriminate.
Defined.

(** ** Reversal of simple addresses *)

(** C10. Reversing a simple address twice gives the address back. *)
Theorem reverse_involutive (a : SimpleAddress) :
  simple_wf a -> reverse (reverse a) = a.
Proof.
  destruct a as [[| |m|n|neg n|rev re]]; unfold simple_wf, reverse; simpl;
    intros Hwf; try reflexivity.
  - now rewrite wrap64_neg_neg.
  - now rewrite negb_involutive.
  - now rewrite negb_involutive.
Qed.

Lemma reverse_involutive_witness :
  reverse (reverse (simpleAddr (runeAddr (-3)))) = simpleAddr (runeAddr (-3)).
Proof.
  apply (reverse_involutive (simpleAddr (runeAddr (-3)))).
  unfold simple_wf, is_int64, min_int64, max_int64; simpl; lia.
Defined.

(** ** The journal *)

(** The example of [TestLogPushPop]: three pushes, three pops. *)
Definition hello : list rune :=
  [72; 101; 108; 108; 111; 44; 32; 19990; 30028; 33].

Example log_push_pop_test :
  let b0 := mkView hello 0 in
  let l1 := fst (log_push (mkLog [] 0) b0 (mkAddr 0 10) 0) in
  let l2 := fst (log_push l1 (mkView hello 1) (mkAddr 5 5) 10) in
  let l3 := fst (log_push l2 (mkView hello 2) (mkAddr 0 10) 20) in
  log_n l3 = 3
  /\ snd (log_pop l3) = Ok (mkEntry (mkHeader (mkAddr 0 20) 10 2) hello)
  /\ snd (log_pop (fst (log_pop l3))) = Ok (mkEntry (mkHeader (mkAddr 5 15) 0 1) [])
  /\ snd (log_pop (fst (log_pop (fst (log_pop l3)))))
     = Ok (mkEntry (mkHeader (mkAddr 0 0) 10 0) hello)
  /\ fst (log_pop (fst (log_pop (fst (log_pop l3))))) = mkLog [] 0.
Proof. vm_compute. repeat split. Qed.

Lemma wrap32_id z : is_int32 z -> wrap32 z = z.
Proof.
  unfold is_int32, min_int32, max_int32, wrap32. intros H.
  rewrite Z.mod_small; lia.
Qed.

(** Below [2^31] the two halves of a header field are the value and zero,
    and joining them gives the value back. *)
Lemma halves_small x :
  0 <= x < 2 ^ 31 ->
  wrap32 (Z.land x 0xFFFFFFFF) = x /\ wrap32 (Z.shiftr x 32) = 0.
Proof.
  intros Hx. change 0xFFFFFFFF with (Z.ones 32).
  rewrite Z.land_ones, Z.shiftr_div_pow2 by lia.
  rewrite Z.mod_small, Z.div_small by lia.
  split; [apply wrap32_id; unfold is_int32, min_int32, max_int32; lia|reflexivity].
Qed.

Lemma join64_small x : join64 x 0 = x.
Proof. unfold join64. rewrite Z.shiftl_0_l. apply Z.lor_0_r. Qed.

Lemma Zlength_app {A} (l k : list A) : Zlength (l ++ k) = Zlength l + Zlength k.
Proof. unfold Zlength. rewrite length_app. lia. Qed.

Lemma Zlength_nonneg {A} (l : list A) : 0 <= Zlength l.
Proof. unfold Zlength. lia. Qed.

Lemma slice_length {A} (l : list A) lo hi :
  0 <= lo <= hi -> hi <= Zlength l -> Zlength (slice l lo hi) = hi - lo.
Proof.
  unfold slice, Zlength. intros H1 H2.
  rewrite length_take, length_drop. lia.
Qed.

Lemma slice_app_r {A} (l k : list A) n :
  n = Zlength k -> slice (l ++ k) (Zlength l) (Zlength l + n) = k.
Proof.
  unfold slice, Zlength. intros ->.
  replace (Z.to_nat (Z.of_nat (length l) + Z.of_nat (length k)
                     - Z.of_nat (length l))) with (length k) by lia.
  rewrite Nat2Z.id, drop_app_length. apply firstn_all.
Qed.

Lemma rb_Insert_end (b : RuneBuffer) rs : rb_Insert b rs (rb_Size b) = Ok (b ++ rs).
Proof.
  unfold rb_Insert, rb_Size. pose proof (Zlength_nonneg b).
  replace ((0 <=? Zlength b) && (Zlength b <=? Zlength b)) with true
    by (symmetry; rewrite andb_true_iff, !Z.leb_le; lia).
  unfold Zlength. rewrite Nat2Z.id, firstn_all, drop_all, app_nil_r.
  reflexivity.
Qed.

Lemma rb_Read_ok (b : RuneBuffer) n at_ :
  0 <= at_ -> 0 <= n -> at_ + n <= rb_Size b ->
  rb_Read b n at_ = Ok (slice b at_ (at_ + n)).
Proof.
  intros H1 H2 H3. unfold rb_Read.
  replace ((0 <=? at_) && (0 <=? n) && (at_ + n <=? rb_Size b)) with true
    by (symmetry; rewrite !andb_true_iff, !Z.leb_le; lia).
  reflexivity.
Qed.

Lemma rb_Delete_tail (l k : RuneBuffer) :
  rb_Delete (l ++ k) (Zlength k) (Zlength l) = Ok l.
Proof.
  unfold rb_Delete, rb_Size. rewrite Zlength_app.
  pose proof (Zlength_nonneg l). pose proof (Zlength_nonneg k).
  destruct (Zlength k <? 0) eqn:E; [bool_lia; lia|].
  replace ((0 <=? Zlength l) && (Zlength l + Zlength k <=? Zlength l + Zlength k))
    with true by (symmetry; rewrite andb_true_iff, !Z.leb_le; lia).
  rewrite <- Zlength_app. unfold Zlength.
  rewrite !Nat2Z.id, drop_all, app_nil_r, take_app_length. reflexivity.
Qed.

(** What the journal gives back for header fields below [2^31]: pushing and
    popping returns the pushed entry and leaves the journal as it was. *)
Lemma log_push_pop_small l b a n :
  range_in a (rb_Size (view_runes b)) -> 0 <= n ->
  from a + n < 2 ^ 31 -> to a < 2 ^ 31 ->
  Zlength (log_runes l) + to a + headerRunes <= max_int64 ->
  is_int64 (log_n l) -> log_n l < max_int64 ->
  let l' := fst (log_push l b a n) in
  snd (log_push l b a n) = Ok tt
  /\ log_pop l' =
       (l, Ok (mkEntry (mkHeader (mkAddr (from a) (from a + n)) (to a - from a)
                                 (view_seq b))
                       (slice (view_runes b) (from a) (to a)))).
Proof.
  intros Ha Hn Hto Hat Hlen Hln Hln'. unfold range_in in Ha.
  pose proof (Zlength_nonneg (log_runes l)) as Hl0.
  assert (Hid : forall z, - 2 ^ 63 <= z <= 2 ^ 63 - 1 -> wrap64 z = z).
  { intros z Hz. apply wrap64_id. unfold is_int64, min_int64, max_int64. lia. }
  unfold max_int64, headerRunes, is_int64, min_int64 in *.
  cbv zeta. unfold log_push.
  assert (Hsz : addr_size a = to a - from a).
  { unfold addr_size. apply Hid. lia. }
  rewrite Hsz.
  destruct (to a - from a <? 0) eqn:E; [bool_lia; lia|]. clear E.
  rewrite rb_Read_ok by lia.
  replace (from a + (to a - from a)) with (to a) by lia.
  set (pre := slice (view_runes b) (from a) (to a)).
  assert (Hpre : Zlength pre = to a - from a).
  { apply slice_length; unfold rb_Size in *; lia. }
  rewrite rb_Insert_end. unfold header_insert. rewrite rb_Insert_end.
  cbn [fst snd]. split; [reflexivity|].
  rewrite (Hid (from a + n)) by lia.
  set (h := mkHeader _ _ _).
  assert (Hh : header_runes h =
               [from a; 0; from a + n; 0; to a - from a; 0; view_seq b]).
  { unfold header_runes, h. cbn [hdr_addr size0 hdr_seq from to].
    destruct (halves_small (from a)) as [-> ->]; [lia|].
    destruct (halves_small (from a + n)) as [-> ->]; [lia|].
    destruct (halves_small (to a - from a)) as [-> ->]; [lia|].
    reflexivity. }
  rewrite Hh. clear Hh. set (hr := [_; _; _; _; _; _; _]).
  assert (Hhr : Zlength hr = 7) by reflexivity.
  set (lr := log_runes l ++ pre).
  assert (Hlr : Zlength lr = Zlength (log_runes l) + (to a - from a)).
  { unfold lr. rewrite Zlength_app. lia. }
  unfold log_pop, headerRunes. cbn [log_runes log_n]. unfold rb_Size.
  rewrite Zlength_app, Hhr.
  replace (Zlength lr + 7 - 7) with (Zlength lr) by lia.
  rewrite (Hid (Zlength lr)) by lia.
  destruct (Zlength lr <? 0) eqn:E; [bool_lia; lia|]. clear E.
  unfold readHeader, headerRunes. rewrite rb_Read_ok
    by (unfold rb_Size; rewrite ?Zlength_app; lia).
  rewrite slice_app_r by (symmetry; exact Hhr).
  cbn [mbind res_bind bind hr]. rewrite !join64_small.
  cbn [size0].
  rewrite (Hid (Zlength lr - (to a - from a))) by lia.
  replace (Zlength lr - (to a - from a)) with (Zlength (log_runes l)) by lia.
  destruct (Zlength (log_runes l) <? 0) eqn:E; [bool_lia; lia|]. clear E.
  destruct (to a - from a <? 0) eqn:E; [bool_lia; lia|]. clear E.
  rewrite rb_Read_ok by (unfold rb_Size; rewrite ?Zlength_app; lia).
  rewrite (Hid (Zlength lr + 7 - Zlength (log_runes l))) by lia.
  assert (Hdel : rb_Delete (lr ++ hr) (Zlength lr + 7 - Zlength (log_runes l))
                   (Zlength (log_runes l)) = Ok (log_runes l)).
  { replace (Zlength lr + 7 - Zlength (log_runes l)) with (Zlength (pre ++ hr))
      by (rewrite Zlength_app; lia).
    unfold lr. rewrite <- app_assoc. apply rb_Delete_tail. }
  rewrite Hdel. clear Hdel.
  f_equal.
  - destruct l as [lrunes ln]. cbn [log_runes log_n] in *. f_equal.
    rewrite (Hid (ln + 1)) by lia. rewrite Hid by lia. lia.
  - do 2 f_equal. unfold lr. rewrite <- app_assoc.
    replace (Zlength (log_runes l) + (to a - from a))
      with (Zlength (log_runes l) + Zlength pre) by lia.
    unfold slice.
    replace (Z.to_nat (Zlength (log_runes l) + Zlength pre - Zlength (log_runes l)))
      with (length pre) by (unfold Zlength; lia).
    unfold Zlength. rewrite Nat2Z.id, drop_app_length, take_app_length.
    reflexivity.
Qed.

(** C6 at the input [push(b, addr{0, 0}, 1<<31)] on an empty buffer and an
    empty journal: the push succeeds, and the pop returns a header whose
    [to] is [-2^31], not the pushed [2^31], because [readHeader] widens the
    low half as a signed [int32]. *)
Theorem log_pop_sign_extends :
  let b := mkView [] 0 in
  let a := mkAddr 0 0 in
  let n := 2 ^ 31 in
  let l' := fst (log_push (mkLog [] 0) b a n) in
  snd (log_push (mkLog [] 0) b a n) = Ok tt
  /\ log_runes l' = [0; 0; - 2 ^ 31; 0; 0; 0; 0]
  /\ snd (log_pop l') = Ok (mkEntry (mkHeader (mkAddr 0 (- 2 ^ 31)) 0 0) [])
  /\ snd (log_pop l')
     <> Ok (mkEntry (mkHeader (mkAddr (from a) (from a + n)) (addr_size a)
                              (view_seq b)) []).
Proof. vm_compute. repeat split. intros H. discriminate H. Qed.

(** ** Editors *)

(** [TestChangeEdit]: [Change(Rune(1), "XYZ")] on ["Hello, 世界!"] gives
    ["HXYZello, 世界!"] and dot [(1, 4)]; phase one pends the change of the
    point [(1, 1)] and returns it. *)
Example do_change_test :
  let (b, ed) := NewEditor (set_runes hello NewBuffer) in
  let f := fun b => (pend ed (mkAddr 1 1) [88; 89; 90] b, Ok (mkAddr 1 1)) in
  match Editor_do 1 ed f b with
  | Some (b', Ok _) =>
      runes b' = [72; 88; 89; 90; 101; 108; 108; 111; 44; 32; 19990; 30028; 33]
      /\ marks_of ed b' !! dot_rune = Some (mkAddr 1 4)
      /\ seq b' = 1
  | _ => False
  end.
Proof. vm_compute. repeat split. Qed.

Lemma index_of_Some ed l i :
  index_of ed l = Some i -> l !! i = Some ed.
Proof.
  revert i. induction l as [|p l IH]; intros i; simpl; [discriminate|].
  destruct (Nat.eqb p ed) eqn:E.
  - intros [= <-]. apply Nat.eqb_eq in E. now subst.
  - destruct (index_of ed l) as [j|]; simpl; [|discriminate].
    intros [= <-]. now apply IH.
Qed.

Lemma index_of_None ed l : index_of ed l = None -> ed ∉ l.
Proof.
  induction l as [|p l IH]; simpl; intros H Hin.
  - inversion Hin.
  - destruct (Nat.eqb p ed) eqn:E; [discriminate|].
    apply Nat.eqb_neq in E.
    destruct (index_of ed l); [discriminate|].
    apply elem_of_cons in Hin as [->|Hin]; [congruence|now apply IH].
Qed.

(** What [Close] leaves in [buf.eds]: the editors before the closed one
    twice, then the closed editor itself. *)
Lemma Editor_Close_eds ed b :
  ed ∈ eds b ->
  exists i, index_of ed (eds b) = Some i
    /\ snd (Editor_Close ed b) = Ok tt
    /\ eds (fst (Editor_Close ed b)) = take i (eds b) ++ take i (eds b) ++ [ed].
Proof.
  intros Hin. unfold Editor_Close.
  destruct (index_of ed (eds b)) as [i|] eqn:Hi.
  - exists i. cbn. repeat split.
    rewrite (take_S_r _ _ _ (index_of_Some _ _ _ Hi)). reflexivity.
  - exfalso. now apply (index_of_None _ _ Hi).
Qed.

(** A closed editor is still in the list of editors. *)
Lemma Editor_Close_still_listed ed b :
  ed ∈ eds b -> ed ∈ eds (fst (Editor_Close ed b)).
Proof.
  intros Hin. destruct (Editor_Close_eds ed b Hin) as (i & _ & _ & ->).
  rewrite !elem_of_app. right. right. apply list_elem_of_singleton. reflexivity.
Qed.

(** C5 on a buffer with two editors, the first of which is closed:
    [Close] returns [nil] and closes the journal, but the closed editor is
    still the buffer's list, and the other editor is no longer in it. *)
Theorem Editor_Close_keeps_closed_drops_other :
  let (b1, e0) := NewEditor NewBuffer in
  let (b2, e1) := NewEditor b1 in
  eds b2 = [e0; e1] /\ e0 <> e1
  /\ snd (Editor_Close e0 b2) = Ok tt
  /\ eds (fst (Editor_Close e0 b2)) = [e0]
  /\ (pend_closed ∘ pending <$> editors (fst (Editor_Close e0 b2)) !! e0) = Some true.
Proof. vm_compute. repeat split. intros H. discriminate H. Qed.





(** ** Line addresses *)

(** Cases of [TestLineAddress]. *)
Example lineAddr_fwd_tests :
  let aa := [97; 97] in
  let aa_nl := [97; 97; 10] in
  let aa_bb := [97; 97; 10; 98; 98] in
  lineAddr_fwd 10 0 0 [] = Some (Ok (mkAddr 0 0))
  /\ lineAddr_fwd 10 1 0 aa = Some (Ok (mkAddr 0 2))
  /\ lineAddr_fwd 10 1 0 aa_nl = Some (Ok (mkAddr 0 3))
  /\ lineAddr_fwd 10 1 0 [] = Some (Ok (mkAddr 0 0))
  /\ lineAddr_fwd 10 2 0 aa_bb = Some (Ok (mkAddr 3 5))
  /\ lineAddr_fwd 10 2 0 aa_nl = Some (Ok (mkAddr 3 3))
  /\ lineAddr_fwd 10 0 2 aa = Some (Ok (mkAddr 2 2))
  /\ lineAddr_fwd 10 2 0 aa = Some (Err ErrLineRange)
  /\ lineAddr_fwd 10 3 0 aa_nl = Some (Err ErrLineRange)
  /\ lineAddr_fwd 10 0 1 [97; 98; 99; 10; 100; 101; 102] = Some (Ok (mkAddr 1 4))
  /\ lineAddr_fwd 10 1 4 [97; 98; 99; 10; 100; 101; 102] = Some (Ok (mkAddr 4 7)).
Proof. vm_compute. repeat split. Qed.

Lemma rb_Rune_app (pre suf : list rune) r :
  rb_Rune (pre ++ r :: suf) (Zlength pre) = Ok r.
Proof.
  unfold rb_Rune. pose proof (Zlength_nonneg pre).
  replace (0 <=? Zlength pre) with true by (symmetry; apply Z.leb_le; lia).
  unfold Zlength. rewrite Nat2Z.id, list_lookup_middle; reflexivity.
Qed.

(** The loop computes [scan] when it has fuel for the runes that are left. *)
Lemma fwd_lines_scan suf : forall pre n f fuel,
  Zlength (pre ++ suf) <= max_int64 -> 0 <= n <= max_int64 ->
  (length suf < fuel)%nat ->
  fwd_lines fuel (pre ++ suf) n (mkAddr f (Zlength pre))
  = Some (Ok (Z.of_nat (fst (scan suf (Z.to_nat n) f (Zlength pre))),
              snd (scan suf (Z.to_nat n) f (Zlength pre)))).
Proof.
  induction suf as [|r s IH]; intros pre n f fuel Hlen Hn Hfuel;
    (destruct fuel as [|fuel]; [cbn in Hfuel; lia|]); cbn [fwd_lines from to].
  - rewrite app_nil_r. unfold rb_Size.
    rewrite Z.ltb_irrefl, andb_false_r.
    destruct (Z.to_nat n) eqn:E; cbn; do 3 f_equal; lia.
  - destruct (Z.eq_dec n 0) as [->|Hn0]; [reflexivity|].
    assert (Hsz : Zlength pre < rb_Size (pre ++ r :: s)).
    { unfold rb_Size. rewrite Zlength_app. unfold Zlength. cbn [length]. lia. }
    replace ((0 <? n) && (Zlength pre <? rb_Size (pre ++ r :: s))) with true
      by (symmetry; rewrite andb_true_iff, !Z.ltb_lt; lia).
    rewrite rb_Rune_app.
    assert (Hpre : Zlength (pre ++ [r]) = Zlength pre + 1).
    { rewrite Zlength_app. reflexivity. }
    assert (Hw : wrap64 (Zlength pre + 1) = Zlength pre + 1).
    { apply wrap64_id. pose proof (Zlength_nonneg pre).
      unfold rb_Size, is_int64, min_int64, max_int64 in *. lia. }
    assert (Hn1 : wrap64 (n - 1) = n - 1).
    { apply wrap64_id. unfold is_int64, min_int64, max_int64 in *. lia. }
    rewrite Hw, Hn1, <- Hpre.
    replace (pre ++ r :: s) with ((pre ++ [r]) ++ s) in *
      by (rewrite <- app_assoc; reflexivity).
    destruct (Z.to_nat n) as [|m] eqn:Em; [lia|].
    assert (Hm : m = Z.to_nat (n - 1)) by lia.
    cbn [scan]. destruct (r =? newline).
    + destruct (0 <? n - 1) eqn:E; bool_lia; (destruct m; [try lia|try lia]);
        rewrite IH by (cbn in Hfuel; lia); rewrite <- Hm, Hpre; reflexivity.
    + rewrite IH by (cbn in Hfuel; lia). rewrite Em, Hpre. reflexivity.
Qed.

Lemma lines_nonempty rs : lines rs <> [].
Proof.
  destruct rs as [|r rs]; cbn; [discriminate|].
  destruct (r =? newline); [discriminate|].
  destruct (lines rs); discriminate.
Qed.

Lemma lines_cons r rs :
  exists l ls, lines rs = l :: ls
    /\ lines (r :: rs) = if r =? newline then [r] :: l :: ls else (r :: l) :: ls.
Proof.
  destruct (lines rs) as [|l ls] eqn:E; [now apply lines_nonempty in E|].
  exists l, ls. cbn. rewrite E. split; reflexivity.
Qed.

(** The lines of a text, put together, are the text. *)
Lemma concat_lines rs : concat (lines rs) = rs.
Proof.
  induction rs as [|r rs IH]; [reflexivity|].
  destruct (lines_cons r rs) as (l & ls & E & ->). rewrite E in IH.
  destruct (r =? newline); cbn in *; now rewrite IH.
Qed.

(** Every line but the last is a newline-free string followed by a
    newline, and the last line has no newline. *)
Lemma lines_shape rs :
  Forall (fun l => exists l0, l = l0 ++ [newline] /\ newline ∉ l0)
         (removelast (lines rs))
  /\ newline ∉ List.last (lines rs) [].
Proof.
  induction rs as [|r rs [IH1 IH2]].
  - cbn. split; [constructor|]. intros H. inversion H.
  - destruct (lines_cons r rs) as (l & ls & E & ->). rewrite E in *.
    destruct (r =? newline) eqn:Er.
    + apply Z.eqb_eq in Er. subst r. split.
      * change (removelast ([newline] :: l :: ls))
          with ([newline] :: removelast (l :: ls)).
        constructor; [|exact IH1]. exists []. split; [reflexivity|].
        intros H. inversion H.
      * exact IH2.
    + apply Z.eqb_neq in Er. destruct ls as [|l' ls].
      * cbn in *. split; [constructor|].
        intros H. apply elem_of_cons in H as [H|H]; [congruence|auto].
      * change (removelast ((r :: l) :: l' :: ls))
          with ((r :: l) :: removelast (l' :: ls)).
        change (removelast (l :: l' :: ls))
          with (l :: removelast (l' :: ls)) in IH1.
        inversion IH1 as [|? ? (l0 & -> & Hl0) IHr]; subst. split.
        -- constructor; [|exact IHr]. exists (r :: l0). split; [reflexivity|].
           intros H. apply elem_of_cons in H as [H|H]; [congruence|auto].
        -- exact IH2.
Qed.

Lemma Zlength_cons {A} (x : A) l : Zlength (x :: l) = 1 + Zlength l.
Proof. unfold Zlength. cbn [length]. lia. Qed.

Lemma scan_result_eq (n n' : nat) (f f' t t' : Z) :
  n = n' -> f = f' -> t = t' -> (n, mkAddr f t) = (n', mkAddr f' t').
Proof. now intros -> -> ->. Qed.

Lemma Zlength_nil {A} : Zlength (@nil A) = 0.
Proof. reflexivity. Qed.

Lemma scan_0 suf f t : scan suf 0 f t = (0%nat, mkAddr f t).
Proof. destruct suf; reflexivity. Qed.

Ltac zlen :=
  rewrite ?take_0; cbn [concat app];
  repeat first [rewrite Zlength_app | rewrite Zlength_cons | rewrite Zlength_nil].

(** [scan] against the lines of the runes that are left: with [n] at most
    the number of newlines it stops after line [n]; otherwise it stops at
    the end, on the last line. *)
Lemma scan_lines suf : forall n f t,
  (1 <= n)%nat ->
  scan suf n f t =
    if (n <? length (lines suf))%nat then
      (0%nat,
       mkAddr (if (n =? 1)%nat then f
               else t + Zlength (concat (take (n - 1) (lines suf))))
              (t + Zlength (concat (take n (lines suf)))))
    else
      ((n - (length (lines suf) - 1))%nat,
       mkAddr (if (length (lines suf) =? 1)%nat then f
               else t + Zlength (concat (take (length (lines suf) - 1) (lines suf))))
              (t + Zlength suf)).
Proof.
  induction suf as [|r s IH]; intros n f t Hn.
  - destruct n as [|n]; [lia|]. cbn [scan lines length].
    replace (S n <? 1)%nat with false by (symmetry; apply Nat.ltb_ge; lia).
    apply scan_result_eq; [lia|reflexivity|zlen; lia].
  - destruct n as [|n]; [lia|]. cbn [scan].
    destruct (lines_cons r s) as (l & ls & E & ->).
    destruct (r =? newline) eqn:Er.
    + (* a newline: one line fewer to go *)
      destruct n as [|n].
      * rewrite scan_0. cbn [length Nat.ltb Nat.leb Nat.eqb take concat app].
        apply scan_result_eq; [reflexivity|reflexivity|zlen; lia].
      * rewrite IH by lia. rewrite <- E. cbn [length].
        replace (S (S n) <? S (length (lines s)))%nat
          with (S n <? length (lines s))%nat by reflexivity.
        destruct (S n <? length (lines s))%nat eqn:Elt.
        -- cbn [Nat.eqb Nat.sub take concat].
           replace (n - 0)%nat with n by lia.
           apply scan_result_eq; [reflexivity| |zlen; lia].
           destruct n as [|n]; cbn [Nat.eqb take concat]; zlen; lia.
        -- apply Nat.ltb_ge in Elt.
           assert (Hl : (1 <= length (lines s))%nat).
           { rewrite E. cbn. lia. }
           replace (S (length (lines s)) - 1)%nat with (length (lines s)) by lia.
           replace (S (length (lines s)) =? 1)%nat with false
             by (symmetry; apply Nat.eqb_neq; lia).
           destruct (length (lines s)) as [|k] eqn:Ek; [lia|].
           cbn [take concat Nat.sub]. replace (k - 0)%nat with k by lia.
           apply scan_result_eq; [lia| |zlen; lia].
           destruct k as [|k]; cbn [Nat.eqb take concat]; zlen; lia.
    + (* another rune of the current line *)
      rewrite IH by lia. rewrite E. cbn [length].
      destruct (S n <? S (length ls))%nat eqn:Elt.
      * cbn [take concat].
        apply scan_result_eq; [reflexivity| |zlen; lia].
        destruct n as [|n]; cbn [Nat.eqb Nat.sub take concat]; zlen; lia.
      * cbn [Nat.sub]. replace (length ls - 0)%nat with (length ls) by lia.
        apply scan_result_eq; [reflexivity| |zlen; lia].
        destruct (length ls) as [|k] eqn:Ek; cbn [Nat.eqb take concat]; zlen; lia.
Qed.

Lemma line_range_None b n :
  (1 <= n)%nat -> line_range b n = None <-> (length (lines b) < n)%nat.
Proof.
  intros Hn. unfold line_range.
  destruct (lines b !! (n - 1)%nat) as [l|] eqn:E.
  - apply lookup_lt_Some in E. split; [discriminate|lia].
  - apply lookup_ge_None in E. split; [lia|reflexivity].
Qed.

Lemma line_range_Some b n l :
  lines b !! (n - 1)%nat = Some l -> (1 <= n)%nat ->
  line_range b n =
    Some (mkAddr (Zlength (concat (take (n - 1) (lines b))))
                 (Zlength (concat (take n (lines b))))).
Proof.
  intros E Hn. unfold line_range. rewrite E. do 2 f_equal.
  replace n with (S (n - 1)) at 2 by lia.
  rewrite (take_S_r _ _ _ E), concat_app, Zlength_app. cbn [concat].
  rewrite app_nil_r. reflexivity.
Qed.

(** C7. From offset 0, the forward line address [line(n)] with [n >= 1]
    evaluates to the range of the [n]th line of the buffer, through its
    newline, and to the error "line address out of range" exactly when the
    buffer has fewer than [n] lines; [line(0)] evaluates to [(0, 0)].  The
    loops end within one step per rune of the buffer. *)
Theorem lineAddr_fwd_from_start (b : list Z) (fuel : nat) :
  Zlength b <= max_int64 -> (length b < fuel)%nat ->
  (forall n, 1 <= n <= max_int64 ->
     lineAddr_fwd fuel n 0 b =
       Some (match line_range b (Z.to_nat n) with
             | Some a => Ok a
             | None => Err ErrLineRange
             end))
  /\ (forall n, (1 <= n)%nat ->
        line_range b n = None <-> (length (lines b) < n)%nat)
  /\ lineAddr_fwd fuel 0 0 b = Some (Ok (mkAddr 0 0)).
Proof.
  intros Hlen Hfuel. split; [|split].
  - intros n Hn. unfold lineAddr_fwd. cbn [to from].
    change (0 <? 0) with false. cbv iota.
    pose proof (fwd_lines_scan b [] n 0 fuel) as Hscan.
    cbn [app] in Hscan. change (Zlength (@nil Z)) with 0 in Hscan.
    rewrite Hscan by (try assumption; lia). clear Hscan.
    assert (Hn' : (1 <= Z.to_nat n)%nat) by lia.
    rewrite (scan_lines b (Z.to_nat n) 0 0 Hn').
    set (k := Z.to_nat n) in *.
    destruct (k <? length (lines b))%nat eqn:Elt.
    + apply Nat.ltb_lt in Elt. cbn [fst snd to].
      destruct (lines b !! (k - 1)%nat) as [l|] eqn:El;
        [|apply lookup_ge_None in El; lia].
      rewrite (line_range_Some b k l El Hn'). cbn.
      do 3 f_equal. destruct (k =? 1)%nat eqn:Ek; [|lia].
      apply Nat.eqb_eq in Ek. rewrite Ek. reflexivity.
    + apply Nat.ltb_ge in Elt. cbn [fst snd to].
      assert (Hl : (1 <= length (lines b))%nat).
      { pose proof (lines_nonempty b). destruct (lines b); [easy|cbn; lia]. }
      unfold rb_Size. rewrite Z.ltb_irrefl, andb_false_r, orb_false_r.
      destruct (Nat.eq_dec k (length (lines b))) as [Heq|Hne].
      * replace (Z.of_nat (k - (length (lines b) - 1))) with 1 by lia.
        change (1 <? 1) with false. cbv iota.
        destruct (lines b !! (k - 1)%nat) as [l|] eqn:El;
          [|apply lookup_ge_None in El; lia].
        rewrite (line_range_Some b k l El Hn').
        rewrite (take_ge (lines b) k) by lia. rewrite concat_lines.
        rewrite Heq. do 3 f_equal.
        destruct (length (lines b) =? 1)%nat eqn:E1; [|lia].
        apply Nat.eqb_eq in E1. rewrite E1. reflexivity.
      * replace (1 <? Z.of_nat (k - (length (lines b) - 1))) with true
          by (symmetry; apply Z.ltb_lt; lia).
        assert (Hnone : line_range b k = None).
        { apply line_range_None; lia. }
        rewrite Hnone. reflexivity.
  - intros n Hn. now apply line_range_None.
  - destruct fuel as [|fuel]; [lia|]. reflexivity.
Qed.

Lemma lineAddr_fwd_from_start_witness :
  let b := [97; 97; 10; 98; 98] in
  (forall n, 1 <= n <= max_int64 ->
     lineAddr_fwd 6 n 0 b =
       Some (match line_range b (Z.to_nat n) with
             | Some a => Ok a
             | None => Err ErrLineRange
             end))
  /\ (forall n, (1 <= n)%nat ->
        line_range b n = None <-> (length (lines b) < n)%nat)
  /\ lineAddr_fwd 6 0 0 b = Some (Ok (mkAddr 0 0)).
Proof.
  apply (lineAddr_fwd_from_start [97; 97; 10; 98; 98] 6).
  - vm_compute. discriminate.
  - cbn. lia.
Defined.

(** ** Printing and parsing addresses *)

(** Cases of [TestAddr]. *)
Example Addr_tests :
  Addr 20 (runes_of "#12345xyz")
  = Some (Some (Simple (Rune 12345)), runes_of "xyz", None)
  /\ Addr 20 [32; 49; 9; 10; 9; 120; 121; 122]
     = Some (Some (Simple (Line 1)), [9; 120; 121; 122], None)
  /\ Addr 20 (runes_of "/abc/def")
     = Some (Some (Simple (Regexp (runes_of "/abc/"))), runes_of "def", None)
  /\ Addr 20 (runes_of " ' a") = Some (Some (Simple (Mark 97)), [], None)
  /\ Addr 20 (runes_of "+") = Some (Some (Plus (Simple Dot) (Line 1)), [], None)
  /\ Addr 20 (runes_of "$ - #5 + #3")
     = Some (Some (Plus (Minus (Simple End) (Rune 5)) (Rune 3)), [], None)
  /\ Addr 20 (runes_of ",-#5")
     = Some (Some (To (Simple (Line 0)) (Minus (Simple Dot) (Rune 5))), [], None)
  /\ Addr 20 (runes_of ";,")
     = Some (Some (Then (Simple (Line 0)) (To (Simple (Line 0)) (Simple End))),
             [], None)
  /\ Addr 20 (runes_of "/abc/1")
     = Some (Some (Plus (Simple (Regexp (runes_of "/abc/"))) (Line 1)), [], None)
  /\ Addr 20 (runes_of "'") = Some (None, [], Some ErrBadMark)
  /\ Addr 40 (runes_of "#92233720368547758070")
     = Some (None, [], Some ErrValueOutOfRange).
Proof. vm_compute. repeat split. Qed.

(** Cases of [TestAddressString] and [TestRegexpString]. *)
Example String_tests :
  Address_String (Simple (Rune (-100))) = runes_of "-#100"
  /\ Addr 20 (Address_String (Simple (Rune (-100))))
     = Some (Some (Minus (Simple Dot) (Rune 100)), [], None)
  /\ Addr 20 (Address_String (Simple (Line (-100))))
     = Some (Some (Minus (Simple Dot) (Line 100)), [], None)
  /\ Addr 20 (Address_String All) = Some (Some All, [], None)
  /\ Addr 20 (Address_String (Plus (Minus (Simple Dot) (Line 1)) (Line 1)))
     = Some (Some (Plus (Minus (Simple Dot) (Line 1)) (Line 1)), [], None)
  /\ simple_String (Regexp (runes_of "/abc\/")) = runes_of "/abc\//"
  /\ simple_String (Regexp (runes_of "/abc/")) = runes_of "/abc/"
  /\ simple_String (Regexp []) = runes_of "//"
  /\ simple_String (Regexp (runes_of "/")) = runes_of "//".
Proof. vm_compute. repeat split. Qed.

(** C9 at [Rune(2).Plus(Rune(-1))], an address of [TestPlusAddress]: its
    string is ["#2+-#1"], which [Addr] parses without error as
    [Rune(2).Plus(Line(1)).Minus(Rune(1))] -- the [+] gets the default
    operand [Line(1)] and the [-] becomes a subtraction -- so the parsed
    address is neither the printed one nor its rewrite with an implicit
    dot. *)
Theorem String_of_Plus_negative_reparses_differently :
  let a := Plus (Simple (Rune 2)) (Rune (-1)) in
  Address_String a = runes_of "#2+-#1"
  /\ Addr 20 (Address_String a)
     = Some (Some (Minus (Plus (Simple (Rune 2)) (Line 1)) (Rune 1)), [], None)
  /\ Addr 20 (Address_String a) <> Some (Some a, [], None)
  /\ Addr 20 (Address_String a)
     <> Some (Some (Plus (Simple (Rune 2)) (Rune 1)), [], None).
Proof. vm_compute. repeat split; intros H; discriminate H. Qed.

(** The same happens to a chain of [To]: the parser nests it to the
    right. *)
Lemma String_of_To_chain_reparses_differently :
  let a := To (To (Simple (Line 0)) (Simple (Line 1))) (Simple (Line 2)) in
  Address_String a = runes_of "0,1,2"
  /\ Addr 20 (Address_String a)
     = Some (Some (To (Simple (Line 0)) (To (Simple (Line 1)) (Simple (Line 2)))),
             [], None).
Proof. vm_compute. repeat split. Qed.

(** ** Regular expressions *)

(** Cases of [TestRegexpAddress] on ["Hello, 世界!"]. *)
Example reAddr_whereFrom_tests :
  reAddr_whereFrom 40 false (runes_of "/") 0 hello = Some (Ok (mkAddr 0 0))
  /\ reAddr_whereFrom 40 false (runes_of "/H/") 0 hello = Some (Ok (mkAddr 0 1))
  /\ reAddr_whereFrom 40 false (runes_of "/./") 0 hello = Some (Ok (mkAddr 0 1))
  /\ reAddr_whereFrom 40 false [47; 19990; 30028; 47] 0 hello = Some (Ok (mkAddr 7 9))
  /\ reAddr_whereFrom 40 false (runes_of "/[^!]+/") 0 hello = Some (Ok (mkAddr 0 9))
  /\ reAddr_whereFrom 40 true (runes_of "?") 10 hello = Some (Ok (mkAddr 10 10))
  /\ reAddr_whereFrom 40 true (runes_of "?!?") 10 hello = Some (Ok (mkAddr 9 10))
  /\ reAddr_whereFrom 40 true (runes_of "?H?") 10 hello = Some (Ok (mkAddr 0 1))
  /\ reAddr_whereFrom 40 true (runes_of "?[^!]+?") 10 hello = Some (Ok (mkAddr 0 9))
  /\ reAddr_whereFrom 40 true [63; 19990; 30028; 63] 0 hello = Some (Ok (mkAddr 7 9))
  /\ reAddr_whereFrom 40 false [47; 19990; 30028; 47] 8 hello = Some (Ok (mkAddr 7 9))
  /\ reAddr_whereFrom 40 false (runes_of "/()/") 0 [] = Some (Err (ErrParse 1))
  /\ reAddr_whereFrom 40 false [47; 9786; 47] 0 hello = Some (Err ErrNoMatch)
  /\ reAddr_whereFrom 40 true [63; 9786; 63] 0 hello = Some (Err ErrNoMatch).
Proof. vm_compute. repeat split. Qed.

Lemma run_bind_Done {A B} (r : run A) (k : A -> run B) b :
  (r ≫= k) = Done b -> exists a, r = Done a /\ k a = Done b.
Proof. destruct r as [a|]; [|discriminate]. intros H. now exists a. Qed.

Tactic Notation "run_inv" hyp(H) "as" ident(a) ident(Ha) :=
  apply run_bind_Done in H; destruct H as (a & Ha & H).

Lemma upd_Done {A} (l : list A) i x l' :
  upd l i x = Done l' -> l' = <[i := x]> l /\ (i < length l)%nat.
Proof.
  unfold upd. destruct (i <? length l)%nat eqn:E; [|discriminate].
  intros [= <-]. apply Nat.ltb_lt in E. now split.
Qed.

Lemma idx_Done {A} (l : list A) i x : idx l i = Done x -> l !! i = Some x.
Proof. unfold idx. destruct (l !! i); [now intros [= ->]|discriminate]. Qed.

Lemma put_state_length l k to_ es l' :
  put_state l k to_ es = Done l' -> length l' = length l /\ (k < length l)%nat.
Proof.
  unfold put_state. intros H. run_inv H as o Ho. apply upd_Done in H as [-> Hk].
  now rewrite length_insert.
Qed.

Lemma unseen_le l : (unseen l <= length l)%nat.
Proof. induction l as [|[] l IH]; cbn; lia. Qed.

Lemma unseen_insert l i :
  l !! i = Some false -> S (unseen (<[i := true]> l)) = unseen l.
Proof.
  revert i. induction l as [|b l IH]; intros i H; [destruct i; discriminate|].
  destruct i as [|i].
  - injection H as ->. reflexivity.
  - change (<[S i := true]> (b :: l)) with (b :: <[i := true]> l).
    change ((b :: l) !! S i) with (l !! i) in H.
    specialize (IH i H). cbn [unseen]. destruct b; lia.
Qed.

Lemma unseen_insert_le l i : (unseen (<[i := true]> l) <= unseen l)%nat.
Proof.
  revert i. induction l as [|b l IH]; intros i; [destruct i; cbn; lia|].
  destruct i as [|i].
  - change (<[0%nat := true]> (b :: l)) with (true :: l).
    cbn [unseen]. destruct b; lia.
  - change (<[S i := true]> (b :: l)) with (b :: <[i := true]> l).
    specialize (IH i). cbn [unseen]. destruct b; lia.
Qed.

(** Marking a node keeps the machine but for [seen]. *)
Lemma seen_set_Done re m p m' :
  seen_set re m p = Done m' ->
  exists seen, m' = set_seen seen m
    /\ length seen = length (m_seen m)
    /\ (unseen seen <= unseen (m_seen m))%nat.
Proof.
  unfold seen_set. intros H. run_inv H as nd Hnd. run_inv H as seen Hseen.
  injection H as <-.
  unfold updZ in Hseen. destruct (nd_n nd <? 0); [discriminate|].
  apply upd_Done in Hseen as [-> Hlt].
  eexists. split; [reflexivity|]. split.
  - apply length_insert.
  - apply unseen_insert_le.
Qed.

(** Marking a node that was not marked leaves one node fewer to mark. *)
Lemma seen_get_set re m p m' :
  seen_get re m p = Done false -> seen_set re m p = Done m' ->
  S (unseen (m_seen m')) = unseen (m_seen m).
Proof.
  unfold seen_get, seen_set. intros Hg Hs.
  run_inv Hg as nd Hnd. run_inv Hs as nd' Hnd'.
  rewrite Hnd in Hnd'. injection Hnd' as <-.
  run_inv Hs as seen Hseen. injection Hs as <-.
  unfold idxZ in Hg. unfold updZ in Hseen.
  destruct (nd_n nd <? 0); [discriminate|].
  apply idx_Done in Hg. apply upd_Done in Hseen as [-> _].
  cbn [m_seen set_seen]. now apply unseen_insert.
Qed.

Lemma keeps_refl m : keeps m m.
Proof. now repeat split. Qed.

Lemma keeps_trans m1 m2 m3 : keeps m1 m2 -> keeps m2 m3 -> keeps m1 m3.
Proof.
  unfold keeps. intros (H1 & H2 & H3 & H4) (H5 & H6 & H7 & H8).
  repeat split; congruence.
Qed.

(** One edge in [εclose]: what is kept, and the measure [nopen + 2 *
    unseen] of the loop does not grow. *)
Lemma eclose_edge_keeps re p c e m n adv m' n' adv' :
  eclose_edge re p c e (m, n, adv) = Done (m', n', adv') ->
  keeps m m' /\ m_s m' = m_s m
  /\ (n' + 2 * unseen (m_seen m') <= n + 2 * unseen (m_seen m))%nat.
Proof.
  unfold eclose_edge. destruct (e_to e) as [t|]; cbn [negb andb].
  2:{ intros [= <- <- <-]. split; [apply keeps_refl|]. split; [reflexivity|lia]. }
  destruct (edge_epsilon e); cbn [negb].
  2:{ intros [= <- <- <-]. split; [apply keeps_refl|]. split; [reflexivity|lia]. }
  intros H. run_inv H as sn Hsn. destruct sn.
  { injection H as <- <- <-. split; [apply keeps_refl|]. split; [reflexivity|lia]. }
  run_inv H as m1 Hm1.
  pose proof (seen_get_set _ _ _ _ Hsn Hm1) as Hun.
  apply seen_set_Done in Hm1 as (seen & -> & Hlen & _).
  destruct (_ || _).
  - run_inv H as open Hopen. injection H as <- <- <-.
    apply put_state_length in Hopen as [Hopen _].
    cbn in *. repeat split; try assumption; lia.
  - injection H as <- <- <-. cbn in *. repeat split; try assumption; lia.
Qed.

(** One pass of the loop of [εclose]: the measure goes down. *)
Lemma eclose_body_keeps re p c m k nc m' n' nc' :
  eclose_body re p c m k nc = Done (m', n', nc') ->
  keeps m m'
  /\ (n' + 2 * unseen (m_seen m') <= k + 2 * unseen (m_seen m))%nat.
Proof.
  unfold eclose_body. intros H.
  run_inv H as o Ho. run_inv H as nd Hnd. run_inv H as es Hes.
  run_inv H as is_match Hmatch. destruct is_match.
  - run_inv H as mes Hmes. injection H as <- <- <-.
    cbn. split; [now repeat split|lia].
  - run_inv H as r0 Hr0. destruct r0 as [[m0 n0] adv0].
    run_inv H as r1 Hr1. destruct r1 as [[m1 n1] adv1].
    apply eclose_edge_keeps in Hr0 as (K0 & _ & M0).
    apply eclose_edge_keeps in Hr1 as (K1 & _ & M1).
    assert (K : keeps m m1).
    { eapply keeps_trans; [|exact K1].
      eapply keeps_trans; [|exact K0]. now repeat split. }
    cbn [m_seen set_s] in M0.
    destruct adv1.
    + run_inv H as closed Hclosed. injection H as <- <- <-.
      split; [|cbn; lia]. destruct K as (? & ? & ? & ?). now repeat split.
    + injection H as <- <- <-. split; [exact K|lia].
Qed.

(** The loop of [εclose] ends within [nopen + 2 * unseen] passes. *)
Lemma eclose_loop_total re p c fuel : forall m nopen nc,
  (nopen + 2 * unseen (m_seen m) < fuel)%nat ->
  exists r, eclose_loop fuel re p c m nopen nc = Some r
    /\ (forall m' n, r = Done (m', n) -> keeps m m' /\ (nopen = 0%nat -> n = nc)).
Proof.
  induction fuel as [|fuel IH]; intros m nopen nc Hfuel; [lia|].
  cbn [eclose_loop]. destruct nopen as [|k].
  - eexists. split; [reflexivity|]. intros m' n [= <- <-].
    split; [apply keeps_refl|reflexivity].
  - destruct (eclose_body re p c m k nc) as [[[m1 n1] nc1]|] eqn:Hbody.
    + apply eclose_body_keeps in Hbody as [K M].
      destruct (IH m1 n1 nc1) as (r & Hr & Hk); [lia|].
      exists r. split; [exact Hr|]. intros m' n Hdone.
      destruct (Hk m' n Hdone) as [K' _].
      split; [eapply keeps_trans; eassumption|discriminate].
    + eexists. split; [reflexivity|]. discriminate.
Qed.

Lemma mark_open_Done re k : forall m i m',
  mark_open re m i k = Done m' ->
  (k = 0%nat \/ i + k <= length (m_open m))%nat
  /\ keeps m m' /\ m_open m' = m_open m.
Proof.
  induction k as [|k IH]; intros m i m'; cbn [mark_open].
  - intros [= <-]. split; [now left|]. split; [apply keeps_refl|reflexivity].
  - intros H. run_inv H as o Ho. run_inv H as m1 Hm1.
    apply idx_Done, lookup_lt_Some in Ho.
    apply seen_set_Done in Hm1 as (seen & -> & Hlen & _).
    apply IH in H as (Hk & K & Hopen). cbn in *.
    split; [right; destruct Hk; lia|].
    split; [|exact Hopen].
    destruct K as (? & ? & ? & ?). unfold keeps. cbn in *.
    repeat split; congruence.
Qed.

Lemma length_clear_seen m : length (m_seen (clear_seen m)) = length (m_seen m).
Proof. cbn. apply length_map. Qed.

(** [εclose] ends when it has fuel for the sizes of the arrays. *)
Lemma eclose_total re p c efuel m nopen :
  (length (m_open m) + 2 * length (m_seen m) < efuel)%nat ->
  exists r, eclose efuel re p c m nopen = Some r
    /\ (forall m' n, r = Done (m', n) -> keeps m m' /\ (nopen = 0%nat -> n = 0%nat)).
Proof.
  intros Hfuel. unfold eclose.
  destruct (mark_open re (clear_seen m) 0 nopen) as [m1|] eqn:Hmark.
  - apply mark_open_Done in Hmark as (Hk & K & Hopen).
    assert (K0 : keeps m m1).
    { destruct K as (? & Hs & ? & ?). rewrite length_clear_seen in Hs.
      now repeat split. }
    destruct (eclose_loop_total re p c efuel m1 nopen 0) as (r & Hr & Hdone).
    { destruct K0 as (Ho & Hs & _). pose proof (unseen_le (m_seen m1)).
      cbn in Hk. rewrite <- Ho in Hfuel. rewrite Hopen in *. cbn in *.
      destruct Hk; lia. }
    exists r. split; [exact Hr|]. intros m' n Hd.
    destruct (Hdone m' n Hd) as [K' Hn].
    split; [eapply keeps_trans; eassumption|exact Hn].
  - eexists. split; [reflexivity|]. discriminate.
Qed.

(** At the end of the text no edge that reads a rune can be taken. *)
Lemma edge_ok_eof e p :
  edge_wf e -> edge_epsilon e = false -> edge_ok e p eof = false.
Proof.
  unfold edge_wf, edge_epsilon, edge_ok.
  destruct (e_label e) as [[|r| | |rs rg ng]|];
    cbn [label_epsilon label_ok]; try discriminate; try reflexivity.
  intros Hr _. apply Z.eqb_neq. unfold eof. lia.
Qed.

Lemma advance_edge_keeps re p c es e m n m' n' :
  advance_edge re p c es e (m, n) = Done (m', n') ->
  keeps m m' /\ (edge_wf e -> c = eof -> n' = n).
Proof.
  unfold advance_edge. destruct (e_to e) as [t|].
  2:{ intros [= <- <-]. split; [apply keeps_refl|reflexivity]. }
  intros H. run_inv H as sn Hsn.
  destruct (negb sn && negb (edge_epsilon e) && edge_ok e p c) eqn:Hcond.
  - run_inv H as m1 Hm1. run_inv H as open Hopen. injection H as <- <-.
    apply seen_set_Done in Hm1 as (seen & -> & Hlen & _).
    apply put_state_length in Hopen as [Hopen _]. cbn in *.
    split; [now repeat split|].
    intros Hwf ->. exfalso.
    apply andb_true_iff in Hcond as [Hcond Hok].
    apply andb_true_iff in Hcond as [_ Heps].
    apply negb_true_iff in Heps.
    rewrite (edge_ok_eof e p Hwf Heps) in Hok. discriminate.
  - injection H as <- <-. split; [apply keeps_refl|reflexivity].
Qed.

Lemma deref_wf nodes p nd :
  Forall node_wf nodes -> deref nodes p = Done nd -> node_wf nd.
Proof.
  intros Hwf. destruct p as [i|]; [|discriminate]. cbn. intros H.
  apply idx_Done in H. eapply Forall_lookup_1; eassumption.
Qed.

Lemma advance_loop_keeps re p c k : forall m i n m' n',
  advance_loop re p c m i k n = Done (m', n') ->
  keeps m m' /\ (Forall node_wf (re_nodes re) -> c = eof -> n' = n).
Proof.
  induction k as [|k IH]; intros m i n m' n'; cbn [advance_loop].
  - intros [= <- <-]. split; [apply keeps_refl|reflexivity].
  - intros H. run_inv H as s Hs. run_inv H as nd Hnd.
    run_inv H as r0 Hr0. destruct r0 as [m0 n0].
    run_inv H as r1 Hr1. destruct r1 as [m1 n1]. cbn [fst snd] in H.
    apply advance_edge_keeps in Hr0 as [K0 E0].
    apply advance_edge_keeps in Hr1 as [K1 E1].
    apply IH in H as [K E].
    split.
    + eapply keeps_trans; [|exact K]. eapply keeps_trans; eassumption.
    + intros Hwf Hc. destruct (deref_wf _ _ _ Hwf Hnd) as [W0 W1].
      rewrite (E Hwf Hc), (E1 W1 Hc), (E0 W0 Hc). reflexivity.
Qed.

(** [advance] at the end of the text opens no state. *)
Lemma advance_keeps re p c m nc m' n' :
  advance re p c m nc = Done (m', n') ->
  keeps m m' /\ (Forall node_wf (re_nodes re) -> c = eof -> n' = 0%nat).
Proof.
  unfold advance. intros H. apply advance_loop_keeps in H as [K E].
  split; [|exact E].
  destruct K as (? & Hs & ? & ?). rewrite length_clear_seen in Hs.
  now repeat split.
Qed.

Lemma rb_Rune_in_range (b : list Z) i :
  0 <= i < rb_Size b -> exists r, rb_Rune b i = Ok r.
Proof.
  unfold rb_Rune, rb_Size, Zlength. intros Hi.
  replace (0 <=? i) with true by (symmetry; apply Z.leb_le; lia).
  destruct (b !! Z.to_nat i) as [r|] eqn:E; [now exists r|].
  apply lookup_ge_None in E. lia.
Qed.

(** A read keeps the text; within the text it sets no error. *)
Lemma Runes_Rune_keeps rs i :
  rs_buf (fst (Runes_Rune rs i)) = rs_buf rs
  /\ rs_rev (fst (Runes_Rune rs i)) = rs_rev rs
  /\ (Runes_Size rs < max_int64 -> 0 <= i < Runes_Size rs ->
      rs_err rs = None -> rs_err (fst (Runes_Rune rs i)) = None).
Proof.
  assert (Hf : forall j,
    rs_buf (fst (forward_Rune rs j)) = rs_buf rs
    /\ rs_rev (fst (forward_Rune rs j)) = rs_rev rs
    /\ (0 <= j < Runes_Size rs -> rs_err rs = None ->
        rs_err (fst (forward_Rune rs j)) = None)).
  { intros j. unfold forward_Rune. destruct (rs_err rs) as [e|] eqn:Ee.
    - now repeat split.
    - destruct (rb_Rune (rs_buf rs) j) as [r|e|] eqn:Er; cbn;
        repeat split; try assumption; intros Hj _; try assumption.
      destruct (rb_Rune_in_range (rs_buf rs) j Hj) as [r' Hr'].
      congruence. }
  unfold Runes_Rune. destruct (rs_rev rs).
  - destruct (Hf (wrap64 (wrap64 (Runes_Size rs - i) - 1))) as (H1 & H2 & H3).
    repeat split; try assumption. intros Hsz Hi Herr. apply H3; [|exact Herr].
    pose proof (Zlength_nonneg (rs_buf rs)).
    unfold Runes_Size, rb_Size, max_int64 in *.
    rewrite (wrap64_id (Zlength (rs_buf rs) - i))
      by (unfold is_int64, min_int64, max_int64; lia).
    rewrite wrap64_id by (unfold is_int64, min_int64, max_int64; lia). lia.
  - destruct (Hf i) as (H1 & H2 & H3). repeat split; try assumption.
    intros _. exact H3.
Qed.

Lemma Runes_Size_shape rs rs' :
  rs_buf rs' = rs_buf rs -> Runes_Size rs' = Runes_Size rs.
Proof. unfold Runes_Size. now intros ->. Qed.

(** [runes()] keeps the machine but for the error of the view; at or past
    the end the current rune is -1; from a position in [0, size] it sets
    no error. *)
Lemma mach_runes_keeps m :
  let m' := fst (mach_runes m) in
  let c := snd (snd (mach_runes m)) in
  same_shape m m' /\ m_at m' = m_at m
  /\ (Runes_Size (m_rs m) <= m_at m -> c = eof)
  /\ (Runes_Size (m_rs m) < max_int64 -> 0 <= m_at m <= Runes_Size (m_rs m) ->
      rs_err (m_rs m) = None -> rs_err (m_rs m') = None).
Proof.
  unfold mach_runes.
  set (r1 := if (0 <? m_at m) && (wrap64 (m_at m - 1) <? Runes_Size (m_rs m))
             then Runes_Rune (m_rs m) (wrap64 (m_at m - 1))
             else (m_rs m, eof)).
  assert (H1 : rs_buf (fst r1) = rs_buf (m_rs m)
               /\ rs_rev (fst r1) = rs_rev (m_rs m)
               /\ (Runes_Size (m_rs m) < max_int64 ->
                   0 <= m_at m <= Runes_Size (m_rs m) ->
                   rs_err (m_rs m) = None -> rs_err (fst r1) = None)).
  { unfold r1.
    destruct ((0 <? m_at m) && (wrap64 (m_at m - 1) <? Runes_Size (m_rs m)))
      eqn:E; [|now repeat split].
    destruct (Runes_Rune_keeps (m_rs m) (wrap64 (m_at m - 1))) as (Hb & Hr & He).
    repeat split; try assumption. intros Hsz Hat Herr. apply He; try assumption.
    apply andb_true_iff in E as [E1 E2]. bool_lia.
    rewrite wrap64_id in E2 |- *
      by (unfold is_int64, min_int64, max_int64 in *; lia). lia. }
  destruct r1 as [rs1 p]. cbn [fst] in H1. destruct H1 as (Hb1 & Hr1 & He1).
  pose proof (Runes_Size_shape _ _ Hb1) as Hsz1.
  set (r2 := if m_at m <? Runes_Size rs1 then Runes_Rune rs1 (m_at m)
             else (rs1, eof)).
  assert (H2 : rs_buf (fst r2) = rs_buf rs1 /\ rs_rev (fst r2) = rs_rev rs1
               /\ (Runes_Size (m_rs m) <= m_at m -> snd r2 = eof)
               /\ (Runes_Size (m_rs m) < max_int64 ->
                   0 <= m_at m <= Runes_Size (m_rs m) ->
                   rs_err rs1 = None -> rs_err (fst r2) = None)).
  { unfold r2. destruct (m_at m <? Runes_Size rs1) eqn:E.
    - destruct (Runes_Rune_keeps rs1 (m_at m)) as (Hb & Hr & He).
      repeat split; try assumption.
      + intros Hge. bool_lia. lia.
      + intros Hsz Hat Herr. apply He; try assumption; bool_lia; lia.
    - now repeat split. }
  destruct r2 as [rs2 c]. cbn [fst snd] in *.
  destruct H2 as (Hb2 & Hr2 & Hc & He2).
  unfold same_shape. cbn. repeat split; try congruence; auto.
Qed.

Lemma same_shape_refl m : same_shape m m.
Proof. now repeat split. Qed.

Lemma same_shape_trans m1 m2 m3 :
  same_shape m1 m2 -> same_shape m2 m3 -> same_shape m1 m3.
Proof.
  unfold same_shape. intros (H1 & H2 & H3 & H4) (H5 & H6 & H7 & H8).
  repeat split; congruence.
Qed.

Lemma keeps_same_shape m m' : keeps m m' -> same_shape m m'.
Proof.
  unfold keeps, same_shape. intros (H1 & H2 & H3 & H4).
  repeat split; congruence.
Qed.

Lemma same_shape_Size m m' :
  same_shape m m' -> Runes_Size (m_rs m') = Runes_Size (m_rs m).
Proof. intros (_ & _ & Hb & _). now apply Runes_Size_shape. Qed.

(** The loop of [match()] ends: it moves on by one rune per pass, and past
    the end of the text every state set is empty. *)
Lemma match_loop_total re efuel :
  Forall node_wf (re_nodes re) ->
  forall fuel m p c nopen,
  (length (m_open m) + 2 * length (m_seen m) < efuel)%nat ->
  Runes_Size (m_rs m) < max_int64 ->
  (0 <= m_at m <= Runes_Size (m_rs m)
   /\ (m_at m = Runes_Size (m_rs m) -> c = eof)
   /\ Runes_Size (m_rs m) - m_at m + 2 <= Z.of_nat fuel)
  \/ (nopen = 0%nat /\ (1 <= fuel)%nat) ->
  exists r, match_loop efuel fuel re m p c nopen = Some r
    /\ (forall m' es, r = Done (m', es) ->
          same_shape m m'
          /\ (rs_err (m_rs m) = None -> rs_err (m_rs m') = None)).
Proof.
  intros Hwf. induction fuel as [|fuel IH]; intros m p c nopen Hef Hsz Hinv.
  { exfalso. destruct Hinv as [(H1 & _ & H2)|[_ H]]; lia. }
  cbn [match_loop].
  destruct (eclose_total re p c efuel m nopen Hef) as (r0 & -> & Hr0).
  destruct r0 as [[m1 nc]|]; [|eexists; split; [reflexivity|discriminate]].
  destruct (Hr0 m1 nc eq_refl) as [K1 Hnc].
  destruct nc as [|nc].
  { eexists. split; [reflexivity|]. intros m' es [= <- _].
    split; [now apply keeps_same_shape|].
    destruct K1 as (_ & _ & -> & _). auto. }
  destruct Hinv as [(Hat & Hc & Hfuel)|[-> _]]; [|now specialize (Hnc eq_refl)].
  destruct (advance re p c m1 (S nc)) as [[m2 n2]|] eqn:Hadv;
    [|eexists; split; [reflexivity|discriminate]].
  apply advance_keeps in Hadv as [K2 Heof].
  pose proof (keeps_trans _ _ _ K1 K2) as K.
  set (m3 := set_at (wrap64 (m_at m2 + 1)) m2).
  destruct (mach_runes_keeps m3) as (S3 & Hat3 & Hc3 & He3).
  destruct (mach_runes m3) as [m4 [p' c']] eqn:Hm4. cbn [fst snd] in *.
  destruct K as (Ko & Ks & Krs & Kat).
  assert (Hat2 : wrap64 (m_at m2 + 1) = m_at m + 1).
  { rewrite Kat. apply wrap64_id.
    unfold is_int64, min_int64, max_int64 in *. lia. }
  assert (Hsz3 : Runes_Size (m_rs m3) = Runes_Size (m_rs m)).
  { unfold m3. cbn. now rewrite Krs. }
  assert (Hm3at : m_at m3 = m_at m + 1) by (unfold m3; cbn; exact Hat2).
  assert (S4 : same_shape m m4).
  { eapply same_shape_trans; [|exact S3].
    unfold same_shape, m3. cbn. repeat split; congruence. }
  pose proof (same_shape_Size _ _ S4) as Hsz4.
  destruct (IH m4 p' c' n2) as (r & Hr & Hdone).
  - destruct S4 as (-> & -> & _). exact Hef.
  - rewrite Hsz4. exact Hsz.
  - rewrite Hsz4, Hat3, Hm3at.
    destruct (Z.eq_dec (m_at m) (Runes_Size (m_rs m))) as [Heq|Hne].
    + right. split; [apply Heof; auto|lia].
    + left. split; [lia|]. split; [|lia].
      intros Hend. apply Hc3. rewrite Hsz3, Hm3at. lia.
  - exists r. split; [exact Hr|]. intros m' es Hd.
    destruct (Hdone m' es Hd) as [S5 E5].
    split; [eapply same_shape_trans; eassumption|].
    intros Herr. apply E5.
    destruct (Z.eq_dec (m_at m) (Runes_Size (m_rs m))) as [Heq|Hne].
    + (* past the end nothing is read *)
      assert (Hrs4 : m_rs m4 = m_rs m3).
      { unfold mach_runes in Hm4.
        replace ((0 <? m_at m3) && (wrap64 (m_at m3 - 1) <? Runes_Size (m_rs m3)))
          with false in Hm4.
        - replace (m_at m3 <? Runes_Size (m_rs m3)) with false in Hm4
            by (symmetry; apply Z.ltb_ge; lia).
          now injection Hm4 as <- _ _.
        - symmetry. apply andb_false_iff. right. apply Z.ltb_ge.
          rewrite wrap64_id
            by (unfold is_int64, min_int64, max_int64 in *; lia). lia. }
      rewrite Hrs4. unfold m3. cbn. now rewrite Krs.
    + apply He3; [lia|lia|]. unfold m3. cbn. now rewrite Krs.
Qed.

(** [match()] returns from every position in [0, size]. *)
Lemma mach_match_total re fuel m :
  Forall node_wf (re_nodes re) ->
  (length (m_open m) + 2 * length (m_seen m) < fuel)%nat ->
  Runes_Size (m_rs m) < max_int64 ->
  0 <= m_at m <= Runes_Size (m_rs m) ->
  Runes_Size (m_rs m) + 2 <= Z.of_nat fuel ->
  exists r, mach_match fuel re m = Some r
    /\ (forall m' es, r = Done (m', es) ->
          same_shape m m'
          /\ (rs_err (m_rs m) = None -> rs_err (m_rs m') = None)).
Proof.
  intros Hwf Hef Hsz Hat Hfuel. unfold mach_match.
  destruct (mach_runes_keeps m) as (S1 & Hat1 & Hc1 & He1).
  destruct (mach_runes m) as [m1 [p c]]. cbn [fst snd] in *.
  pose proof (same_shape_Size _ _ S1) as Hsz1.
  destruct (match m_l0 m1 with Some l => negb (label_ok l p c) | None => false end).
  { eexists. split; [reflexivity|]. intros m' es [= <- _]. auto. }
  destruct (idx (m_open m1) 0 ≫= _) as [open|] eqn:Hopen;
    [|eexists; split; [reflexivity|discriminate]].
  run_inv Hopen as o Ho. apply upd_Done in Hopen as [-> _].
  set (m2 := set_open _ m1).
  assert (S2 : same_shape m m2).
  { eapply same_shape_trans; [exact S1|].
    unfold same_shape, m2. cbn. rewrite length_insert. now repeat split. }
  pose proof (same_shape_Size _ _ S2) as Hsz2.
  destruct (match_loop_total re fuel Hwf fuel m2 p c 1) as (r & Hr & Hdone).
  - destruct S2 as (-> & -> & _). exact Hef.
  - rewrite Hsz2. exact Hsz.
  - left. rewrite Hsz2. unfold m2. cbn [m_at set_open]. rewrite Hat1.
    split; [exact Hat|]. split; [|lia]. intros Heq. apply Hc1. lia.
  - exists r. split; [exact Hr|]. intros m' es Hd.
    destruct (Hdone m' es Hd) as [S3 E3].
    split; [eapply same_shape_trans; eassumption|].
    intros Herr. apply E3. unfold m2. cbn. auto.
Qed.

Lemma Zseq_positions lo k : Forall (fun i => lo <= i < lo + Z.of_nat k) (Zseq lo k).
Proof.
  revert lo. induction k as [|k IH]; intros lo; cbn [Zseq]; constructor.
  - lia.
  - eapply Forall_impl; [apply IH|]. cbn. intros i Hi. lia.
Qed.

(** The first start position that matches: [try_positions] returns a match
    exactly when the positions before some position of the list all fail
    and that position matches. *)
Lemma try_positions_first fuel re l : forall m m' es,
  try_positions fuel re m l = Some (Done (m', Some es)) <->
  exists l1 i l2 m1,
    l = l1 ++ i :: l2
    /\ try_positions fuel re m l1 = Some (Done (m1, None))
    /\ mach_match fuel re (set_at i m1) = Some (Done (m', Some es)).
Proof.
  induction l as [|i l IH]; intros m m' es; cbn [try_positions].
  - split; [discriminate|]. intros (l1 & j & l2 & m1 & Hl & _).
    destruct l1; discriminate.
  - destruct (mach_match fuel re (set_at i m)) as [[[m1 [es1|]]|]|] eqn:Hm.
    + split.
      * intros [= <- <-]. exists [], i, l, m. repeat split; assumption.
      * intros (l1 & j & l2 & m2 & Hl & Ht & Hj).
        destruct l1 as [|i' l1]; cbn in Hl; injection Hl as <- ->.
        -- cbn in Ht. injection Ht as <-. congruence.
        -- cbn in Ht. rewrite Hm in Ht. discriminate.
    + rewrite IH. split.
      * intros (l1 & j & l2 & m2 & -> & Ht & Hj).
        exists (i :: l1), j, l2, m2. cbn. rewrite Hm. now repeat split.
      * intros (l1 & j & l2 & m2 & Hl & Ht & Hj).
        destruct l1 as [|i' l1]; cbn in Hl; injection Hl as <- ->.
        -- cbn in Ht. injection Ht as <-. congruence.
        -- cbn in Ht. rewrite Hm in Ht. now exists l1, j, l2, m2.
    + split; [discriminate|]. intros (l1 & j & l2 & m2 & Hl & Ht & Hj).
      destruct l1 as [|i' l1]; cbn in Hl; injection Hl as <- ->.
      * cbn in Ht. injection Ht as <-. congruence.
      * cbn in Ht. rewrite Hm in Ht. discriminate.
    + split; [discriminate|]. intros (l1 & j & l2 & m2 & Hl & Ht & Hj).
      destruct l1 as [|i' l1]; cbn in Hl; injection Hl as <- ->.
      * cbn in Ht. injection Ht as <-. congruence.
      * cbn in Ht. rewrite Hm in Ht. discriminate.
Qed.

Section Search.
Variables (re : re1_Regexp) (fuel : nat) (size_ : Z).
Hypothesis Hwf : Forall node_wf (re_nodes re).
Hypothesis Hsize : size_ < max_int64.
Hypothesis Hfuel : size_ + 2 <= Z.of_nat fuel.

Local Abbreviation fits := (fits fuel size_).

Lemma fits_shape m m' : fits m -> same_shape m m' -> fits m'.
Proof.
  intros [H1 H2] S. pose proof (same_shape_Size _ _ S) as Hsz.
  destruct S as (Ho & Hs & _). split; [rewrite Ho, Hs; exact H1|congruence].
Qed.

Lemma mach_match_fits m i :
  fits m -> 0 <= i <= size_ ->
  exists r, mach_match fuel re (set_at i m) = Some r
    /\ (forall m' es, r = Done (m', es) ->
          fits m' /\ rs_buf (m_rs m') = rs_buf (m_rs m)
          /\ (rs_err (m_rs m) = None -> rs_err (m_rs m') = None)).
Proof.
  intros [H1 H2] Hi.
  destruct (mach_match_total re fuel (set_at i m) Hwf) as (r & Hr & Hd);
    cbn [m_open m_seen m_rs m_at set_at]; try rewrite H2; try assumption.
  exists r. split; [exact Hr|]. intros m' es Hdone.
  destruct (Hd m' es Hdone) as [S E]. split; [|split; [apply S|exact E]].
  apply (fits_shape (set_at i m)); [now split|exact S].
Qed.

(** Trying positions of the text always comes to an end. *)
Lemma try_positions_total l : forall m,
  fits m -> Forall (fun i => 0 <= i <= size_) l ->
  exists r, try_positions fuel re m l = Some r
    /\ (forall m' es, r = Done (m', es) ->
          fits m' /\ rs_buf (m_rs m') = rs_buf (m_rs m)
          /\ (rs_err (m_rs m) = None -> rs_err (m_rs m') = None)).
Proof.
  induction l as [|i l IH]; intros m Hm Hl; cbn [try_positions].
  - eexists. split; [reflexivity|]. intros m' es [= <- _]. auto.
  - inversion Hl as [|? ? Hi Hl']; subst.
    destruct (mach_match_fits m i Hm Hi) as (r & -> & Hd).
    destruct r as [[m1 [es1|]]|].
    + eexists. split; [reflexivity|]. intros m' es [= <- <-].
      exact (Hd m1 (Some es1) eq_refl).
    + destruct (Hd m1 None eq_refl) as (F1 & B1 & E1).
      destruct (IH m1 F1 Hl') as (r & Hr & Hd').
      exists r. split; [exact Hr|]. intros m' es Hdone.
      destruct (Hd' m' es Hdone) as (F2 & B2 & E2).
      split; [exact F2|]. split; [congruence|auto].
    + eexists. split; [reflexivity|]. discriminate.
Qed.

(** The second loop of [Match] tries [i, ..., from-1]. *)
Lemma Match_loop_wrapped from_ k : forall lfuel m i,
  fits m -> 0 <= i -> i + Z.of_nat k = from_ -> from_ <= size_ ->
  (k < lfuel)%nat ->
  Match_loop fuel lfuel re from_ true m i = try_positions fuel re m (Zseq i k).
Proof.
  induction k as [|k IH]; intros lfuel m i Hm Hi Hk Hfrom Hl;
    (destruct lfuel as [|lfuel]; [lia|]); cbn [Match_loop Zseq try_positions].
  - replace (i <? from_) with false by (symmetry; apply Z.ltb_ge; lia).
    reflexivity.
  - replace (i <? from_) with true by (symmetry; apply Z.ltb_lt; lia).
    destruct (mach_match_fits m i Hm) as (r & -> & Hd); [lia|].
    destruct r as [[m1 [es1|]]|]; try reflexivity.
    destruct (Hd m1 None eq_refl) as (F1 & _).
    rewrite wrap64_id by (unfold is_int64, min_int64, max_int64 in *; lia).
    apply IH; try assumption; lia.
Qed.

(** The first loop of [Match] tries [i, ..., size], and the second loop
    follows. *)
Lemma Match_loop_forward from_ k : forall lfuel m i,
  fits m -> 0 <= i -> i + Z.of_nat k = size_ + 1 -> 0 <= from_ <= size_ ->
  (k + Z.to_nat from_ + 1 < lfuel)%nat ->
  Match_loop fuel lfuel re from_ false m i
  = try_positions fuel re m (Zseq i k ++ Zseq 0 (Z.to_nat from_)).
Proof.
  induction k as [|k IH]; intros lfuel m i Hm Hi Hk Hfrom Hl;
    (destruct lfuel as [|lfuel]; [lia|]); cbn [Match_loop Zseq app].
  - destruct Hm as [Hm1 Hm2]. rewrite Hm2.
    replace (i <=? size_) with false by (symmetry; apply Z.leb_gt; lia).
    apply Match_loop_wrapped; try lia. now split.
  - cbn [try_positions]. pose proof Hm as [Hm1 Hm2]. rewrite Hm2.
    replace (i <=? size_) with true by (symmetry; apply Z.leb_le; lia).
    destruct (mach_match_fits m i Hm) as (r & -> & Hd); [lia|].
    destruct r as [[m1 [es1|]]|]; try reflexivity.
    destruct (Hd m1 None eq_refl) as (F1 & _).
    rewrite wrap64_id by (unfold is_int64, min_int64, max_int64 in *; lia).
    apply IH; try assumption; lia.
Qed.
End Search.

(** ** The compiler builds well-formed expressions *)

Lemma wf_ret {A} (a : A) : pm_keeps_wf (mret a).
Proof. intros p h a' p' h' Hh [= _ _ <-]. exact Hh. Qed.

Lemma wf_bind {A B} (m : PM A) (k : A -> PM B) :
  pm_keeps_wf m -> (forall a, pm_keeps_wf (k a)) -> pm_keeps_wf (m ≫= k).
Proof.
  intros Hm Hk p h b p' h' Hh. unfold mbind, PM_bind, pm_bind.
  destruct (m (p, h)) as [[[a [p1 h1]]|e|]|] eqn:E; try discriminate.
  intros Hb. eapply Hk; [|exact Hb]. eapply Hm; eassumption.
Qed.

Lemma wf_lift {A} (r : run A) : pm_keeps_wf (pm_lift r).
Proof.
  intros p h a p' h' Hh. unfold pm_lift. destruct r; [|discriminate].
  intros [= _ _ <-]. exact Hh.
Qed.

Lemma wf_error {A} pos : pm_keeps_wf (@pm_error A pos).
Proof. intros p h a p' h' _. discriminate. Qed.

Lemma wf_panic {A} : pm_keeps_wf (@pm_panic A).
Proof. intros p h a p' h' _. discriminate. Qed.

Lemma wf_stuck {A} : pm_keeps_wf (@pm_stuck A).
Proof. intros p h a p' h' _. discriminate. Qed.

Lemma wf_get_parser : pm_keeps_wf get_parser.
Proof. intros p h a p' h' Hh [= _ _ <-]. exact Hh. Qed.

Lemma wf_put_parser q : pm_keeps_wf (put_parser q).
Proof. intros p h a p' h' Hh [= _ _ <-]. exact Hh. Qed.

Lemma wf_get_nodes : pm_keeps_wf get_nodes.
Proof. intros p h a p' h' Hh [= _ _ <-]. exact Hh. Qed.

Lemma wf_new_node : pm_keeps_wf new_node.
Proof.
  intros p h a p' h' Hh [= _ _ <-].
  apply Forall_app. split; [exact Hh|]. repeat constructor.
Qed.

Lemma wf_modify_node n f :
  (forall nd, node_wf nd -> node_wf (f nd)) -> pm_keeps_wf (modify_node n f).
Proof.
  intros Hf p h a p' h' Hh. unfold modify_node, mbind, PM_bind, pm_bind.
  cbn [get_nodes fst snd]. unfold pm_lift.
  destruct (deref h n) as [nd|] eqn:Hnd; [|discriminate].
  destruct n as [i|]; [|discriminate].
  intros [= _ _ <-]. apply Forall_insert; [exact Hh|].
  apply Hf. eapply deref_wf; eassumption.
Qed.

Lemma wf_set_to0 n t : pm_keeps_wf (set_to0 n t).
Proof. apply wf_modify_node. intros nd [H0 H1]. split; assumption. Qed.

Lemma wf_set_to1 n t : pm_keeps_wf (set_to1 n t).
Proof. apply wf_modify_node. intros nd [H0 H1]. split; assumption. Qed.

Lemma wf_set_sub n v : pm_keeps_wf (set_sub n v).
Proof. apply wf_modify_node. intros nd [H0 H1]. split; assumption. Qed.

Lemma wf_set_n n v : pm_keeps_wf (set_n n v).
Proof. apply wf_modify_node. intros nd [H0 H1]. split; assumption. Qed.

Lemma wf_set_label0 n l : label_wf l -> pm_keeps_wf (set_label0 n l).
Proof.
  intros Hl. apply wf_modify_node. intros nd [H0 H1]. split; [|assumption].
  unfold edge_wf. cbn. destruct l; try exact I. exact Hl.
Qed.

Create HintDb pm_wf.
#[local] Hint Resolve wf_ret wf_lift wf_error wf_panic wf_stuck wf_get_parser
  wf_put_parser wf_get_nodes wf_new_node wf_set_to0 wf_set_to1 wf_set_sub wf_set_n : pm_wf.

(** One step of a proof that a parsing function keeps the nodes
    well-formed: open a bind, a conditional or a match. *)
Ltac wf_step :=
  match goal with
  | |- pm_keeps_wf (_ ≫= _) => apply wf_bind; [|intros]
  | |- pm_keeps_wf (if ?b then _ else _) => destruct b eqn:?
  | |- pm_keeps_wf (match ?x with _ => _ end) => destruct x
  | |- pm_keeps_wf (let (_, _) := ?x in _) => destruct x
  | |- forall _, _ => intros
  | |- pm_keeps_wf _ => solve [auto with pm_wf]
  end.

Ltac wf_auto := repeat wf_step.

Lemma wf_rs_at p i : pm_keeps_wf (rs_at p i).
Proof. apply wf_lift. Qed.
#[local] Hint Resolve wf_rs_at : pm_wf.

Lemma wf_parser_eof : pm_keeps_wf parser_eof.
Proof. unfold parser_eof. wf_auto. Qed.
#[local] Hint Resolve wf_parser_eof : pm_wf.

Lemma wf_parser_back : pm_keeps_wf parser_back.
Proof. unfold parser_back. wf_auto. Qed.
#[local] Hint Resolve wf_parser_back : pm_wf.

Lemma wf_parser_next : pm_keeps_wf parser_next.
Proof. unfold parser_next. wf_auto. Qed.
#[local] Hint Resolve wf_parser_next : pm_wf.

Lemma wf_parser_peek : pm_keeps_wf parser_peek.
Proof. unfold parser_peek. wf_auto. Qed.
#[local] Hint Resolve wf_parser_peek : pm_wf.

Lemma wf_subexpr e n : pm_keeps_wf (subexpr e n).
Proof. unfold subexpr. wf_auto. Qed.
#[local] Hint Resolve wf_subexpr : pm_wf.

Lemma wf_charClass_loop fuel : forall p0 runes ranges neg,
  pm_keeps_wf (charClass_loop fuel p0 runes ranges neg).
Proof.
  induction fuel as [|fuel IH]; intros p0 runes ranges neg;
    cbn [charClass_loop]; [apply wf_stuck|].
  wf_auto; apply IH.
Qed.
#[local] Hint Resolve wf_charClass_loop : pm_wf.

Lemma wf_charClass fuel : pm_keeps_wf (charClass fuel).
Proof. unfold charClass. wf_auto. Qed.
#[local] Hint Resolve wf_charClass : pm_wf.

Lemma wf_e2p fuel : forall l, pm_keeps_wf (e2p fuel l).
Proof.
  induction fuel as [|fuel IH]; intros l; cbn [e2p]; [apply wf_stuck|].
  wf_auto; apply IH.
Qed.
#[local] Hint Resolve wf_e2p : pm_wf.

Lemma post_ret {A} (a : A) (Q : A -> Prop) : Q a -> pm_post (mret a) Q.
Proof. intros HQ st a' st' [= <- _]. exact HQ. Qed.

Lemma post_bind {A B} (m : PM A) (k : A -> PM B) (Q : B -> Prop) :
  (forall a, pm_post (k a) Q) -> pm_post (m ≫= k) Q.
Proof.
  intros Hk st b st'. unfold mbind, PM_bind, pm_bind.
  destruct (m st) as [[[a st1]|e|]|]; try discriminate. apply Hk.
Qed.

Lemma post_error {A} pos (Q : A -> Prop) : pm_post (pm_error pos) Q.
Proof. intros st a st'. discriminate. Qed.

Lemma post_stuck {A} (Q : A -> Prop) : pm_post pm_stuck Q.
Proof. intros st a st'. discriminate. Qed.

Ltac post_step :=
  match goal with
  | |- pm_post (_ ≫= _) _ => apply post_bind; intros
  | |- pm_post (if ?b then _ else _) _ => destruct b
  | |- pm_post (mret _) _ => apply post_ret; exact I
  | |- pm_post (pm_error _) _ => apply post_error
  | |- pm_post pm_stuck _ => apply post_stuck
  end.

(** [charClass] returns a class label. *)
Lemma charClass_loop_label fuel : forall p0 runes ranges neg,
  pm_post (charClass_loop fuel p0 runes ranges neg) label_wf.
Proof.
  induction fuel as [|fuel IH]; intros p0 runes ranges neg;
    cbn [charClass_loop]; [apply post_stuck|].
  repeat post_step; apply IH.
Qed.

Lemma charClass_label fuel : pm_post (charClass fuel) label_wf.
Proof. unfold charClass. repeat post_step; apply charClass_loop_label. Qed.

Lemma wf_bind_post {A B} (m : PM A) (k : A -> PM B) (Q : A -> Prop) :
  pm_keeps_wf m -> pm_post m Q -> (forall a, Q a -> pm_keeps_wf (k a)) ->
  pm_keeps_wf (m ≫= k).
Proof.
  intros Hm HQ Hk p h b p' h' Hh. unfold mbind, PM_bind, pm_bind.
  destruct (m (p, h)) as [[[a [p1 h1]]|e|]|] eqn:E; try discriminate.
  intros Hb. eapply Hk; [eapply HQ; exact E| |exact Hb].
  eapply Hm; eassumption.
Qed.

Lemma wf_set_label0_rune n t :
  (t <? 0) = false -> pm_keeps_wf (set_label0 n (runeLabel t)).
Proof. intros Ht. apply wf_set_label0. cbn. bool_lia. lia. Qed.
#[local] Hint Resolve wf_set_label0 wf_set_label0_rune : pm_wf.

Lemma wf_set_label0_dot n : pm_keeps_wf (set_label0 n dotLabel).
Proof. now apply wf_set_label0. Qed.

Lemma wf_set_label0_bol n : pm_keeps_wf (set_label0 n bolLabel).
Proof. now apply wf_set_label0. Qed.

Lemma wf_set_label0_eol n : pm_keeps_wf (set_label0 n eolLabel).
Proof. now apply wf_set_label0. Qed.
#[local] Hint Resolve wf_set_label0_dot wf_set_label0_bol wf_set_label0_eol
  : pm_wf.

Ltac wf_parse :=
  repeat first
    [ match goal with
      | |- pm_keeps_wf (charClass _ ≫= _) =>
          apply (wf_bind_post _ _ label_wf);
          [apply wf_charClass|apply charClass_label|intros]
      end
    | wf_step ].

(** The four parsing functions keep the nodes well-formed: the only rune
    labels are those of [e3], for tokens that are not negative. *)
Lemma wf_e0123 fuel :
  pm_keeps_wf (e0 fuel) /\ pm_keeps_wf (e1 fuel)
  /\ pm_keeps_wf (e2 fuel) /\ pm_keeps_wf (e3 fuel).
Proof.
  induction fuel as [|fuel (IH0 & IH1 & IH2 & IH3)].
  { repeat split; apply wf_stuck. }
  repeat split.
  - cbn [e0]. wf_parse.
  - cbn [e1]. wf_parse.
  - cbn [e2]. wf_parse.
  - cbn [e3]. wf_parse.
Qed.

Lemma wf_e0 fuel : pm_keeps_wf (e0 fuel).
Proof. apply wf_e0123. Qed.
#[local] Hint Resolve wf_e0 : pm_wf.

Lemma wf_number_edge start e acc : pm_keeps_wf (number_edge start e acc).
Proof. unfold number_edge. wf_auto. Qed.
#[local] Hint Resolve wf_number_edge : pm_wf.

Lemma wf_numberStates_loop fuel : forall start stk n,
  pm_keeps_wf (numberStates_loop fuel start stk n).
Proof.
  induction fuel as [|fuel IH]; intros start stk n;
    cbn [numberStates_loop]; [apply wf_stuck|].
  wf_auto; apply IH.
Qed.
#[local] Hint Resolve wf_numberStates_loop : pm_wf.

(** The machines of the cache of a compiled expression: none yet. *)
Lemma Compile_body_ms fuel opts : pm_post (Compile_body fuel opts) (fun re => re_ms re = []).
Proof.
  unfold Compile_body.
  repeat first
    [ apply post_bind; intros
    | match goal with
      | |- pm_post (if ?b then _ else _) _ => destruct b
      | |- pm_post (mret _) _ => apply post_ret; reflexivity
      | |- pm_post (pm_error _) _ => apply post_error
      end ].
Qed.

Lemma Compile_body_nodes fuel opts p h re p' h' :
  Compile_body fuel opts (p, h) = Some (Ok (re, (p', h'))) -> re_nodes re = h'.
Proof.
  unfold Compile_body, mbind, PM_bind, pm_bind. intros H.
  repeat match type of H with
  | match ?m ?st with _ => _ end = _ =>
      let E := fresh "E" in
      destruct (m st) as [[[? [? ?]]|?|]|] eqn:E; try discriminate
  | (if ?b then _ else _) _ = _ => destruct b; try discriminate
  end.
  cbn in *.
  repeat match goal with
  | E : get_nodes _ = _ |- _ => unfold get_nodes in E; cbn in E;
      injection E as <- <- <-
  end.
  injection H as <- _ <-. reflexivity.
Qed.

(** Every compiled expression is well-formed. *)
Lemma Compile_ok fuel rs opts re :
  Compile fuel rs opts = Some (Ok re) -> re_ok re.
Proof.
  unfold Compile.
  destruct (Compile_body fuel opts _) as [[[re' [p' h']]|e|]|] eqn:E;
    try discriminate.
  intros [= <-]. split.
  - rewrite (Compile_body_nodes _ _ _ _ _ _ _ E).
    assert (Hwf : pm_keeps_wf (Compile_body fuel opts)).
    { unfold Compile_body. wf_auto. }
    eapply Hwf; [|exact E]. constructor.
  - rewrite (Compile_body_ms fuel opts _ _ _ E). constructor.
Qed.

(** ** The search of [Match] *)

(** The machine that [get] hands out is one for the expression, on the
    text given. *)
Lemma Regexp_get_Done re rs re' m :
  re_ok re -> Regexp_get re rs = Done (re', m) ->
  re_nodes re' = re_nodes re /\ re_n re' = re_n re
  /\ m_rs m = rs
  /\ length (m_open m) = Z.to_nat (re_n re)
  /\ length (m_seen m) = Z.to_nat (re_n re).
Proof.
  intros [_ Hms]. unfold Regexp_get.
  destruct (last (re_ms re)) as [m0|] eqn:Hlast.
  - intros [= <- <-]. cbn.
    apply last_Some in Hlast as [ms Hlast]. rewrite Hlast in Hms.
    apply Forall_app in Hms as [_ Hm0].
    inversion Hm0 as [|? ? (Ho & Hs & _) _]; subst. now repeat split.
  - intros H. run_inv H as m0 Hm0. injection H as <- <-.
    unfold newMach in Hm0.
    destruct ((re_n re <? 0) || (re_nsub re <? 0)); [discriminate|].
    run_inv Hm0 as start Hstart. run_inv Hm0 as s0 Hs0.
    injection Hm0 as <-. cbn. rewrite !length_replicate. now repeat split.
Qed.

Lemma positions_in_text from_ size_ :
  0 <= from_ <= size_ -> Forall (fun i => 0 <= i <= size_) (positions from_ size_).
Proof.
  intros H. unfold positions. apply Forall_app. split.
  - eapply Forall_impl; [apply Zseq_positions|]. cbn. intros i Hi. lia.
  - eapply Forall_impl; [apply Zseq_positions|]. cbn. intros i Hi. lia.
Qed.

(** [Match] is the search of the specification, and it returns; the text
    is kept, and no read error is set. *)
Lemma Regexp_Match_spec fuel re rs from_ :
  re_ok re -> Runes_Size rs < max_int64 -> 0 <= from_ <= Runes_Size rs ->
  (Z.to_nat (Runes_Size rs) + 3 * Z.to_nat (re_n re) + 3 < fuel)%nat ->
  Regexp_Match fuel re rs from_ = Match_spec fuel re rs from_
  /\ is_Some (Regexp_Match fuel re rs from_)
  /\ (forall re' rs' es,
        Regexp_Match fuel re rs from_ = Some (Done (re', rs', es)) ->
        rs_buf rs' = rs_buf rs /\ (rs_err rs = None -> rs_err rs' = None)).
Proof.
  intros Hok Hsz Hfrom Hfuel. unfold Regexp_Match, Match_spec.
  destruct (Regexp_get re rs) as [[re1 m]|] eqn:Hget.
  2:{ split; [reflexivity|]. split; [eexists; reflexivity|discriminate]. }
  apply (Regexp_get_Done _ _ _ _ Hok) in Hget as (Hnodes & Hn & Hrs & Ho & Hs).
  assert (Hwf : Forall node_wf (re_nodes re1)) by (rewrite Hnodes; apply Hok).
  assert (Hfuel2 : Runes_Size rs + 2 <= Z.of_nat fuel) by lia.
  assert (Hfits : fits fuel (Runes_Size rs) m).
  { split; [lia|now rewrite Hrs]. }
  assert (Heq : Match_loop fuel fuel re1 from_ false m from_
                = try_positions fuel re1 m (positions from_ (Runes_Size rs))).
  { unfold positions.
    apply (Match_loop_forward re1 fuel (Runes_Size rs) Hwf Hsz Hfuel2);
      try assumption; lia. }
  rewrite Heq.
  destruct (try_positions_total re1 fuel (Runes_Size rs) Hwf Hsz Hfuel2
              (positions from_ (Runes_Size rs)) m Hfits
              (positions_in_text _ _ Hfrom)) as (r & -> & Hd).
  split; [reflexivity|]. split.
  - destruct r as [[m' es]|]; eexists; reflexivity.
  - intros re' rs' es Hdone. destruct r as [[m' es']|]; [|discriminate].
    injection Hdone as <- <- <-.
    destruct (Hd m' es' eq_refl) as (_ & Hb & Herr).
    rewrite Hrs in Hb, Herr. now split.
Qed.

(** ** The search order of [Match] on compiled expressions *)

(** X1. On an expression that [Compile] returned, a text of [size] runes
    and a start offset [from] in [0, size], [Match] returns (its loops end
    within the fuel given), and what it returns is the result of trying
    the start positions [from, from+1, ..., size] and then [0, 1, ...,
    from-1] in this order, one call of [match()] each, up to the first one
    that matches. *)
Theorem Match_tries_positions_in_order cfuel pat opts fuel re rs from_ :
  Compile cfuel pat opts = Some (Ok re) ->
  Runes_Size rs < max_int64 -> 0 <= from_ <= Runes_Size rs ->
  (Z.to_nat (Runes_Size rs) + 3 * Z.to_nat (re_n re) + 3 < fuel)%nat ->
  Regexp_Match fuel re rs from_ = Match_spec fuel re rs from_
  /\ is_Some (Regexp_Match fuel re rs from_).
Proof.
  intros Hc Hsz Hfrom Hfuel.
  destruct (Regexp_Match_spec fuel re rs from_ (Compile_ok _ _ _ _ Hc) Hsz Hfrom Hfuel)
    as (Heq & Hsome & _).
  now split.
Qed.

Lemma Match_tries_positions_in_order_witness :
  exists re,
    Compile 40 [47; 19990; 30028; 47] (mkOptions true false false) = Some (Ok re)
    /\ Regexp_Match 40 re (mkRunes hello false None) 8
       = Match_spec 40 re (mkRunes hello false None) 8
    /\ (exists re' rs', Regexp_Match 40 re (mkRunes hello false None) 8
                        = Some (Done (re', rs', Some [(7, 9)]))).
Proof.
  destruct (Compile 40 [47; 19990; 30028; 47] (mkOptions true false false))
    as [[re| |]|] eqn:Hc; try (vm_compute in Hc; discriminate).
  exists re. split; [reflexivity|].
  assert (Hre : Some (Ok re) = Compile 40 [47; 19990; 30028; 47] (mkOptions true false false))
    by (symmetry; exact Hc).
  vm_compute in Hre. injection Hre as ->.
  split.
  - apply (Match_tries_positions_in_order 40 [47; 19990; 30028; 47]
             (mkOptions true false false) 40 _ (mkRunes hello false None) 8).
    + vm_compute. reflexivity.
    + vm_compute. reflexivity.
    + vm_compute. split; discriminate.
    + vm_compute. lia.
  - vm_compute. eexists _, _. reflexivity.
Defined.

(** X2. A regular expression address whose expression compiles, evaluated
    from an offset of the buffer, returns; and it returns the no-match
    error exactly when the search of the start positions (from the offset
    to the end of the text, then from its start up to the offset; in the
    reversed text for a reverse address) ends without a match. *)
Theorem reAddr_whereFrom_no_match_iff fuel rev pattern from_ b cre :
  Compile fuel pattern (mkOptions true rev false) = Some (Ok cre) ->
  rb_Size b < max_int64 -> 0 <= from_ <= rb_Size b ->
  (Z.to_nat (rb_Size b) + 3 * Z.to_nat (re_n cre) + 3 < fuel)%nat ->
  is_Some (reAddr_whereFrom fuel rev pattern from_ b)
  /\ (reAddr_whereFrom fuel rev pattern from_ b = Some (Err ErrNoMatch)
      <-> exists re' rs',
            Match_spec fuel cre (mkRunes b rev None)
              (if rev then rb_Size b - from_ else from_)
            = Some (Done (re', rs', None))).
Proof.
  intros Hc Hsz Hfrom Hfuel. unfold reAddr_whereFrom. rewrite Hc.
  set (rs := mkRunes b rev None).
  assert (Hstart : (if rev then wrap64 (Runes_Size rs - from_) else from_)
                   = (if rev then rb_Size b - from_ else from_)).
  { destruct rev; [|reflexivity]. unfold Runes_Size, rs. cbn.
    apply wrap64_id. unfold is_int64, min_int64, max_int64 in *. lia. }
  rewrite Hstart.
  set (start := if rev then rb_Size b - from_ else from_).
  assert (Hs : 0 <= start <= Runes_Size rs).
  { unfold start, Runes_Size, rs. cbn. destruct rev; lia. }
  destruct (Regexp_Match_spec fuel cre rs start (Compile_ok _ _ _ _ Hc) Hsz Hs Hfuel)
    as (Heq & [r Hr] & Hkeep).
  rewrite <- Heq, Hr. destruct r as [[[re' rs'] m]|].
  - destruct (Hkeep re' rs' m Hr) as [_ Herr].
    rewrite (Herr eq_refl). destruct m as [[|[m0 m1] es]|].
    + split; [eexists; reflexivity|]. split; [discriminate|].
      intros (? & ? & [=]).
    + split; [eexists; reflexivity|]. split; [discriminate|].
      intros (? & ? & [=]).
    + split; [eexists; reflexivity|]. split; [|reflexivity].
      intros _. eexists _, _. reflexivity.
  - split; [eexists; reflexivity|]. split; [discriminate|].
    intros (? & ? & [=]).
Qed.

Lemma reAddr_whereFrom_no_match_iff_witness :
  exists cre,
    Compile 40 (runes_of "/x/") (mkOptions true false false) = Some (Ok cre)
    /\ reAddr_whereFrom 40 false (runes_of "/x/") 3 hello = Some (Err ErrNoMatch)
    /\ exists re' rs', Match_spec 40 cre (mkRunes hello false None) 3
                       = Some (Done (re', rs', None)).
Proof.
  destruct (Compile 40 (runes_of "/x/") (mkOptions true false false))
    as [[cre| |]|] eqn:Hc; try (vm_compute in Hc; discriminate).
  exists cre. split; [reflexivity|].
  assert (H : is_Some (reAddr_whereFrom 40 false (runes_of "/x/") 3 hello)
    /\ (reAddr_whereFrom 40 false (runes_of "/x/") 3 hello = Some (Err ErrNoMatch)
        <-> exists re' rs', Match_spec 40 cre (mkRunes hello false None) 3
                            = Some (Done (re', rs', None)))).
  { apply (reAddr_whereFrom_no_match_iff 40 false (runes_of "/x/") 3 hello cre Hc).
    - vm_compute. reflexivity.
    - vm_compute. split; discriminate.
    - assert (Hre : Some (Ok cre)
                    = Compile 40 (runes_of "/x/") (mkOptions true false false))
        by (symmetry; exact Hc).
      vm_compute in Hre. injection Hre as ->. vm_compute. lia. }
  destruct H as [_ [H1 _]].
  assert (E : reAddr_whereFrom 40 false (runes_of "/x/") 3 hello = Some (Err ErrNoMatch))
    by (vm_compute; reflexivity).
  split; [exact E|exact (H1 E)].
Defined.

(** ** More on the journal: which headers are read back *)

Lemma testbit_31_low x :
  0 <= x -> (Z.testbit x 31 = false <-> Z.land x 0xFFFFFFFF < 2 ^ 31).
Proof.
  intros Hx. change 0xFFFFFFFF with (Z.ones 32). rewrite Z.land_ones by lia.
  rewrite Z.testbit_false by lia.
  pose proof (Z.div_mod x (2 ^ 32) ltac:(lia)) as H32.
  pose proof (Z.mod_pos_bound x (2 ^ 32) ltac:(lia)) as Hlo.
  set (lo := x mod 2 ^ 32) in *. set (hi := x / 2 ^ 32) in *.
  assert (E : x / 2 ^ 31 = 2 * hi + lo / 2 ^ 31).
  { rewrite H32. replace (2 ^ 32 * hi + lo) with (lo + (2 * hi) * 2 ^ 31) by lia.
    rewrite Z.div_add by lia. lia. }
  rewrite E. replace (2 * hi + lo / 2 ^ 31) with (lo / 2 ^ 31 + hi * 2) by lia.
  rewrite Z.mod_add by lia.
  assert (Hq : 0 <= lo / 2 ^ 31 < 2).
  { split; [apply Z.div_pos; lia|apply Z.div_lt_upper_bound; lia]. }
  rewrite Z.mod_small by lia.
  split; intros H.
  - apply Z.div_small_iff in H; lia.
  - apply Z.div_small. lia.
Qed.

(** Joining the two stored halves of a non-negative [int64] gives it back
    exactly when its bit 31 is clear. *)
Lemma join64_halves_iff x :
  0 <= x <= max_int64 ->
  (join64 (wrap32 (Z.land x 0xFFFFFFFF)) (wrap32 (Z.shiftr x 32)) = x
   <-> Z.testbit x 31 = false).
Proof.
  intros Hx. unfold max_int64 in Hx. rewrite testbit_31_low by lia.
  change 0xFFFFFFFF with (Z.ones 32). rewrite Z.land_ones, Z.shiftr_div_pow2 by lia.
  pose proof (Z.div_mod x (2 ^ 32) ltac:(lia)) as H32.
  pose proof (Z.mod_pos_bound x (2 ^ 32) ltac:(lia)) as Hlo.
  set (lo := x mod 2 ^ 32) in *. set (hi := x / 2 ^ 32) in *.
  assert (Hhi : 0 <= hi < 2 ^ 31).
  { split; [apply Z.div_pos; lia|apply Z.div_lt_upper_bound; lia]. }
  rewrite (wrap32_id hi) by (unfold is_int32, min_int32, max_int32; lia).
  unfold join64. rewrite Z.shiftl_mul_pow2 by lia.
  rewrite (wrap64_id (hi * 2 ^ 32))
    by (unfold is_int64, min_int64, max_int64; lia).
  split.
  - intros H. destruct (Z.lt_ge_cases lo (2 ^ 31)) as [|Hge]; [assumption|].
    exfalso.
    assert (Hw : wrap32 lo = lo - 2 ^ 32).
    { unfold wrap32.
      replace (lo + 2 ^ 31) with (lo - 2 ^ 31 + 1 * 2 ^ 32) by lia.
      rewrite Z.mod_add, Z.mod_small by lia. lia. }
    rewrite Hw in H.
    assert (Hneg : Z.lor (lo - 2 ^ 32) (hi * 2 ^ 32) < 0)
      by (apply Z.lor_neg; left; lia).
    lia.
  - intros Hlt.
    rewrite (wrap32_id lo) by (unfold is_int32, min_int32, max_int32; lia).
    rewrite <- Z.lxor_lor, <- Z.add_nocarry_lxor; try lia.
    + apply Z.bits_inj'. intros n Hn. rewrite Z.land_spec, Z.bits_0.
      destruct (Z.lt_ge_cases n 32) as [Hn32|Hn32].
      * rewrite <- Z.shiftl_mul_pow2, Z.shiftl_spec_low by lia.
        apply andb_false_r.
      * rewrite (Z.bits_above_log2 lo n); [reflexivity|lia|].
        destruct (Z.eq_dec lo 0) as [->|Hne]; [cbn; lia|].
        apply Z.lt_le_trans with 32; [|lia].
        apply Z.log2_lt_pow2; lia.
    + apply Z.bits_inj'. intros n Hn. rewrite Z.land_spec, Z.bits_0.
      destruct (Z.lt_ge_cases n 32) as [Hn32|Hn32].
      * rewrite <- Z.shiftl_mul_pow2, Z.shiftl_spec_low by lia.
        apply andb_false_r.
      * rewrite (Z.bits_above_log2 lo n); [reflexivity|lia|].
        destruct (Z.eq_dec lo 0) as [->|Hne]; [cbn; lia|].
        apply Z.lt_le_trans with 32; [|lia].
        apply Z.log2_lt_pow2; lia.
Qed.

(** X3. A header whose three fields are non-negative [int64] values,
    inserted at the end of a rune buffer by [header.insert] and read from
    there by [readHeader], is read back as written exactly when bit 31 of
    each of [from], [to] and [size0] is clear; [seq] always is. *)
Theorem readHeader_insert_iff h (b : list Z) :
  0 <= from (hdr_addr h) <= max_int64 ->
  0 <= to (hdr_addr h) <= max_int64 ->
  0 <= size0 h <= max_int64 ->
  exists b', header_insert h b (rb_Size b) = Ok b'
    /\ exists h', readHeader b' (rb_Size b) = Ok h'
    /\ hdr_seq h' = hdr_seq h
    /\ (h' = h <-> Z.testbit (from (hdr_addr h)) 31 = false
                   /\ Z.testbit (to (hdr_addr h)) 31 = false
                   /\ Z.testbit (size0 h) 31 = false).
Proof.
  intros Hf Ht Hs. unfold header_insert. rewrite rb_Insert_end.
  eexists. split; [reflexivity|].
  unfold readHeader, headerRunes.
  pose proof (Zlength_nonneg b) as Hb.
  rewrite rb_Read_ok
    by (unfold rb_Size; rewrite ?Zlength_app; cbn; unfold Zlength; cbn; lia).
  unfold rb_Size. rewrite slice_app_r by reflexivity.
  cbn [mbind res_bind bind header_runes].
  eexists. split; [reflexivity|]. split; [reflexivity|].
  pose proof (join64_halves_iff _ Hf) as Jf.
  pose proof (join64_halves_iff _ Ht) as Jt.
  pose proof (join64_halves_iff _ Hs) as Js.
  destruct h as [[f t] s q]. cbn [hdr_addr from to size0 hdr_seq] in *.
  split.
  - intros [= E1 E2 E3]. rewrite <- Jf, <- Jt, <- Js. auto.
  - intros (B1 & B2 & B3). apply Jf in B1. apply Jt in B2. apply Js in B3.
    rewrite B1, B2, B3. reflexivity.
Qed.

Lemma readHeader_insert_iff_witness :
  exists b', header_insert (mkHeader (mkAddr 5 (2 ^ 31)) 3 7) [1; 2] (rb_Size [1; 2]) = Ok b'
    /\ exists h', readHeader b' (rb_Size [1; 2]) = Ok h'
    /\ hdr_seq h' = 7
    /\ (h' = mkHeader (mkAddr 5 (2 ^ 31)) 3 7
        <-> Z.testbit 5 31 = false /\ Z.testbit (2 ^ 31) 31 = false
            /\ Z.testbit 3 31 = false).
Proof.
  apply (readHeader_insert_iff (mkHeader (mkAddr 5 (2 ^ 31)) 3 7) [1; 2]);
    cbn; unfold max_int64; lia.
Defined.

(** What a push with small header fields leaves in the journal: the runes
    of the range, then the seven runes of the header. *)
Lemma log_push_small l b a n :
  range_in a (rb_Size (view_runes b)) -> 0 <= n ->
  from a + n < 2 ^ 31 -> to a < 2 ^ 31 ->
  Zlength (log_runes l) + to a + headerRunes <= max_int64 ->
  is_int64 (log_n l) -> log_n l < max_int64 ->
  Zlength (log_runes (fst (log_push l b a n)))
  = Zlength (log_runes l) + (to a - from a) + headerRunes
  /\ log_n (fst (log_push l b a n)) = log_n l + 1.
Proof.
  intros Ha Hn Hto Hat Hlen Hln Hln'. unfold range_in in Ha.
  pose proof (Zlength_nonneg (log_runes l)) as Hl0.
  assert (Hid : forall z, - 2 ^ 63 <= z <= 2 ^ 63 - 1 -> wrap64 z = z).
  { intros z Hz. apply wrap64_id. unfold is_int64, min_int64, max_int64. lia. }
  unfold max_int64, headerRunes, is_int64, min_int64 in *.
  unfold log_push.
  assert (Hsz : addr_size a = to a - from a).
  { unfold addr_size. apply Hid. lia. }
  rewrite Hsz.
  destruct (to a - from a <? 0) eqn:E; [bool_lia; lia|]. clear E.
  rewrite rb_Read_ok by lia.
  replace (from a + (to a - from a)) with (to a) by lia.
  rewrite rb_Insert_end. unfold header_insert. rewrite rb_Insert_end.
  cbn [fst log_runes log_n]. rewrite !Zlength_app.
  rewrite slice_length by (unfold rb_Size in *; lia).
  split; [reflexivity|apply Hid; lia].
Qed.

(** X4. The journal is a stack: two pushes with header fields below
    [2^31] followed by two pops return the second entry, then the first,
    each with the runes its range had in the buffer when it was pushed, and
    leave the journal as it was before the pushes. *)
Theorem log_push_push_pop_pop l b1 a1 n1 b2 a2 n2 :
  range_in a1 (rb_Size (view_runes b1)) -> 0 <= n1 ->
  from a1 + n1 < 2 ^ 31 -> to a1 < 2 ^ 31 ->
  range_in a2 (rb_Size (view_runes b2)) -> 0 <= n2 ->
  from a2 + n2 < 2 ^ 31 -> to a2 < 2 ^ 31 ->
  Zlength (log_runes l) < 2 ^ 62 ->
  is_int64 (log_n l) -> log_n l < max_int64 - 1 ->
  let l1 := fst (log_push l b1 a1 n1) in
  let l2 := fst (log_push l1 b2 a2 n2) in
  snd (log_push l b1 a1 n1) = Ok tt
  /\ snd (log_push l1 b2 a2 n2) = Ok tt
  /\ log_pop l2 =
       (l1, Ok (mkEntry (mkHeader (mkAddr (from a2) (from a2 + n2))
                                  (to a2 - from a2) (view_seq b2))
                        (slice (view_runes b2) (from a2) (to a2))))
  /\ log_pop l1 =
       (l, Ok (mkEntry (mkHeader (mkAddr (from a1) (from a1 + n1))
                                 (to a1 - from a1) (view_seq b1))
                       (slice (view_runes b1) (from a1) (to a1)))).
Proof.
  intros Ha1 Hn1 Hf1 Ht1 Ha2 Hn2 Hf2 Ht2 Hlen Hln Hln'. cbv zeta.
  assert (Hlen1 : Zlength (log_runes l) + to a1 + headerRunes <= max_int64)
    by (unfold headerRunes, max_int64; lia).
  assert (Hln1 : log_n l < max_int64) by lia.
  destruct (log_push_small l b1 a1 n1 Ha1 Hn1 Hf1 Ht1 Hlen1 Hln Hln1) as [Hr1 Hc1].
  destruct (log_push_pop_small l b1 a1 n1 Ha1 Hn1 Hf1 Ht1 Hlen1 Hln Hln1)
    as [Hp1 Hq1].
  set (l1 := fst (log_push l b1 a1 n1)) in *.
  assert (Hlen2 : Zlength (log_runes l1) + to a2 + headerRunes <= max_int64).
  { rewrite Hr1. unfold range_in in Ha1. unfold headerRunes, max_int64. lia. }
  assert (Hln2 : is_int64 (log_n l1)).
  { rewrite Hc1. unfold is_int64, min_int64, max_int64 in *. lia. }
  assert (Hln2' : log_n l1 < max_int64) by (rewrite Hc1; lia).
  destruct (log_push_pop_small l1 b2 a2 n2 Ha2 Hn2 Hf2 Ht2 Hlen2 Hln2 Hln2')
    as [Hp2 Hq2].
  repeat split; assumption.
Qed.

Lemma log_push_push_pop_pop_witness :
  let l := mkLog [] 0 in
  let l1 := fst (log_push l (mkView hello 0) (mkAddr 0 10) 0) in
  let l2 := fst (log_push l1 (mkView hello 1) (mkAddr 5 7) 10) in
  snd (log_push l (mkView hello 0) (mkAddr 0 10) 0) = Ok tt
  /\ snd (log_push l1 (mkView hello 1) (mkAddr 5 7) 10) = Ok tt
  /\ log_pop l2 = (l1, Ok (mkEntry (mkHeader (mkAddr 5 (5 + 10)) (7 - 5) 1)
                                   (slice hello 5 7)))
  /\ log_pop l1 = (l, Ok (mkEntry (mkHeader (mkAddr 0 (0 + 0)) (10 - 0) 0)
                                  (slice hello 0 10))).
Proof.
  apply (log_push_push_pop_pop (mkLog [] 0) (mkView hello 0) (mkAddr 0 10) 0
           (mkView hello 1) (mkAddr 5 7) 10);
    unfold range_in, is_int64, min_int64, max_int64, rb_Size, Zlength, hello;
    cbn; lia.
Defined.

(** ** Changes and marks *)

(** Within a buffer whose old and new sizes are [int64] sizes, [update] is
    the update of the specification, and its result lies within the new
    buffer. *)
Lemma update_in_buffer a b n sz :
  range_in a sz -> range_in b sz -> 0 <= n ->
  sz <= max_int64 -> sz + (n - (to b - from b)) <= max_int64 ->
  update a b n = update_spec a b n
  /\ range_in (update a b n) (sz + (n - (to b - from b))).
Proof.
  intros Ha Hb Hn Hsz Hsz'.
  assert (Hra : is_range a) by (unfold is_range, range_in in *; lia).
  assert (Hrb : is_range b) by (unfold is_range, range_in in *; lia).
  pose proof (update_spec_valid a b n sz Ha Hb Hn) as Hv.
  assert (E : update a b n = update_spec a b n).
  { rewrite update_clip_move by assumption.
    rewrite (addr_size_exact b Hrb).
    pose proof (spec_clip_range a b Hra Hrb) as Hc.
    revert Hv. unfold update_spec, spec_move, range_in.
    destruct (spec_clip a b) as [cf ct]. destruct b as [bf bt].
    unfold is_range, range_in, max_int64 in *. cbn [from to] in *.
    assert (Hid : forall z, - 2 ^ 63 <= z <= 2 ^ 63 - 1 -> wrap64 z = z).
    { intros z Hz. apply wrap64_id. unfold is_int64, min_int64, max_int64. lia. }
    rewrite (Hid (n - (bt - bf))) by lia. rewrite !Z.geb_leb.
    destruct (bt <=? ct) eqn:Hto; cbn [from to];
      destruct (bt <=? cf) eqn:Hfrom; cbn [from to]; intros Hv;
      rewrite ?(Hid (ct + _)), ?(Hid (cf + _)) by lia; reflexivity. }
  split; [exact E|]. rewrite E. exact Hv.
Qed.

Lemma rb_Delete_ok (b : list Z) n at_ :
  0 <= n -> 0 <= at_ -> at_ + n <= rb_Size b ->
  rb_Delete b n at_ = Ok (take (Z.to_nat at_) b ++ drop (Z.to_nat (at_ + n)) b).
Proof.
  intros Hn Hat Hle. unfold rb_Delete.
  destruct (n <? 0) eqn:E; [bool_lia; lia|].
  replace ((0 <=? at_) && (at_ + n <=? rb_Size b)) with true
    by (symmetry; rewrite andb_true_iff, !Z.leb_le; lia).
  reflexivity.
Qed.

Lemma rb_Insert_ok (b : list Z) rs at_ :
  0 <= at_ <= rb_Size b ->
  rb_Insert b rs at_ = Ok (take (Z.to_nat at_) b ++ rs ++ drop (Z.to_nat at_) b).
Proof.
  intros Hat. unfold rb_Insert.
  replace ((0 <=? at_) && (at_ <=? rb_Size b)) with true
    by (symmetry; rewrite andb_true_iff, !Z.leb_le; lia).
  reflexivity.
Qed.

(** Deleting a range and inserting at its start replaces the range. *)
Lemma delete_insert_replaced (rs : list Z) at_ src :
  range_in at_ (rb_Size rs) -> rb_Size rs <= max_int64 ->
  exists rs1,
    rb_Delete rs (addr_size at_) (from at_) = Ok rs1
    /\ rb_Insert rs1 src (from at_) = Ok (replaced rs at_ src)
    /\ rb_Size (replaced rs at_ src)
       = rb_Size rs + (Zlength src - (to at_ - from at_)).
Proof.
  intros Hat Hsz. unfold range_in in Hat.
  assert (Hs : addr_size at_ = to at_ - from at_).
  { apply addr_size_exact. unfold is_range. lia. }
  rewrite Hs. rewrite rb_Delete_ok by lia.
  replace (from at_ + (to at_ - from at_)) with (to at_) by lia.
  eexists. split; [reflexivity|].
  assert (Hlen : length (take (Z.to_nat (from at_)) rs) = Z.to_nat (from at_)).
  { rewrite length_take. unfold rb_Size, Zlength in *. lia. }
  split.
  - rewrite rb_Insert_ok.
    + unfold replaced.
      rewrite (take_app_length' _ _ _ (eq_sym Hlen)),
        (drop_app_length' _ _ _ (eq_sym Hlen)).
      reflexivity.
    + unfold rb_Size, Zlength in *. rewrite length_app, length_take, length_drop. lia.
  - unfold replaced, rb_Size, Zlength in *.
    rewrite !length_app, length_take, length_drop. lia.
Qed.

(** The marks after the loop of [change] over editors that are listed
    once: those of a listed editor are updated, the others are kept. *)
Lemma fold_update_marks_lookup at_ n l : forall h p,
  NoDup l ->
  fold_left (update_marks at_ n) l h !! p
  = if decide (p ∈ l)
    then (fun e => set_marks ((fun a => update a at_ n) <$> marks e) e) <$> h !! p
    else h !! p.
Proof.
  induction l as [|x l IH]; intros h p Hnd; cbn [fold_left].
  - destruct (decide (p ∈ [])) as [Hin|_]; [inversion Hin|reflexivity].
  - apply NoDup_cons in Hnd as [Hx Hnd]. rewrite (IH _ _ Hnd).
    unfold update_marks.
    destruct (decide (p = x)) as [->|Hne].
    + destruct (decide (x ∈ l)) as [Hin|_]; [contradiction|].
      destruct (decide (x ∈ x :: l)) as [_|Hnin]; [|exfalso; apply Hnin; left].
      now rewrite lookup_alter_eq.
    + rewrite !lookup_alter_ne by congruence.
      destruct (decide (p ∈ l)) as [Hin|Hnin];
        destruct (decide (p ∈ x :: l)) as [Hin'|Hnin']; try reflexivity;
        exfalso.
      * apply Hnin'. now right.
      * apply elem_of_cons in Hin' as [?|?]; [congruence|contradiction].
Qed.

(** X5. [Buffer.change] on a range within the buffer (old and new sizes
    being [int64] sizes) succeeds and replaces the runes of the range by
    the runes read; if every editor is listed once in [buf.eds] and all
    their marks were ranges within the buffer, all their marks are ranges
    within the changed buffer; the marks of an editor that is not listed
    are not updated. *)
Theorem Buffer_change_keeps_marks_in at_ src b :
  range_in at_ (rb_Size (runes b)) ->
  rb_Size (runes b) <= max_int64 ->
  rb_Size (runes b) + (Zlength src - (to at_ - from at_)) <= max_int64 ->
  NoDup (eds b) -> marks_in b ->
  exists b',
    Buffer_change at_ src b = (b', Ok tt)
    /\ runes b' = replaced (runes b) at_ src
    /\ eds b' = eds b /\ seq b' = seq b
    /\ marks_in b'
    /\ (forall ed, ed ∉ eds b -> editors b' !! ed = editors b !! ed).
Proof.
  intros Hat Hsz Hsz' Hnd Hin. unfold Buffer_change.
  destruct (delete_insert_replaced (runes b) at_ src Hat Hsz) as (rs1 & -> & Hi & Hlen).
  cbn [set_runes runes]. rewrite Hi. eexists. split; [reflexivity|].
  cbn [runes eds seq editors set_editors set_runes].
  split; [reflexivity|]. split; [reflexivity|]. split; [reflexivity|]. split.
  - intros ed e r a Hed He Hr.
    unfold set_editors, set_runes in *. cbn [runes eds editors] in *.
    rewrite fold_update_marks_lookup in He by exact Hnd.
    destruct (decide (ed ∈ eds b)) as [_|]; [|contradiction].
    destruct (editors b !! ed) as [e0|] eqn:He0; [|discriminate].
    injection He as <-. cbn [marks set_marks] in Hr.
    rewrite lookup_fmap in Hr.
    destruct (marks e0 !! r) as [a0|] eqn:Ha0; [|discriminate].
    injection Hr as <-. rewrite Hlen.
    apply update_in_buffer; try assumption.
    + exact (Hin ed e0 r a0 Hed He0 Ha0).
    + apply Zlength_nonneg.
  - intros ed Hed. rewrite fold_update_marks_lookup by exact Hnd.
    destruct (decide (ed ∈ eds b)); [contradiction|reflexivity].
Qed.

Lemma Buffer_change_keeps_marks_in_witness :
  let b0 := fst (NewEditor (set_runes hello NewBuffer)) in
  let b := set_editors ((fun e => set_marks (<[dot_rune := mkAddr 2 9]> (marks e)) e)
                          <$> editors b0) b0 in
  exists b',
    Buffer_change (mkAddr 1 4) [88; 89] b = (b', Ok tt)
    /\ runes b' = replaced (runes b) (mkAddr 1 4) [88; 89]
    /\ eds b' = eds b /\ seq b' = seq b
    /\ marks_in b'
    /\ (forall ed, ed ∉ eds b -> editors b' !! ed = editors b !! ed).
Proof.
  cbv zeta.
  apply (Buffer_change_keeps_marks_in (mkAddr 1 4) [88; 89]).
  - vm_compute. repeat split; discriminate.
  - vm_compute. discriminate.
  - vm_compute. discriminate.
  - cbn. apply NoDup_singleton.
  - intros ed e r a Hed He Hr. cbn in Hed.
    apply list_elem_of_singleton in Hed. subst ed.
    cbn in He. rewrite lookup_fmap, lookup_insert_eq in He. injection He as <-.
    cbn in Hr. apply lookup_insert_Some in Hr as [[_ <-]|[_ Hr]].
    + vm_compute. repeat split; discriminate.
    + rewrite lookup_empty in Hr. discriminate.
Defined.

(** ** One change through [do] *)

(** Updating a range for a change of that same range to [n] runes leaves
    the point after the new runes. *)
Lemma update_self a n :
  is_range a -> 0 <= n -> from a + n <= max_int64 ->
  update a a n = mkAddr (from a + n) (from a + n).
Proof.
  intros Ha Hn Hfit.
  assert (Hsz : addr_size a = to a - from a) by now apply addr_size_exact.
  unfold update, contains. rewrite Hsz.
  destruct a as [f t]. unfold is_range, max_int64 in *. cbn [from to] in *.
  assert (Hid : forall z, - 2 ^ 63 <= z <= 2 ^ 63 - 1 -> wrap64 z = z).
  { intros z Hz. apply wrap64_id. unfold is_int64, min_int64, max_int64. lia. }
  rewrite (Hid (n - (t - f))) by lia.
  replace ((f <=? f) || (t <? t)) with true
    by (symmetry; apply orb_true_iff; left; apply Z.leb_le; lia).
  destruct ((f <=? f) && (f <? t)) eqn:E1; cbn [from to];
    rewrite (Hid (t - 1)) by lia.
  - replace ((f <=? t - 1) && (t - 1 <? t)) with true
      by (symmetry; bool_lia; rewrite andb_true_iff, Z.leb_le, Z.ltb_lt; lia).
    cbn [from to].
    replace (f <? t) with true by (symmetry; bool_lia; apply Z.ltb_lt; lia).
    cbn [from to]. rewrite Z.leb_refl. cbn [from to]. rewrite Z.leb_refl.
    cbn [from to]. rewrite (Hid (t + _)) by lia. f_equal; lia.
  - assert (f = t) as -> by (bool_lia; lia).
    replace ((t <=? t - 1) && (t - 1 <? t)) with false
      by (symmetry; apply andb_false_iff; left; apply Z.leb_gt; lia).
    rewrite Z.ltb_irrefl. cbn [from to]. rewrite Z.leb_refl. cbn [from to].
    rewrite Z.leb_refl. cbn [from to]. rewrite (Hid (t + _)) by lia.
    f_equal; lia.
Qed.

(** The editors after the loop of [change]: an editor that was there is
    still there. *)
Lemma fold_update_marks_is_Some at_ n ed l : forall h,
  is_Some (h !! ed) -> is_Some (fold_left (update_marks at_ n) l h !! ed).
Proof.
  induction l as [|x l IH]; intros h Hh; cbn [fold_left]; [exact Hh|].
  apply IH. unfold update_marks.
  destruct (decide (x = ed)) as [->|Hne].
  - rewrite lookup_alter_eq. destruct Hh as [e ->]. eexists. reflexivity.
  - now rewrite lookup_alter_ne by congruence.
Qed.

(** X6. An edit whose phase one pends one change, of a range [at] within
    the buffer to the runes [src], and returns [at]: [Editor.do] succeeds
    at the first try, the runes of the range are replaced by [src], the
    sequence number of the buffer is incremented, and the editor's dot is
    the range of the new runes, [(at.from, at.from + len(src))]. *)
Theorem Editor_do_one_change fuel ed at_ src b :
  is_Some (editors b !! ed) ->
  range_in at_ (rb_Size (runes b)) ->
  rb_Size (runes b) <= max_int64 ->
  rb_Size (runes b) + (Zlength src - (to at_ - from at_)) <= max_int64 ->
  exists b',
    Editor_do (S fuel) ed (fun b => (pend ed at_ src b, Ok at_)) b = Some (b', Ok tt)
    /\ runes b' = replaced (runes b) at_ src
    /\ seq b' = wrap32 (seq b + 1)
    /\ mark_get (marks_of ed b') dot_rune
       = mkAddr (from at_) (from at_ + Zlength src).
Proof.
  intros [e He] Hat Hsz Hsz'.
  pose proof (Zlength_nonneg src) as Hsrc.
  assert (Hto : to (update at_ at_ (Zlength src)) = from at_ + Zlength src).
  { rewrite update_self; [reflexivity| |assumption|];
      unfold range_in, is_range in *; lia. }
  destruct (delete_insert_replaced (runes b) at_ src Hat Hsz) as (rs1 & Hd & Hi & _).
  set (f := fun b => (pend ed at_ src b, Ok at_)).
  set (c := mkChange at_ (Zlength src) src).
  set (b1 := pend ed at_ src (clear_pending ed b)).
  set (e1 := mkEditor (ed_who e) (marks e) (mkPend [c] (pend_closed (pending e)))).
  assert (Hp : pendChanges ed f b = (b1, Ok (seq b, at_))).
  { unfold pendChanges. rewrite He. reflexivity. }
  assert (He1 : editors b1 !! ed = Some e1).
  { unfold b1, pend, clear_pending. cbn [editors set_editors].
    rewrite !lookup_alter_eq, He. reflexivity. }
  assert (Hfix : fixAddrs at_ (pending e1)
                 = (pending e1, Ok (mkAddr (from at_) (from at_ + Zlength src)))).
  { unfold fixAddrs, e1. cbn [pending pend_entries pend_closed inSequence negb
                                length fix_loop c ch_at ch_size].
    rewrite Z.eqb_refl, Hto. reflexivity. }
  set (b2 := set_editors (<[ed := set_pending (pending e1) e1]> (editors b1)) b1).
  assert (Hb2 : runes b2 = runes b /\ seq b2 = seq b) by (split; reflexivity).
  destruct Hb2 as [Hr2 Hs2].
  assert (He2 : editors b2 !! ed = Some e1).
  { unfold b2. cbn [editors set_editors]. rewrite lookup_insert_eq.
    reflexivity. }
  set (h3 := fold_left (update_marks at_ (Zlength src)) (eds b2) (editors b2)).
  set (b3 := set_editors h3 (set_runes (replaced (runes b) at_ src) b2)).
  assert (Hch : Buffer_change at_ src b2 = (b3, Ok tt)).
  { unfold Buffer_change. rewrite Hr2, Hd.
    cbn [set_runes runes]. rewrite Hi. reflexivity. }
  assert (Happ : applyChanges ed (seq b) b2
                 = (set_seq (wrap32 (seq b3 + 1)) b3, Ok false)).
  { unfold applyChanges. rewrite Hs2, Z.eqb_refl, He2. cbn [negb].
    unfold e1 at 1. cbn [pending pend_entries apply_loop c ch_at ch_data].
    rewrite Hch. reflexivity. }
  cbn [Editor_do]. fold f. rewrite Hp, He1, Hfix. fold b2. rewrite Happ.
  eexists. split; [reflexivity|].
  split; [reflexivity|]. split; [reflexivity|].
  unfold marks_of, mark_get. cbn [editors set_editors set_seq].
  rewrite lookup_alter_eq.
  destruct (fold_update_marks_is_Some at_ (Zlength src) ed (eds b2) (editors b2))
    as [e3 He3]; [rewrite He2; eexists; reflexivity|].
  fold h3 in He3. cbn [editors set_editors set_runes b3]. rewrite He3.
  cbn. now rewrite lookup_insert_eq.
Qed.

Lemma Editor_do_one_change_witness :
  let b := fst (NewEditor (set_runes hello NewBuffer)) in
  let ed := snd (NewEditor (set_runes hello NewBuffer)) in
  exists b',
    Editor_do 1 ed (fun b => (pend ed (mkAddr 1 3) [88; 89; 90] b, Ok (mkAddr 1 3))) b
    = Some (b', Ok tt)
    /\ runes b' = replaced (runes b) (mkAddr 1 3) [88; 89; 90]
    /\ seq b' = wrap32 (seq b + 1)
    /\ mark_get (marks_of ed b') dot_rune = mkAddr 1 (1 + Zlength [88; 89; 90]).
Proof.
  cbv zeta.
  apply (Editor_do_one_change 0 _ (mkAddr 1 3) [88; 89; 90]).
  - vm_compute. eexists. reflexivity.
  - vm_compute. repeat split; discriminate.
  - vm_compute. discriminate.
  - vm_compute. discriminate.
Defined.

(** X7. [Close] on an editor that is in [buf.eds] returns nil and leaves
    that editor in [buf.eds], so that a second [Close] returns nil again;
    [Close] on an editor that is not in [buf.eds] returns the error
    "already closed" and changes nothing. *)
Theorem Editor_Close_twice ed b :
  (ed ∈ eds b ->
     snd (Editor_Close ed b) = Ok tt
     /\ ed ∈ eds (fst (Editor_Close ed b))
     /\ snd (Editor_Close ed (fst (Editor_Close ed b))) = Ok tt)
  /\ (ed ∉ eds b -> Editor_Close ed b = (b, Err ErrAlreadyClosed)).
Proof.
  split.
  - intros Hin.
    destruct (Editor_Close_eds ed b Hin) as (i & _ & Hok & _).
    pose proof (Editor_Close_still_listed ed b Hin) as Hin'.
    destruct (Editor_Close_eds ed _ Hin') as (j & _ & Hok' & _).
    auto.
  - intros Hnin. unfold Editor_Close.
    destruct (index_of ed (eds b)) as [i|] eqn:Hi; [|reflexivity].
    exfalso. apply Hnin. eapply list_elem_of_lookup_2, index_of_Some, Hi.
Qed.

Lemma Editor_Close_twice_witness :
  let b := fst (NewEditor NewBuffer) in
  let ed := snd (NewEditor NewBuffer) in
  (snd (Editor_Close ed b) = Ok tt
   /\ ed ∈ eds (fst (Editor_Close ed b))
   /\ snd (Editor_Close ed (fst (Editor_Close ed b))) = Ok tt)
  /\ Editor_Close (S ed) b = (b, Err ErrAlreadyClosed).
Proof.
  cbv zeta. split.
  - apply (proj1 (Editor_Close_twice _ _)).
    vm_compute. apply list_elem_of_here.
  - apply (proj2 (Editor_Close_twice _ _)).
    vm_compute. intros H. apply list_elem_of_singleton in H. discriminate H.
Defined.

(** ** Package [runes]: readers *)

(** [TestSliceReader] and [TestLimitedReaderBigReader], first reads:
    lengths 0, 5, 2 on ["Hello, World! ..."]. *)
Example SliceReader_tests :
  let r0 := mkSliceReader (runes_of "Hello, World!") in
  match Read r0 0 with
  | Done (r1, o1, e1) =>
      match Read r1 5 with
      | Done (r2, o2, e2) =>
          match Read r2 100 with
          | Done (r3, o3, e3) =>
              o1 = [] /\ e1 = None /\ o2 = runes_of "Hello" /\ e2 = None
              /\ o3 = runes_of ", World!" /\ e3 = None
              /\ Read r3 1 = Done (r3, [], Some ErrEOF)
          | _ => False
          end
      | _ => False
      end
  | _ => False
  end.
Proof. vm_compute. repeat split. Qed.

Example LimitedReader_tests :
  let r0 := mkLimitedReader (mkSliceReader (runes_of "Hello, World!")) 7 0 in
  match Read r0 5 with
  | Done (r1, o1, e1) =>
      match Read r1 100 with
      | Done (r2, o2, e2) =>
          o1 = runes_of "Hello" /\ e1 = None /\ LimitedReader_Size r1 = 2
          /\ o2 = runes_of ", " /\ e2 = None /\ LimitedReader_Size r2 = 0
          /\ Read r2 1 = Done (r2, [], Some ErrEOF)
      | _ => False
      end
  | _ => False
  end.
Proof. vm_compute. repeat split. Qed.

Lemma ReadAll_loop_SliceReader fuel : forall l acc,
  (length l < fuel)%nat ->
  ReadAll_loop fuel (mkSliceReader l) acc
  = Some (Done (mkSliceReader [], acc ++ l, None)).
Proof.
  induction fuel as [|fuel IH]; intros l acc Hf; [lia|].
  cbn [ReadAll_loop]. unfold Read, SliceReader_Reader, SliceReader_Read.
  cbn [sr_rs]. destruct l as [|x l'].
  - reflexivity.
  - set (l := x :: l') in *. rewrite IH.
    + rewrite <- app_assoc, take_drop. reflexivity.
    + rewrite length_drop. unfold MinRead. subst l. cbn [length] in *. lia.
Qed.

(** X8. [ReadAll] on a [SliceReader] returns (within one pass per rune
    and one more) all the runes of the slice with a nil error, and leaves
    the reader empty. *)
Theorem ReadAll_SliceReader fuel rs :
  (length rs < fuel)%nat ->
  ReadAll fuel (mkSliceReader rs) = Some (Done (mkSliceReader [], rs, None)).
Proof. intros Hf. unfold ReadAll. now rewrite ReadAll_loop_SliceReader. Qed.

Lemma ReadAll_SliceReader_witness :
  ReadAll 20 (mkSliceReader hello) = Some (Done (mkSliceReader [], hello, None)).
Proof. apply (ReadAll_SliceReader 20 hello). vm_compute. lia. Defined.

(** X9. A [LimitedReader] whose count [n] is within [0, N] (as it is
    when it is made), over a reader that returns no more runes than the
    slice it is given holds: [Read] does not panic, returns at most
    [len(p)] runes and at most [N - n] of them, adds their number to [n],
    and so keeps [n] within [0, N]; when [n] has reached [N] it returns
    no runes and [io.EOF]. *)
Theorem LimitedReader_Read_within {S : Type} `{Reader S} (r : LimitedReader S) p :
  reads_within ->
  0 <= lr_n r <= lr_N r -> lr_N r <= max_int64 ->
  exists r' out err,
    LimitedReader_Read r p = Done (r', out, err)
    /\ (length out <= p)%nat
    /\ Zlength out <= lr_N r - lr_n r
    /\ lr_N r' = lr_N r
    /\ lr_n r' = lr_n r + Zlength out
    /\ (lr_n r = lr_N r -> out = [] /\ err = Some ErrEOF).
Proof.
  intros Hw Hn HN. unfold LimitedReader_Read, LimitedReader_Size.
  unfold max_int64 in HN.
  rewrite (wrap64_id (lr_N r - lr_n r))
    by (unfold is_int64, min_int64, max_int64; lia).
  destruct (lr_N r <=? lr_n r) eqn:E.
  - apply Z.leb_le in E. exists r, [], (Some ErrEOF).
    unfold Zlength. cbn. repeat split; lia.
  - apply Z.leb_gt in E.
    set (n := if lr_N r - lr_n r <? Z.of_nat p then lr_N r - lr_n r else Z.of_nat p).
    assert (Hn' : 0 <= n <= Z.of_nat p /\ n <= lr_N r - lr_n r).
    { unfold n. destruct (lr_N r - lr_n r <? Z.of_nat p) eqn:E'; bool_lia; lia. }
    destruct (n <? 0) eqn:E0; [bool_lia; lia|].
    destruct (Hw (lr_Reader r) (Z.to_nat n)) as (s & out & err & -> & Hlen).
    cbn. eexists _, out, err. split; [reflexivity|].
    assert (Hz : Zlength out <= n) by (unfold Zlength; lia).
    cbn [lr_N lr_n].
    rewrite wrap64_id by (unfold is_int64, min_int64, max_int64, Zlength in *; lia).
    repeat split; try lia.
Qed.

Lemma SliceReader_reads_within : @reads_within SliceReader _.
Proof.
  intros r p. unfold Read, SliceReader_Reader, SliceReader_Read.
  destruct (sr_rs r) as [|x l] eqn:E.
  - eexists _, _, _. split; [reflexivity|]. cbn. lia.
  - eexists _, _, _. split; [reflexivity|]. rewrite length_take. lia.
Qed.

Lemma LimitedReader_Read_within_witness :
  let r := mkLimitedReader (mkSliceReader hello) 7 5 in
  exists r' out err,
    LimitedReader_Read r 4 = Done (r', out, err)
    /\ (length out <= 4)%nat
    /\ Zlength out <= 7 - 5
    /\ lr_N r' = 7
    /\ lr_n r' = 5 + Zlength out
    /\ (5 = 7 -> out = [] /\ err = Some ErrEOF).
Proof.
  cbv zeta.
  apply (LimitedReader_Read_within (mkLimitedReader (mkSliceReader hello) 7 5) 4).
  - exact SliceReader_reads_within.
  - cbn. lia.
  - cbn. unfold max_int64. lia.
Defined.

Lemma ReadAll_loop_Limited fuel : forall l n N acc,
  0 <= n <= N -> N <= max_int64 -> (length l < fuel)%nat ->
  exists r',
    ReadAll_loop fuel (mkLimitedReader (mkSliceReader l) N n) acc
    = Some (Done (r', acc ++ take (Z.to_nat (N - n)) l, None)).
Proof.
  induction fuel as [|fuel IH]; intros l n N acc Hn HN Hf; [lia|].
  cbn [ReadAll_loop].
  unfold Read at 1, LimitedReader_Reader, LimitedReader_Read, LimitedReader_Size.
  cbn [lr_N lr_n lr_Reader]. unfold max_int64 in HN.
  rewrite (wrap64_id (N - n)) by (unfold is_int64, min_int64, max_int64; lia).
  destruct (N <=? n) eqn:E.
  - apply Z.leb_le in E. replace (N - n) with 0 by lia.
    eexists. rewrite take_0. reflexivity.
  - apply Z.leb_gt in E.
    set (k := if N - n <? Z.of_nat MinRead then N - n else Z.of_nat MinRead).
    assert (Hk : 0 < k <= N - n).
    { unfold k, MinRead. destruct (N - n <? Z.of_nat 512) eqn:E'; bool_lia; lia. }
    destruct (k <? 0) eqn:E0; [bool_lia; lia|].
    unfold Read, SliceReader_Reader, SliceReader_Read. cbn [sr_rs].
    destruct l as [|x l'].
    + cbn. eexists. rewrite take_nil. reflexivity.
    + set (l := x :: l') in *. cbn [mbind run_bind].
      assert (Hlt : Zlength (take (Z.to_nat k) l) = Z.min k (Zlength l)).
      { unfold Zlength. rewrite length_take. lia. }
      rewrite wrap64_id
        by (unfold is_int64, min_int64, max_int64; rewrite Hlt;
            pose proof (Zlength_nonneg l); lia).
      destruct (IH (drop (Z.to_nat k) l) (n + Zlength (take (Z.to_nat k) l)) N
                  (acc ++ take (Z.to_nat k) l)) as [r' Hr'].
      * rewrite Hlt. pose proof (Zlength_nonneg l). lia.
      * unfold max_int64. lia.
      * rewrite length_drop. subst l. cbn [length] in *. lia.
      * exists r'. etransitivity; [exact Hr'|]. do 3 f_equal.
        rewrite <- app_assoc. f_equal. rewrite Hlt.
        destruct (Z.le_gt_cases k (Zlength l)) as [Hle|Hgt].
        -- rewrite Z.min_l by lia.
           replace (Z.to_nat (N - n)) with (Z.to_nat k + Z.to_nat (N - (n + k)))%nat
             by lia.
           rewrite <- take_take_drop. reflexivity.
        -- rewrite Z.min_r by lia. unfold Zlength in Hgt.
           rewrite (take_ge l (Z.to_nat k)) by lia.
           rewrite (drop_ge l (Z.to_nat k)) by lia.
           rewrite take_nil, app_nil_r.
           rewrite take_ge by lia. reflexivity.
Qed.

(** X10. [ReadAll] on a new [LimitedReader] with limit [N >= 0] over a
    [SliceReader] returns the first [N] runes of the slice (all of them
    when there are fewer) with a nil error. *)
Theorem ReadAll_LimitedReader fuel rs N :
  0 <= N <= max_int64 -> (length rs < fuel)%nat ->
  exists r',
    ReadAll fuel (mkLimitedReader (mkSliceReader rs) N 0)
    = Some (Done (r', take (Z.to_nat N) rs, None)).
Proof.
  intros HN Hf. unfold ReadAll.
  destruct (ReadAll_loop_Limited fuel rs 0 N [] ltac:(lia) ltac:(lia) Hf) as [r' Hr'].
  exists r'. rewrite Hr'. rewrite Z.sub_0_r. reflexivity.
Qed.

Lemma ReadAll_LimitedReader_witness :
  exists r',
    ReadAll 20 (mkLimitedReader (mkSliceReader hello) 4 0)
    = Some (Done (r', take (Z.to_nat 4) hello, None)).
Proof.
  apply (ReadAll_LimitedReader 20 hello 4).
  - unfold max_int64. lia.
  - vm_compute. lia.
Defined.

(** ** The line numbers of a range *)

Lemma slice_cons {A} (l : list A) lo hi x :
  0 <= lo < hi -> l !! Z.to_nat lo = Some x ->
  slice l lo hi = x :: slice l (lo + 1) hi.
Proof.
  intros H Hx. unfold slice.
  replace (Z.to_nat (hi - lo)) with (S (Z.to_nat (hi - (lo + 1)))) by lia.
  replace (Z.to_nat (lo + 1)) with (S (Z.to_nat lo)) by lia.
  rewrite (drop_S _ _ _ Hx). reflexivity.
Qed.

Lemma slice_empty {A} (l : list A) lo hi : hi <= lo -> slice l lo hi = [].
Proof. intros H. unfold slice. replace (Z.to_nat (hi - lo)) with 0%nat by lia. apply take_0. Qed.

Lemma count_newlines_bound rs : 0 <= count_newlines rs <= Zlength rs.
Proof.
  induction rs as [|r rs IH]; [unfold Zlength; cbn; lia|].
  cbn [count_newlines]. rewrite Zlength_cons. destruct (r =? newline); lia.
Qed.

Lemma rb_Rune_ok (b : list Z) i :
  0 <= i < rb_Size b -> exists r, b !! Z.to_nat i = Some r /\ rb_Rune b i = Ok r.
Proof.
  intros Hi. unfold rb_Rune, rb_Size, Zlength in *.
  destruct (b !! Z.to_nat i) as [r|] eqn:E.
  - exists r. split; [reflexivity|].
    destruct (0 <=? i) eqn:E0; [reflexivity|bool_lia; lia].
  - apply lookup_ge_None in E. lia.
Qed.

Lemma lines_upto_count fuel (b : list Z) from_ : forall i l0,
  0 <= i <= from_ -> from_ <= rb_Size b -> rb_Size b < max_int64 ->
  0 <= l0 -> l0 + (from_ - i) <= max_int64 ->
  (Z.to_nat (from_ - i) < fuel)%nat ->
  lines_upto fuel b from_ i l0
  = Some (Ok (from_, l0 + count_newlines (slice b i from_))).
Proof.
  induction fuel as [|fuel IH]; intros i l0 Hi Hf Hsz Hl0 Hl Hfuel; [lia|].
  cbn [lines_upto]. unfold max_int64 in *.
  destruct (i <? from_) eqn:E.
  - apply Z.ltb_lt in E.
    destruct (rb_Rune_ok b i ltac:(lia)) as (r & Hr & ->).
    rewrite (slice_cons b i from_ r) by (assumption || lia).
    cbn [count_newlines].
    rewrite (wrap64_id (i + 1)) by (unfold is_int64, min_int64, max_int64; lia).
    destruct (r =? newline).
    + rewrite (wrap64_id (l0 + 1)) by (unfold is_int64, min_int64, max_int64; lia).
      rewrite IH by lia. do 3 f_equal. lia.
    + rewrite IH by lia. do 3 f_equal.
  - apply Z.ltb_ge in E. replace i with from_ by lia.
    rewrite slice_empty by lia. cbn. do 3 f_equal. lia.
Qed.

Lemma lines_within_count fuel (b : list Z) to_ : forall i l1,
  0 <= i -> to_ <= rb_Size b -> rb_Size b < max_int64 ->
  0 <= l1 -> l1 + (to_ - i) <= max_int64 ->
  (Z.to_nat (to_ - i) < fuel)%nat ->
  lines_within fuel b to_ i l1
  = Some (Ok (l1 + count_newlines (slice b i (to_ - 1)))).
Proof.
  induction fuel as [|fuel IH]; intros i l1 Hi Hf Hsz Hl1 Hl Hfuel; [lia|].
  cbn [lines_within]. unfold max_int64 in *.
  destruct (i <? to_) eqn:E.
  - apply Z.ltb_lt in E.
    destruct (rb_Rune_ok b i ltac:(lia)) as (r & Hr & ->).
    rewrite (wrap64_id (i + 1)) by (unfold is_int64, min_int64, max_int64; lia).
    rewrite (wrap64_id (to_ - 1)) by (unfold is_int64, min_int64, max_int64; lia).
    destruct (i <? to_ - 1) eqn:E1.
    + apply Z.ltb_lt in E1.
      rewrite (slice_cons b i (to_ - 1) r) by (assumption || lia).
      cbn [count_newlines].
      destruct (r =? newline); cbn [andb].
      * rewrite (wrap64_id (l1 + 1)) by (unfold is_int64, min_int64, max_int64; lia).
        rewrite IH by lia. do 2 f_equal. lia.
      * rewrite IH by lia. do 2 f_equal.
    + apply Z.ltb_ge in E1. rewrite andb_false_r.
      rewrite IH by lia.
      rewrite !slice_empty by lia. reflexivity.
  - apply Z.ltb_ge in E. rewrite slice_empty by lia. cbn. do 2 f_equal. lia.
Qed.

(** X11. For a range within the buffer, [Editor.lines] returns (within
    one pass per rune before the end of the range, and one more) the line
    number of the start of the range, one more than the number of
    newlines before it, and the line number of its end, which adds the
    newlines of the range itself, its last rune left out. *)
Theorem Editor_lines_counts fuel at_ (b : list Z) :
  range_in at_ (rb_Size b) -> rb_Size b < max_int64 - 1 ->
  (Z.to_nat (to at_) < fuel)%nat ->
  Editor_lines fuel at_ b
  = Some (Ok (1 + count_newlines (slice b 0 (from at_)),
              1 + count_newlines (slice b 0 (from at_))
              + count_newlines (slice b (from at_) (to at_ - 1)))).
Proof.
  intros Hat Hsz Hfuel. unfold range_in in Hat. unfold Editor_lines.
  rewrite lines_upto_count by lia.
  pose proof (count_newlines_bound (slice b 0 (from at_))) as Hc.
  rewrite slice_length in Hc by (unfold rb_Size in *; lia).
  rewrite lines_within_count by lia.
  reflexivity.
Qed.

Lemma Editor_lines_counts_witness :
  Editor_lines 20 (mkAddr 3 9) [97; 10; 98; 99; 10; 10; 100; 101; 10; 102]
  = Some (Ok (1 + count_newlines (slice [97; 10; 98; 99; 10; 10; 100; 101; 10; 102] 0 3),
              1 + count_newlines (slice [97; 10; 98; 99; 10; 10; 100; 101; 10; 102] 0 3)
              + count_newlines (slice [97; 10; 98; 99; 10; 10; 100; 101; 10; 102] 3 (9 - 1)))).
Proof.
  apply (Editor_lines_counts 20 (mkAddr 3 9)).
  - unfold range_in, rb_Size, Zlength. cbn. lia.
  - unfold rb_Size, Zlength, max_int64. cbn. lia.
  - cbn. lia.
Defined.

(** ** Evaluating addresses *)

(** Cases of [TestLineAddress] (reverse), [TestRuneAddress],
    [TestPlusAddress], [TestMinusAddress], [TestToAddress] and
    [TestThenAddress]. *)
Example whereFrom_tests :
  let pt p := mkAddr p p in
  let abcdef := runes_of "abc" ++ [10] ++ runes_of "def" in
  let aabb := runes_of "aa" ++ [10] ++ runes_of "bb" ++ [10] in
  run_address_test [] (pt 0) (Simple (Line (-1))) = Some (Ok (pt 0))
  /\ run_address_test (runes_of "aa") (pt 2) (Simple (reverse (Line 0)))
     = Some (Ok (mkAddr 0 2))
  /\ run_address_test (runes_of "aa") (pt 1) (Simple (Line (-1))) = Some (Ok (pt 0))
  /\ run_address_test (runes_of "aa" ++ [10]) (pt 3) (Simple (Line (-1)))
     = Some (Ok (mkAddr 0 3))
  /\ run_address_test aabb (pt 6) (Simple (Line (-2))) = Some (Ok (mkAddr 0 3))
  /\ run_address_test aabb (pt 6) (Simple (Line (-3))) = Some (Ok (pt 0))
  /\ run_address_test (runes_of "aa") (pt 2) (Simple (Line (-2)))
     = Some (Err ErrLineRange)
  /\ run_address_test abcdef (pt 4) (Simple (Line (-1))) = Some (Ok (mkAddr 0 4))
  /\ run_address_test abcdef (pt 3) (Simple (Line (-1))) = Some (Ok (pt 0))
  /\ run_address_test hello (pt 10) (Simple (Rune (-3))) = Some (Ok (pt 7))
  /\ run_address_test hello (pt 0) (Simple (Rune 10000)) = Some (Err ErrRuneRange)
  /\ run_address_test hello (pt 0) (Simple (Mark 9786)) = Some (Err ErrBadMark)
  /\ run_address_test abcdef (pt 0) (Plus (Simple (Line 1)) (Line (-1)))
     = Some (Ok (mkAddr 0 4))
  /\ run_address_test abcdef (pt 0) (Plus (Simple (Rune 1)) (Line 0))
     = Some (Ok (mkAddr 1 4))
  /\ run_address_test (runes_of "abc") (pt 0) (Minus (Simple (Rune 2)) (Rune (-1)))
     = Some (Ok (pt 3))
  /\ run_address_test abcdef (mkAddr 1 6)
       (Plus (Minus (Simple Dot) (Line 1)) (Line 1)) = Some (Ok (mkAddr 0 4))
  /\ run_address_test abcdef (pt 0) (To (To (Simple (Line 0)) (Simple (Line 1)))
                                        (Simple (Line 2)))
     = Some (Ok (mkAddr 0 7))
  /\ run_address_test (runes_of "abcabc") (pt 0)
       (To (Simple (Regexp (runes_of "/abc"))) (Simple (Regexp (runes_of "/b"))))
     = Some (Ok (mkAddr 0 2))
  /\ run_address_test (runes_of "abcabc") (pt 0)
       (Then (Simple (Regexp (runes_of "/abc/"))) (Simple (Regexp (runes_of "/b/"))))
     = Some (Ok (mkAddr 0 5))
  /\ run_address_test (runes_of "abcabc") (pt 0)
       (Then (Simple (Regexp (runes_of "/abc/"))) (Plus (Simple Dot) (Rune 1)))
     = Some (Ok (mkAddr 0 4))
  /\ run_address_test (runes_of "abcabc") (pt 0)
       (Then (To (Simple (Line 0)) (Simple (Rune 1))) (Plus (Simple Dot) (Rune 1)))
     = Some (Ok (mkAddr 0 2)).
Proof. vm_compute. repeat split. Qed.

(** X12. Evaluating an address in which [Then] does not occur leaves the
    buffer and the editor, its marks among them, as they were, whatever
    the evaluation returns. *)
Theorem whereFrom_no_Then_keeps_editor a : forall fuel from_ ed b b' r,
  no_Then a = true ->
  Address_whereFrom fuel a from_ ed b = Some (b', r) -> b' = b.
Proof.
  induction a as [s|op a1 IH1 a2 IH2|op a1 IH1 a2]; intros fuel from_ ed b b' r Hn H;
    cbn [Address_whereFrom no_Then] in *.
  - destruct (simple_whereFrom fuel s from_ ed b); [|discriminate].
    now injection H as <- _.
  - apply andb_true_iff in Hn as [Hn Hn2]. apply andb_true_iff in Hn as [Hop Hn1].
    apply negb_true_iff in Hop. rewrite Hop in H.
    destruct (Address_whereFrom fuel a1 from_ ed b) as [[b1 [r1|e|]]|] eqn:E1;
      try discriminate;
      pose proof (IH1 _ _ _ _ _ _ Hn1 E1) as ->;
      try (now injection H as <- _).
    destruct (op =? 44).
    + destruct (Address_whereFrom fuel a2 from_ ed b) as [[b2 [r2|e|]]|] eqn:E2;
        try discriminate;
        pose proof (IH2 _ _ _ _ _ _ Hn2 E2) as ->; now injection H as <- _.
    + now injection H as <- _.
  - destruct (Address_whereFrom fuel a1 from_ ed b) as [[b1 [r1|e|]]|] eqn:E1;
      try discriminate;
      pose proof (IH1 _ _ _ _ _ _ Hn E1) as ->;
      try (now injection H as <- _).
    destruct (op =? 43).
    + destruct (simple_whereFrom fuel a2 (to r1) ed b); [|discriminate].
      now injection H as <- _.
    + destruct (op =? 45); [|now injection H as <- _].
      destruct (simple_whereFrom fuel (reverse a2) (from r1) ed b); [|discriminate].
      now injection H as <- _.
Qed.

Lemma whereFrom_no_Then_keeps_editor_witness :
  let t := address_test (runes_of "abc" ++ [10] ++ runes_of "def") (mkAddr 1 6) in
  let a := Plus (Minus (Simple Dot) (Line 1)) (Line 1) in
  Address_whereFrom 40 a 6 (snd t) (fst t) = Some (fst t, Ok (mkAddr 0 4)).
Proof.
  cbv zeta.
  assert (E : exists b',
    Address_whereFrom 40 (Plus (Minus (Simple Dot) (Line 1)) (Line 1)) 6
      (snd (address_test (runes_of "abc" ++ [10] ++ runes_of "def") (mkAddr 1 6)))
      (fst (address_test (runes_of "abc" ++ [10] ++ runes_of "def") (mkAddr 1 6)))
    = Some (b', Ok (mkAddr 0 4))).
  { vm_compute. eexists. reflexivity. }
  destruct E as [b' E]. rewrite E. do 2 f_equal.
  exact (whereFrom_no_Then_keeps_editor
           (Plus (Minus (Simple Dot) (Line 1)) (Line 1)) _ _ _ _ _ _ eq_refl E).
Defined.

(** X13. [All], that is [Line(0).To(End)], evaluates on every buffer to
    the range of the whole buffer, [(0, size)], whatever the marks of the
    editor are, and leaves the editor as it was. *)
Theorem Where_All fuel ed b :
  Editor_Where (S fuel) All ed b = Some (b, Ok (mkAddr 0 (rb_Size (runes b)))).
Proof. reflexivity. Qed.

(** X14. [End.To(Line(0))], the address [$,0], evaluates without an error
    to the range from the end of the buffer to its start, [(size, 0)]:
    the two sides of [To] are not compared, and on a buffer that is not
    empty the result has its start after its end. *)
Theorem Where_End_To_start fuel ed b :
  Editor_Where (S fuel) (To (Simple End) (Simple (Line 0))) ed b
  = Some (b, Ok (mkAddr (rb_Size (runes b)) 0))
  /\ (runes b <> [] -> to (mkAddr (rb_Size (runes b)) 0) < from (mkAddr (rb_Size (runes b)) 0)).
Proof.
  split; [reflexivity|].
  intros Hne. cbn [from to]. unfold rb_Size, Zlength.
  destruct (runes b); [congruence|cbn [length]; lia].
Qed.

Lemma Where_End_To_start_witness :
  let b := fst (NewEditor (set_runes hello NewBuffer)) in
  let ed := snd (NewEditor (set_runes hello NewBuffer)) in
  Editor_Where 1 (To (Simple End) (Simple (Line 0))) ed b
  = Some (b, Ok (mkAddr (rb_Size (runes b)) 0))
  /\ to (mkAddr (rb_Size (runes b)) 0) < from (mkAddr (rb_Size (runes b)) 0).
Proof.
  cbv zeta.
  destruct (Where_End_To_start 0 (snd (NewEditor (set_runes hello NewBuffer)))
              (fst (NewEditor (set_runes hello NewBuffer)))) as [H1 H2].
  split; [exact H1|]. apply H2. vm_compute. discriminate.
Defined.

(** ** Line addresses from any offset *)

Lemma fwd_to_line_end_total fuel (b : list Z) : forall t,
  0 < t <= rb_Size b -> rb_Size b <= max_int64 ->
  (Z.to_nat (rb_Size b - t) < fuel)%nat ->
  exists t', fwd_to_line_end fuel b t = Some (Ok t') /\ t <= t' <= rb_Size b.
Proof.
  induction fuel as [|fuel IH]; intros t Ht Hsz Hf; [lia|].
  cbn [fwd_to_line_end]. unfold max_int64 in *.
  destruct (t <? rb_Size b) eqn:E.
  - apply Z.ltb_lt in E.
    rewrite (wrap64_id (t - 1)) by (unfold is_int64, min_int64, max_int64; lia).
    destruct (rb_Rune_ok b (t - 1) ltac:(lia)) as (r & _ & ->).
    destruct (r =? newline).
    + exists t. split; [reflexivity|lia].
    + rewrite (wrap64_id (t + 1)) by (unfold is_int64, min_int64, max_int64; lia).
      destruct (IH (t + 1) ltac:(lia) ltac:(lia) ltac:(lia)) as (t' & -> & Ht').
      exists t'. split; [reflexivity|lia].
  - exists t. split; [reflexivity|lia].
Qed.

Lemma fwd_lines_total fuel (b : list Z) : forall n a,
  0 <= from a <= to a -> to a <= rb_Size b -> rb_Size b <= max_int64 ->
  (Z.to_nat (rb_Size b - to a) < fuel)%nat ->
  exists n' a', fwd_lines fuel b n a = Some (Ok (n', a'))
    /\ from a <= from a' <= to a' /\ to a' <= rb_Size b.
Proof.
  induction fuel as [|fuel IH]; intros n a Ha Ht Hsz Hf; [lia|].
  cbn [fwd_lines]. unfold max_int64 in *.
  destruct ((0 <? n) && (to a <? rb_Size b)) eqn:E.
  - apply andb_true_iff in E as [_ E]. apply Z.ltb_lt in E.
    destruct (rb_Rune_ok b (to a) ltac:(lia)) as (r & _ & ->).
    rewrite (wrap64_id (to a + 1)) by (unfold is_int64, min_int64, max_int64; lia).
    cbn [from to].
    destruct (r =? newline).
    + destruct (0 <? wrap64 (n - 1)).
      * destruct (IH (wrap64 (n - 1)) (mkAddr (to a + 1) (to a + 1)))
          as (n' & a' & -> & Ha'); cbn [from to]; try lia.
        exists n', a'. split; [reflexivity|]. cbn [from to] in Ha'. lia.
      * destruct (IH (wrap64 (n - 1)) (mkAddr (from a) (to a + 1)))
          as (n' & a' & -> & Ha'); cbn [from to]; try lia.
        exists n', a'. split; [reflexivity|]. cbn [from to] in Ha'. lia.
    + destruct (IH n (mkAddr (from a) (to a + 1)))
        as (n' & a' & -> & Ha'); cbn [from to]; try lia.
      exists n', a'. split; [reflexivity|]. cbn [from to] in Ha'. lia.
  - exists n, a. split; [reflexivity|lia].
Qed.

(** From an offset of the buffer, [fwd] returns, without a panic, and a
    range it returns lies within the buffer, at or after the offset. *)
Lemma lineAddr_fwd_total fuel n from_ (b : list Z) :
  0 <= from_ <= rb_Size b -> rb_Size b <= max_int64 ->
  (Z.to_nat (rb_Size b) < fuel)%nat ->
  exists r, lineAddr_fwd fuel n from_ b = Some r /\ r <> Panic
    /\ (forall a, r = Ok a -> from_ <= from a <= to a /\ to a <= rb_Size b).
Proof.
  intros Hfrom Hsz Hf. unfold lineAddr_fwd. cbn [from to].
  destruct (0 <? from_) eqn:E.
  - apply Z.ltb_lt in E.
    destruct (fwd_to_line_end_total fuel b from_ ltac:(lia) Hsz ltac:(lia))
      as (t & -> & Ht).
    destruct (0 <? n);
      match goal with
      | |- context [fwd_lines fuel b n ?a0] =>
          destruct (fwd_lines_total fuel b n a0) as (n' & a' & -> & Ha');
            cbn [from to] in *; try lia
      end;
      (destruct ((1 <? n') || ((n' =? 1) && (to a' <? rb_Size b)));
       eexists; (split; [reflexivity|]); (split; [discriminate|]);
       [intros a [=]|intros a [= <-]; lia]).
  - match goal with
    | |- context [fwd_lines fuel b n ?a0] =>
        destruct (fwd_lines_total fuel b n a0) as (n' & a' & -> & Ha');
          cbn [from to] in *; try lia
    end.
    destruct ((1 <? n') || ((n' =? 1) && (to a' <? rb_Size b)));
      eexists; (split; [reflexivity|]); (split; [discriminate|]);
      [intros a [=]|intros a [= <-]; lia].
Qed.

Lemma rev_to_line_start_total fuel (b : list Z) : forall f,
  0 <= f <= rb_Size b -> rb_Size b <= max_int64 ->
  (Z.to_nat f < fuel)%nat ->
  exists f', rev_to_line_start fuel b f = Some (Ok f') /\ 0 <= f' <= f.
Proof.
  induction fuel as [|fuel IH]; intros f Hf Hsz Hfuel; [lia|].
  cbn [rev_to_line_start]. unfold max_int64 in *.
  destruct (0 <? f) eqn:E.
  - apply Z.ltb_lt in E.
    rewrite (wrap64_id (f - 1)) by (unfold is_int64, min_int64, max_int64; lia).
    destruct (rb_Rune_ok b (f - 1) ltac:(lia)) as (r & _ & ->).
    destruct (r =? newline).
    + exists f. split; [reflexivity|lia].
    + destruct (IH (f - 1) ltac:(lia) ltac:(lia) ltac:(lia)) as (f' & -> & Hf').
      exists f'. split; [reflexivity|lia].
  - exists f. split; [reflexivity|lia].
Qed.

Lemma rev_lines_total fuel (b : list Z) : forall n a,
  0 <= from a <= to a -> to a <= rb_Size b -> rb_Size b <= max_int64 ->
  (Z.to_nat (from a) < fuel)%nat ->
  exists n' a', rev_lines fuel b n a = Some (Ok (n', a'))
    /\ 0 <= from a' <= to a' /\ to a' <= to a.
Proof.
  induction fuel as [|fuel IH]; intros n a Ha Ht Hsz Hf; [lia|].
  cbn [rev_lines]. unfold max_int64 in *.
  destruct ((0 <? n) && (0 <? from a)) eqn:E.
  - apply andb_true_iff in E as [_ E]. apply Z.ltb_lt in E.
    rewrite (wrap64_id (from a - 1)) by (unfold is_int64, min_int64, max_int64; lia).
    destruct (rb_Rune_ok b (from a - 1) ltac:(lia)) as (r & _ & ->).
    cbn [from to].
    destruct (r =? newline).
    + rewrite (wrap64_id (from a - 1 + 1))
        by (unfold is_int64, min_int64, max_int64; lia).
      destruct (IH (wrap64 (n - 1)) (mkAddr (from a - 1) (from a - 1 + 1)))
        as (n' & a' & -> & Ha'); cbn [from to]; try lia.
      exists n', a'. split; [reflexivity|]. cbn [from to] in Ha'. lia.
    + destruct (from a - 1 =? 0) eqn:E0.
      * destruct (IH n (mkAddr (from a - 1) (from a - 1)))
          as (n' & a' & -> & Ha'); cbn [from to]; try lia.
        exists n', a'. split; [reflexivity|]. cbn [from to] in Ha'. lia.
      * destruct (IH n (mkAddr (from a - 1) (to a)))
          as (n' & a' & -> & Ha'); cbn [from to]; try lia.
        exists n', a'. split; [reflexivity|]. cbn [from to] in Ha'. lia.
  - exists n, a. split; [reflexivity|lia].
Qed.

(** From an offset of the buffer, [rev] returns, without a panic, and a
    range it returns lies within the buffer, at or before the offset. *)
Lemma lineAddr_rev_total fuel n from_ (b : list Z) :
  0 <= from_ <= rb_Size b -> rb_Size b <= max_int64 ->
  (Z.to_nat (rb_Size b) < fuel)%nat ->
  exists r, lineAddr_rev fuel n from_ b = Some r /\ r <> Panic
    /\ (forall a, r = Ok a -> 0 <= from a <= to a /\ to a <= from_).
Proof.
  intros Hfrom Hsz Hf. unfold lineAddr_rev. cbn [from to].
  assert (Htail : forall a0, 0 <= from a0 <= to a0 -> to a0 <= from_ ->
    exists r,
      match rev_lines fuel b n a0 with
      | None => None
      | Some (Err e) => Some (Err e)
      | Some Panic => Some Panic
      | Some (Ok (n, a)) =>
          if 1 <? n then Some (Err ErrLineRange)
          else match rev_to_line_start fuel b (from a) with
               | None => None
               | Some (Err e) => Some (Err e)
               | Some Panic => Some Panic
               | Some (Ok f) => Some (Ok (mkAddr f (to a)))
               end
      end = Some r /\ r <> Panic
      /\ (forall a, r = Ok a -> 0 <= from a <= to a /\ to a <= from_)).
  { intros a0 Ha0 Ht0.
    destruct (rev_lines_total fuel b n a0 ltac:(lia) ltac:(lia) Hsz ltac:(lia))
      as (n' & a' & -> & Ha').
    destruct (1 <? n').
    - eexists. split; [reflexivity|]. split; [discriminate|]. intros a [=].
    - destruct (rev_to_line_start_total fuel b (from a') ltac:(lia) Hsz ltac:(lia))
        as (f & -> & Hf').
      eexists. split; [reflexivity|]. split; [discriminate|].
      intros a [= <-]. cbn [from to]. lia. }
  destruct (from_ <? rb_Size b) eqn:E.
  - destruct (rev_to_line_start_total fuel b from_ ltac:(lia) Hsz ltac:(lia))
      as (f & -> & Hf').
    apply Htail; cbn [from to]; lia.
  - apply Htail; cbn [from to]; lia.
Qed.

Lemma not_reAddr_reverse s : not_reAddr s = true -> not_reAddr (reverse s) = true.
Proof. unfold not_reAddr, reverse. destruct (impl s); cbn; congruence. Qed.

(** A simple address that is not a regular expression, evaluated from an
    offset of the buffer, returns, and a range it returns is a range
    within the buffer. *)
Lemma simple_whereFrom_total fuel s from_ ed b :
  not_reAddr s = true ->
  0 <= from_ <= rb_Size (runes b) -> rb_Size (runes b) <= max_int64 ->
  (Z.to_nat (rb_Size (runes b)) < fuel)%nat ->
  exists r, simple_whereFrom fuel s from_ ed b = Some r
    /\ (forall a, r = Ok a -> range_in a (rb_Size (runes b))).
Proof.
  intros Hs Hfrom Hsz Hf. unfold simple_whereFrom, not_reAddr in *.
  destruct (impl s) as [| |m|n|neg n|rev re]; try discriminate.
  - destruct (editors b !! ed) as [e|]; [|eexists; split; [reflexivity|intros a [=]]].
    destruct (bad_mark _ b) eqn:E; [eexists; split; [reflexivity|intros a [=]]|].
    eexists. split; [reflexivity|]. intros a [= <-].
    unfold bad_mark in E. unfold range_in. bool_lia. lia.
  - eexists. split; [reflexivity|]. intros a [= <-]. unfold range_in. cbn. lia.
  - destruct (editors b !! ed) as [e|]; [|eexists; split; [reflexivity|intros a [=]]].
    destruct (bad_mark _ b) eqn:E; [eexists; split; [reflexivity|intros a [=]]|].
    destruct (negb (isMarkRune m) && negb (m =? dot_rune));
      [eexists; split; [reflexivity|intros a [=]]|].
    eexists. split; [reflexivity|]. intros a [= <-].
    unfold bad_mark in E. unfold range_in. bool_lia. lia.
  - destruct ((wrap64 (from_ + n) <? 0) || (rb_Size (runes b) <? wrap64 (from_ + n))) eqn:E.
    + eexists. split; [reflexivity|]. intros a [=].
    + eexists. split; [reflexivity|]. intros a [= <-].
      unfold range_in. cbn [from to]. bool_lia. lia.
  - destruct neg.
    + destruct (lineAddr_rev_total fuel n from_ (runes b) Hfrom Hsz Hf) as (r & -> & _ & Hr).
      exists r. split; [reflexivity|]. intros a ->.
      specialize (Hr a eq_refl). unfold range_in. lia.
    + destruct (lineAddr_fwd_total fuel n from_ (runes b) Hfrom Hsz Hf) as (r & -> & _ & Hr).
      exists r. split; [reflexivity|]. intros a ->.
      specialize (Hr a eq_refl). unfold range_in. lia.
Qed.

(** X15. An address without regular expressions, evaluated from an offset
    of the buffer with fuel for one pass per rune, returns; the runes of
    the buffer are as before; both ends of a range it returns lie within
    the buffer; and when the address is made with [Plus] and [Minus]
    only, the range it returns is a range within the buffer, its start
    not after its end. *)
Theorem whereFrom_total a : forall fuel from_ ed b,
  no_Regexp a = true ->
  0 <= from_ <= rb_Size (runes b) -> rb_Size (runes b) <= max_int64 ->
  (Z.to_nat (rb_Size (runes b)) < fuel)%nat ->
  exists b' r, Address_whereFrom fuel a from_ ed b = Some (b', r)
    /\ runes b' = runes b
    /\ (forall x, r = Ok x ->
          ends_in x (rb_Size (runes b))
          /\ (additive a = true -> range_in x (rb_Size (runes b)))).
Proof.
  induction a as [s|op a1 IH1 a2 IH2|op a1 IH1 a2];
    intros fuel from_ ed b Hre Hfrom Hsz Hf;
    cbn [Address_whereFrom no_Regexp additive] in *.
  - destruct (simple_whereFrom_total fuel s from_ ed b Hre Hfrom Hsz Hf) as (r & -> & Hr).
    exists b, r. split; [reflexivity|]. split; [reflexivity|].
    intros x ->. specialize (Hr x eq_refl). unfold ends_in, range_in in *.
    split; [lia|intros _; lia].
  - apply andb_true_iff in Hre as [Hre1 Hre2].
    destruct (IH1 fuel from_ ed b Hre1 Hfrom Hsz Hf) as (b1 & r1 & -> & Hb1 & Hr1).
    destruct r1 as [x1|e|];
      [|eexists _, _; split; [reflexivity|]; split; [exact Hb1|intros x [=]]..].
    destruct (Hr1 x1 eq_refl) as [Hx1 _]. unfold ends_in in Hx1.
    destruct (op =? 44).
    + destruct (IH2 fuel from_ ed b1 Hre2) as (b2 & r2 & -> & Hb2 & Hr2);
        rewrite ?Hb1; try assumption.
      destruct r2 as [x2|e|];
        [|eexists _, _; split; [reflexivity|]; split;
          [congruence|intros x [=]]..].
      eexists _, _. split; [reflexivity|]. split; [congruence|].
      intros x [= <-]. destruct (Hr2 x2 eq_refl) as [Hx2 _].
      rewrite Hb1 in Hx2. unfold ends_in in *. cbn [from to].
      split; [lia|discriminate].
    + destruct (op =? 59);
        [|eexists _, _; split; [reflexivity|]; split; [exact Hb1|intros x [=]]].
      destruct (editors b1 !! ed) as [e|];
        [|eexists _, _; split; [reflexivity|]; split; [exact Hb1|intros x [=]]].
      destruct (IH2 fuel (to x1) ed (set_dot ed x1 b1) Hre2)
        as (b2 & r2 & -> & Hb2 & Hr2);
        cbn [set_dot set_editors runes]; rewrite ?Hb1; try assumption; try lia.
      cbn [set_dot set_editors runes] in Hb2, Hr2.
      destruct r2 as [x2|e2|].
      * eexists _, _. split; [reflexivity|]. split; [congruence|].
        intros x [= <-]. destruct (Hr2 x2 eq_refl) as [Hx2 _].
        rewrite Hb1 in Hx2. unfold ends_in in *. cbn [from to].
        split; [lia|discriminate].
      * eexists _, _. split; [reflexivity|]. split; [cbn; congruence|intros x [=]].
      * eexists _, _. split; [reflexivity|]. split; [congruence|intros x [=]].
  - apply andb_true_iff in Hre as [Hre1 Hre2].
    destruct (IH1 fuel from_ ed b Hre1 Hfrom Hsz Hf) as (b1 & r1 & -> & Hb1 & Hr1).
    destruct r1 as [x1|e|];
      [|eexists _, _; split; [reflexivity|]; split; [exact Hb1|intros x [=]]..].
    destruct (Hr1 x1 eq_refl) as [Hx1 _]. unfold ends_in in Hx1.
    destruct (op =? 43).
    + destruct (simple_whereFrom_total fuel a2 (to x1) ed b1 Hre2) as (r & -> & Hr);
        rewrite ?Hb1; try assumption; try lia.
      exists b1, r. split; [reflexivity|]. split; [exact Hb1|].
      intros x ->. specialize (Hr x eq_refl). rewrite Hb1 in Hr.
      unfold ends_in, range_in in *. split; [lia|intros _; lia].
    + destruct (op =? 45);
        [|eexists _, _; split; [reflexivity|]; split; [exact Hb1|intros x [=]]].
      destruct (simple_whereFrom_total fuel (reverse a2) (from x1) ed b1
                  (not_reAddr_reverse _ Hre2)) as (r & -> & Hr);
        rewrite ?Hb1; try assumption; try lia.
      exists b1, r. split; [reflexivity|]. split; [exact Hb1|].
      intros x ->. specialize (Hr x eq_refl). rewrite Hb1 in Hr.
      unfold ends_in, range_in in *. split; [lia|intros _; lia].
Qed.

Lemma whereFrom_total_witness :
  let t := address_test (runes_of "abc" ++ [10] ++ runes_of "def") (mkAddr 1 6) in
  let a := Then (Simple (Line 1)) (Plus (Minus (Simple Dot) (Line 1)) (Rune 2)) in
  exists b' r, Address_whereFrom 40 a 6 (snd t) (fst t) = Some (b', r)
    /\ runes b' = runes (fst t)
    /\ (forall x, r = Ok x ->
          ends_in x (rb_Size (runes (fst t)))
          /\ (additive a = true -> range_in x (rb_Size (runes (fst t))))).
Proof.
  cbv zeta.
  apply (whereFrom_total
           (Then (Simple (Line 1)) (Plus (Minus (Simple Dot) (Line 1)) (Rune 2)))).
  - reflexivity.
  - vm_compute. split; discriminate.
  - vm_compute. discriminate.
  - vm_compute. lia.
Defined.

Lemma marks_of_set_dot ed a b :
  is_Some (editors b !! ed) ->
  marks_of ed (set_dot ed a b) = <[dot_rune := a]> (marks_of ed b).
Proof.
  intros [e He]. unfold marks_of, set_dot. cbn [editors set_editors].
  rewrite lookup_alter_eq, He. reflexivity.
Qed.

(** X16. [a1.Then(a2)], for [a1] and [a2] in which [Then] does not occur,
    on an editor of the buffer: when it returns a range, that range runs
    from the start of [a1] to the end of [a2], [a2] was evaluated from the
    end of [a1] with dot set to the range of [a1], and dot is left at the
    range of [a1]; when it returns an error, every mark of the editor,
    dot among them, reads as before the evaluation. *)
Theorem Then_sets_dot fuel a1 a2 from_ ed b b' r :
  no_Then a1 = true -> no_Then a2 = true ->
  is_Some (editors b !! ed) ->
  Address_whereFrom fuel (Then a1 a2) from_ ed b = Some (b', r) ->
  match r with
  | Ok x =>
      exists r1 r2,
        Address_whereFrom fuel a1 from_ ed b = Some (b, Ok r1)
        /\ Address_whereFrom fuel a2 (to r1) ed (set_dot ed r1 b)
           = Some (set_dot ed r1 b, Ok r2)
        /\ x = mkAddr (from r1) (to r2)
        /\ b' = set_dot ed r1 b
        /\ mark_get (marks_of ed b') dot_rune = r1
  | Err _ =>
      runes b' = runes b
      /\ forall m, mark_get (marks_of ed b') m = mark_get (marks_of ed b) m
  | Panic => True
  end.
Proof.
  intros Hn1 Hn2 [e He] H. unfold Then in H. cbn [Address_whereFrom] in H.
  destruct (Address_whereFrom fuel a1 from_ ed b) as [[b1 [r1|e1|]]|] eqn:E1;
    try discriminate;
    pose proof (whereFrom_no_Then_keeps_editor _ _ _ _ _ _ _ Hn1 E1) as ->.
  - change (59 =? 44) with false in H. change (59 =? 59) with true in H.
    cbn iota in H. rewrite He in H.
    destruct (Address_whereFrom fuel a2 (to r1) ed (set_dot ed r1 b))
      as [[b2 [r2|e2|]]|] eqn:E2; try discriminate;
      pose proof (whereFrom_no_Then_keeps_editor _ _ _ _ _ _ _ Hn2 E2) as ->;
      injection H as <- <-.
    + exists r1, r2. split; [reflexivity|]. split; [exact E2|].
      split; [reflexivity|]. split; [reflexivity|].
      rewrite marks_of_set_dot by (eexists; exact He).
      unfold mark_get. now rewrite lookup_insert_eq.
    + split; [reflexivity|]. intros m.
      assert (He' : is_Some (editors (set_dot ed r1 b) !! ed)).
      { unfold set_dot. cbn [editors set_editors]. rewrite lookup_alter_eq, He.
        eexists. reflexivity. }
      rewrite marks_of_set_dot by exact He'.
      rewrite marks_of_set_dot by (eexists; exact He).
      unfold mark_get, marks_of. rewrite He.
      destruct (decide (m = dot_rune)) as [->|Hne].
      * now rewrite lookup_insert_eq.
      * now rewrite !lookup_insert_ne by congruence.
    + exact I.
  - injection H as <- <-. split; reflexivity.
  - injection H as <- <-. exact I.
Qed.

Lemma Then_sets_dot_witness :
  let t := address_test (runes_of "abcabc") (mkAddr 0 0) in
  let a1 := To (Simple (Line 0)) (Simple (Rune 1)) in
  let a2 := Plus (Simple Dot) (Rune 1) in
  exists b',
    Address_whereFrom 40 (Then a1 a2) 0 (snd t) (fst t) = Some (b', Ok (mkAddr 0 2))
    /\ exists r1 r2,
        Address_whereFrom 40 a1 0 (snd t) (fst t) = Some (fst t, Ok r1)
        /\ Address_whereFrom 40 a2 (to r1) (snd t) (set_dot (snd t) r1 (fst t))
           = Some (set_dot (snd t) r1 (fst t), Ok r2)
        /\ mkAddr 0 2 = mkAddr (from r1) (to r2)
        /\ b' = set_dot (snd t) r1 (fst t)
        /\ mark_get (marks_of (snd t) b') dot_rune = r1.
Proof.
  cbv zeta.
  assert (E : exists b',
    Address_whereFrom 40
      (Then (To (Simple (Line 0)) (Simple (Rune 1))) (Plus (Simple Dot) (Rune 1))) 0
      (snd (address_test (runes_of "abcabc") (mkAddr 0 0)))
      (fst (address_test (runes_of "abcabc") (mkAddr 0 0)))
    = Some (b', Ok (mkAddr 0 2))).
  { vm_compute. eexists. reflexivity. }
  destruct E as [b' E]. exists b'. split; [exact E|].
  apply (Then_sets_dot 40 (To (Simple (Line 0)) (Simple (Rune 1)))
           (Plus (Simple Dot) (Rune 1)) 0 _ _ b' (Ok (mkAddr 0 2))).
  - reflexivity.
  - reflexivity.
  - vm_compute. eexists. reflexivity.
  - exact E.
Defined.

(** ** The address parser consumes its input *)







(** ** Printing and parsing back *)

Lemma uint_runes_digits d : Forall (fun r => is_digit r = true) (uint_runes d).
Proof. induction d; cbn [uint_runes]; constructor; (reflexivity || assumption). Qed.

Lemma digits_acc d : forall acc : positive,
  fold_left (fun acc d => acc * 10 + (d - 48)) (uint_runes d) (Z.pos acc)
  = Z.pos (Pos.of_uint_acc d acc).
Proof.
  induction d; intros acc; cbn [uint_runes fold_left Pos.of_uint_acc];
    [reflexivity|..];
    match goal with
    | |- fold_left _ _ ?z = Z.pos (Pos.of_uint_acc _ ?p) =>
        replace z with (Z.pos p) by lia
    end; apply IHd.
Qed.

Lemma digits_value_uint d : digits_value (uint_runes d) = Z.of_N (Pos.of_uint d).
Proof.
  unfold digits_value.
  induction d; cbn [uint_runes fold_left Pos.of_uint]; [reflexivity|exact IHd|..];
    match goal with
    | |- fold_left _ _ ?z = Z.of_N (N.pos (Pos.of_uint_acc _ ?p)) =>
        change z with (Z.pos p)
    end; apply digits_acc.
Qed.

(** [FormatInt] of a number that is not negative is a string of digits,
    not empty, whose value is the number. *)
Lemma FormatInt_digits n :
  0 <= n ->
  exists d ds, FormatInt n = d :: ds
    /\ Forall (fun r => is_digit r = true) (d :: ds)
    /\ digits_value (d :: ds) = n.
Proof.
  intros Hn. unfold FormatInt. destruct n as [|p|p]; [| |lia].
  - exists 48, []. repeat split. repeat constructor.
  - cbn [Z.to_int].
    pose proof (DecimalPos.Unsigned.to_uint_nonnil p) as Hnil.
    pose proof (uint_runes_digits (Pos.to_uint p)) as Hd.
    pose proof (digits_value_uint (Pos.to_uint p)) as Hv.
    rewrite DecimalPos.Unsigned.of_to in Hv.
    destruct (uint_runes (Pos.to_uint p)) as [|d ds] eqn:E.
    + exfalso. destruct (Pos.to_uint p); cbn in E; congruence.
    + exists d, ds. repeat split; assumption.
Qed.

Lemma span_digits_exact ds : forall rest,
  Forall (fun r => is_digit r = true) ds ->
  match rest with [] => True | r :: _ => is_digit r = false end ->
  span_digits (ds ++ rest) = (ds, rest).
Proof.
  induction ds as [|d ds IH]; intros rest Hds Hrest.
  - cbn [app]. destruct rest as [|r rest]; [reflexivity|].
    cbn [span_digits]. now rewrite Hrest.
  - inversion Hds as [|? ? Hd Hds']; subst. cbn [app span_digits].
    rewrite Hd, (IH rest Hds' Hrest). reflexivity.
Qed.

Lemma is_digit_not_other r :
  is_digit r = true -> (r =? 39) = false /\ (r =? 35) = false.
Proof.
  unfold is_digit. intros H. apply andb_true_iff in H as [H1 H2].
  apply Z.leb_le in H1, H2. split; apply Z.eqb_neq; lia.
Qed.

Lemma isMarkRune_plain m :
  isMarkRune m = true ->
  valid_rune m = true /\ (IsSpace m && negb (m =? newline)) = false.
Proof.
  unfold isMarkRune, valid_rune, IsSpace, newline. intros H.
  assert (Hm : 65 <= m <= 122) by (bool_lia; lia).
  split.
  - apply orb_true_iff. left. apply andb_true_iff.
    split; [apply Z.leb_le|apply Z.ltb_lt]; lia.
  - apply andb_false_iff. left.
    repeat (apply orb_false_iff; split);
      try (apply Z.eqb_neq; lia);
      apply andb_false_iff; (left; apply Z.leb_gt; lia) || (right; apply Z.leb_gt; lia).
Qed.

(** A printable simple address, printed and followed by runes that do not
    start with a digit, is parsed back, and those runes are left. *)
Lemma parseSimpleAddr_String s rest :
  printable s = true ->
  match rest with [] => True | r :: _ => is_digit r = false end ->
  parseSimpleAddr (simple_String s ++ rest) = (Some s, rest, None).
Proof.
  intros Hp Hrest. destruct s as [i]. unfold printable, simple_String in *.
  cbn [impl] in *. destruct i as [| |m|n|neg n|rev re]; try discriminate.
  - reflexivity.
  - reflexivity.
  - destruct (isMarkRune_plain m Hp) as [Hv Hsp].
    unfold string_of_rune. rewrite Hv. cbn [app parseSimpleAddr].
    change (39 =? 39) with true. cbn iota.
    unfold parseMarkAddr. cbn [tail skip_space]. rewrite Hsp, Hp. reflexivity.
  - apply andb_true_iff in Hp as [H0 Hmax]. apply Z.leb_le in H0, Hmax.
    replace (n <? 0) with false by (symmetry; apply Z.ltb_ge; lia).
    destruct (FormatInt_digits n H0) as (d & ds & -> & Hds & Hv).
    cbn [app parseSimpleAddr]. change (35 =? 39) with false.
    change (35 =? 35) with true. cbn iota.
    unfold parseRuneAddr. cbn [tail].
    change (d :: ds ++ rest) with ((d :: ds) ++ rest).
    rewrite (span_digits_exact _ _ Hds Hrest).
    unfold ParseInt. rewrite Hv.
    replace (n <=? max_int64) with true by (symmetry; apply Z.leb_le; lia).
    reflexivity.
  - apply andb_true_iff in Hp as [Hp Hmax]. apply andb_true_iff in Hp as [Hneg H0].
    apply negb_true_iff in Hneg. subst neg. apply Z.leb_le in H0, Hmax.
    destruct (FormatInt_digits n H0) as (d & ds & -> & Hds & Hv).
    inversion Hds as [|? ? Hd Hds']; subst.
    destruct (is_digit_not_other d Hd) as [E39 E35].
    cbn [app parseSimpleAddr]. rewrite E39, E35, Hd.
    unfold parseLineAddr.
    change (d :: ds ++ rest) with ((d :: ds) ++ rest).
    rewrite (span_digits_exact _ _ Hds Hrest).
    unfold ParseInt.
    replace (digits_value (d :: ds) <=? max_int64) with true
      by (symmetry; apply Z.leb_le; lia).
    unfold Line.
    replace (digits_value (d :: ds) <? 0) with false
      by (symmetry; apply Z.ltb_ge; lia).
    reflexivity.
Qed.

(** A printable simple address is printed with a first rune of
    [simpleFirst]. *)
Lemma simple_String_first s :
  printable s = true ->
  exists c cs, simple_String s = c :: cs /\ is_simpleFirst c = true.
Proof.
  intros Hp. destruct s as [i]. unfold printable, simple_String in *.
  cbn [impl] in *. destruct i as [| |m|n|neg n|rev re]; try discriminate.
  - eexists _, _. split; reflexivity.
  - eexists _, _. split; reflexivity.
  - eexists _, _. split; reflexivity.
  - apply andb_true_iff in Hp as [H0 _]. apply Z.leb_le in H0.
    replace (n <? 0) with false by (symmetry; apply Z.ltb_ge; lia).
    eexists _, _. split; reflexivity.
  - apply andb_true_iff in Hp as [Hp _]. apply andb_true_iff in Hp as [Hneg H0].
    apply negb_true_iff in Hneg. subst neg. apply Z.leb_le in H0.
    destruct (FormatInt_digits n H0) as (d & ds & -> & Hds & _).
    inversion Hds as [|? ? Hd _]; subst.
    eexists _, _. split; [reflexivity|]. unfold is_simpleFirst. rewrite Hd.
    now rewrite !orb_true_r.
Qed.

(** The loop of [parseCompoundAddr] over a printed chain, followed by
    runes that do not start with a digit: it comes to the chain as the
    address parsed so far, at those runes. *)
Lemma parse_chain a : forall fuel rest,
  chain a = true ->
  match rest with [] => True | r :: _ => is_digit r = false end ->
  parseCompoundAddr_from (chain_passes a + fuel) None (Address_String a ++ rest)
  = parseCompoundAddr_from fuel (Some a) rest.
Proof.
  induction a as [s|op a1 IH1 a2 IH2|op a1 IH1 s]; intros fuel rest Hc Hrest;
    cbn [chain chain_passes Address_String] in *; [|discriminate|].
  - destruct (simple_String_first s Hc) as (c & cs & Hs & Hsf).
    pose proof (parseSimpleAddr_String s rest Hc Hrest) as Hp.
    rewrite Hs in *. cbn [Nat.add app parseCompoundAddr_from].
    rewrite Hsf. cbn [app] in Hp. rewrite Hp. reflexivity.
  - apply andb_true_iff in Hc as [Hc Hs]. apply andb_true_iff in Hc as [Hop Hc].
    assert (Hopv : string_of_rune op = [op]
                   /\ is_simpleFirst op = false /\ is_digit op = false).
    { apply orb_true_iff in Hop as [E|E]; apply Z.eqb_eq in E; subst op;
        repeat split. }
    destruct Hopv as (Hstr & Hnsf & Hnd). rewrite Hstr.
    rewrite <- !app_assoc. cbn [app].
    replace (S (chain_passes a1) + fuel)%nat with (chain_passes a1 + S fuel)%nat by lia.
    rewrite IH1 by assumption.
    cbn [parseCompoundAddr_from]. rewrite Hnsf, Hop.
    rewrite (parseSimpleAddr_String s rest Hs Hrest).
    apply orb_true_iff in Hop as [E|E]; apply Z.eqb_eq in E; subst op; reflexivity.
Qed.

Lemma parse_canonical a : forall fuel,
  canonical a = true ->
  parseCompoundAddr_from (parse_passes a + fuel) None (Address_String a)
  = Some (Some a, [], None).
Proof.
  induction a as [s|op a1 IH1 a2 IH2|op a1 IH1 s]; intros fuel Hc.
  - cbn [canonical parse_passes] in *.
    rewrite <- (app_nil_r (Address_String (Simple s))).
    replace (S (chain_passes (Simple s)) + fuel)%nat
      with (chain_passes (Simple s) + S fuel)%nat by lia.
    rewrite parse_chain by (assumption || exact I). reflexivity.
  - cbn [canonical parse_passes Address_String] in *.
    apply andb_true_iff in Hc as [Hc Hc2]. apply andb_true_iff in Hc as [Hop Hc1].
    assert (Hopv : string_of_rune op = [op]
                   /\ is_simpleFirst op = false /\ is_digit op = false
                   /\ ((op =? 43) || (op =? 45)) = false).
    { apply orb_true_iff in Hop as [E|E]; apply Z.eqb_eq in E; subst op;
        repeat split. }
    destruct Hopv as (Hstr & Hnsf & Hnd & Hnpm). rewrite Hstr. cbn [app].
    replace (chain_passes a1 + S (parse_passes a2) + fuel)%nat
      with (chain_passes a1 + S (parse_passes a2 + fuel))%nat by lia.
    rewrite parse_chain by assumption.
    cbn [parseCompoundAddr_from]. rewrite Hnsf, Hnpm, Hop.
    rewrite IH2 by assumption.
    assert (Hf : exists k, (parse_passes a2 + fuel)%nat = S k).
    { destruct a2; cbn [parse_passes]; eexists; try reflexivity.
      rewrite Nat.add_succ_r. reflexivity. }
    destruct Hf as [k ->]. cbn [parseCompoundAddr_from].
    apply orb_true_iff in Hop as [E|E]; apply Z.eqb_eq in E; subst op; reflexivity.
  - change (canonical (addAddr op a1 s)) with (chain (addAddr op a1 s)) in Hc.
    change (parse_passes (addAddr op a1 s)) with (S (chain_passes (addAddr op a1 s))).
    rewrite <- (app_nil_r (Address_String (addAddr op a1 s))).
    replace (S (chain_passes (addAddr op a1 s)) + fuel)%nat
      with (chain_passes (addAddr op a1 s) + S fuel)%nat by lia.
    rewrite parse_chain by (assumption || exact I). reflexivity.
Qed.

(** X18. An address made of printable simple addresses (dot, the end,
    marks named by letters, rune and line addresses that are not
    negative), joined by [Plus] and [Minus] into chains and the chains by
    [To] and [Then] nested to the right, is parsed back from the string
    [String()] prints: [Addr] returns that address, no runes and no
    error. *)
Theorem Addr_String_canonical a fuel :
  canonical a = true ->
  Addr (parse_passes a + fuel) (Address_String a) = Some (Some a, [], None).
Proof.
  intros Hc. unfold Addr, parseCompoundAddr.
  now rewrite parse_canonical.
Qed.

Lemma Addr_String_canonical_witness :
  let a := To (Plus (Simple (Rune 12)) (Line 3))
              (Then (Minus (Simple Dot) (Rune 0)) (Simple (Mark 97))) in
  Address_String a = runes_of "#12+3,.-#0;'a"
  /\ Addr (parse_passes a + 0) (Address_String a) = Some (Some a, [], None).
Proof.
  cbv zeta. split; [vm_compute; reflexivity|].
  apply (Addr_String_canonical
           (To (Plus (Simple (Rune 12)) (Line 3))
               (Then (Minus (Simple Dot) (Rune 0)) (Simple (Mark 97)))) 0).
  vm_compute. reflexivity.
Defined.

(** ** The trailing delimiter of a regular expression address *)




(** ** Several changes through [fixAddrs] and [applyChanges] *)

(** A range that starts at or after the end of a change is moved by the
    difference of the sizes. *)
Lemma update_after a b n sz :
  range_in a sz -> range_in b sz -> 0 <= n ->
  sz <= max_int64 -> sz + (n - (to b - from b)) <= max_int64 ->
  to b <= from a ->
  update a b n = mkAddr (from a + (n - (to b - from b))) (to a + (n - (to b - from b))).
Proof.
  intros Ha Hb Hn Hsz Hsz' Hle.
  destruct (update_in_buffer a b n sz Ha Hb Hn Hsz Hsz') as [-> _].
  unfold update_spec, spec_move, spec_clip, range_in in *.
  destruct a as [af at_], b as [bf bt]. cbn [from to] in *.
  addr_cases; bool_lia; f_equal; lia.
Qed.

Lemma sorted_changes_le pos es sz : sorted_changes pos es sz -> pos <= sz.
Proof.
  revert pos. induction es as [|e es IH]; intros pos H; cbn in H; [exact H|].
  destruct H as [H1 H2]. specialize (IH _ H2). lia.
Qed.

Lemma sorted_changes_weaken pos pos' es sz :
  pos' <= pos -> sorted_changes pos es sz -> sorted_changes pos' es sz.
Proof. destruct es; cbn; intros; [lia|]. intuition lia. Qed.

Lemma total_new_nonneg es : 0 <= total_new es.
Proof.
  induction es as [|e es IH]; cbn [total_new]; [lia|].
  pose proof (Zlength_nonneg (ch_data e)). lia.
Qed.

(** The inner loop of [fixAddrs] moves the later changes. *)
Lemma fix_later_shift e l sz : forall pos,
  range_in (ch_at e) sz -> 0 <= ch_size e ->
  sz <= max_int64 -> sz + (ch_size e - (to (ch_at e) - from (ch_at e))) <= max_int64 ->
  to (ch_at e) <= pos -> sorted_changes pos l sz ->
  fix_later e l
  = map (shift_change (ch_size e - (to (ch_at e) - from (ch_at e)))) l.
Proof.
  unfold fix_later.
  induction l as [|f l IH]; intros pos He Hn Hsz Hsz' Hpos Hl; [reflexivity|].
  cbn [map]. cbn [sorted_changes] in Hl. destruct Hl as [Hf Hl].
  pose proof (sorted_changes_le _ _ _ Hl) as Hfsz.
  unfold range_in in He.
  rewrite (update_after (ch_at f) (ch_at e) (ch_size e) sz);
    try assumption; try (unfold range_in; lia).
  f_equal. apply (IH (to (ch_at f))); try assumption. lia.
Qed.

Lemma sorted_changes_shift d l sz : forall pos,
  sorted_changes pos l sz ->
  sorted_changes (pos + d) (map (shift_change d) l) (sz + d).
Proof.
  induction l as [|f l IH]; intros pos H; cbn [map sorted_changes] in *; [lia|].
  destruct H as [H1 H2]. cbn [shift_change ch_at from to]. split; [lia|].
  now apply IH.
Qed.

Lemma total_new_shift d l : total_new (map (shift_change d) l) = total_new l.
Proof. induction l as [|f l IH]; cbn [map total_new shift_change ch_data]; congruence. Qed.

Lemma Forall_size_shift d l :
  Forall (fun e => ch_size e = Zlength (ch_data e)) l ->
  Forall (fun e => ch_size e = Zlength (ch_data e)) (map (shift_change d) l).
Proof. intros H. apply Forall_map. exact H. Qed.

(** The text after a change, read from the end of the new runes on, is
    the old text read from the end of the changed range on. *)
Lemma slice_replaced (rs : list Z) at_ src x y :
  range_in at_ (Zlength rs) -> to at_ <= x <= y ->
  let d := Zlength src - (to at_ - from at_) in
  slice (replaced rs at_ src) (x + d) (y + d) = slice rs x y.
Proof.
  intros Hat Hxy d. unfold slice, replaced, range_in, Zlength in *.
  replace (Z.to_nat (y + d - (x + d))) with (Z.to_nat (y - x)) by lia.
  f_equal. rewrite app_assoc.
  rewrite drop_app_ge by (rewrite length_app, length_take; unfold d, Zlength; lia).
  rewrite drop_drop. f_equal.
  rewrite length_app, length_take. unfold d, Zlength. lia.
Qed.

Lemma drop_replaced (rs : list Z) at_ src x :
  range_in at_ (Zlength rs) -> to at_ <= x ->
  let d := Zlength src - (to at_ - from at_) in
  drop (Z.to_nat (x + d)) (replaced rs at_ src) = drop (Z.to_nat x) rs.
Proof.
  intros Hat Hx d. unfold replaced, range_in, Zlength in *.
  rewrite app_assoc.
  rewrite drop_app_ge by (rewrite length_app, length_take; unfold d, Zlength; lia).
  rewrite drop_drop. f_equal.
  rewrite length_app, length_take. unfold d, Zlength. lia.
Qed.

Lemma splice_replaced (rs : list Z) at_ src l : forall pos,
  range_in at_ (Zlength rs) -> to at_ <= pos ->
  sorted_changes pos l (Zlength rs) ->
  let d := Zlength src - (to at_ - from at_) in
  splice (replaced rs at_ src) (pos + d) (map (shift_change d) l) = splice rs pos l.
Proof.
  induction l as [|f l IH]; intros pos Hat Hpos Hl d; cbn [map splice].
  - now apply drop_replaced.
  - cbn [sorted_changes] in Hl. destruct Hl as [Hf Hl].
    cbn [shift_change ch_at ch_data from to]. fold d.
    rewrite slice_replaced by (assumption || lia).
    do 2 f_equal. apply IH; try assumption. lia.
Qed.

Lemma Buffer_change_runes at_ src b :
  range_in at_ (rb_Size (runes b)) -> rb_Size (runes b) <= max_int64 ->
  exists b', Buffer_change at_ src b = (b', Ok tt)
    /\ runes b' = replaced (runes b) at_ src
    /\ seq b' = seq b
    /\ rb_Size (runes b') = rb_Size (runes b) + (Zlength src - (to at_ - from at_)).
Proof.
  intros Hat Hsz. unfold Buffer_change.
  destruct (delete_insert_replaced (runes b) at_ src Hat Hsz) as (rs1 & -> & Hi & Hlen).
  cbn [set_runes runes]. rewrite Hi. eexists. split; [reflexivity|].
  split; [reflexivity|]. split; [reflexivity|exact Hlen].
Qed.

Lemma apply_fixed k : forall es at_ b pos,
  length es = k ->
  0 <= pos -> sorted_changes pos es (rb_Size (runes b)) ->
  Forall (fun e => ch_size e = Zlength (ch_data e)) es ->
  rb_Size (runes b) + total_new es <= max_int64 ->
  exists b', apply_loop (snd (fix_loop k at_ es)) b = (b', Ok tt)
    /\ runes b' = take (Z.to_nat pos) (runes b) ++ splice (runes b) pos es
    /\ seq b' = seq b.
Proof.
  induction k as [|k IH]; intros es at_ b pos Hlen Hpos Hs Hd Ht.
  - destruct es; [|discriminate]. cbn. exists b. split; [reflexivity|].
    split; [now rewrite take_drop|reflexivity].
  - destruct es as [|e l]; [discriminate|]. injection Hlen as Hlen.
    cbn [sorted_changes total_new] in Hs, Ht. destruct Hs as [He Hl].
    inversion Hd as [|? ? Hde Hdl]; subst.
    pose proof (sorted_changes_le _ _ _ Hl) as Hesz.
    pose proof (total_new_nonneg l) as Hnn.
    pose proof (Zlength_nonneg (ch_data e)) as Hdn.
    pose proof (Zlength_nonneg (runes b)) as Hbn.
    assert (Hat : range_in (ch_at e) (rb_Size (runes b))) by (unfold range_in; lia).
    assert (Hsz : rb_Size (runes b) <= max_int64) by lia.
    set (d := Zlength (ch_data e) - (to (ch_at e) - from (ch_at e))).
    cbn [fix_loop].
    match goal with
    | |- context [fix_loop _ ?a (fix_later e l)] => set (at1 := a)
    end.
    assert (Hfl : fix_later e l = map (shift_change d) l).
    { rewrite (fix_later_shift e l (rb_Size (runes b)) (to (ch_at e)));
        rewrite ?Hde; fold d; try reflexivity; try assumption; try lia. }
    rewrite Hfl.
    destruct (fix_loop _ at1 (map (shift_change d) l)) as [at' l'] eqn:Efix.
    cbn [snd apply_loop].
    destruct (Buffer_change_runes (ch_at e) (ch_data e) b Hat Hsz)
      as (b1 & -> & Hr1 & Hs1 & Hz1).
    fold d in Hz1.
    destruct (IH (map (shift_change d) l) at1 b1 (to (ch_at e) + d)) as (b' & Hb' & Hr' & Hs').
    + now rewrite length_map.
    + unfold d. lia.
    + rewrite Hz1. now apply sorted_changes_shift.
    + now apply Forall_size_shift.
    + rewrite Hz1, total_new_shift. unfold d. lia.
    + rewrite Efix in Hb'. cbn [snd] in Hb'. exists b'. split; [exact Hb'|].
      split; [|congruence].
      rewrite Hr', Hr1. subst d.
      rewrite (splice_replaced (runes b) (ch_at e) (ch_data e) l (to (ch_at e)));
        try assumption; try lia.
      unfold replaced at 1.
      replace (Z.to_nat (to (ch_at e) + (Zlength (ch_data e) - (to (ch_at e) - from (ch_at e)))))
        with (length (take (Z.to_nat (from (ch_at e))) (runes b) ++ ch_data e)).
      2:{ rewrite length_app, length_take. unfold rb_Size, Zlength in *. lia. }
      rewrite app_assoc, take_app_length. cbn [splice].
      rewrite <- !app_assoc.
      rewrite (app_assoc (take (Z.to_nat pos) (runes b))). f_equal.
      unfold slice. rewrite take_take_drop. f_equal. lia.
Qed.

(** X20. Phase two of [do] on a journal of changes in sequence (each
    range within the buffer and starting at or after the end of the one
    before it): [fixAddrs] accepts them, and [applyChanges] with the
    sequence number of the buffer applies the fixed changes one after the
    other, increments the sequence number and asks for no retry; the
    runes of the buffer are then those of the text in which every range
    is replaced by the runes of its change, all at once. *)
Theorem fixAddrs_applyChanges_splice ed at_ b e :
  editors b !! ed = Some e ->
  sorted_changes 0 (pend_entries (pending e)) (rb_Size (runes b)) ->
  Forall (fun c => ch_size c = Zlength (ch_data c)) (pend_entries (pending e)) ->
  rb_Size (runes b) + total_new (pend_entries (pending e)) <= max_int64 ->
  exists l' at' b',
    fixAddrs at_ (pending e) = (l', Ok at')
    /\ applyChanges ed (seq b)
         (set_editors (<[ed := set_pending l' e]> (editors b)) b) = (b', Ok false)
    /\ runes b' = splice (runes b) 0 (pend_entries (pending e))
    /\ seq b' = wrap32 (seq b + 1).
Proof.
  intros He Hs Hd Ht. set (es := pend_entries (pending e)) in *.
  assert (Hin : inSequence es = true).
  { clear -Hs. revert Hs. generalize 0. generalize (rb_Size (runes b)).
    induction es as [|c es IH]; intros sz pos Hs; [reflexivity|].
    destruct es as [|f es]; [reflexivity|].
    cbn [sorted_changes] in Hs. destruct Hs as (Hc & Hf & Hs).
    cbn [inSequence].
    replace (from (ch_at f) <? to (ch_at c)) with false
      by (symmetry; apply Z.ltb_ge; lia).
    rewrite andb_false_r. apply (IH sz (to (ch_at c))). cbn [sorted_changes].
    split; assumption. }
  unfold fixAddrs. fold es. rewrite Hin. cbn [negb].
  destruct (fix_loop (length es) at_ es) as [at' esl] eqn:Efix.
  set (l' := mkPend esl (pend_closed (pending e))).
  set (b0 := set_editors (<[ed := set_pending l' e]> (editors b)) b).
  destruct (apply_fixed (length es) es at_ b0 0 eq_refl ltac:(lia) Hs Hd Ht)
    as (b'' & Hb'' & Hr'' & Hs'').
  rewrite Efix in Hb''. cbn [snd] in Hb''.
  exists l', at', (set_seq (wrap32 (seq b'' + 1)) b'').
  split; [reflexivity|]. split; [|split].
  - unfold applyChanges. change (seq b0) with (seq b). rewrite Z.eqb_refl.
    cbn [negb].
    replace (editors b0 !! ed) with (Some (set_pending l' e))
      by (unfold b0; cbn [editors set_editors]; now rewrite lookup_insert_eq).
    cbn [set_pending pending pend_entries l']. fold l' b0.
    rewrite Hb''. reflexivity.
  - cbn [runes set_seq]. rewrite Hr''. rewrite take_0. reflexivity.
  - cbn [seq set_seq]. now rewrite Hs''.
Qed.

Lemma fixAddrs_applyChanges_splice_witness :
  let b0 := fst (NewEditor (set_runes hello NewBuffer)) in
  let ed := snd (NewEditor (set_runes hello NewBuffer)) in
  let es := [mkChange (mkAddr 0 1) 2 [74; 106]; mkChange (mkAddr 5 7) 0 [];
             mkChange (mkAddr 7 7) 1 [42]] in
  let e := mkEditor 0 ∅ (mkPend es false) in
  let b := set_editors (<[ed := e]> (editors b0)) b0 in
  exists l' at' b',
    fixAddrs (mkAddr 0 10) (pending e) = (l', Ok at')
    /\ applyChanges ed (seq b)
         (set_editors (<[ed := set_pending l' e]> (editors b)) b) = (b', Ok false)
    /\ runes b' = splice (runes b) 0 (pend_entries (pending e))
    /\ seq b' = wrap32 (seq b + 1).
Proof.
  cbv zeta.
  apply (fixAddrs_applyChanges_splice _ (mkAddr 0 10)).
  - vm_compute. reflexivity.
  - cbn. unfold rb_Size, Zlength, hello. cbn. lia.
  - repeat constructor.
  - vm_compute. discriminate.
Defined.

(** ** The byte buffer *)

(** Cases of [TestBufferWrite] and [TestBufferRead]. *)
Example Bytes_tests :
  write_read "" "" (mkAddr 1 2) = Some (inr (AddressError (mkAddr 1 2)))
  /\ write_read "" "" (mkAddr (-1) 0) = Some (inr (AddressError (mkAddr (-1) 0)))
  /\ write_read "" "" (mkAddr 2 1) = Some (inr (AddressError (mkAddr 2 1)))
  /\ write_read "" "" (mkAddr 0 0) = Some (inl [])
  /\ write_read "" "Hello, World!" (mkAddr 0 0) = Some (inl (bytes_of "Hello, World!"))
  /\ write_read "Hello, World!" "" (mkAddr 0 13) = Some (inl [])
  /\ write_read "Hello, !" "World" (mkAddr 7 7) = Some (inl (bytes_of "Hello, World!"))
  /\ write_read "Hello, World" "! :)" (mkAddr 12 12)
     = Some (inl (bytes_of "Hello, World! :)"))
  /\ write_read ", World!" "Hello" (mkAddr 0 0) = Some (inl (bytes_of "Hello, World!"))
  /\ write_read "The quick brown fox jumps" "slow red" (mkAddr 4 15)
     = Some (inl (bytes_of "The slow red fox jumps"))
  /\ write_read "0123456789abcdefghij" "XYZ" (mkAddr 8 16)
     = Some (inl (bytes_of "01234567XYZghij")).
Proof. vm_compute. repeat split. Qed.

(** *** The backing file *)

Lemma Zlength_take {A} (l : list A) n :
  0 <= n <= Zlength l -> Zlength (take (Z.to_nat n) l) = n.
Proof. unfold Zlength. rewrite length_take. lia. Qed.

Lemma Zlength_replicate {A} n (x : A) : Zlength (replicate n x) = Z.of_nat n.
Proof. unfold Zlength. now rewrite length_replicate. Qed.

Lemma slice_all {A} (l : list A) : slice l 0 (Zlength l) = l.
Proof.
  unfold slice, Zlength. cbn [Z.to_nat drop]. rewrite Z.sub_0_r, Nat2Z.id.
  apply firstn_all.
Qed.

Lemma slice_0 {A} (l : list A) n : slice l 0 n = take (Z.to_nat n) l.
Proof. unfold slice. now rewrite Z.sub_0_r. Qed.

(** A write at an offset that is not negative succeeds; the bytes
    written are read back; the other bytes of the file are kept; and the
    file does not shrink. *)
Lemma file_WriteAt_spec fl bs off :
  0 <= off ->
  exists fl', file_WriteAt fl bs off = Some fl'
    /\ Zlength fl <= Zlength fl' /\ off + Zlength bs <= Zlength fl'
    /\ slice fl' off (off + Zlength bs) = bs
    /\ (forall x y, 0 <= x <= y -> y <= Zlength fl ->
          y <= off \/ off + Zlength bs <= x ->
          slice fl' x y = slice fl x y).
Proof.
  intros Hoff. unfold file_WriteAt.
  destruct (off <? 0) eqn:E; [bool_lia; lia|]. clear E.
  eexists. split; [reflexivity|].
  set (o := Z.to_nat off).
  set (pre := take o (fl ++ replicate (o - length fl) Byte.x00)).
  assert (Hpre : length pre = o).
  { unfold pre. rewrite length_take, length_app, length_replicate. lia. }
  assert (Hlen : length (pre ++ bs ++ drop (o + length bs) fl)
                 = Nat.max (length fl) (o + length bs)).
  { rewrite !length_app, length_drop, Hpre. lia. }
  unfold Zlength in *. rewrite Hlen.
  split; [lia|]. split; [lia|]. split.
  - unfold slice.
    replace (Z.to_nat (off + Z.of_nat (length bs) - off)) with (length bs) by lia.
    fold o. rewrite drop_app_length' by (symmetry; exact Hpre).
    now rewrite take_app_length.
  - intros x y Hxy Hy Hdis. unfold slice.
    destruct Hdis as [Hbefore|Hafter].
    + (* before the bytes written *)
      apply list_eq. intros k. rewrite !lookup_take.
      destruct (decide (k < Z.to_nat (y - x))%nat) as [Hk|Hk]; [|reflexivity].
      rewrite !lookup_drop.
      rewrite lookup_app_l by (rewrite Hpre; lia).
      unfold pre. rewrite lookup_take.
      destruct (decide (Z.to_nat x + k < o)%nat) as [_|Hn]; [|lia].
      rewrite lookup_app_l by lia. reflexivity.
    + (* after the bytes written *)
      rewrite app_assoc.
      rewrite drop_app_ge by (rewrite length_app, Hpre; lia).
      rewrite length_app, Hpre, drop_drop. do 2 f_equal. lia.
Qed.

(** A read of bytes that are in the file returns them. *)
Lemma file_ReadAt_spec fl n off :
  0 <= n -> 0 <= off -> n = 0 \/ off + n <= Zlength fl ->
  file_ReadAt fl n off = (slice fl off (off + n), None).
Proof.
  intros Hn Hoff Hin. unfold file_ReadAt.
  destruct (n =? 0) eqn:E0.
  - apply Z.eqb_eq in E0. subst n. rewrite slice_empty by lia. reflexivity.
  - apply Z.eqb_neq in E0. destruct Hin as [|Hin]; [contradiction|].
    destruct (off <? 0) eqn:E; [bool_lia; lia|].
    unfold slice. replace (off + n - off) with n by lia.
    replace (Zlength _ <? n) with false; [reflexivity|].
    symmetry. apply Z.ltb_ge. unfold Zlength in *.
    rewrite length_take, length_drop. lia.
Qed.

(** *** The cache: [put] and [get] *)

Ltac bm_simpl :=
  repeat progress
    (unfold mbind, BM_bind, mret, BM_ret, bm_get, bm_modify, bm_lift, bm_err,
       bm_panic;
     cbn beta iota).

Lemma same_blocks_refl b : same_blocks b b.
Proof. now repeat split. Qed.

Lemma same_blocks_trans b1 b2 b3 :
  same_blocks b1 b2 -> same_blocks b2 b3 -> same_blocks b1 b3.
Proof. unfold same_blocks. intuition congruence. Qed.

Lemma region_disjoint B s1 s2 :
  0 < B -> (B | s1) -> (B | s2) -> s1 <> s2 -> s1 + B <= s2 \/ s2 + B <= s1.
Proof.
  intros HB [k1 ->] [k2 ->] Hne.
  destruct (Z.lt_trichotomy k1 k2) as [H|[H|H]]; [left|congruence|right]; nia.
Qed.

(** Two blocks of the buffer have regions of the file of their own. *)
Lemma blocks_disjoint b i j bi bj :
  Bytes_wf b -> b_blocks b !! i = Some bi -> b_blocks b !! j = Some bj -> i <> j ->
  blk_start bi + b_blockSize b <= blk_start bj
  \/ blk_start bj + b_blockSize b <= blk_start bi.
Proof.
  intros W Hi Hj Hne.
  assert (Hin : forall k blk, b_blocks b !! k = Some blk ->
            (b_blockSize b | blk_start blk)
            /\ map blk_start (b_blocks b ++ b_free b) !! k = Some (blk_start blk)).
  { intros k blk Hk. split.
    - pose proof (bwf_alloc b W) as Ha. rewrite Forall_forall in Ha.
      apply (Ha blk). apply elem_of_app. left. eapply list_elem_of_lookup_2, Hk.
    - rewrite list_lookup_fmap, lookup_app_l by (eapply lookup_lt_Some, Hk).
      now rewrite Hk. }
  destruct (Hin i bi Hi) as [Di Li]. destruct (Hin j bj Hj) as [Dj Lj].
  apply region_disjoint; try assumption; [apply (bwf_blockSize b W)|].
  intros Heq. rewrite Heq in Li.
  pose proof (bwf_distinct b W) as Hnd. rewrite NoDup_alt in Hnd.
  apply Hne. eapply Hnd; eassumption.
Qed.

Lemma Bytes_file_spec b :
  Bytes_file b = BOk (file_bytes b, set_f (Some (file_bytes b)) b).
Proof.
  unfold Bytes_file, file_bytes. destruct b as [[fl|] ? ? ? ? ? ? ? ?]; reflexivity.
Qed.

Lemma subslice_take {A} (l : list A) n :
  0 <= n <= Zlength l -> subslice l 0 n = Some (take (Z.to_nat n) l).
Proof.
  intros Hn. unfold subslice.
  replace ((0 <=? 0) && (0 <=? n) && (n <=? Zlength l)) with true
    by (symmetry; rewrite !andb_true_iff, !Z.leb_le; lia).
  now rewrite slice_0.
Qed.

Lemma lookup_block b (i : Z) :
  0 <= i < Zlength (b_blocks b) -> exists blk, b_blocks b !! Z.to_nat i = Some blk.
Proof.
  intros Hi. apply lookup_lt_is_Some. unfold Zlength in Hi. lia.
Qed.

Lemma block_n_bound b i blk :
  Bytes_wf b -> b_blocks b !! i = Some blk -> 0 <= blk_n blk <= b_blockSize b.
Proof.
  intros W Hi. pose proof (bwf_n b W) as Hn. rewrite Forall_forall in Hn.
  apply Hn. eapply list_elem_of_lookup_2, Hi.
Qed.

Lemma block_start_bound b i blk :
  Bytes_wf b -> b_blocks b !! i = Some blk ->
  0 <= blk_start blk /\ blk_start blk + b_blockSize b <= b_end b.
Proof.
  intros W Hi. pose proof (bwf_alloc b W) as Ha. rewrite Forall_forall in Ha.
  destruct (Ha blk) as (H1 & _ & H2); [|now split].
  apply elem_of_app. left. eapply list_elem_of_lookup_2, Hi.
Qed.

(** [put] writes the cached block to the file when it was modified: the
    bytes of the buffer are as before, and afterwards the bytes of every
    block are in the file. *)
Lemma Bytes_put_spec b :
  Bytes_wf b ->
  exists b', Bytes_put b = BOk (tt, b')
    /\ Bytes_wf b' /\ Bytes_content b' = Bytes_content b /\ same_blocks b b'
    /\ b_cached b' = b_cached b /\ b_cache b' = b_cache b
    /\ (b_cached b' < 0 \/ b_dirty b' = false).
Proof.
  intros W. unfold Bytes_put. bm_simpl.
  destruct ((b_cached b <? 0) || negb (b_dirty b) || (Zlength (b_cache b) =? 0)) eqn:E.
  - exists b. split; [reflexivity|]. split; [assumption|]. split; [reflexivity|].
    split; [apply same_blocks_refl|]. split; [reflexivity|]. split; [reflexivity|].
    apply orb_true_iff in E as [E|E]; [apply orb_true_iff in E as [E|E]|].
    + left. now apply Z.ltb_lt in E.
    + right. now apply negb_true_iff in E.
    + apply Z.eqb_eq in E. pose proof (bwf_cache b W). pose proof (bwf_blockSize b W). lia.
  - apply orb_false_iff in E as [E _]. apply orb_false_iff in E as [Ec Ed].
    apply Z.ltb_ge in Ec. apply negb_false_iff in Ed.
    assert (Hc : 0 <= b_cached b < Zlength (b_blocks b))
      by (destruct (bwf_cached b W); lia).
    destruct (lookup_block b _ Hc) as [blk Hblk]. rewrite Hblk. bm_simpl.
    rewrite Bytes_file_spec.
    pose proof (block_n_bound b _ blk W Hblk) as Hn.
    pose proof (block_start_bound b _ blk W Hblk) as Hs.
    rewrite subslice_take by (rewrite (bwf_cache b W); lia). bm_simpl.
    set (data := take (Z.to_nat (blk_n blk)) (b_cache b)).
    assert (Hdata : Zlength data = blk_n blk)
      by (apply Zlength_take; rewrite (bwf_cache b W); lia).
    destruct (file_WriteAt_spec (file_bytes b) data (blk_start blk) ltac:(lia))
      as (fl' & -> & Hgrow & Hend & Hback & Hkeep).
    rewrite Hdata in Hend, Hback, Hkeep.
    eexists. split; [reflexivity|].
    set (b' := set_dirty false (set_f (Some fl') (set_f (Some (file_bytes b)) b))).
    assert (Hbytes : forall j bj, b_blocks b !! j = Some bj ->
              b_cached b <> Z.of_nat j ->
              slice fl' (blk_start bj) (blk_start bj + blk_n bj)
              = slice (file_bytes b) (blk_start bj) (blk_start bj + blk_n bj)).
    { intros j bj Hj Hne.
      pose proof (block_n_bound b _ bj W Hj) as Hnj.
      pose proof (block_start_bound b _ bj W Hj) as Hsj.
      destruct (bwf_disk b W j bj Hj (or_introl Hne)) as [H0|Hin].
      - rewrite H0, !slice_empty by lia. reflexivity.
      - apply Hkeep; try lia.
        destruct (blocks_disjoint b j (Z.to_nat (b_cached b)) bj blk W Hj Hblk) as [H|H];
          [lia|lia|lia]. }
    split; [|split; [|split; [now repeat split|split; [reflexivity|split; [reflexivity|now right]]]]].
    + constructor; try exact (bwf_blockSize b W); try exact (bwf_cache b W);
        try exact (bwf_cached b W); try exact (bwf_n b W); try exact (bwf_alloc b W);
        try exact (bwf_distinct b W); try exact (bwf_end b W); try exact (bwf_size b W);
        try exact (bwf_free b W).
      * intros j bj Hj _. unfold on_disk. change (file_bytes b') with fl'.
        change (b_blocks b') with (b_blocks b) in Hj.
        destruct (decide (b_cached b = Z.of_nat j)) as [Heq|Hne].
        -- assert (bj = blk) as -> by (rewrite Heq, Nat2Z.id in Hblk; congruence).
           right. lia.
        -- destruct (bwf_disk b W j bj Hj (or_introl Hne)) as [H0|Hin]; [now left|].
           right. lia.
      * intros j bj Hj Heq _ Hn0. change (file_bytes b') with fl'.
        change (b_cache b') with (b_cache b).
        change (b_blocks b') with (b_blocks b) in Hj.
        change (b_cached b') with (b_cached b) in Heq.
        assert (bj = blk) as -> by (rewrite Heq, Nat2Z.id in Hblk; congruence).
        exact Hback.
    + unfold Bytes_content. change (b_blocks b') with (b_blocks b).
      f_equal. apply imap_ext. intros j bj Hj. unfold block_bytes.
      change (b_cached b') with (b_cached b). change (b_cache b') with (b_cache b).
      destruct (b_cached b =? Z.of_nat j) eqn:Ej; [reflexivity|].
      apply Z.eqb_neq in Ej. change (file_bytes b') with fl'.
      now apply (Hbytes j).
Qed.

Lemma copy_prefix {A} (dst src : list A) :
  (length src <= length dst)%nat -> copy dst src = src ++ drop (length src) dst.
Proof. intros H. unfold copy. now rewrite take_ge by lia. Qed.

Lemma Zlength_copy {A} (dst src : list A) : Zlength (copy dst src) = Zlength dst.
Proof.
  unfold copy, Zlength. rewrite length_app, length_take, length_drop. lia.
Qed.

(** [get] brings block [i] into the cache: the bytes of the buffer are as
    before, and the cached block is block [i]. *)
Lemma Bytes_get_spec b i blk :
  Bytes_wf b -> b_blocks b !! i = Some blk ->
  exists b', Bytes_get i b = BOk (tt, b')
    /\ Bytes_wf b' /\ Bytes_content b' = Bytes_content b /\ same_blocks b b'
    /\ b_cached b' = Z.of_nat i
    /\ (b_cached b = Z.of_nat i -> b' = b).
Proof.
  intros W Hblk. unfold Bytes_get. bm_simpl.
  destruct (b_cached b =? Z.of_nat i) eqn:E.
  - apply Z.eqb_eq in E. rewrite Hblk. bm_simpl. exists b.
    split; [reflexivity|]. split; [assumption|]. split; [reflexivity|].
    split; [apply same_blocks_refl|]. split; [assumption|reflexivity].
  - apply Z.eqb_neq in E.
    destruct (Bytes_put_spec b W) as (b1 & -> & W1 & Hc1 & Hs1 & Hcd1 & Hca1 & Hpost).
    destruct Hs1 as (HB & Hbl & Hfr & Hen & Hsz).
    rewrite Hbl, Hblk. bm_simpl. rewrite Bytes_file_spec.
    assert (Hblk1 : b_blocks b1 !! i = Some blk) by now rewrite Hbl.
    pose proof (block_n_bound b1 _ blk W1 Hblk1) as Hn.
    pose proof (block_start_bound b1 _ blk W1 Hblk1) as Hs.
    change (b_cache (set_f (Some (file_bytes b1)) b1)) with (b_cache b1).
    rewrite subslice_take by (rewrite (bwf_cache b1 W1); lia). bm_simpl.
    assert (Hall : forall j bj, b_blocks b1 !! j = Some bj -> on_disk b1 bj).
    { intros j bj Hj. apply (bwf_disk b1 W1 j bj Hj).
      destruct Hpost as [Hneg|Hd]; [left; lia|now right]. }
    rewrite file_ReadAt_spec by (try lia; apply (Hall i blk Hblk1)).
    set (data := slice (file_bytes b1) (blk_start blk) (blk_start blk + blk_n blk)).
    assert (Hdata : Zlength data = blk_n blk).
    { destruct (Hall i blk Hblk1) as [H0|Hin].
      - unfold data. rewrite H0, slice_empty by lia. unfold Zlength. cbn. lia.
      - unfold data. rewrite slice_length by lia. lia. }
    eexists. split; [reflexivity|].
    set (b' := set_dirty false _).
    assert (Hcache : take (Z.to_nat (blk_n blk)) (b_cache b') = data).
    { unfold b'. cbn [b_cache set_dirty set_cached set_cache set_f].
      rewrite copy_prefix
        by (pose proof (bwf_cache b1 W1); unfold Zlength in *; lia).
      replace (Z.to_nat (blk_n blk)) with (length data) by (unfold Zlength in Hdata; lia).
      apply take_app_length. }
    split; [|split; [|split; [|split; [reflexivity|intros; congruence]]]].
    + constructor.
      * exact (bwf_blockSize b1 W1).
      * unfold b'. cbn [b_cache b_blockSize set_dirty set_cached set_cache set_f].
        rewrite Zlength_copy. exact (bwf_cache b1 W1).
      * right. change (b_cached b') with (Z.of_nat i). change (b_blocks b') with (b_blocks b1).
        apply lookup_lt_Some in Hblk1. unfold Zlength. lia.
      * exact (bwf_n b1 W1).
      * exact (bwf_alloc b1 W1).
      * exact (bwf_distinct b1 W1).
      * exact (bwf_end b1 W1).
      * exact (bwf_size b1 W1).
      * intros j bj Hj _. apply (Hall j bj Hj).
      * intros j bj Hj Heq _ Hn0. change (b_blocks b') with (b_blocks b1) in Hj.
        change (b_cached b') with (Z.of_nat i) in Heq.
        assert (j = i) as -> by lia. assert (bj = blk) as -> by congruence.
        change (file_bytes b') with (file_bytes b1). now rewrite Hcache.
      * exact (bwf_free b1 W1).
    + rewrite <- Hc1. unfold Bytes_content. change (b_blocks b') with (b_blocks b1).
      f_equal. apply imap_ext. intros j bj Hj. unfold block_bytes.
      change (b_cached b') with (Z.of_nat i). change (file_bytes b') with (file_bytes b1).
      destruct (Z.of_nat i =? Z.of_nat j) eqn:Eij.
      * apply Z.eqb_eq in Eij. assert (j = i) as -> by lia.
        assert (bj = blk) as -> by congruence. rewrite Hcache.
        replace (b_cached b1 =? Z.of_nat i) with false
          by (symmetry; apply Z.eqb_neq; congruence).
        reflexivity.
      * destruct (b_cached b1 =? Z.of_nat j) eqn:Ecj; [|reflexivity].
        apply Z.eqb_eq in Ecj.
        destruct (Z.eq_dec (blk_n bj) 0) as [H0|Hn0].
        -- rewrite H0, slice_empty by lia. reflexivity.
        -- apply (bwf_clean b1 W1 j bj Hj Ecj); [|assumption].
           destruct Hpost as [Hneg|Hd]; [lia|assumption].
    + unfold same_blocks. change (b_blockSize b') with (b_blockSize b1).
      change (b_blocks b') with (b_blocks b1). change (b_free b') with (b_free b1).
      change (b_end b') with (b_end b1). change (b_size b') with (b_size b1).
      now repeat split.
Qed.

(** *** Where the bytes are *)

Lemma sum_n_app l k : sum_n (l ++ k) = sum_n l + sum_n k.
Proof. induction l as [|x l IH]; cbn [app sum_n]; lia. Qed.

Lemma sum_n_nonneg l : Forall (fun blk => 0 <= blk_n blk) l -> 0 <= sum_n l.
Proof.
  induction 1 as [|x l Hx _ IH]; cbn [sum_n]; lia.
Qed.

Lemma sum_n_take_le l i :
  Forall (fun blk => 0 <= blk_n blk) l -> 0 <= sum_n (take i l) <= sum_n l.
Proof.
  intros H. rewrite <- (take_drop i l) at 3. rewrite sum_n_app.
  pose proof (sum_n_nonneg (take i l) (Forall_take _ _ _ H)).
  pose proof (sum_n_nonneg (drop i l) (Forall_drop _ _ _ H)). lia.
Qed.

Lemma sum_n_take_S l i blk :
  l !! i = Some blk -> sum_n (take (S i) l) = sum_n (take i l) + blk_n blk.
Proof.
  intros H. rewrite (take_S_r _ _ _ H), sum_n_app. cbn [sum_n]. lia.
Qed.

Lemma blockAt_loop_spec l : forall i0 q0 at_,
  Forall (fun blk => 0 <= blk_n blk) l ->
  0 <= q0 -> q0 <= at_ < q0 + sum_n l -> q0 + sum_n l <= max_int64 ->
  exists i blk,
    blockAt_loop l i0 q0 at_ = Some ((i0 + i)%nat, q0 + sum_n (take i l))
    /\ l !! i = Some blk
    /\ q0 + sum_n (take i l) <= at_ < q0 + sum_n (take i l) + blk_n blk.
Proof.
  induction l as [|x l IH]; intros i0 q0 at_ Hn Hq Hat Hmax; cbn [sum_n] in *; [lia|].
  inversion Hn as [|? ? Hx Hl]; subst. cbn [blockAt_loop].
  pose proof (sum_n_nonneg l Hl) as Hnn. unfold max_int64 in *.
  rewrite (wrap64_id (q0 + blk_n x)) by (unfold is_int64, min_int64, max_int64; lia).
  destruct ((q0 <=? at_) && (at_ <? q0 + blk_n x)) eqn:E.
  - exists 0%nat, x. cbn [take sum_n]. rewrite Nat.add_0_r, Z.add_0_r.
    split; [reflexivity|]. split; [reflexivity|]. bool_lia. lia.
  - assert (Hat' : q0 + blk_n x <= at_ < q0 + blk_n x + sum_n l) by (bool_lia; lia).
    destruct (IH (S i0) (q0 + blk_n x) at_ Hl ltac:(lia) Hat' ltac:(lia))
      as (i & blk & -> & Hi & Hr).
    exists (S i), blk. cbn [take sum_n lookup].
    split; [do 2 f_equal; lia|]. split; [exact Hi|lia].
Qed.

Lemma Zlength_concat_imap (l : list block) : forall (f : nat -> block -> list byte),
  (forall j bj, l !! j = Some bj -> Zlength (f j bj) = blk_n bj) ->
  Zlength (concat (imap f l)) = sum_n l.
Proof.
  induction l as [|x l IH]; intros f Hf; [reflexivity|].
  cbn [imap concat sum_n]. rewrite Zlength_app, (Hf 0%nat x eq_refl).
  rewrite IH; [reflexivity|]. intros j bj Hj. apply (Hf (S j) bj Hj).
Qed.

Lemma block_bytes_length b j bj :
  Bytes_wf b -> b_blocks b !! j = Some bj -> Zlength (block_bytes b j bj) = blk_n bj.
Proof.
  intros W Hj. unfold block_bytes.
  pose proof (block_n_bound b j bj W Hj) as Hn.
  pose proof (block_start_bound b j bj W Hj) as Hs.
  destruct (b_cached b =? Z.of_nat j) eqn:E.
  - apply Zlength_take. rewrite (bwf_cache b W). lia.
  - apply Z.eqb_neq in E.
    destruct (bwf_disk b W j bj Hj (or_introl E)) as [H0|Hin].
    + rewrite H0, slice_empty by lia. reflexivity.
    + rewrite slice_length by lia. lia.
Qed.

Lemma Bytes_content_length b : Bytes_wf b -> Zlength (Bytes_content b) = b_size b.
Proof.
  intros W. unfold Bytes_content. rewrite (proj1 (bwf_size b W)).
  apply Zlength_concat_imap. intros j bj Hj. now apply block_bytes_length.
Qed.

Lemma concat_imap_split (l : list block) (f : nat -> block -> list byte) i blk :
  l !! i = Some blk ->
  concat (imap f l)
  = concat (imap f (take i l)) ++ f i blk
    ++ concat (imap (fun n => f (S i + n)%nat) (drop (S i) l)).
Proof.
  intros Hi.
  assert (Hlen : length (take i l) = i).
  { rewrite length_take. apply lookup_lt_Some in Hi. lia. }
  transitivity (concat (imap f (take i l ++ blk :: drop (S i) l))).
  { now rewrite take_drop_middle. }
  rewrite imap_app, concat_app. cbn [imap concat].
  rewrite Hlen, Nat.add_0_r. do 3 f_equal.
  apply imap_ext. intros n x _. cbn. f_equal. lia.
Qed.

(** The bytes of the buffer around block [i]. *)
Lemma Bytes_content_split b i blk :
  Bytes_wf b -> b_blocks b !! i = Some blk ->
  exists pre post,
    Bytes_content b = pre ++ block_bytes b i blk ++ post
    /\ Zlength pre = sum_n (take i (b_blocks b)).
Proof.
  intros W Hi. unfold Bytes_content.
  rewrite (concat_imap_split _ _ i blk Hi).
  eexists _, _. split; [reflexivity|].
  apply Zlength_concat_imap. intros j bj Hj.
  apply block_bytes_length; [assumption|].
  rewrite lookup_take in Hj. destruct (decide (j < i)%nat); [assumption|discriminate].
Qed.

Lemma slice_app_middle {A} (pre d post : list A) o k :
  0 <= o -> 0 <= k -> o + k <= Zlength d ->
  slice (pre ++ d ++ post) (Zlength pre + o) (Zlength pre + o + k)
  = take (Z.to_nat k) (drop (Z.to_nat o) d).
Proof.
  intros Ho Hk Hle. unfold slice, Zlength in *.
  replace (Z.to_nat (Z.of_nat (length pre) + o + k - (Z.of_nat (length pre) + o)))
    with (Z.to_nat k) by lia.
  replace (Z.to_nat (Z.of_nat (length pre) + o)) with (length pre + Z.to_nat o)%nat by lia.
  rewrite <- drop_drop, drop_app_length.
  rewrite drop_app_le by lia.
  rewrite take_app_le by (rewrite length_drop; lia). reflexivity.
Qed.

Lemma slice_slice_app {A} (l : list A) x y z :
  0 <= x <= y -> y <= z -> slice l x y ++ slice l y z = slice l x z.
Proof.
  intros Hxy Hyz. unfold slice.
  replace (Z.to_nat (z - x)) with (Z.to_nat (y - x) + Z.to_nat (z - y))%nat by lia.
  rewrite <- take_take_drop, drop_drop. do 3 f_equal. lia.
Qed.

(** [blockAt] at an offset before the end: the block that holds the
    offset, and the offset of its first byte; the buffer is not
    changed. *)
Lemma blockAt_spec b at_ :
  Bytes_wf b -> 0 <= at_ < b_size b ->
  exists i blk,
    blockAt at_ b = BOk ((i, sum_n (take i (b_blocks b))), b)
    /\ b_blocks b !! i = Some blk
    /\ sum_n (take i (b_blocks b)) <= at_ < sum_n (take i (b_blocks b)) + blk_n blk.
Proof.
  intros W Hat. unfold blockAt, Bytes_Size. bm_simpl.
  replace ((at_ <? 0) || (b_size b <? at_)) with false
    by (symmetry; apply orb_false_iff; split; [apply Z.ltb_ge|apply Z.ltb_ge]; lia).
  replace (at_ =? b_size b) with false by (symmetry; apply Z.eqb_neq; lia).
  destruct (bwf_size b W) as [Hsz Hmax].
  destruct (blockAt_loop_spec (b_blocks b) 0 0 at_) as (i & blk & -> & Hi & Hr);
    try lia.
  - eapply Forall_impl; [apply (bwf_n b W)|]. cbn. intros; lia.
  - exists i, blk. cbn [Nat.add]. rewrite !Z.add_0_l in *. now repeat split.
Qed.

(** One pass of the loop of [ReadAt] at an offset before the end: the
    bytes from the offset to the end of its block, or [len] of them. *)
Lemma ReadAt_body_spec b len at_ :
  Bytes_wf b -> 0 <= at_ < b_size b -> 0 < len ->
  exists b' g,
    ReadAt_body len at_ b
    = BOk ((slice (Bytes_content b) at_ (at_ + g), at_ + g), b')
    /\ 0 < g <= len /\ at_ + g <= b_size b
    /\ Bytes_wf b' /\ Bytes_content b' = Bytes_content b /\ same_blocks b b'.
Proof.
  intros W Hat Hlen. unfold ReadAt_body.
  destruct (blockAt_spec b at_ W Hat) as (i & blk & Hb & Hi & Hr).
  unfold mbind at 1, BM_bind at 1. rewrite Hb. cbn beta iota.
  unfold mbind at 1, BM_bind at 1.
  destruct (Bytes_get_spec b i blk W Hi) as (b' & -> & W' & Hc' & Hs' & Hcd' & _).
  bm_simpl.
  destruct Hs' as (HB & Hbl & Hfr & Hen & Hsz).
  rewrite Hbl, Hi. bm_simpl.
  set (q0 := sum_n (take i (b_blocks b))) in *.
  assert (Hi' : b_blocks b' !! i = Some blk) by now rewrite Hbl.
  pose proof (block_n_bound b' i blk W' Hi') as Hn.
  destruct (bwf_size b W) as [Hsize Hmax]. unfold max_int64 in Hmax.
  pose proof (sum_n_take_le (b_blocks b) i) as Hq.
  assert (Hq' : 0 <= q0 <= b_size b).
  { rewrite Hsize. apply Hq. eapply Forall_impl; [apply (bwf_n b W)|]. cbn. intros; lia. }
  rewrite (wrap64_id (at_ - q0)) by (unfold is_int64, min_int64, max_int64; lia).
  set (o := at_ - q0).
  unfold subslice.
  replace ((0 <=? o) && (o <=? blk_n blk) && (blk_n blk <=? Zlength (b_cache b')))
    with true
    by (symmetry; rewrite !andb_true_iff, !Z.leb_le, (bwf_cache b' W'); unfold o; lia).
  bm_simpl.
  set (src := slice (b_cache b') o (blk_n blk)).
  assert (Hsrc : src = drop (Z.to_nat o) (block_bytes b' i blk)).
  { unfold src, slice, block_bytes. rewrite Hcd', Z.eqb_refl.
    rewrite take_drop_commute. f_equal. f_equal. unfold o. lia. }
  assert (Hsrclen : Zlength src = blk_n blk - o).
  { unfold src. apply slice_length; [unfold o; lia|]. rewrite (bwf_cache b' W'). lia. }
  set (g := Z.min len (blk_n blk - o)).
  assert (Hg : 0 < g <= len /\ g <= blk_n blk - o) by (unfold g, o; lia).
  assert (Hgot : Zlength (take (Z.to_nat len) src) = g).
  { unfold Zlength in *. rewrite length_take. unfold g. lia. }
  rewrite Hgot.
  assert (Hblk_le : q0 + blk_n blk <= b_size b).
  { rewrite Hsize. unfold q0. rewrite <- (sum_n_take_S _ _ _ Hi).
    apply sum_n_take_le. eapply Forall_impl; [apply (bwf_n b W)|]. cbn. intros; lia. }
  rewrite (wrap64_id (at_ + g)) by (unfold is_int64, min_int64, max_int64; unfold o in *; lia).
  exists b', g.
  split.
  - do 3 f_equal.
    destruct (Bytes_content_split b' i blk W' Hi') as (pre & post & Hsplit & Hpre).
    rewrite <- Hc', Hsplit. rewrite Hbl in Hpre. fold q0 in Hpre.
    replace at_ with (Zlength pre + o) by (unfold o; lia).
    rewrite slice_app_middle;
      [|unfold o; lia|lia|rewrite (block_bytes_length b' i blk W' Hi'); lia].
    rewrite Hsrc.
    assert (Hmin : take (Z.to_nat len) (drop (Z.to_nat o) (block_bytes b' i blk))
                   = take (Z.to_nat g) (drop (Z.to_nat o) (block_bytes b' i blk))).
    { unfold g. destruct (Z.le_gt_cases len (blk_n blk - o)) as [Hle|Hgt].
      - now rewrite Z.min_l by lia.
      - rewrite Z.min_r by lia.
        rewrite !take_ge; try reflexivity;
          rewrite length_drop;
          pose proof (block_bytes_length b' i blk W' Hi') as Hbl';
          unfold Zlength in Hbl'; lia. }
    exact Hmin.
  - split; [lia|]. split; [unfold o in *; lia|].
    split; [assumption|]. split; [assumption|]. now repeat split.
Qed.

(** *** [ReadAt] *)

Lemma ReadAt_loop_spec fuel : forall len at_ out b,
  Bytes_wf b -> 0 <= at_ <= b_size b -> 0 <= len ->
  (Z.to_nat len < fuel)%nat ->
  exists b',
    ReadAt_loop fuel len at_ out b
    = Some (BOk (out ++ slice (Bytes_content b) at_ (Z.min (at_ + len) (b_size b)),
                 (if b_size b <? at_ + len then Some EOF else None), b'))
    /\ Bytes_wf b' /\ Bytes_content b' = Bytes_content b /\ same_blocks b b'.
Proof.
  induction fuel as [|fuel IH]; intros len at_ out b W Hat Hlen Hf; [lia|].
  cbn [ReadAt_loop]. unfold Bytes_Size.
  destruct (0 <? len) eqn:E0.
  - apply Z.ltb_lt in E0.
    destruct (at_ =? b_size b) eqn:Eat.
    + apply Z.eqb_eq in Eat. exists b. rewrite slice_empty, app_nil_r by lia.
      replace (b_size b <? at_ + len) with true by (symmetry; apply Z.ltb_lt; lia).
      split; [reflexivity|]. split; [assumption|]. split; [reflexivity|].
      apply same_blocks_refl.
    + apply Z.eqb_neq in Eat.
      destruct (ReadAt_body_spec b len at_ W ltac:(lia) E0)
        as (b1 & g & -> & Hg & Hend & W1 & Hc1 & Hs1).
      assert (Hgl : Zlength (slice (Bytes_content b) at_ (at_ + g)) = g).
      { rewrite slice_length; [lia|lia|]. rewrite (Bytes_content_length b W). lia. }
      rewrite Hgl.
      destruct Hs1 as (HB & Hbl & Hfr & Hen & Hsz).
      destruct (IH (len - g) (at_ + g) (out ++ slice (Bytes_content b) at_ (at_ + g)) b1 W1)
        as (b' & -> & W' & Hc' & Hs'); try lia.
      exists b'. rewrite Hc1, Hsz.
      split; [|split; [assumption|split; [congruence|]]].
      * replace (at_ + g + (len - g)) with (at_ + len) by lia.
        rewrite <- app_assoc, slice_slice_app by lia. reflexivity.
      * eapply same_blocks_trans; [|exact Hs']. now repeat split.
  - apply Z.ltb_ge in E0. assert (len = 0) as -> by lia.
    exists b. rewrite Z.add_0_r, Z.min_l by lia. rewrite slice_empty, app_nil_r by lia.
    replace (b_size b <? at_) with false by (symmetry; apply Z.ltb_ge; lia).
    split; [reflexivity|]. split; [assumption|]. split; [reflexivity|].
    apply same_blocks_refl.
Qed.

(** X21. [ReadAt] on a well-formed buffer, for a slice of [len] bytes,
    within one pass per byte: for [at < 0] it returns no bytes and the
    address error; for [at == size] and an empty slice it returns no bytes
    and nil; for any other [at >= size] it returns no bytes and [io.EOF];
    and for [0 <= at < size] it returns the bytes of the buffer from [at]
    on, [len] of them or those up to the end, with [io.EOF] exactly when
    fewer than [len] are left.  The bytes that the buffer holds are not
    changed. *)
Theorem Bytes_ReadAt_spec fuel len at_ b :
  Bytes_wf b -> 0 <= len -> (Z.to_nat len < fuel)%nat ->
  exists b',
    Bytes_ReadAt fuel len at_ b
    = Some (BOk (if at_ <? 0 then []
                 else slice (Bytes_content b) at_ (Z.min (at_ + len) (b_size b)),
                 if at_ <? 0 then Some (AddressError (Point at_))
                 else if (at_ =? b_size b) && (len =? 0) then None
                 else if b_size b <? at_ + len then Some EOF
                 else None,
                 b'))
    /\ Bytes_wf b' /\ Bytes_content b' = Bytes_content b.
Proof.
  intros W Hlen Hf. unfold Bytes_ReadAt, Bytes_Size.
  destruct (at_ <? 0) eqn:Eneg.
  - exists b. split; [reflexivity|]. now split.
  - apply Z.ltb_ge in Eneg.
    destruct ((at_ =? b_size b) && (len =? 0)) eqn:Eeq.
    + apply andb_true_iff in Eeq as [E1 E2]. apply Z.eqb_eq in E1, E2. subst.
      exists b. rewrite slice_empty by lia. split; [reflexivity|]. now split.
    + destruct (b_size b <=? at_) eqn:Ege.
      * apply Z.leb_le in Ege. exists b. rewrite slice_empty by lia.
        replace (b_size b <? at_ + len) with true; [split; [reflexivity|now split]|].
        symmetry. apply Z.ltb_lt.
        apply andb_false_iff in Eeq as [E|E]; [apply Z.eqb_neq in E|apply Z.eqb_neq in E]; lia.
      * apply Z.leb_gt in Ege.
        destruct (ReadAt_loop_spec fuel len at_ [] b W ltac:(lia) Hlen Hf)
          as (b' & -> & W' & Hc' & _).
        exists b'. split; [reflexivity|]. now split.
Qed.

Lemma Bytes_ReadAt_spec_witness :
  let b0 := mkBytes None 4 [mkBlock 0 3] [] 4 0
                    [Byte.x61; Byte.x62; Byte.x63; Byte.x00] true 3 in
  Bytes_wf b0 /\
  exists b',
    Bytes_ReadAt 10 5 1 b0 = Some (BOk ([Byte.x62; Byte.x63], Some EOF, b'))
    /\ Bytes_content b' = [Byte.x61; Byte.x62; Byte.x63].
Proof.
  intros b0.
  assert (W : Bytes_wf b0).
  { constructor; cbn.
    - lia.
    - reflexivity.
    - right. unfold Zlength. cbn. lia.
    - repeat constructor; cbn; lia.
    - repeat constructor; cbn; try lia. exists 0. lia.
    - repeat constructor. intros H. inversion H.
    - unfold max_int64. repeat split; try lia. exists 1. lia.
    - unfold max_int64. split; lia.
    - intros i blk Hi [Hne|Hd]; [|discriminate].
      destruct i; [cbn in Hne; lia|discriminate].
    - intros i blk Hi _ Hd. discriminate.
    - constructor. }
  split; [exact W|].
  destruct (Bytes_ReadAt_spec 10 5 1 b0 W ltac:(lia) ltac:(lia)) as (b' & H & _ & Hc).
  exists b'. split; [exact H | exact Hc].
Defined.

(** *** Changes of the blocks *)

Lemma content_frame b b' l1 l2 mid mid' :
  Bytes_wf b ->
  b_blocks b = l1 ++ mid ++ l2 -> b_blocks b' = l1 ++ mid' ++ l2 ->
  (forall j bj, l1 !! j = Some bj -> block_bytes b' j bj = block_bytes b j bj) ->
  (forall j bj, l2 !! j = Some bj ->
     block_bytes b' (length l1 + length mid' + j) bj
     = block_bytes b (length l1 + length mid + j) bj) ->
  exists pre post,
    Zlength pre = sum_n l1
    /\ Bytes_content b
       = pre ++ concat (imap (fun k => block_bytes b (length l1 + k)) mid) ++ post
    /\ Bytes_content b'
       = pre ++ concat (imap (fun k => block_bytes b' (length l1 + k)) mid') ++ post.
Proof.
  intros W Hb Hb' H1 H2.
  exists (concat (imap (block_bytes b) l1)),
         (concat (imap (fun k => block_bytes b (length l1 + length mid + k)) l2)).
  split; [|split].
  - apply Zlength_concat_imap. intros j bj Hj. apply block_bytes_length; [assumption|].
    rewrite Hb. rewrite lookup_app_l by (eapply lookup_lt_Some, Hj). exact Hj.
  - unfold Bytes_content. rewrite Hb, !imap_app, !concat_app. f_equal. f_equal.
    f_equal. apply imap_ext. intros j bj Hj. cbn. f_equal. lia.
  - unfold Bytes_content. rewrite Hb', !imap_app, !concat_app. f_equal.
    + f_equal. apply imap_ext. intros j bj Hj. apply H1, Hj.
    + f_equal. f_equal. apply imap_ext. intros j bj Hj. cbn.
      rewrite <- (H2 j bj Hj). f_equal. lia.
Qed.

Lemma sum_n_insert l i blk x :
  l !! i = Some blk -> sum_n (<[i:=x]> l) = sum_n l - blk_n blk + blk_n x.
Proof.
  revert i. induction l as [|y l IH]; intros [|i] H; try discriminate.
  - injection H as ->. cbn. lia.
  - cbn in H. specialize (IH i H).
    change (<[S i:=x]> (y :: l)) with (y :: <[i:=x]> l).
    cbn [sum_n]. lia.
Qed.

Lemma starts_insert (l : list block) i blk n :
  l !! i = Some blk -> map blk_start (<[i:=mkBlock (blk_start blk) n]> l) = map blk_start l.
Proof.
  intros H. change (map blk_start) with (fmap (M:=list) blk_start).
  rewrite list_fmap_insert. cbn. apply list_insert_id.
  rewrite list_lookup_fmap, H. reflexivity.
Qed.

Lemma file_bytes_eq b b' : b_f b' = b_f b -> file_bytes b' = file_bytes b.
Proof. unfold file_bytes. now intros ->. Qed.

(** A change of the cached block in place: its bytes are the start of the
    cache afterwards, the other blocks are as before. *)
Lemma cached_update_spec b b' i blk n' :
  Bytes_wf b -> b_cached b = Z.of_nat i -> b_blocks b !! i = Some blk ->
  0 <= n' <= b_blockSize b ->
  b_f b' = b_f b -> b_blockSize b' = b_blockSize b ->
  b_blocks b' = <[i:=mkBlock (blk_start blk) n']> (b_blocks b) ->
  b_free b' = b_free b -> b_end b' = b_end b -> b_cached b' = b_cached b ->
  Zlength (b_cache b') = b_blockSize b -> b_dirty b' = true ->
  b_size b' = b_size b + n' - blk_n blk -> b_size b' <= max_int64 ->
  Bytes_wf b'
  /\ exists pre post,
       Zlength pre = sum_n (take i (b_blocks b))
       /\ Bytes_content b = pre ++ take (Z.to_nat (blk_n blk)) (b_cache b) ++ post
       /\ Bytes_content b' = pre ++ take (Z.to_nat n') (b_cache b') ++ post.
Proof.
  intros W Hcd Hi Hn' Ef EB Ebl Efr Een Ecd Eca Edi Esz Hmax.
  pose proof (file_bytes_eq b b' Ef) as Efb.
  assert (Hlt : (i < length (b_blocks b))%nat) by (eapply lookup_lt_Some, Hi).
  split.
  - constructor.
    + rewrite EB. apply (bwf_blockSize b W).
    + now rewrite EB.
    + right. rewrite Ecd, Ebl, Hcd. unfold Zlength. rewrite length_insert. lia.
    + rewrite Ebl, EB. apply Forall_insert; [apply (bwf_n b W)|]. exact Hn'.
    + rewrite Ebl, Efr, EB, Een.
      pose proof (bwf_alloc b W) as Ha. apply Forall_app in Ha as [Ha1 Ha2].
      apply Forall_app. split; [|assumption].
      apply Forall_insert; [assumption|]. cbn.
      rewrite Forall_forall in Ha1. apply (Ha1 blk).
      eapply list_elem_of_lookup_2, Hi.
    + rewrite Ebl, Efr, map_app, (starts_insert _ _ _ _ Hi), <- map_app.
      apply (bwf_distinct b W).
    + rewrite Een, EB. apply (bwf_end b W).
    + split; [|assumption]. rewrite Esz, Ebl, (sum_n_insert _ _ _ _ Hi).
      destruct (bwf_size b W) as [-> _]. cbn. lia.
    + intros j bj Hj [Hne|Hd]; [|congruence].
      rewrite Ecd, Hcd in Hne. rewrite Ebl, list_lookup_insert_ne in Hj by lia.
      unfold on_disk. rewrite Efb. apply (bwf_disk b W j bj Hj). left. lia.
    + intros j bj Hj _ Hd. congruence.
    + rewrite Efr. apply (bwf_free b W).
  - destruct (content_frame b b' (take i (b_blocks b)) (drop (S i) (b_blocks b))
                [blk] [mkBlock (blk_start blk) n'] W) as (pre & post & Hpre & Hc & Hc').
    + now rewrite <- (take_drop_middle _ _ _ Hi) at 1.
    + rewrite Ebl. apply insert_take_drop. exact Hlt.
    + intros j bj Hj. apply lookup_take_Some in Hj as [Hj Hji].
      unfold block_bytes. rewrite Ecd, Hcd, Efb.
      replace (Z.of_nat i =? Z.of_nat j) with false by (symmetry; apply Z.eqb_neq; lia).
      reflexivity.
    + intros j bj Hj. unfold block_bytes. rewrite Ecd, Hcd, Efb.
      rewrite length_take, Nat.min_l by lia. cbn [length].
      replace (Z.of_nat i =? Z.of_nat (i + 1 + j)) with false
        by (symmetry; apply Z.eqb_neq; lia).
      reflexivity.
    + exists pre, post. split; [assumption|].
      rewrite length_take, Nat.min_l in Hc, Hc' by lia.
      cbn [imap concat] in Hc, Hc'. rewrite app_nil_r in Hc, Hc'.
      unfold block_bytes in Hc, Hc'. rewrite Nat.add_0_r in Hc, Hc'.
      rewrite Ecd in Hc'. rewrite Hcd, Z.eqb_refl in Hc, Hc'. cbn in Hc'.
      now split.
Qed.

Lemma lookup_take_drop_S {A} (l : list A) i j x :
  (take i l ++ drop (S i) l) !! j = Some x ->
  exists j', j' <> i /\ l !! j' = Some x /\ (j' = j \/ j' = S j).
Proof.
  intros H. apply lookup_app_Some in H as [H|[Hge H]].
  - apply lookup_take_Some in H as [H Hlt]. exists j. repeat split; [lia|assumption|now left].
  - rewrite lookup_drop in H. rewrite length_take in *.
    destruct (decide (i <= length l)%nat) as [Hle|Hgt].
    + rewrite Nat.min_l in * by lia. exists (S i + (j - i))%nat.
      split; [lia|]. split; [assumption|]. right. lia.
    + apply lookup_lt_Some in H. lia.
Qed.

(** The cached block is removed and freed. *)
Lemma remove_cached_spec b b' i blk :
  Bytes_wf b -> b_cached b = Z.of_nat i -> b_blocks b !! i = Some blk ->
  b_f b' = b_f b -> b_blockSize b' = b_blockSize b ->
  b_blocks b' = take i (b_blocks b) ++ drop (S i) (b_blocks b) ->
  b_free b' = b_free b ++ [mkBlock (blk_start blk) 0] ->
  b_end b' = b_end b -> b_cached b' = -1 ->
  Zlength (b_cache b') = b_blockSize b ->
  b_size b' = b_size b - blk_n blk ->
  Bytes_wf b'
  /\ exists pre post,
       Zlength pre = sum_n (take i (b_blocks b))
       /\ Bytes_content b = pre ++ take (Z.to_nat (blk_n blk)) (b_cache b) ++ post
       /\ Bytes_content b' = pre ++ post.
Proof.
  intros W Hcd Hi Ef EB Ebl Efr Een Ecd Eca Esz.
  pose proof (file_bytes_eq b b' Ef) as Efb.
  assert (Hlt : (i < length (b_blocks b))%nat) by (eapply lookup_lt_Some, Hi).
  pose proof (take_drop_middle _ _ _ Hi) as Hmid.
  pose proof (block_n_bound b i blk W Hi) as Hn.
  split.
  - constructor.
    + rewrite EB. apply (bwf_blockSize b W).
    + now rewrite EB.
    + now left.
    + rewrite Ebl, EB. pose proof (bwf_n b W) as H.
      apply Forall_app. split; [now apply Forall_take|now apply Forall_drop].
    + rewrite Ebl, Efr, EB, Een.
      pose proof (bwf_alloc b W) as Ha. apply Forall_app in Ha as [Ha1 Ha2].
      rewrite !Forall_app. repeat split.
      * now apply Forall_take.
      * now apply Forall_drop.
      * assumption.
      * constructor; [|constructor]. cbn.
        rewrite Forall_forall in Ha1. apply (Ha1 blk).
        eapply list_elem_of_lookup_2, Hi.
    + pose proof (bwf_distinct b W) as Hnd.
      rewrite <- Hmid in Hnd.
      rewrite Ebl, Efr.
      rewrite !map_app in *. cbn [map blk_start] in *.
      rewrite <- !app_assoc in *. apply NoDup_app in Hnd as (N1 & N2 & N3).
      apply NoDup_app. split; [assumption|]. split.
      * intros x Hx Hin. apply (N2 x Hx). right.
        rewrite app_assoc in Hin. apply elem_of_app in Hin as [Hin|Hin]; [assumption|].
        apply list_elem_of_singleton in Hin as ->. exfalso. apply (N2 _ Hx). now left.
      * rewrite app_assoc. apply NoDup_app. apply NoDup_cons in N3 as [N3 N4].
        split; [assumption|]. split; [|apply NoDup_singleton].
        intros x Hx Hin. apply list_elem_of_singleton in Hin as ->. contradiction.
    + rewrite Een, EB. apply (bwf_end b W).
    + destruct (bwf_size b W) as [Hs Hm].
      rewrite Esz, Ebl, Hs, sum_n_app. rewrite <- Hmid at 1.
      rewrite sum_n_app. cbn [sum_n]. split; [lia|]. rewrite Hs in Hm.
      rewrite <- Hmid, sum_n_app in Hm at 1. cbn [sum_n] in Hm.
      rewrite <- Hmid, sum_n_app at 1. cbn [sum_n]. lia.
    + intros j bj Hj _. rewrite Ebl in Hj.
      apply lookup_take_drop_S in Hj as (j' & Hne & Hj' & _).
      unfold on_disk. rewrite Efb. apply (bwf_disk b W j' bj Hj'). left. lia.
    + intros j bj Hj Hc. lia.
    + rewrite Efr. apply Forall_app. split; [apply (bwf_free b W)|].
      constructor; [reflexivity|constructor].
  - destruct (content_frame b b' (take i (b_blocks b)) (drop (S i) (b_blocks b))
                [blk] [] W) as (pre & post & Hpre & Hc & Hc').
    + now rewrite <- Hmid at 1.
    + exact Ebl.
    + intros j bj Hj. apply lookup_take_Some in Hj as [Hj Hji].
      unfold block_bytes. rewrite Ecd, Hcd, Efb.
      replace (Z.of_nat i =? Z.of_nat j) with false by (symmetry; apply Z.eqb_neq; lia).
      replace (-1 =? Z.of_nat j) with false by (symmetry; apply Z.eqb_neq; lia).
      reflexivity.
    + intros j bj Hj. unfold block_bytes. rewrite Ecd, Hcd, Efb.
      rewrite length_take, Nat.min_l by lia. cbn [length].
      replace (Z.of_nat i =? Z.of_nat (i + 1 + j)) with false
        by (symmetry; apply Z.eqb_neq; lia).
      replace (-1 =? Z.of_nat (i + 0 + j)) with false
        by (symmetry; apply Z.eqb_neq; lia).
      reflexivity.
    + exists pre, post. split; [assumption|].
      rewrite length_take, Nat.min_l in Hc by lia.
      cbn [imap concat] in Hc, Hc'. rewrite app_nil_r in Hc.
      unfold block_bytes in Hc. rewrite Nat.add_0_r in Hc.
      rewrite Hcd, Z.eqb_refl in Hc.
      now split.
Qed.

Lemma cut_middle {A} (pre bb post : list A) (o m : nat) :
  (o + m <= length bb)%nat ->
  take (length pre + o) (pre ++ bb ++ post) ++ drop (length pre + o + m) (pre ++ bb ++ post)
  = pre ++ (take o bb ++ drop (o + m) bb) ++ post.
Proof.
  intros H.
  rewrite take_app, drop_app, take_app, drop_app.
  rewrite (take_ge pre) by lia. rewrite (drop_ge pre) by lia.
  replace (length pre + o - length pre)%nat with o by lia.
  replace (length pre + o + m - length pre)%nat with (o + m)%nat by lia.
  replace (o - length bb)%nat with 0%nat by lia.
  replace (o + m - length bb)%nat with 0%nat by lia.
  rewrite take_0, drop_0, app_nil_r, app_nil_l, <- !app_assoc. reflexivity.
Qed.

Lemma delete_in_block {A} (c : list A) (o m n : nat) :
  (o + m <= n)%nat -> (n <= length c)%nat ->
  take (n - m) (take o c ++ copy (drop o c) (drop (o + m) c))
  = take o (take n c) ++ drop (o + m) (take n c).
Proof.
  intros H1 H2. unfold copy.
  rewrite (take_ge (drop (o + m) c)) by (rewrite !length_drop; lia).
  rewrite take_app, length_take, Nat.min_l by lia.
  rewrite (take_ge (take o c)) by (rewrite length_take; lia).
  rewrite take_take, Nat.min_l by lia. f_equal.
  rewrite take_app, length_drop.
  rewrite skipn_firstn_comm. 
  replace (n - m - o - (length c - (o + m)))%nat with 0%nat by lia.
  rewrite take_0, app_nil_r. f_equal. lia.
Qed.

(** *** [delete] *)

Ltac i64 := unfold is_int64, min_int64, max_int64 in *; lia.

Lemma subslice_ok {A} (l : list A) lo hi :
  0 <= lo <= hi -> hi <= Zlength l -> subslice l lo hi = Some (slice l lo hi).
Proof.
  intros H1 H2. unfold subslice.
  replace ((0 <=? lo) && (lo <=? hi) && (hi <=? Zlength l)) with true
    by (symmetry; rewrite !andb_true_iff, !Z.leb_le; lia).
  reflexivity.
Qed.

Lemma slice_to_end {A} (l : list A) lo :
  0 <= lo -> slice l lo (Zlength l) = drop (Z.to_nat lo) l.
Proof.
  intros H. unfold slice. apply take_ge. rewrite length_drop. unfold Zlength. lia.
Qed.

Lemma copy_to_cache_spec lo src b :
  0 <= lo <= Zlength (b_cache b) ->
  copy_to_cache lo src b
  = BOk (tt, set_cache (take (Z.to_nat lo) (b_cache b)
                          ++ copy (drop (Z.to_nat lo) (b_cache b)) src) b).
Proof.
  intros H. unfold copy_to_cache. bm_simpl.
  rewrite subslice_ok, slice_to_end by lia. reflexivity.
Qed.

Lemma Zlength_drop {A} (l : list A) n :
  0 <= n <= Zlength l -> Zlength (drop (Z.to_nat n) l) = Zlength l - n.
Proof. unfold Zlength. rewrite length_drop. lia. Qed.

Lemma Zlength_copy_to {A} (c src : list A) lo :
  0 <= lo <= Zlength c ->
  Zlength (take (Z.to_nat lo) c ++ copy (drop (Z.to_nat lo) c) src) = Zlength c.
Proof.
  intros H. rewrite Zlength_app, Zlength_copy, Zlength_take, Zlength_drop; lia.
Qed.

Lemma delete_body_spec b n at_ tot :
  Bytes_wf b -> 0 <= at_ -> 0 < n -> at_ + n <= b_size b ->
  0 <= tot -> tot + n <= max_int64 ->
  exists b' m,
    delete_body n at_ tot b = BOk ((n - m, tot + m), b')
    /\ 0 < m <= n /\ Bytes_wf b'
    /\ Bytes_content b'
       = take (Z.to_nat at_) (Bytes_content b)
         ++ drop (Z.to_nat (at_ + m)) (Bytes_content b)
    /\ b_blockSize b' = b_blockSize b /\ b_end b' = b_end b.
Proof.
  intros W Hat Hn Hend Htot Htotn. unfold delete_body.
  destruct (blockAt_spec b at_ W ltac:(lia)) as (i & blk & Hb & Hi & Hr).
  unfold mbind at 1, BM_bind at 1. rewrite Hb. cbn beta iota.
  unfold mbind at 1, BM_bind at 1.
  destruct (Bytes_get_spec b i blk W Hi) as (b1 & -> & W1 & Hc1 & Hs1 & Hcd1 & _).
  destruct Hs1 as (HB & Hbl & Hfr & Hen & Hsz).
  set (q0 := sum_n (take i (b_blocks b))) in *.
  assert (Hi1 : b_blocks b1 !! i = Some blk) by now rewrite Hbl.
  pose proof (block_n_bound b1 i blk W1 Hi1) as Hnb.
  destruct (bwf_size b W) as [Hsize Hmax].
  pose proof (bwf_cache b1 W1) as Hcache.
  pose proof (bwf_blockSize b1 W1) as HBpos.
  assert (Hq' : 0 <= q0 <= b_size b).
  { rewrite Hsize. apply sum_n_take_le.
    eapply Forall_impl; [apply (bwf_n b W)|]. cbn. intros; lia. }
  assert (Hblk_le : q0 + blk_n blk <= b_size b).
  { rewrite Hsize. unfold q0. rewrite <- (sum_n_take_S _ _ _ Hi).
    apply sum_n_take_le. eapply Forall_impl; [apply (bwf_n b W)|]. cbn. intros; lia. }
  bm_simpl. rewrite Hi1. bm_simpl.
  rewrite (wrap64_id (at_ - q0)) by i64.
  set (o := at_ - q0).
  rewrite (wrap64_id (blk_n blk - o)) by (unfold o; i64).
  set (m := if n <? blk_n blk - o then n else blk_n blk - o).
  assert (Hm : 0 < m <= n /\ m <= blk_n blk - o).
  { unfold m. destruct (n <? blk_n blk - o) eqn:E;
      [apply Z.ltb_lt in E|apply Z.ltb_ge in E]; unfold o in *; lia. }
  destruct ((o =? 0) && (blk_n blk <=? n)) eqn:Ecase.
  - apply andb_true_iff in Ecase as [Eo En]. apply Z.eqb_eq in Eo. apply Z.leb_le in En.
    assert (Hmeq : m = blk_n blk).
    { unfold m. destruct (n <? blk_n blk - o) eqn:E;
        [apply Z.ltb_lt in E|apply Z.ltb_ge in E]; lia. }
    unfold freeBlock, remove_block. bm_simpl.
    cbn [b_blocks set_free].
    replace (i <? length (b_blocks b1))%nat with true
      by (symmetry; apply Nat.ltb_lt; eapply lookup_lt_Some, Hi1).
    rewrite (wrap64_id (n - m)), (wrap64_id (tot + m)) by i64.
    cbn [b_size set_cached set_blocks set_free].
    rewrite (wrap64_id (b_size b1 - m)) by i64.
    eexists _, m. split; [reflexivity|]. split; [lia|].
    match goal with |- Bytes_wf ?x /\ _ => set (b' := x) end.
    destruct (remove_cached_spec b1 b' i blk W1 Hcd1 Hi1) as (W' & pre & post & Hpre & Hc & Hc');
      try reflexivity.
    + exact Hcache.
    + cbn. lia.
    + split; [exact W'|]. split; [|split; [exact HB|exact Hen]].
      rewrite Hc', <- Hc1, Hc.
      rewrite Hbl in Hpre. fold q0 in Hpre.
      assert (Hbb : length (take (Z.to_nat (blk_n blk)) (b_cache b1)) = Z.to_nat (blk_n blk)).
      { rewrite length_take. unfold Zlength in Hcache. lia. }
      replace (Z.to_nat at_) with (length pre + 0)%nat by (unfold Zlength in Hpre; lia).
      replace (Z.to_nat (at_ + m)) with (length pre + 0 + Z.to_nat m)%nat
        by (unfold Zlength in Hpre; lia).
      rewrite cut_middle by lia.
      rewrite take_0, drop_ge by lia. reflexivity.
  - rewrite (wrap64_id (o + m)) by (unfold o in *; i64).
    rewrite subslice_ok, slice_to_end by (unfold o in *; lia). bm_simpl.
    rewrite copy_to_cache_spec by (unfold o in *; lia).
    unfold set_block_n. bm_simpl. cbn [b_blocks set_dirty set_cache].
    rewrite Hi1. bm_simpl.
    rewrite (wrap64_id (n - m)), (wrap64_id (tot + m)), (wrap64_id (blk_n blk - m)) by i64.
    cbn [b_size set_blocks set_dirty set_cache].
    rewrite (wrap64_id (b_size b1 - m)) by i64.
    eexists _, m. split; [reflexivity|]. split; [lia|].
    match goal with |- Bytes_wf ?x /\ _ => set (b' := x) end.
    destruct (cached_update_spec b1 b' i blk (blk_n blk - m) W1 Hcd1 Hi1)
      as (W' & pre & post & Hpre & Hc & Hc'); try reflexivity.
    + lia.
    + unfold b'. cbn [b_cache set_size set_blocks set_dirty set_cache].
      rewrite Zlength_copy_to; unfold o in *; lia.
    + cbn. lia.
    + cbn. lia.
    + split; [exact W'|]. split; [|split; [exact HB|exact Hen]].
      rewrite Hc', <- Hc1, Hc.
      rewrite Hbl in Hpre. fold q0 in Hpre.
      assert (Hbb : length (take (Z.to_nat (blk_n blk)) (b_cache b1)) = Z.to_nat (blk_n blk)).
      { rewrite length_take. unfold Zlength in Hcache. lia. }
      replace (Z.to_nat at_) with (length pre + Z.to_nat o)%nat
        by (unfold Zlength in Hpre; unfold o; lia).
      replace (Z.to_nat (at_ + m)) with (length pre + Z.to_nat o + Z.to_nat m)%nat
        by (unfold Zlength in Hpre; unfold o; lia).
      rewrite cut_middle by (unfold o in *; lia).
      f_equal. f_equal.
      unfold b'. cbn [b_cache set_size set_blocks set_dirty set_cache].
      replace (Z.to_nat (blk_n blk - m)) with (Z.to_nat (blk_n blk) - Z.to_nat m)%nat by lia.
      replace (Z.to_nat (o + m)) with (Z.to_nat o + Z.to_nat m)%nat by (unfold o in *; lia).
      apply delete_in_block; unfold Zlength in Hcache; unfold o in *; lia.
Qed.

Lemma cut_cut {A} (c : list A) (a m k : nat) :
  (a + m <= length c)%nat ->
  take a (take a c ++ drop (a + m) c) ++ drop (a + k) (take a c ++ drop (a + m) c)
  = take a c ++ drop (a + (m + k)) c.
Proof.
  intros H.
  rewrite take_app, drop_app, length_take, Nat.min_l by lia.
  rewrite take_take, Nat.min_l by lia.
  replace (a - a)%nat with 0%nat by lia. rewrite take_0, app_nil_r.
  rewrite (drop_ge (take a c)) by (rewrite length_take; lia).
  rewrite drop_drop. cbn [app]. do 2 f_equal. lia.
Qed.

Lemma delete_loop_spec at_ fuel : forall n tot b,
  Bytes_wf b -> 0 <= at_ -> 0 <= n -> at_ + n <= b_size b ->
  0 <= tot -> tot + n <= max_int64 -> (Z.to_nat n < fuel)%nat ->
  exists b',
    delete_loop fuel n at_ tot b = Some (BOk (tot + n, b'))
    /\ Bytes_wf b'
    /\ Bytes_content b'
       = take (Z.to_nat at_) (Bytes_content b)
         ++ drop (Z.to_nat (at_ + n)) (Bytes_content b)
    /\ b_blockSize b' = b_blockSize b /\ b_end b' = b_end b.
Proof.
  induction fuel as [|fuel IH]; intros n tot b W Hat Hn Hend Htot Hmax Hf; [lia|].
  cbn [delete_loop].
  destruct (0 <? n) eqn:E0.
  - apply Z.ltb_lt in E0.
    destruct (delete_body_spec b n at_ tot W Hat E0 Hend Htot Hmax)
      as (b1 & m & -> & Hm & W1 & Hc1 & HB1 & He1).
    pose proof (Bytes_content_length b W) as HL.
    pose proof (Bytes_content_length b1 W1) as HL1.
    assert (Hsz1 : b_size b1 = b_size b - m).
    { rewrite <- HL1, Hc1. unfold Zlength in *.
      rewrite length_app, length_take, length_drop. lia. }
    destruct (IH (n - m) (tot + m) b1 W1 Hat) as (b' & -> & W' & Hc' & HB' & He');
      try lia.
    exists b'. split; [do 3 f_equal; lia|]. split; [assumption|].
    split; [|split; congruence].
    rewrite Hc', Hc1.
    replace (Z.to_nat (at_ + m)) with (Z.to_nat at_ + Z.to_nat m)%nat by lia.
    replace (Z.to_nat (at_ + (n - m))) with (Z.to_nat at_ + Z.to_nat (n - m))%nat by lia.
    rewrite cut_cut by (unfold Zlength in HL; lia).
    do 2 f_equal. lia.
  - apply Z.ltb_ge in E0. assert (n = 0) as -> by lia.
    exists b. split; [do 3 f_equal; lia|]. split; [assumption|].
    split; [|split; reflexivity].
    rewrite Z.add_0_r, take_drop. reflexivity.
Qed.

(** [delete] of a range of the buffer. *)
Lemma Bytes_delete_ok fuel n at_ b :
  Bytes_wf b -> 0 <= n -> 0 <= at_ -> at_ + n <= b_size b -> (Z.to_nat n < fuel)%nat ->
  exists b',
    Bytes_delete fuel n at_ b = Some (BOk (n, b'))
    /\ Bytes_wf b'
    /\ Bytes_content b'
       = take (Z.to_nat at_) (Bytes_content b)
         ++ drop (Z.to_nat (at_ + n)) (Bytes_content b)
    /\ b_blockSize b' = b_blockSize b /\ b_end b' = b_end b.
Proof.
  intros W Hn Hat Hend Hf. unfold Bytes_delete, Bytes_Size.
  destruct (bwf_size b W) as [_ Hmax].
  replace (n <? 0) with false by (symmetry; apply Z.ltb_ge; lia).
  rewrite wrap64_id by i64.
  replace ((at_ <? 0) || (b_size b <? at_ + n)) with false
    by (symmetry; apply orb_false_iff; rewrite !Z.ltb_ge; lia).
  destruct (delete_loop_spec at_ fuel n 0 b W Hat Hn Hend ltac:(lia) ltac:(lia) Hf)
    as (b' & H & W' & Hc & HB & He).
  exists b'. now rewrite H.
Qed.

(** X22. [delete] of [n] bytes at [at], on a well-formed buffer with
    [at + n] an [int64] and a pass of the loop for every byte: a negative
    [n] gives the count error; a negative [at], or [at + n] beyond the
    size, gives the address error, and in both cases the buffer is left as
    it was; otherwise it returns [n] and the buffer holds the bytes that it
    held before [at] followed by those from [at + n] on. *)
Theorem Bytes_delete_spec fuel n at_ b :
  Bytes_wf b -> at_ + n <= max_int64 -> (Z.to_nat n < fuel)%nat ->
  (n < 0 -> Bytes_delete fuel n at_ b = Some (BErr (CountError n) b))
  /\ (0 <= n -> at_ < 0 \/ b_size b < at_ + n ->
      Bytes_delete fuel n at_ b = Some (BErr (AddressError (Point at_)) b))
  /\ (0 <= n -> 0 <= at_ -> at_ + n <= b_size b ->
      exists b',
        Bytes_delete fuel n at_ b = Some (BOk (n, b'))
        /\ Bytes_wf b'
        /\ Bytes_content b'
           = take (Z.to_nat at_) (Bytes_content b)
             ++ drop (Z.to_nat (at_ + n)) (Bytes_content b)).
Proof.
  intros W Hmax Hf. split; [|split].
  - intros Hn. unfold Bytes_delete.
    now replace (n <? 0) with true by (symmetry; apply Z.ltb_lt; lia).
  - intros Hn Hbad. unfold Bytes_delete, Bytes_Size.
    replace (n <? 0) with false by (symmetry; apply Z.ltb_ge; lia).
    destruct (at_ <? 0) eqn:Eat; [reflexivity|]. apply Z.ltb_ge in Eat.
    rewrite wrap64_id by i64.
    now replace (b_size b <? at_ + n) with true by (symmetry; apply Z.ltb_lt; lia).
  - intros Hn Hat Hend.
    destruct (Bytes_delete_ok fuel n at_ b W Hn Hat Hend Hf) as (b' & H & W' & Hc & _).
    exists b'. split; [exact H|]. split; assumption.
Qed.

(** *** Giving out blocks *)

Lemma wf_alloc_ok b :
  Bytes_wf b ->
  alloc_ok (b_blockSize b) (map blk_start (b_blocks b) ++ map blk_start (b_free b)) (b_end b).
Proof.
  intros W. split; [|split].
  - rewrite <- map_app. apply Forall_fmap. exact (bwf_alloc b W).
  - rewrite <- map_app. exact (bwf_distinct b W).
  - exact (bwf_end b W).
Qed.

Lemma alloc_ok_perm B l l' e : l ≡ₚ l' -> alloc_ok B l e -> alloc_ok B l' e.
Proof.
  intros Hp (H1 & H2 & H3). split; [|split]; [now rewrite <- Hp|now rewrite <- Hp|assumption].
Qed.

Lemma set_end_free_id b : set_end (b_end b) (set_free (b_free b) b) = b.
Proof. now destruct b. Qed.

Lemma allocBlock_spec b used :
  0 < b_blockSize b ->
  alloc_ok (b_blockSize b) (used ++ map blk_start (b_free b)) (b_end b) ->
  Forall (fun blk => blk_n blk = 0) (b_free b) ->
  b_end b + b_blockSize b <= max_int64 ->
  exists s fr' e',
    allocBlock b = BOk (mkBlock s 0, set_end e' (set_free fr' b))
    /\ Forall (fun blk => blk_n blk = 0) fr'
    /\ b_end b <= e' <= b_end b + b_blockSize b
    /\ forall l1 l2, used = l1 ++ l2 ->
         alloc_ok (b_blockSize b) ((l1 ++ s :: l2) ++ map blk_start fr') e'.
Proof.
  intros HB (HF & HN & He & Hd) Hfree Hroom. unfold allocBlock.
  destruct (last (b_free b)) as [blk|] eqn:El.
  - apply last_Some in El as [fr' Efr].
    exists (blk_start blk), fr', (b_end b).
    assert (Hblk : blk = mkBlock (blk_start blk) 0).
    { rewrite Efr in Hfree. apply Forall_app in Hfree as [_ Hf]. inversion Hf as [|? ? H0 _]; subst.
      destruct blk as [s n]. cbn in *. now subst. }
    split; [|split; [|split; [lia|]]].
    + rewrite Efr, removelast_last. rewrite <- Hblk. reflexivity.
    + rewrite Efr in Hfree. now apply Forall_app in Hfree as [Hf _].
    + intros l1 l2 ->. rewrite Efr, map_app in HF, HN. cbn [map] in HF, HN.
      eapply alloc_ok_perm; [|split; [exact HF|split; [exact HN|now split]]].
      rewrite <- !app_assoc. apply Permutation_app_head.
      rewrite <- Permutation_middle. cbn [app].
      rewrite app_nil_r. symmetry. apply Permutation_middle.
  - apply last_None in El.
    exists (b_end b), [], (b_end b + b_blockSize b).
    rewrite wrap64_id by i64.
    split; [|split; [constructor|split; [lia|]]].
    + rewrite <- El. reflexivity.
    + intros l1 l2 ->. rewrite El in HF, HN. cbn [map] in *. rewrite app_nil_r in *.
      split; [|split; [|split]].
      * apply Forall_app in HF as [F1 F2]. apply Forall_app. split; [|constructor].
        -- eapply Forall_impl; [exact F1|]. cbn.
           intros x (X1 & X2 & X3). repeat split; [lia|assumption|lia].
        -- repeat split; [lia|assumption|lia].
        -- eapply Forall_impl; [exact F2|]. cbn.
           intros x (X1 & X2 & X3). repeat split; [lia|assumption|lia].
      * apply NoDup_app in HN as (N1 & N2 & N3).
        assert (Hnot : forall x, x ∈ l1 ++ l2 -> x <> b_end b).
        { intros x Hx. rewrite Forall_forall in HF. specialize (HF x Hx). lia. }
        apply NoDup_app. split; [assumption|]. split.
        -- intros x Hx Hin. apply elem_of_cons in Hin as [->|Hin]; [|now apply (N2 x)].
           apply (Hnot (b_end b)); [|reflexivity]. apply elem_of_app. now left.
        -- apply NoDup_cons. split; [|assumption].
           intros Hin. apply (Hnot (b_end b)); [|reflexivity]. apply elem_of_app. now right.
      * lia.
      * now apply Z.divide_add_r; [|apply Z.divide_refl].
Qed.

(** There are no more blocks than regions of the file. *)
Lemma NoDup_bounded_length (l : list Z) e :
  0 <= e -> NoDup l -> Forall (fun s => 0 <= s < e) l -> Z.of_nat (length l) <= e.
Proof.
  intros He HN HF.
  assert (Hsub : Z.to_nat <$> l ⊆+ List.seq 0%nat (Z.to_nat e)).
  { apply NoDup_submseteq.
    - apply NoDup_fmap_2_strong; [|assumption].
      intros x y Hx Hy Hxy. rewrite Forall_forall in HF.
      pose proof (HF x Hx). pose proof (HF y Hy). lia.
    - intros x Hx. apply list_elem_of_fmap in Hx as (z & -> & Hz).
      rewrite Forall_forall in HF. pose proof (HF z Hz).
      apply elem_of_seq. lia. }
  apply submseteq_length in Hsub. rewrite length_fmap, length_seq in Hsub. lia.
Qed.

Lemma blocks_count b :
  Bytes_wf b -> Z.of_nat (length (b_blocks b)) <= b_end b.
Proof.
  intros W. destruct (wf_alloc_ok b W) as (HF & HN & He & _).
  pose proof (bwf_blockSize b W) as HB.
  apply NoDup_app in HN as (N1 & _ & _). apply Forall_app in HF as [F1 _].
  rewrite <- (length_map blk_start).
  apply NoDup_bounded_length; [lia|assumption|].
  eapply Forall_impl; [exact F1|]. cbn. intros; lia.
Qed.

Lemma Bytes_wf_build b :
  0 < b_blockSize b ->
  Zlength (b_cache b) = b_blockSize b ->
  b_cached b = -1 \/ 0 <= b_cached b < Zlength (b_blocks b) ->
  Forall (fun blk => 0 <= blk_n blk <= b_blockSize b) (b_blocks b) ->
  alloc_ok (b_blockSize b) (map blk_start (b_blocks b) ++ map blk_start (b_free b)) (b_end b) ->
  b_size b = sum_n (b_blocks b) /\ b_size b <= max_int64 ->
  (forall i blk, b_blocks b !! i = Some blk ->
     b_cached b <> Z.of_nat i \/ b_dirty b = false -> on_disk b blk) ->
  (forall i blk, b_blocks b !! i = Some blk ->
     b_cached b = Z.of_nat i -> b_dirty b = false -> blk_n blk <> 0 ->
     slice (file_bytes b) (blk_start blk) (blk_start blk + blk_n blk)
     = take (Z.to_nat (blk_n blk)) (b_cache b)) ->
  Forall (fun blk => blk_n blk = 0) (b_free b) ->
  Bytes_wf b.
Proof.
  intros H1 H2 H3 H4 (A1 & A2 & A3) H6 H7 H8 H9.
  constructor; try assumption.
  - rewrite <- map_app in A1. now apply Forall_fmap in A1.
  - now rewrite map_app.
Qed.

Lemma lookup_insert_at {A} (l : list A) k x j y :
  (k <= length l)%nat ->
  (take k l ++ x :: drop k l) !! j = Some y ->
  (j < k)%nat /\ l !! j = Some y
  \/ j = k /\ y = x
  \/ (k < j)%nat /\ l !! (j - 1)%nat = Some y.
Proof.
  intros Hk H. apply lookup_app_Some in H as [H|[Hge H]].
  - apply lookup_take_Some in H as [H Hlt]. left. now split.
  - rewrite length_take, Nat.min_l in * by lia.
    destruct (decide (j = k)) as [->|Hne].
    + right. left. rewrite Nat.sub_diag in H. cbn in H. split; congruence.
    + right. right. split; [lia|].
      replace (j - k)%nat with (S (j - k - 1)) in H by lia.
      change ((x :: drop k l) !! S (j - k - 1)%nat) with (drop k l !! (j - k - 1)%nat) in H.
      rewrite lookup_drop in H. rewrite <- H. f_equal. lia.
Qed.

Lemma sum_n_take_drop l k : sum_n (take k l) + sum_n (drop k l) = sum_n l.
Proof. rewrite <- sum_n_app, take_drop. reflexivity. Qed.

(** An empty block is put in at index [k]; the index of the cached block
    follows. *)
Lemma insert_empty_spec b b' k s :
  Bytes_wf b -> (k <= length (b_blocks b))%nat ->
  alloc_ok (b_blockSize b)
    ((map blk_start (take k (b_blocks b)) ++ s :: map blk_start (drop k (b_blocks b)))
       ++ map blk_start (b_free b')) (b_end b') ->
  Forall (fun blk => blk_n blk = 0) (b_free b') ->
  b_f b' = b_f b -> b_blockSize b' = b_blockSize b ->
  b_blocks b' = take k (b_blocks b) ++ mkBlock s 0 :: drop k (b_blocks b) ->
  b_cache b' = b_cache b -> b_dirty b' = b_dirty b -> b_size b' = b_size b ->
  b_cached b' = (if b_cached b <? Z.of_nat k then b_cached b else b_cached b + 1) ->
  Bytes_wf b' /\ Bytes_content b' = Bytes_content b.
Proof.
  intros W Hk Hal Hfr Ef EB Ebl Eca Edi Esz Ecd.
  pose proof (file_bytes_eq b b' Ef) as Efb.
  pose proof (bwf_blockSize b W) as HB.
  assert (Hcd : b_cached b = -1 \/ 0 <= b_cached b < Z.of_nat (length (b_blocks b)))
    by apply (bwf_cached b W).
  assert (Hcdj : forall j j' : nat,
            ((j < k)%nat /\ j' = j) \/ ((k < j)%nat /\ j' = (j - 1)%nat) ->
            (b_cached b' = Z.of_nat j <-> b_cached b = Z.of_nat j')).
  { intros j j' Hj. rewrite Ecd.
    destruct (b_cached b <? Z.of_nat k) eqn:E;
      [apply Z.ltb_lt in E|apply Z.ltb_ge in E]; lia. }
  split.
  - apply Bytes_wf_build.
    + now rewrite EB.
    + now rewrite Eca, EB; apply (bwf_cache b W).
    + rewrite Ecd, Ebl. unfold Zlength.
      rewrite length_app, length_take, Nat.min_l by lia. cbn [length].
      rewrite length_drop.
      destruct (b_cached b <? Z.of_nat k) eqn:E;
        [apply Z.ltb_lt in E|apply Z.ltb_ge in E]; lia.
    + rewrite Ebl, EB. pose proof (bwf_n b W) as H.
      apply Forall_app. split; [now apply Forall_take|].
      constructor; [cbn; lia|now apply Forall_drop].
    + rewrite Ebl, EB, map_app. cbn [map blk_start]. exact Hal.
    + rewrite Esz, Ebl, sum_n_app. cbn [sum_n blk_n].
      destruct (bwf_size b W) as [Hs Hm]. split; [|assumption].
      rewrite Hs, <- (sum_n_take_drop (b_blocks b) k). lia.
    + intros j bj Hj Hc. rewrite Ebl in Hj. unfold on_disk. rewrite Efb.
      apply lookup_insert_at in Hj as [[Hlt Hj]|[[-> ->]|[Hgt Hj]]]; [| |
        |assumption].
      * apply (bwf_disk b W j bj Hj). rewrite Edi in Hc.
        destruct Hc as [Hc|Hc]; [left|now right].
        rewrite (Hcdj j j) in Hc by (left; lia). exact Hc.
      * now left.
      * apply (bwf_disk b W _ bj Hj). rewrite Edi in Hc.
        destruct Hc as [Hc|Hc]; [left|now right].
        rewrite (Hcdj j (j - 1)%nat) in Hc by (right; lia). exact Hc.
    + intros j bj Hj Hc Hd Hn0. rewrite Ebl in Hj. rewrite Efb, Eca. rewrite Edi in Hd.
      apply lookup_insert_at in Hj as [[Hlt Hj]|[[-> ->]|[Hgt Hj]]]; [| |
        |assumption].
      * apply (bwf_clean b W j bj Hj); try assumption.
        apply (Hcdj j j); [left; lia|assumption].
      * cbn in Hn0. lia.
      * apply (bwf_clean b W _ bj Hj); try assumption.
        apply (Hcdj j (j - 1)%nat); [right; lia|assumption].
    + assumption.
  - destruct (content_frame b b' (take k (b_blocks b)) (drop k (b_blocks b))
                [] [mkBlock s 0] W) as (pre & post & Hpre & Hc & Hc').
    + cbn [app]. now rewrite take_drop.
    + exact Ebl.
    + intros j bj Hj. apply lookup_take_Some in Hj as [Hj Hji].
      unfold block_bytes. rewrite Efb, Eca.
      destruct (Z.eqb_spec (b_cached b') (Z.of_nat j)) as [E1|E1];
        destruct (Z.eqb_spec (b_cached b) (Z.of_nat j)) as [E2|E2]; try reflexivity;
        exfalso; rewrite (Hcdj j j) in E1 by (left; lia); contradiction.
    + intros j bj Hj. unfold block_bytes. rewrite Efb, Eca.
      rewrite length_take, Nat.min_l by lia. cbn [length].
      destruct (Z.eqb_spec (b_cached b') (Z.of_nat (k + 1 + j))) as [E1|E1];
        destruct (Z.eqb_spec (b_cached b) (Z.of_nat (k + 0 + j))) as [E2|E2]; try reflexivity;
        exfalso; rewrite (Hcdj (k + 1 + j)%nat (k + 0 + j)%nat) in E1 by (right; lia);
        contradiction.
    + rewrite Hc, Hc'. f_equal. cbn [imap concat app]. f_equal.
      unfold block_bytes. cbn [blk_n blk_start]. rewrite take_0, slice_empty by lia.
      now destruct (_ =? _).
Qed.

(** [blockAt] at the end of the buffer: a new, empty block after the
    others. *)
Lemma blockAt_end_spec b :
  Bytes_wf b -> b_end b + b_blockSize b <= max_int64 ->
  exists b' s,
    blockAt (b_size b) b = BOk ((length (b_blocks b), b_size b), b')
    /\ Bytes_wf b' /\ Bytes_content b' = Bytes_content b
    /\ b_blocks b' = b_blocks b ++ [mkBlock s 0]
    /\ b_size b' = b_size b /\ b_blockSize b' = b_blockSize b
    /\ b_end b <= b_end b' <= b_end b + b_blockSize b.
Proof.
  intros W Hroom. unfold blockAt, Bytes_Size. bm_simpl.
  destruct (bwf_size b W) as [Hs Hm].
  assert (H0 : 0 <= b_size b).
  { rewrite Hs. apply sum_n_nonneg. eapply Forall_impl; [apply (bwf_n b W)|].
    cbn. intros; lia. }
  replace ((b_size b <? 0) || (b_size b <? b_size b)) with false
    by (symmetry; apply orb_false_iff; rewrite !Z.ltb_ge; lia).
  rewrite Z.eqb_refl.
  destruct (allocBlock_spec b (map blk_start (b_blocks b)) (bwf_blockSize b W)
              (wf_alloc_ok b W) (bwf_free b W) Hroom)
    as (s & fr' & e' & -> & Hfr' & He' & Hal).
  unfold insert_block. cbn [b_blocks set_end set_free].
  rewrite Nat.leb_refl. rewrite take_ge, drop_ge by lia.
  eexists _, s. split; [reflexivity|].
  match goal with |- Bytes_wf ?x /\ _ => set (b' := x) end.
  destruct (insert_empty_spec b b' (length (b_blocks b)) s W ltac:(lia)) as [W' Hc'];
    try reflexivity.
  - rewrite take_ge, drop_ge by lia. cbn [map].
    apply (Hal (map blk_start (b_blocks b)) []). now rewrite app_nil_r.
  - exact Hfr'.
  - unfold b'. cbn [b_blocks set_blocks]. now rewrite take_ge, drop_ge by lia.
  - unfold b'. cbn [b_cached set_blocks set_end set_free].
    destruct (bwf_cached b W) as [Hc|Hc]; unfold Zlength in *.
    + rewrite Hc. now replace (-1 <? _) with true by (symmetry; apply Z.ltb_lt; lia).
    + now replace (b_cached b <? _) with true by (symmetry; apply Z.ltb_lt; lia).
  - split; [exact W'|]. split; [exact Hc'|]. split; [reflexivity|].
    split; [reflexivity|]. split; [reflexivity|]. unfold b'; cbn; lia.
Qed.

Lemma lookup_replace3 {A} (l : list A) i x1 x2 x3 j y :
  (i < length l)%nat ->
  (take i l ++ [x1; x2; x3] ++ drop (S i) l) !! j = Some y ->
  ((j < i)%nat /\ l !! j = Some y)
  \/ (j = i /\ y = x1) \/ (j = S i /\ y = x2) \/ (j = S (S i) /\ y = x3)
  \/ ((S (S i) < j)%nat /\ l !! (j - 2)%nat = Some y).
Proof.
  intros Hi H. apply lookup_app_Some in H as [H|[Hge H]].
  - apply lookup_take_Some in H as [H Hlt]. left. now split.
  - rewrite length_take, Nat.min_l in * by lia. right.
    destruct (j - i)%nat as [|[|[|k]]] eqn:E; cbn in H.
    + left. split; [lia|congruence].
    + right. left. split; [lia|congruence].
    + right. right. left. split; [lia|congruence].
    + right. right. right. split; [lia|].
      change (drop (S i) l !! k = Some y) in H.
      rewrite lookup_drop in H. rewrite <- H. f_equal. lia.
Qed.

Lemma split_in_block {A} (c : list A) (o n : nat) :
  (o <= n)%nat -> (n <= length c)%nat ->
  take (n - o) (copy c (drop o c)) = drop o (take n c).
Proof.
  intros H1 H2. unfold copy.
  rewrite (take_ge (drop o c)) by (rewrite length_drop; lia).
  rewrite take_app, length_drop.
  replace (n - o - (length c - o))%nat with 0%nat by lia.
  rewrite take_0, app_nil_r. symmetry. apply skipn_firstn_comm.
Qed.

(** The cached block, which is in the file, is split at [o]: the bytes
    before [o] stay where they are, an empty block follows, and the bytes
    from [o] on are those of a third block, which is the cached one
    afterwards. *)
Lemma split_cached_spec b b' i blk o s1 s2 :
  Bytes_wf b -> b_cached b = Z.of_nat i -> b_dirty b = false ->
  b_blocks b !! i = Some blk -> 0 < o < blk_n blk ->
  alloc_ok (b_blockSize b) (map blk_start (b_blocks b') ++ map blk_start (b_free b'))
    (b_end b') ->
  Forall (fun blk => blk_n blk = 0) (b_free b') ->
  b_f b' = b_f b -> b_blockSize b' = b_blockSize b ->
  b_blocks b'
  = take i (b_blocks b)
    ++ [mkBlock (blk_start blk) o; mkBlock s1 0; mkBlock s2 (blk_n blk - o)]
    ++ drop (S i) (b_blocks b) ->
  b_cached b' = Z.of_nat i + 2 ->
  b_cache b' = copy (b_cache b) (drop (Z.to_nat o) (b_cache b)) ->
  b_dirty b' = true -> b_size b' = b_size b ->
  Bytes_wf b' /\ Bytes_content b' = Bytes_content b.
Proof.
  intros W Hcd Hdi Hi Ho Hal Hfr Ef EB Ebl Ecd Eca Edi Esz.
  pose proof (file_bytes_eq b b' Ef) as Efb.
  pose proof (bwf_blockSize b W) as HB.
  pose proof (bwf_cache b W) as Hcache.
  pose proof (block_n_bound b i blk W Hi) as Hn.
  assert (Hlt : (i < length (b_blocks b))%nat) by (eapply lookup_lt_Some, Hi).
  pose proof (take_drop_middle _ _ _ Hi) as Hmid.
  assert (Hdisk : blk_start blk + blk_n blk <= Zlength (file_bytes b)).
  { destruct (bwf_disk b W i blk Hi (or_intror Hdi)) as [H|H]; lia. }
  pose proof (bwf_clean b W i blk Hi Hcd Hdi ltac:(lia)) as Hclean.
  split.
  - apply Bytes_wf_build.
    + now rewrite EB.
    + rewrite Eca, EB, Zlength_copy. exact Hcache.
    + right. rewrite Ecd, Ebl. unfold Zlength.
      rewrite length_app, length_take, Nat.min_l by lia. cbn [length app].
      rewrite length_drop. lia.
    + rewrite Ebl, EB. pose proof (bwf_n b W) as H.
      apply Forall_app. split; [now apply Forall_take|].
      repeat (constructor; [cbn; lia|]). now apply Forall_drop.
    + rewrite EB. exact Hal.
    + rewrite Esz, Ebl, sum_n_app. cbn [sum_n blk_n app].
      destruct (bwf_size b W) as [Hs Hm]. split; [|assumption].
      rewrite Hs. rewrite <- Hmid at 1. rewrite sum_n_app. cbn [sum_n]. lia.
    + intros j bj Hj [Hc|Hc]; [|congruence]. rewrite Ebl in Hj. unfold on_disk. rewrite Efb.
      apply lookup_replace3 in Hj as [[Hl Hj]|[[-> ->]|[[-> ->]|[[-> ->]|[Hgt Hj]]]]];
        [| | | | |assumption].
      * apply (bwf_disk b W j bj Hj). now right.
      * right. cbn. lia.
      * now left.
      * lia.
      * apply (bwf_disk b W _ bj Hj). now right.
    + intros j bj Hj Hc Hd. congruence.
    + assumption.
  - destruct (content_frame b b' (take i (b_blocks b)) (drop (S i) (b_blocks b))
                [blk] [mkBlock (blk_start blk) o; mkBlock s1 0; mkBlock s2 (blk_n blk - o)] W)
      as (pre & post & Hpre & Hc & Hc').
    + now rewrite <- Hmid at 1.
    + exact Ebl.
    + intros j bj Hj. apply lookup_take_Some in Hj as [Hj Hji].
      unfold block_bytes. rewrite Efb, Ecd, Hcd.
      replace (Z.of_nat i + 2 =? Z.of_nat j) with false by (symmetry; apply Z.eqb_neq; lia).
      replace (Z.of_nat i =? Z.of_nat j) with false by (symmetry; apply Z.eqb_neq; lia).
      reflexivity.
    + intros j bj Hj. unfold block_bytes. rewrite Efb, Ecd, Hcd.
      rewrite length_take, Nat.min_l by lia. cbn [length].
      replace (Z.of_nat i + 2 =? Z.of_nat (i + 3 + j)) with false
        by (symmetry; apply Z.eqb_neq; lia).
      replace (Z.of_nat i =? Z.of_nat (i + 1 + j)) with false
        by (symmetry; apply Z.eqb_neq; lia).
      reflexivity.
    + rewrite Hc, Hc'. f_equal. f_equal.
      rewrite length_take, Nat.min_l by lia.
      cbn [imap concat app]. rewrite !app_nil_r.
      unfold block_bytes, compose. cbn beta. cbn [blk_n blk_start].
      rewrite Ecd, Hcd, Efb, Eca.
      rewrite Nat.add_0_r, Z.eqb_refl.
      replace (Z.of_nat i + 2 =? Z.of_nat i) with false by (symmetry; apply Z.eqb_neq; lia).
      replace (Z.of_nat i + 2 =? Z.of_nat (i + 1)) with false
        by (symmetry; apply Z.eqb_neq; lia).
      replace (Z.of_nat i + 2 =? Z.of_nat (i + 2)) with true
        by (symmetry; apply Z.eqb_eq; lia).
      rewrite (slice_empty _ s1) by lia. cbn [app].
      replace (Z.to_nat (blk_n blk - o)) with (Z.to_nat (blk_n blk) - Z.to_nat o)%nat by lia.
      rewrite split_in_block by (unfold Zlength in Hcache; lia).
      rewrite <- (take_drop (Z.to_nat o) (take (Z.to_nat (blk_n blk)) (b_cache b))) at 2.
      f_equal. rewrite <- Hclean. unfold slice.
      rewrite take_take. do 2 f_equal; lia.
Qed.

Lemma set_block_n_spec i n b blk :
  b_blocks b !! i = Some blk ->
  set_block_n i n b = BOk (tt, set_blocks (<[i:=mkBlock (blk_start blk) n]> (b_blocks b)) b).
Proof. intros H. unfold set_block_n. bm_simpl. rewrite H. reflexivity. Qed.

Lemma insert_block_spec i blk b :
  (i <= length (b_blocks b))%nat ->
  insert_block i blk b
  = BOk (tt, set_blocks (take i (b_blocks b) ++ blk :: drop i (b_blocks b)) b).
Proof.
  intros H. unfold insert_block.
  now replace (i <=? length (b_blocks b))%nat with true by (symmetry; apply Nat.leb_le; lia).
Qed.

Lemma sum_n_take_mono l i j :
  Forall (fun blk => 0 <= blk_n blk) l -> (i <= j)%nat ->
  sum_n (take i l) <= sum_n (take j l).
Proof.
  intros H Hij. replace j with (i + (j - i))%nat by lia.
  rewrite <- take_take_drop, sum_n_app.
  assert (0 <= sum_n (take (j - i) (drop i l))); [|lia].
  apply sum_n_nonneg. now apply Forall_take, Forall_drop.
Qed.

Lemma list_put1 {A} (t d : list A) x1 x2 i :
  length t = i ->
  take (i + 1) (t ++ x1 :: d) ++ x2 :: drop (i + 1) (t ++ x1 :: d)
  = t ++ x1 :: x2 :: d.
Proof.
  intros <-. induction t as [|y t IH]; cbn; [now rewrite take_0, drop_0|]. now rewrite IH.
Qed.

Lemma list_put2 {A} (t d : list A) x1 x2 x3 i :
  length t = i ->
  take (i + 2) (t ++ x1 :: x2 :: d) ++ x3 :: drop (i + 2) (t ++ x1 :: x2 :: d)
  = t ++ x1 :: x2 :: x3 :: d.
Proof.
  intros <-. induction t as [|y t IH]; cbn; [now rewrite take_0, drop_0|]. now rewrite IH.
Qed.

Lemma list_get1 {A} (t d : list A) x1 x2 i :
  length t = i -> (t ++ x1 :: x2 :: d) !! (i + 1)%nat = Some x2.
Proof. intros <-. induction t as [|y t IH]; cbn; [reflexivity|]. exact IH. Qed.

Lemma list_get2 {A} (t d : list A) x1 x2 x3 i :
  length t = i -> (t ++ x1 :: x2 :: x3 :: d) !! (i + 2)%nat = Some x3.
Proof. intros <-. induction t as [|y t IH]; cbn; [reflexivity|]. exact IH. Qed.

Lemma list_set2 {A} (t d : list A) x1 x2 x3 y i :
  length t = i ->
  <[(i + 2)%nat := y]> (t ++ x1 :: x2 :: x3 :: d) = t ++ x1 :: x2 :: y :: d.
Proof.
  intros <-. induction t as [|z t IH]; cbn; [reflexivity|]. f_equal. exact IH.
Qed.

(** [insertAt] at an offset in the cached block: a new, empty block whose
    first byte would be at that offset. *)
Lemma insertAt_spec b at_ i blk :
  Bytes_wf b -> b_cached b = Z.of_nat i -> b_blocks b !! i = Some blk ->
  sum_n (take i (b_blocks b)) <= at_ < sum_n (take i (b_blocks b)) + blk_n blk ->
  b_end b + 2 * b_blockSize b <= max_int64 ->
  exists b' i' s,
    insertAt at_ b = BOk (i', b')
    /\ Bytes_wf b' /\ Bytes_content b' = Bytes_content b
    /\ b_blocks b' !! i' = Some (mkBlock s 0)
    /\ sum_n (take i' (b_blocks b')) = at_
    /\ b_size b' = b_size b /\ b_blockSize b' = b_blockSize b
    /\ b_end b <= b_end b' <= b_end b + 2 * b_blockSize b.
Proof.
  intros W Hcd Hi Hr Hroom. unfold insertAt.
  pose proof (bwf_blockSize b W) as HB.
  destruct (bwf_size b W) as [Hsize Hmax].
  set (q0 := sum_n (take i (b_blocks b))) in *.
  assert (Hq' : 0 <= q0 <= b_size b).
  { rewrite Hsize. apply sum_n_take_le.
    eapply Forall_impl; [apply (bwf_n b W)|]. cbn. intros; lia. }
  assert (Hblk_le : q0 + blk_n blk <= b_size b).
  { rewrite Hsize. unfold q0. rewrite <- (sum_n_take_S _ _ _ Hi).
    apply sum_n_take_le. eapply Forall_impl; [apply (bwf_n b W)|]. cbn. intros; lia. }
  destruct (blockAt_spec b at_ W ltac:(lia)) as (i0 & blk0 & Hb & Hi0 & Hr0).
  assert (Hnn : Forall (fun blk => 0 <= blk_n blk) (b_blocks b)).
  { eapply Forall_impl; [apply (bwf_n b W)|]. cbn. intros; lia. }
  assert (i0 = i) as ->.
  { destruct (Nat.lt_trichotomy i0 i) as [H|[H|H]]; [|assumption|]; exfalso.
    - pose proof (sum_n_take_mono (b_blocks b) (S i0) i Hnn ltac:(lia)) as Hle.
      rewrite (sum_n_take_S _ _ _ Hi0) in Hle. fold q0 in Hle. lia.
    - pose proof (sum_n_take_mono (b_blocks b) (S i) i0 Hnn ltac:(lia)) as Hle.
      rewrite (sum_n_take_S _ _ _ Hi) in Hle. fold q0 in Hle. lia. }
  assert (blk0 = blk) as -> by congruence. fold q0 in Hb.
  unfold mbind at 1, BM_bind at 1. rewrite Hb. cbn beta iota.
  bm_simpl. rewrite Hi. bm_simpl.
  rewrite (wrap64_id (at_ - q0)) by i64.
  pose proof (blocks_count b W) as Hcount.
  assert (Hlt : (i < length (b_blocks b))%nat) by (eapply lookup_lt_Some, Hi).
  destruct (at_ =? q0) eqn:Eq.
  - apply Z.eqb_eq in Eq.
    destruct (allocBlock_spec b (map blk_start (b_blocks b)) HB
                (wf_alloc_ok b W) (bwf_free b W) ltac:(lia))
      as (s & fr' & e' & -> & Hfr' & He' & Hal).
    rewrite insert_block_spec by (cbn; lia).
    cbn [b_cached b_blocks set_blocks set_end set_free].
    rewrite Hcd, Z.eqb_refl. rewrite (wrap64_id (Z.of_nat i + 1)) by i64.
    eexists _, i, s. split; [reflexivity|].
    match goal with |- Bytes_wf ?x /\ _ => set (b' := x) end.
    destruct (insert_empty_spec b b' i s W ltac:(lia)) as [W' Hc']; try reflexivity.
    + apply (Hal (map blk_start (take i (b_blocks b))) (map blk_start (drop i (b_blocks b)))).
      now rewrite <- map_app, take_drop.
    + exact Hfr'.
    + unfold b'. cbn [b_cached set_cached]. rewrite Hcd, Z.ltb_irrefl. reflexivity.
    + split; [exact W'|]. split; [exact Hc'|].
      unfold b'. cbn [b_blocks b_size b_blockSize b_end set_cached set_blocks set_end set_free].
      split; [|split; [|split; [reflexivity|split; [reflexivity|lia]]]].
      * apply list_lookup_middle. rewrite length_take. lia.
      * rewrite take_app_length' by (rewrite length_take; lia). fold q0. lia.
  - apply Z.eqb_neq in Eq.
    assert (Hb1 : exists b1,
               (if (b_cached b =? Z.of_nat i) && b_dirty b then Bytes_put else Bytes_get i) b
               = BOk (tt, b1)
               /\ Bytes_wf b1 /\ Bytes_content b1 = Bytes_content b /\ same_blocks b b1
               /\ b_cached b1 = Z.of_nat i /\ b_cache b1 = b_cache b /\ b_dirty b1 = false).
    { rewrite Hcd, Z.eqb_refl. cbn [andb]. destruct (b_dirty b) eqn:Ed.
      - destruct (Bytes_put_spec b W) as (b1 & H1 & W1 & Hc1 & Hs1 & Hcd1 & Hca1 & Hpost).
        exists b1. repeat (split; [first [assumption|congruence]|]).
        destruct Hpost as [Hneg|Hd]; [lia|assumption].
      - destruct (Bytes_get_spec b i blk W Hi) as (b1 & H1 & W1 & Hc1 & Hs1 & Hcd1 & Hsame).
        specialize (Hsame Hcd). subst b1.
        exists b. repeat (split; [first [assumption|congruence]|]). assumption. }
    destruct Hb1 as (b1 & -> & W1 & Hc1 & Hs1 & Hcd1 & Hca1 & Hdi1).
    destruct Hs1 as (HB1 & Hbl1 & Hfr1 & Hen1 & Hsz1).
    assert (Hi1 : b_blocks b1 !! i = Some blk) by now rewrite Hbl1.
    set (o := at_ - q0) in *.
    rewrite (set_block_n_spec i o b1 blk Hi1).
    rewrite insert_take_drop by (rewrite Hbl1; exact Hlt).
    set (t := take i (b_blocks b1)). set (d := drop (S i) (b_blocks b1)).
    assert (Ht : length t = i) by (unfold t; rewrite length_take, Hbl1; lia).
    set (x1 := mkBlock (blk_start blk) o).
    pose proof (wf_alloc_ok b1 W1) as Hal1.
    assert (Hst : map blk_start (b_blocks b1) = (map blk_start t ++ [blk_start blk]) ++ map blk_start d).
    { rewrite <- (take_drop_middle _ _ _ Hi1) at 1. fold t d.
      rewrite map_app. cbn [map]. now rewrite <- app_assoc. }
    rewrite Hst in Hal1.
    match goal with |- context [allocBlock ?x] => set (b2 := x) end.
    destruct (allocBlock_spec b2 ((map blk_start t ++ [blk_start blk]) ++ map blk_start d))
      as (s1 & fr1 & e1 & -> & Hfr1' & He1 & Hal2).
    { unfold b2. cbn. lia. }
    { unfold b2. cbn [b_blockSize b_free b_end set_blocks]. exact Hal1. }
    { unfold b2. cbn [b_free set_blocks]. apply (bwf_free b1 W1). }
    { unfold b2. cbn [b_blockSize b_end set_blocks]. lia. }
    specialize (Hal2 _ _ eq_refl).
    unfold b2 in *. cbn [b_blockSize b_end b_free set_blocks] in *.
    rewrite insert_block_spec
      by (cbn [b_blocks set_blocks set_end set_free]; rewrite length_app; cbn [length]; lia).
    cbn [b_blocks set_blocks set_end set_free].
    rewrite (list_put1 t d _ _ i Ht).
    match goal with |- context [allocBlock ?x] => set (b3 := x) end.
    destruct (allocBlock_spec b3 ((map blk_start t ++ [blk_start blk; s1]) ++ map blk_start d))
      as (s2 & fr2 & e2 & -> & Hfr2' & He2 & Hal3).
    { unfold b3. cbn. lia. }
    { unfold b3. cbn [b_blockSize b_free b_end set_blocks set_end set_free].
      rewrite <- !app_assoc in *. exact Hal2. }
    { unfold b3. cbn [b_free set_blocks set_end set_free]. exact Hfr1'. }
    { unfold b3. cbn [b_blockSize b_end set_blocks set_end set_free]. lia. }
    specialize (Hal3 _ _ eq_refl).
    unfold b3 in *. cbn [b_blockSize b_end b_free set_blocks set_end set_free] in *.
    rewrite insert_block_spec
      by (cbn [b_blocks set_blocks set_end set_free]; rewrite length_app; cbn [length]; lia).
    cbn [b_blocks set_blocks set_end set_free].
    rewrite (list_put2 t d _ _ _ i Ht).
    erewrite set_block_n_spec
      by (cbn [b_blocks set_blocks set_end set_free]; apply list_get2, Ht).
    cbn [b_blocks b_cache set_blocks set_end set_free blk_start].
    rewrite (list_set2 t d _ _ _ _ i Ht).
    pose proof (block_n_bound b1 i blk W1 Hi1) as Hn.
    pose proof (bwf_cache b1 W1) as Hcache.
    rewrite (wrap64_id (blk_n blk - o)) by (unfold o in *; i64).
    rewrite subslice_ok, slice_to_end by (unfold o in *; lia).
    rewrite (wrap64_id (Z.of_nat i + 2)) by i64.
    eexists _, (i + 1)%nat, s1. split; [reflexivity|].
    match goal with |- Bytes_wf ?x /\ _ => set (b' := x) end.
    destruct (split_cached_spec b1 b' i blk o s1 s2 W1 Hcd1 Hdi1 Hi1) as [W' Hc'];
      try reflexivity.
    + unfold o. lia.
    + unfold b'. cbn [b_blocks b_free b_end set_dirty set_cached set_cache set_blocks
                        set_end set_free].
      rewrite map_app. cbn [map blk_start]. rewrite <- !app_assoc in *. exact Hal3.
    + exact Hfr2'.
    + split; [exact W'|]. split; [congruence|].
      unfold b'. cbn [b_blocks b_size b_blockSize b_end set_dirty set_cached set_cache
                        set_blocks set_end set_free].
      split; [|split; [|split; [assumption|split; [assumption|lia]]]].
      * apply list_get1, Ht.
      * rewrite (take_app_add' t) by exact (eq_sym Ht).
        rewrite sum_n_app. cbn [take sum_n blk_n]. unfold t. rewrite Hbl1. fold q0.
        unfold x1, o. cbn [blk_n]. lia.
Qed.

(** *** [insert] *)

Lemma put_middle {A} (pre bb post new : list A) (o : nat) :
  (o <= length bb)%nat ->
  take (length pre + o) (pre ++ bb ++ post) ++ new ++ drop (length pre + o) (pre ++ bb ++ post)
  = pre ++ (take o bb ++ new ++ drop o bb) ++ post.
Proof.
  intros H.
  rewrite take_app, drop_app, take_app, drop_app.
  rewrite (take_ge pre) by lia. rewrite (drop_ge pre) by lia.
  replace (length pre + o - length pre)%nat with o by lia.
  replace (o - length bb)%nat with 0%nat by lia.
  rewrite take_0, drop_0, app_nil_r, app_nil_l, <- !app_assoc. reflexivity.
Qed.

Lemma insert_in_block {A} (c new : list A) (o n : nat) :
  (o <= n)%nat -> (n + length new <= length c)%nat ->
  let m := length new in
  let c1 := take (o + m) c ++ copy (drop (o + m) c) (take (n - o) (drop o c)) in
  let c2 := take o c1 ++ copy (drop o c1) new in
  length c2 = length c
  /\ take (n + m) c2 = take o (take n c) ++ new ++ drop o (take n c).
Proof.
  intros H1 H2 m c1 c2.
  assert (Hc1 : c1 = take (o + m) c ++ take (n - o) (drop o c) ++ drop (n + m) c).
  { unfold c1. rewrite copy_prefix by (rewrite length_take, !length_drop; lia).
    rewrite length_take, length_drop, Nat.min_l by lia.
    rewrite drop_drop. do 3 f_equal. lia. }
  assert (Hl1 : length c1 = length c).
  { rewrite Hc1, !length_app, !length_take, !length_drop. lia. }
  assert (Ht : take o c1 = take o c).
  { rewrite Hc1, take_app, length_take, take_take.
    replace (o - (o + m) `min` length c)%nat with 0%nat by lia.
    rewrite take_0, app_nil_r. f_equal. lia. }
  assert (Hd : drop (o + m) c1 = take (n - o) (drop o c) ++ drop (n + m) c).
  { rewrite Hc1, drop_app, length_take.
    rewrite (drop_ge (take (o + m) c)) by (rewrite length_take; lia).
    replace (o + m - (o + m) `min` length c)%nat with 0%nat by lia.
    reflexivity. }
  assert (Hc2 : c2 = take o c ++ new ++ take (n - o) (drop o c) ++ drop (n + m) c).
  { unfold c2. rewrite copy_prefix by (rewrite length_drop; lia).
    rewrite Ht, drop_drop. fold m. rewrite Hd. reflexivity. }
  split.
  - rewrite Hc2, !length_app, !length_take, !length_drop. fold m. lia.
  - rewrite Hc2. rewrite app_assoc, app_assoc, take_app.
    rewrite take_ge
      by (rewrite !length_app, !length_take, length_drop; fold m; lia).
    replace (n + m - length ((take o c ++ new) ++ take (n - o) (drop o c)))%nat
      with 0%nat
      by (rewrite !length_app, !length_take, length_drop; fold m; lia).
    rewrite take_0, app_nil_r, <- !app_assoc.
    rewrite take_take, Nat.min_l by lia. do 2 f_equal.
    symmetry. apply skipn_firstn_comm.
Qed.

Lemma put_put {A} (c new rest : list A) (a : nat) :
  (a <= length c)%nat ->
  let c1 := take a c ++ new ++ drop a c in
  take (a + length new) c1 ++ rest ++ drop (a + length new) c1
  = take a c ++ (new ++ rest) ++ drop a c.
Proof.
  intros H c1. unfold c1.
  rewrite (app_assoc (take a c)), take_app, drop_app.
  rewrite (take_ge (take a c ++ new)) by (rewrite length_app, length_take; lia).
  rewrite (drop_ge (take a c ++ new)) by (rewrite length_app, length_take; lia).
  replace (a + length new - length (take a c ++ new))%nat with 0%nat
    by (rewrite length_app, length_take; lia).
  rewrite take_0, drop_0, app_nil_r, <- !app_assoc. reflexivity.
Qed.

(** The end of a pass of the loop of [insert]: the first bytes of [bs],
    as many as the block has room for, are put in at [at]. *)
Lemma insert_fill_spec b bs at_ tot i blk q0 m0 :
  Bytes_wf b -> b_cached b = Z.of_nat i -> b_blocks b !! i = Some blk ->
  sum_n (take i (b_blocks b)) = q0 -> q0 <= at_ <= q0 + blk_n blk ->
  0 < m0 -> blk_n blk + m0 <= b_blockSize b ->
  0 < Zlength bs -> b_size b + Zlength bs <= max_int64 ->
  b_blockSize b <= max_int64 ->
  0 <= tot -> tot + Zlength bs <= max_int64 ->
  exists b' m,
    insert_fill bs at_ tot i q0 m0 b
    = BOk ((drop (Z.to_nat m) bs, at_ + m, tot + m), b')
    /\ 0 < m <= Zlength bs /\ Bytes_wf b'
    /\ Bytes_content b'
       = take (Z.to_nat at_) (Bytes_content b) ++ take (Z.to_nat m) bs
         ++ drop (Z.to_nat at_) (Bytes_content b)
    /\ b_blockSize b' = b_blockSize b /\ b_end b' = b_end b.
Proof.
  intros W Hcd Hi Hq0 Hr Hm0 Hroom Hbs Hsz Hend Htot Htotn.
  pose proof (bwf_blockSize b W) as HB.
  pose proof (bwf_cache b W) as Hcache.
  pose proof (block_n_bound b i blk W Hi) as Hn.
  destruct (bwf_size b W) as [Hsize Hmax].
  destruct (bwf_end b W) as [[He0 _] _].
  assert (Hq' : 0 <= q0).
  { rewrite <- Hq0. apply sum_n_take_le.
    eapply Forall_impl; [apply (bwf_n b W)|]. cbn. intros; lia. }
  assert (Hblk_le : q0 + blk_n blk <= b_size b).
  { rewrite Hsize, <- Hq0. rewrite <- (sum_n_take_S _ _ _ Hi).
    apply sum_n_take_le. eapply Forall_impl; [apply (bwf_n b W)|]. cbn. intros; lia. }
  unfold insert_fill. bm_simpl. rewrite Hi. bm_simpl.
  set (m := if Zlength bs <? m0 then Zlength bs else m0).
  assert (Hm : 0 < m <= Zlength bs /\ m <= m0).
  { unfold m. destruct (Zlength bs <? m0) eqn:E;
      [apply Z.ltb_lt in E|apply Z.ltb_ge in E]; lia. }
  rewrite (wrap64_id (at_ - q0)) by i64.
  set (o := at_ - q0).
  rewrite (wrap64_id (o + m)) by (unfold o; i64).
  rewrite (subslice_ok (b_cache b) o (blk_n blk)) by (unfold o; lia). bm_simpl.
  rewrite copy_to_cache_spec by (unfold o; lia).
  cbn [b_cache set_cache].
  rewrite (subslice_ok bs 0 m), slice_0 by lia. bm_simpl.
  set (c1 := take (Z.to_nat (o + m)) (b_cache b) ++ _).
  assert (Hins := insert_in_block (b_cache b) (take (Z.to_nat m) bs)
                    (Z.to_nat o) (Z.to_nat (blk_n blk))).
  assert (Hnew : length (take (Z.to_nat m) bs) = Z.to_nat m).
  { rewrite length_take. unfold Zlength in *. lia. }
  rewrite Hnew in Hins. cbn zeta in Hins.
  replace (Z.to_nat o + Z.to_nat m)%nat with (Z.to_nat (o + m)) in Hins by (unfold o; lia).
  replace (Z.to_nat (blk_n blk) - Z.to_nat o)%nat with (Z.to_nat (blk_n blk - o)) in Hins
    by (unfold o; lia).
  change (take (Z.to_nat (blk_n blk - o)) (drop (Z.to_nat o) (b_cache b)))
    with (slice (b_cache b) o (blk_n blk)) in Hins.
  fold c1 in Hins.
  destruct Hins as [Hlen2 Htake2]; [unfold o; lia|unfold Zlength in *; lia|].
  rewrite copy_to_cache_spec
    by (cbn [b_cache set_cache]; unfold Zlength in *;
        assert (length c1 = length (b_cache b)); [|unfold o; lia];
        unfold c1; rewrite length_app, length_take; unfold copy;
        rewrite length_app, length_take, !length_drop; unfold slice;
        rewrite length_take, length_drop; unfold o; lia).
  cbn [b_cache set_cache].
  rewrite (subslice_ok bs m (Zlength bs)), slice_to_end by lia. bm_simpl.
  erewrite set_block_n_spec by (cbn [b_blocks set_dirty set_cache]; exact Hi).
  cbn [b_blocks b_size set_blocks set_dirty set_cache blk_start].
  rewrite (wrap64_id (blk_n blk + m)), (wrap64_id (b_size b + m)),
    (wrap64_id (at_ + m)), (wrap64_id (tot + m)) by (unfold o in *; i64).
  eexists _, m. split; [reflexivity|]. split; [lia|].
  match goal with |- Bytes_wf ?x /\ _ => set (b' := x) end.
  destruct (cached_update_spec b b' i blk (blk_n blk + m) W Hcd Hi)
    as (W' & pre & post & Hpre & Hc & Hc'); try reflexivity.
  - lia.
  - unfold b'. cbn [b_cache set_size set_blocks set_dirty set_cache].
    unfold Zlength in *. rewrite Hlen2. exact Hcache.
  - cbn. lia.
  - cbn. lia.
  - split; [exact W'|]. split; [|split; reflexivity].
    rewrite Hc', Hc. rewrite Hq0 in Hpre.
    assert (Hbb : length (take (Z.to_nat (blk_n blk)) (b_cache b)) = Z.to_nat (blk_n blk)).
    { rewrite length_take. unfold Zlength in Hcache. lia. }
    replace (Z.to_nat at_) with (length pre + Z.to_nat o)%nat
      by (unfold Zlength in Hpre; unfold o; lia).
    rewrite put_middle by (unfold o; lia).
    f_equal. f_equal.
    unfold b'. cbn [b_cache set_size set_blocks set_dirty set_cache].
    replace (Z.to_nat (blk_n blk + m)) with (Z.to_nat (blk_n blk) + Z.to_nat m)%nat by lia.
    exact Htake2.
Qed.

(** One pass of the loop of [insert]: some of the bytes, at least one,
    are put in at [at]. *)
Lemma insert_body_spec b bs at_ tot :
  Bytes_wf b -> 0 <= at_ <= b_size b -> 0 < Zlength bs ->
  b_size b + Zlength bs <= max_int64 ->
  b_end b + 2 * b_blockSize b <= max_int64 ->
  0 <= tot -> tot + Zlength bs <= max_int64 ->
  exists b' m,
    insert_body bs at_ tot b = BOk ((drop (Z.to_nat m) bs, at_ + m, tot + m), b')
    /\ 0 < m <= Zlength bs /\ Bytes_wf b'
    /\ Bytes_content b'
       = take (Z.to_nat at_) (Bytes_content b) ++ take (Z.to_nat m) bs
         ++ drop (Z.to_nat at_) (Bytes_content b)
    /\ b_blockSize b' = b_blockSize b
    /\ b_end b' <= b_end b + 2 * b_blockSize b.
Proof.
  intros W Hat Hbs Hsz Hroom Htot Htotn.
  pose proof (bwf_blockSize b W) as HB.
  destruct (bwf_end b W) as [[He0 _] _].
  unfold insert_body.
  destruct (Z.eq_dec at_ (b_size b)) as [->|Hne].
  - destruct (blockAt_end_spec b W ltac:(lia))
      as (b0 & s & Hb & W0 & Hc0 & Hbl0 & Hsz0 & HB0 & He0').
    unfold mbind at 1, BM_bind at 1. rewrite Hb. cbn beta iota.
    unfold mbind at 1, BM_bind at 1.
    assert (Hi0 : b_blocks b0 !! length (b_blocks b) = Some (mkBlock s 0)).
    { rewrite Hbl0. apply list_lookup_middle. reflexivity. }
    destruct (Bytes_get_spec b0 _ _ W0 Hi0) as (b1 & -> & W1 & Hc1 & Hs1 & Hcd1 & _).
    destruct Hs1 as (HB1 & Hbl1 & Hfr1 & Hen1 & Hsz1).
    assert (Hi1 : b_blocks b1 !! length (b_blocks b) = Some (mkBlock s 0)) by congruence.
    cbn beta iota.
    unfold mbind at 1, BM_bind at 1, bm_get at 1. cbn beta iota.
    unfold mbind at 1, BM_bind at 1, bm_lift at 1. rewrite Hi1.
    unfold mret at 1, BM_ret at 1. cbn beta iota zeta.
    cbn [blk_n].
    rewrite Z.sub_0_r, (wrap64_id (b_blockSize b1)) by i64.
    replace (b_blockSize b1 =? 0) with false by (symmetry; apply Z.eqb_neq; lia).
    unfold mbind at 1, BM_bind at 1, mret at 1, BM_ret at 1. cbn beta iota.
    destruct (insert_fill_spec b1 bs (b_size b) tot (length (b_blocks b)) (mkBlock s 0)
                (b_size b) (b_blockSize b1) W1 Hcd1 Hi1)
      as (b' & m & -> & Hm & W' & Hc' & HB' & He'); try (cbn [blk_n]; lia).
    { rewrite Hbl1, Hbl0, take_app_length. symmetry. apply (bwf_size b W). }
    exists b', m. split; [reflexivity|]. split; [assumption|]. split; [assumption|].
    split; [rewrite Hc'; congruence|]. split; [congruence|]. lia.
  - destruct (blockAt_spec b at_ W ltac:(lia)) as (i & blk & Hb & Hi & Hr).
    unfold mbind at 1, BM_bind at 1. rewrite Hb. cbn beta iota.
    unfold mbind at 1, BM_bind at 1.
    destruct (Bytes_get_spec b i blk W Hi) as (b1 & -> & W1 & Hc1 & Hs1 & Hcd1 & _).
    destruct Hs1 as (HB1 & Hbl1 & Hfr1 & Hen1 & Hsz1).
    assert (Hi1 : b_blocks b1 !! i = Some blk) by congruence.
    pose proof (block_n_bound b1 i blk W1 Hi1) as Hn.
    cbn beta iota.
    unfold mbind at 1, BM_bind at 1, bm_get at 1. cbn beta iota.
    unfold mbind at 1, BM_bind at 1, bm_lift at 1. rewrite Hi1.
    unfold mret at 1, BM_ret at 1. cbn beta iota zeta.
    rewrite (wrap64_id (b_blockSize b1 - blk_n blk)) by i64.
    destruct (b_blockSize b1 - blk_n blk =? 0) eqn:Em.
    + apply Z.eqb_eq in Em.
      destruct (insertAt_spec b1 at_ i blk W1 Hcd1 Hi1)
        as (b2 & i' & s & Hins & W2 & Hc2 & Hi2 & Hq2 & Hsz2 & HB2 & He2);
        [rewrite Hbl1; exact Hr|lia|].
      unfold mbind at 1, BM_bind at 1.
      unfold mbind at 1, BM_bind at 1. rewrite Hins. cbn beta iota.
      unfold mbind at 1, BM_bind at 1.
      destruct (Bytes_get_spec b2 i' _ W2 Hi2) as (b3 & -> & W3 & Hc3 & Hs3 & Hcd3 & _).
      destruct Hs3 as (HB3 & Hbl3 & Hfr3 & Hen3 & Hsz3).
      assert (Hi3 : b_blocks b3 !! i' = Some (mkBlock s 0)) by congruence.
      cbn beta iota.
      unfold mbind at 1, BM_bind at 1, bm_get at 1, mret at 1, BM_ret at 1. cbn beta iota.
      destruct (insert_fill_spec b3 bs at_ tot i' (mkBlock s 0) at_ (b_blockSize b3)
                  W3 Hcd3 Hi3)
        as (b' & m & -> & Hm & W' & Hc' & HB' & He'); try (cbn [blk_n]; lia).
      { rewrite Hbl3. exact Hq2. }
      exists b', m. split; [reflexivity|]. split; [assumption|]. split; [assumption|].
      split; [rewrite Hc'; congruence|]. split; [congruence|]. lia.
    + apply Z.eqb_neq in Em.
      unfold mbind at 1, BM_bind at 1, mret at 1, BM_ret at 1. cbn beta iota.
      destruct (insert_fill_spec b1 bs at_ tot i blk (sum_n (take i (b_blocks b)))
                  (b_blockSize b1 - blk_n blk) W1 Hcd1 Hi1)
        as (b' & m & -> & Hm & W' & Hc' & HB' & He'); try lia.
      { now rewrite Hbl1. }
      exists b', m. split; [reflexivity|]. split; [assumption|]. split; [assumption|].
      split; [rewrite Hc'; congruence|]. split; [congruence|]. lia.
Qed.

Lemma insert_loop_spec fuel : forall bs at_ tot b,
  Bytes_wf b -> 0 <= at_ <= b_size b ->
  b_size b + Zlength bs <= max_int64 ->
  b_end b + 2 * Zlength bs * b_blockSize b <= max_int64 ->
  0 <= tot -> tot + Zlength bs <= max_int64 -> (length bs < fuel)%nat ->
  exists b',
    insert_loop fuel bs at_ tot b = Some (BOk (tot + Zlength bs, b'))
    /\ Bytes_wf b'
    /\ Bytes_content b'
       = take (Z.to_nat at_) (Bytes_content b) ++ bs
         ++ drop (Z.to_nat at_) (Bytes_content b).
Proof.
  induction fuel as [|fuel IH]; intros bs at_ tot b W Hat Hsz Hroom Htot Htotn Hf; [lia|].
  pose proof (bwf_blockSize b W) as HB.
  destruct bs as [|x l] eqn:Ebs.
  - cbn [insert_loop]. exists b. split; [do 3 f_equal; unfold Zlength; cbn; lia|].
    split; [assumption|]. cbn [app]. now rewrite take_drop.
  - rewrite <- Ebs in *. 
    assert (Hpos : 0 < Zlength bs) by (rewrite Ebs; unfold Zlength; cbn; lia).
    replace (insert_loop (S fuel) bs at_ tot b)
      with (match insert_body bs at_ tot b with
            | BOk ((rest, at', tot'), b') => insert_loop fuel rest at' tot' b'
            | BErr e b' => Some (BErr e b')
            | BPanic => Some BPanic
            end) by (rewrite Ebs; reflexivity).
    destruct (insert_body_spec b bs at_ tot W Hat Hpos Hsz ltac:(nia) Htot Htotn)
      as (b1 & m & -> & Hm & W1 & Hc1 & HB1 & He1).
    pose proof (Bytes_content_length b W) as HL.
    pose proof (Bytes_content_length b1 W1) as HL1.
    assert (Hmlen : length (take (Z.to_nat m) bs) = Z.to_nat m).
    { rewrite length_take. unfold Zlength in *. lia. }
    assert (Hsz1 : b_size b1 = b_size b + m).
    { rewrite <- HL1, Hc1. unfold Zlength in *.
      rewrite !length_app, Hmlen, length_take, length_drop. lia. }
    assert (Hrest : Zlength (drop (Z.to_nat m) bs) = Zlength bs - m).
    { unfold Zlength in *. rewrite length_drop. lia. }
    destruct (IH (drop (Z.to_nat m) bs) (at_ + m) (tot + m) b1 W1)
      as (b' & -> & W' & Hc'); try lia.
    { rewrite HB1, Hrest. nia. }
    { unfold Zlength in *. rewrite length_drop. lia. }
    exists b'. split; [do 3 f_equal; lia|]. split; [assumption|].
    rewrite Hc', Hc1.
    replace (Z.to_nat (at_ + m)) with (Z.to_nat at_ + length (take (Z.to_nat m) bs))%nat
      by lia.
    rewrite put_put by (unfold Zlength in HL; lia).
    now rewrite take_drop.
Qed.

(** [insert] at an offset of the buffer. *)
Lemma Bytes_insert_ok fuel bs at_ b :
  Bytes_wf b -> 0 <= at_ <= b_size b ->
  b_size b + Zlength bs <= max_int64 ->
  b_end b + 2 * Zlength bs * b_blockSize b <= max_int64 ->
  (length bs < fuel)%nat ->
  exists b',
    Bytes_insert fuel bs at_ b = Some (BOk (Zlength bs, b'))
    /\ Bytes_wf b'
    /\ Bytes_content b'
       = take (Z.to_nat at_) (Bytes_content b) ++ bs
         ++ drop (Z.to_nat at_) (Bytes_content b).
Proof.
  intros W Hat Hsz Hroom Hf. unfold Bytes_insert, Bytes_Size.
  replace ((at_ <? 0) || (b_size b <? at_)) with false
    by (symmetry; apply orb_false_iff; rewrite !Z.ltb_ge; lia).
  assert (H0 : 0 <= Zlength bs) by (unfold Zlength; lia).
  destruct (insert_loop_spec fuel bs at_ 0 b W Hat Hsz Hroom ltac:(lia) ltac:(lia) Hf)
    as (b' & H & W' & Hc).
  exists b'. rewrite H. split; [reflexivity|]. split; assumption.
Qed.

(** X23. [insert] of the bytes [bs] at [at], on a well-formed buffer, when
    the size with the bytes added and the end of the file with two more
    blocks for every byte are [int64]s, and there is a pass of the loop
    for every byte: a negative [at], or one beyond the size, gives the
    address error and the buffer is left as it was; otherwise it returns
    the number of bytes and the buffer holds the bytes that it held before
    [at], then [bs], then those that it held from [at] on. *)
Theorem Bytes_insert_spec fuel bs at_ b :
  Bytes_wf b ->
  b_size b + Zlength bs <= max_int64 ->
  b_end b + 2 * Zlength bs * b_blockSize b <= max_int64 ->
  (length bs < fuel)%nat ->
  (at_ < 0 \/ b_size b < at_ ->
   Bytes_insert fuel bs at_ b = Some (BErr (AddressError (Point at_)) b))
  /\ (0 <= at_ <= b_size b ->
      exists b',
        Bytes_insert fuel bs at_ b = Some (BOk (Zlength bs, b'))
        /\ Bytes_wf b'
        /\ Bytes_content b'
           = take (Z.to_nat at_) (Bytes_content b) ++ bs
             ++ drop (Z.to_nat at_) (Bytes_content b)).
Proof.
  intros W Hsz Hroom Hf. split.
  - intros Hbad. unfold Bytes_insert, Bytes_Size.
    now replace ((at_ <? 0) || (b_size b <? at_)) with true
      by (symmetry; apply orb_true_iff; rewrite !Z.ltb_lt; lia).
  - intros Hat. exact (Bytes_insert_ok fuel bs at_ b W Hat Hsz Hroom Hf).
Qed.

(** *** [Read] and [Write] *)

(** [ReadAt] of a range of the buffer. *)
Lemma Bytes_ReadAt_ok fuel len at_ b :
  Bytes_wf b -> 0 <= at_ -> 0 <= len -> at_ + len <= b_size b ->
  (Z.to_nat len < fuel)%nat ->
  exists b',
    Bytes_ReadAt fuel len at_ b
    = Some (BOk (slice (Bytes_content b) at_ (at_ + len), None, b'))
    /\ Bytes_wf b' /\ Bytes_content b' = Bytes_content b.
Proof.
  intros W Hat Hlen Hend Hf. unfold Bytes_ReadAt, Bytes_Size.
  replace (at_ <? 0) with false by (symmetry; apply Z.ltb_ge; lia).
  destruct ((at_ =? b_size b) && (len =? 0)) eqn:Eeq.
  - apply andb_true_iff in Eeq as [E1 E2]. apply Z.eqb_eq in E1, E2. subst.
    exists b. rewrite slice_empty by lia. split; [reflexivity|]. now split.
  - assert (Hlt : at_ < b_size b).
    { apply andb_false_iff in Eeq as [E|E]; apply Z.eqb_neq in E; lia. }
    replace (b_size b <=? at_) with false by (symmetry; apply Z.leb_gt; lia).
    destruct (ReadAt_loop_spec fuel len at_ [] b W ltac:(lia) Hlen Hf)
      as (b' & -> & W' & Hc' & _).
    exists b'. rewrite Z.min_l by lia.
    replace (b_size b <? at_ + len) with false by (symmetry; apply Z.ltb_ge; lia).
    split; [reflexivity|]. now split.
Qed.

Lemma addr_size_ok a : 0 <= from a <= to a -> to a <= max_int64 -> addr_size a = to a - from a.
Proof. intros H1 H2. unfold addr_size. apply wrap64_id. i64. Qed.

(** [Read] of a range of the buffer. *)
Lemma Bytes_Read_ok fuel at_ b :
  Bytes_wf b -> 0 <= from at_ <= to at_ -> to at_ <= b_size b ->
  (Z.to_nat (to at_ - from at_) < fuel)%nat ->
  exists b',
    Bytes_Read fuel at_ b = Some (BOk (slice (Bytes_content b) (from at_) (to at_), b'))
    /\ Bytes_wf b' /\ Bytes_content b' = Bytes_content b.
Proof.
  intros W H1 H2 Hf. unfold Bytes_Read, Bytes_Size.
  destruct (bwf_size b W) as [_ Hmax].
  replace ((from at_ <? 0) || (to at_ <? from at_) || (b_size b <? to at_)) with false
    by (symmetry; rewrite !orb_false_iff, !Z.ltb_ge; lia).
  rewrite addr_size_ok by lia.
  replace (to at_ - from at_ <? 0) with false by (symmetry; apply Z.ltb_ge; lia).
  destruct (Bytes_ReadAt_ok fuel (to at_ - from at_) (from at_) b W) as (b' & -> & W' & Hc');
    try lia.
  exists b'. replace (from at_ + (to at_ - from at_)) with (to at_) by lia.
  split; [reflexivity|]. now split.
Qed.

(** [Write] to a range of the buffer. *)
Lemma Bytes_Write_ok fuel bs at_ b :
  Bytes_wf b -> 0 <= from at_ <= to at_ -> to at_ <= b_size b ->
  b_size b + Zlength bs <= max_int64 ->
  b_end b + 2 * Zlength bs * b_blockSize b <= max_int64 ->
  (Z.to_nat (to at_ - from at_) < fuel)%nat -> (length bs < fuel)%nat ->
  exists b',
    Bytes_Write fuel bs at_ b = Some (BOk (tt, b'))
    /\ Bytes_wf b'
    /\ Bytes_content b'
       = take (Z.to_nat (from at_)) (Bytes_content b) ++ bs
         ++ drop (Z.to_nat (to at_)) (Bytes_content b).
Proof.
  intros W H1 H2 Hsz Hroom Hf1 Hf2. unfold Bytes_Write, Bytes_Size.
  destruct (bwf_size b W) as [_ Hmax].
  replace ((from at_ <? 0) || (to at_ <? from at_) || (b_size b <? to at_)) with false
    by (symmetry; rewrite !orb_false_iff, !Z.ltb_ge; lia).
  rewrite addr_size_ok by lia.
  destruct (Bytes_delete_ok fuel (to at_ - from at_) (from at_) b W)
    as (b1 & -> & W1 & Hc1 & HB1 & He1); try lia.
  pose proof (Bytes_content_length b W) as HL.
  pose proof (Bytes_content_length b1 W1) as HL1.
  assert (Hsz1 : b_size b1 = b_size b - (to at_ - from at_)).
  { rewrite <- HL1, Hc1. unfold Zlength in *.
    rewrite length_app, length_take, length_drop. lia. }
  assert (H0 : 0 <= Zlength bs) by (unfold Zlength; lia).
  destruct (Bytes_insert_ok fuel bs (from at_) b1 W1) as (b' & -> & W' & Hc');
    try (rewrite ?He1, ?HB1; lia).
  exists b'. split; [reflexivity|]. split; [assumption|].
  rewrite Hc', Hc1.
  replace (from at_ + (to at_ - from at_)) with (to at_) by lia.
  rewrite take_app, drop_app, length_take.
  rewrite take_take, Nat.min_id.
  replace (Z.to_nat (from at_) - Z.to_nat (from at_) `min` length (Bytes_content b))%nat
    with 0%nat by (unfold Zlength in HL; lia).
  rewrite take_0, drop_0, app_nil_r.
  rewrite (drop_ge (take _ _)) by (rewrite length_take; lia).
  reflexivity.
Qed.

(** X24. [Read] of the range [at], on a well-formed buffer with a pass of
    the loop for every byte: a range that starts before 0, ends before it
    starts or ends beyond the size gives the address error of the range;
    any other range gives the bytes that the buffer holds in it, and the
    bytes of the buffer are as before. *)
Theorem Bytes_Read_spec fuel at_ b :
  Bytes_wf b -> (Z.to_nat (to at_ - from at_) < fuel)%nat ->
  (from at_ < 0 \/ to at_ < from at_ \/ b_size b < to at_ ->
   Bytes_Read fuel at_ b = Some (BErr (AddressError at_) b))
  /\ (0 <= from at_ <= to at_ -> to at_ <= b_size b ->
      exists b',
        Bytes_Read fuel at_ b
        = Some (BOk (slice (Bytes_content b) (from at_) (to at_), b'))
        /\ Bytes_wf b' /\ Bytes_content b' = Bytes_content b).
Proof.
  intros W Hf. split.
  - intros Hbad. unfold Bytes_Read, Bytes_Size.
    now replace ((from at_ <? 0) || (to at_ <? from at_) || (b_size b <? to at_)) with true
      by (symmetry; rewrite !orb_true_iff, !Z.ltb_lt; lia).
  - intros H1 H2. exact (Bytes_Read_ok fuel at_ b W H1 H2 Hf).
Qed.

(** X25. [Write] of the bytes [bs] to the range [at], on a well-formed
    buffer, when the size with the bytes added and the end of the file
    with two more blocks for every byte are [int64]s, and there is a pass
    of the loops for every byte taken out or put in: a range that starts
    before 0, ends before it starts or ends beyond the size gives the
    address error of the range and leaves the buffer as it was; any other
    range is replaced by [bs]: the buffer holds the bytes that it held
    before the range, then [bs], then those that it held after the
    range. *)
Theorem Bytes_Write_spec fuel bs at_ b :
  Bytes_wf b ->
  b_size b + Zlength bs <= max_int64 ->
  b_end b + 2 * Zlength bs * b_blockSize b <= max_int64 ->
  (Z.to_nat (to at_ - from at_) < fuel)%nat -> (length bs < fuel)%nat ->
  (from at_ < 0 \/ to at_ < from at_ \/ b_size b < to at_ ->
   Bytes_Write fuel bs at_ b = Some (BErr (AddressError at_) b))
  /\ (0 <= from at_ <= to at_ -> to at_ <= b_size b ->
      exists b',
        Bytes_Write fuel bs at_ b = Some (BOk (tt, b'))
        /\ Bytes_wf b'
        /\ Bytes_content b'
           = take (Z.to_nat (from at_)) (Bytes_content b) ++ bs
             ++ drop (Z.to_nat (to at_)) (Bytes_content b)).
Proof.
  intros W Hsz Hroom Hf1 Hf2. split.
  - intros Hbad. unfold Bytes_Write, Bytes_Size.
    now replace ((from at_ <? 0) || (to at_ <? from at_) || (b_size b <? to at_)) with true
      by (symmetry; rewrite !orb_true_iff, !Z.ltb_lt; lia).
  - intros H1 H2. exact (Bytes_Write_ok fuel bs at_ b W H1 H2 Hsz Hroom Hf1 Hf2).
Qed.

(** X26. What is written is read back: after [Write] of [bs] to a range
    of a well-formed buffer, [Read] of the range that starts where that
    one did and is as long as [bs] gives [bs]. *)
Theorem Bytes_Write_Read fuel bs at_ b :
  Bytes_wf b -> 0 <= from at_ <= to at_ -> to at_ <= b_size b ->
  b_size b + Zlength bs <= max_int64 ->
  b_end b + 2 * Zlength bs * b_blockSize b <= max_int64 ->
  (Z.to_nat (to at_ - from at_) < fuel)%nat -> (length bs < fuel)%nat ->
  exists b1 b2,
    Bytes_Write fuel bs at_ b = Some (BOk (tt, b1))
    /\ Bytes_Read fuel (mkAddr (from at_) (from at_ + Zlength bs)) b1
       = Some (BOk (bs, b2)).
Proof.
  intros W H1 H2 Hsz Hroom Hf1 Hf2.
  destruct (Bytes_Write_ok fuel bs at_ b W H1 H2 Hsz Hroom Hf1 Hf2)
    as (b1 & Hw & W1 & Hc1).
  pose proof (Bytes_content_length b W) as HL.
  pose proof (Bytes_content_length b1 W1) as HL1.
  assert (H0 : 0 <= Zlength bs) by (unfold Zlength; lia).
  assert (Hpre : Zlength (take (Z.to_nat (from at_)) (Bytes_content b)) = from at_)
    by (apply Zlength_take; lia).
  assert (Hsz1 : from at_ + Zlength bs <= b_size b1).
  { rewrite <- HL1, Hc1, !Zlength_app, Hpre.
    assert (0 <= Zlength (drop (Z.to_nat (to at_)) (Bytes_content b)))
      by (unfold Zlength; lia). lia. }
  destruct (Bytes_Read_ok fuel (mkAddr (from at_) (from at_ + Zlength bs)) b1 W1)
    as (b2 & Hr & _); cbn [from to]; try lia.
  { unfold Zlength in *. lia. }
  exists b1, b2. split; [exact Hw|]. rewrite Hr. cbn [from to]. do 3 f_equal.
  rewrite Hc1.
  set (pre := take (Z.to_nat (from at_)) (Bytes_content b)) in *.
  replace (from at_) with (Zlength pre + 0) by lia.
  rewrite slice_app_middle by lia.
  rewrite drop_0. apply take_ge. unfold Zlength. lia.
Qed.

(** X27. [NewBytes] with a block size above zero gives a well-formed
    buffer that holds no bytes. *)
Theorem NewBytes_wf blockSize :
  0 < blockSize ->
  exists b, NewBytes blockSize = BOk b
    /\ Bytes_wf b /\ Bytes_content b = [] /\ b_size b = 0 /\ b_end b = 0
    /\ b_blockSize b = blockSize.
Proof.
  intros HB. unfold NewBytes.
  replace (blockSize <? 0) with false by (symmetry; apply Z.ltb_ge; lia).
  eexists. split; [reflexivity|]. split; [|repeat split].
  constructor; cbn.
  - exact HB.
  - rewrite Zlength_replicate. lia.
  - now left.
  - constructor.
  - constructor.
  - constructor.
  - unfold max_int64. repeat split; try lia. apply Z.divide_0_r.
  - unfold max_int64. split; lia.
  - intros i blk Hi. discriminate.
  - intros i blk Hi. discriminate.
  - constructor.
Qed.
(** *** The theorems at a buffer of one block *)

Ltac abc_wf :=
  constructor; cbn;
  [ lia
  | reflexivity
  | right; unfold Zlength; cbn; lia
  | repeat constructor; cbn; lia
  | repeat constructor; cbn; try lia; exists 0; lia
  | repeat constructor; intros H; inversion H
  | unfold max_int64; repeat split; try lia; exists 1; lia
  | unfold max_int64; split; lia
  | intros i blk Hi [Hne|Hd]; [|discriminate];
    destruct i; [cbn in Hne; lia|discriminate]
  | intros i blk Hi _ Hd; discriminate
  | constructor ].

Lemma Bytes_delete_spec_witness :
  let b0 := mkBytes None 4 [mkBlock 0 3] [] 4 0
                    [Byte.x61; Byte.x62; Byte.x63; Byte.x00] true 3 in
  Bytes_wf b0 /\
  exists b',
    Bytes_delete 10 1 1 b0 = Some (BOk (1, b'))
    /\ Bytes_content b' = [Byte.x61; Byte.x63].
Proof.
  intros b0.
  assert (W : Bytes_wf b0) by abc_wf.
  split; [exact W|].
  destruct (Bytes_delete_spec 10 1 1 b0 W ltac:(unfold max_int64; lia) ltac:(lia))
    as (_ & _ & H).
  destruct (H ltac:(lia) ltac:(lia) ltac:(cbn; lia)) as (b' & Hd & _ & Hc).
  exists b'. split; [exact Hd | exact Hc].
Defined.

Lemma Bytes_insert_spec_witness :
  let b0 := mkBytes None 4 [mkBlock 0 3] [] 4 0
                    [Byte.x61; Byte.x62; Byte.x63; Byte.x00] true 3 in
  Bytes_wf b0 /\
  exists b',
    Bytes_insert 10 [Byte.x78; Byte.x79] 1 b0 = Some (BOk (2, b'))
    /\ Bytes_content b' = [Byte.x61; Byte.x78; Byte.x79; Byte.x62; Byte.x63].
Proof.
  intros b0.
  assert (W : Bytes_wf b0) by abc_wf.
  split; [exact W|].
  destruct (Bytes_insert_spec 10 [Byte.x78; Byte.x79] 1 b0 W
              ltac:(unfold max_int64, Zlength; cbn; lia)
              ltac:(unfold max_int64, Zlength; cbn; lia) ltac:(cbn; lia))
    as (_ & H).
  destruct (H ltac:(cbn; lia)) as (b' & Hi & _ & Hc).
  exists b'. split; [exact Hi | exact Hc].
Defined.

Lemma Bytes_Read_spec_witness :
  let b0 := mkBytes None 4 [mkBlock 0 3] [] 4 0
                    [Byte.x61; Byte.x62; Byte.x63; Byte.x00] true 3 in
  Bytes_wf b0 /\
  exists b',
    Bytes_Read 10 (mkAddr 1 3) b0 = Some (BOk ([Byte.x62; Byte.x63], b'))
    /\ Bytes_Read 10 (mkAddr 1 4) b0 = Some (BErr (AddressError (mkAddr 1 4)) b0).
Proof.
  intros b0.
  assert (W : Bytes_wf b0) by abc_wf.
  split; [exact W|].
  destruct (Bytes_Read_spec 10 (mkAddr 1 3) b0 W ltac:(cbn; lia)) as (_ & H).
  destruct (H ltac:(cbn; lia) ltac:(cbn; lia)) as (b' & Hr & _ & _).
  exists b'. split; [exact Hr|].
  destruct (Bytes_Read_spec 10 (mkAddr 1 4) b0 W ltac:(cbn; lia)) as (He & _).
  apply He. right. right. cbn. lia.
Defined.

Lemma Bytes_Write_spec_witness :
  let b0 := mkBytes None 4 [mkBlock 0 3] [] 4 0
                    [Byte.x61; Byte.x62; Byte.x63; Byte.x00] true 3 in
  Bytes_wf b0 /\
  exists b',
    Bytes_Write 10 [Byte.x78; Byte.x79] (mkAddr 1 2) b0 = Some (BOk (tt, b'))
    /\ Bytes_content b' = [Byte.x61; Byte.x78; Byte.x79; Byte.x63].
Proof.
  intros b0.
  assert (W : Bytes_wf b0) by abc_wf.
  split; [exact W|].
  destruct (Bytes_Write_spec 10 [Byte.x78; Byte.x79] (mkAddr 1 2) b0 W
              ltac:(unfold max_int64, Zlength; cbn; lia)
              ltac:(unfold max_int64, Zlength; cbn; lia)
              ltac:(cbn; lia) ltac:(cbn; lia))
    as (_ & H).
  destruct (H ltac:(cbn; lia) ltac:(cbn; lia)) as (b' & Hw & _ & Hc).
  exists b'. split; [exact Hw | exact Hc].
Defined.

Lemma Bytes_Write_Read_witness :
  let b0 := mkBytes None 4 [mkBlock 0 3] [] 4 0
                    [Byte.x61; Byte.x62; Byte.x63; Byte.x00] true 3 in
  Bytes_wf b0 /\
  exists b1 b2,
    Bytes_Write 10 [Byte.x78; Byte.x79] (mkAddr 1 2) b0 = Some (BOk (tt, b1))
    /\ Bytes_Read 10 (mkAddr 1 3) b1 = Some (BOk ([Byte.x78; Byte.x79], b2)).
Proof.
  intros b0.
  assert (W : Bytes_wf b0) by abc_wf.
  split; [exact W|].
  exact (Bytes_Write_Read 10 [Byte.x78; Byte.x79] (mkAddr 1 2) b0 W
           ltac:(cbn; lia) ltac:(cbn; lia)
           ltac:(unfold max_int64, Zlength; cbn; lia)
           ltac:(unfold max_int64, Zlength; cbn; lia)
           ltac:(cbn; lia) ltac:(cbn; lia)).
Defined.

Lemma NewBytes_wf_witness :
  exists b, NewBytes 8 = BOk b
    /\ Bytes_wf b /\ Bytes_content b = [] /\ b_size b = 0 /\ b_end b = 0
    /\ b_blockSize b = 8.
Proof. exact (NewBytes_wf 8 ltac:(lia)). Defined.

(** X28. [delete] undoes [insert]: after [insert] of [bs] at an offset of
    a well-formed buffer, [delete] of as many bytes at that offset leaves
    the buffer with the bytes that it held at first. *)
Theorem Bytes_insert_delete fuel bs at_ b :
  Bytes_wf b -> 0 <= at_ <= b_size b ->
  b_size b + Zlength bs <= max_int64 ->
  b_end b + 2 * Zlength bs * b_blockSize b <= max_int64 ->
  (length bs < fuel)%nat ->
  exists b1 b2,
    Bytes_insert fuel bs at_ b = Some (BOk (Zlength bs, b1))
    /\ Bytes_delete fuel (Zlength bs) at_ b1 = Some (BOk (Zlength bs, b2))
    /\ Bytes_wf b2 /\ Bytes_content b2 = Bytes_content b.
Proof.
  intros W Hat Hsz Hroom Hf.
  destruct (Bytes_insert_ok fuel bs at_ b W Hat Hsz Hroom Hf) as (b1 & Hi & W1 & Hc1).
  pose proof (Bytes_content_length b W) as HL.
  pose proof (Bytes_content_length b1 W1) as HL1.
  assert (H0 : 0 <= Zlength bs) by (unfold Zlength; lia).
  assert (Hpre : Zlength (take (Z.to_nat at_) (Bytes_content b)) = at_)
    by (apply Zlength_take; lia).
  assert (Hsz1 : b_size b1 = b_size b + Zlength bs).
  { rewrite <- HL1, Hc1, !Zlength_app, Hpre, Zlength_drop by lia. lia. }
  destruct (Bytes_delete_ok fuel (Zlength bs) at_ b1 W1) as (b2 & Hd & W2 & Hc2 & _);
    try lia.
  { unfold Zlength. lia. }
  exists b1, b2. split; [exact Hi|]. split; [exact Hd|]. split; [exact W2|].
  rewrite Hc2, Hc1.
  set (pre := take (Z.to_nat at_) (Bytes_content b)) in *.
  assert (Hlen : length pre = Z.to_nat at_) by (unfold Zlength in Hpre; lia).
  rewrite take_app, drop_app, Hlen.
  rewrite (take_ge pre) by lia. rewrite (drop_ge pre) by lia.
  replace (Z.to_nat at_ - Z.to_nat at_)%nat with 0%nat by lia.
  replace (Z.to_nat (at_ + Zlength bs) - Z.to_nat at_)%nat with (length bs)
    by (unfold Zlength; lia).
  rewrite take_0, app_nil_r. cbn [app].
  rewrite drop_app_length. unfold pre. apply take_drop.
Qed.

Lemma Bytes_insert_delete_witness :
  let b0 := mkBytes None 4 [mkBlock 0 3] [] 4 0
                    [Byte.x61; Byte.x62; Byte.x63; Byte.x00] true 3 in
  Bytes_wf b0 /\
  exists b1 b2,
    Bytes_insert 10 [Byte.x78; Byte.x79] 1 b0 = Some (BOk (2, b1))
    /\ Bytes_delete 10 2 1 b1 = Some (BOk (2, b2))
    /\ Bytes_wf b2 /\ Bytes_content b2 = [Byte.x61; Byte.x62; Byte.x63].
Proof.
  intros b0.
  assert (W : Bytes_wf b0) by abc_wf.
  split; [exact W|].
  exact (Bytes_insert_delete 10 [Byte.x78; Byte.x79] 1 b0 W
           ltac:(cbn; lia)
           ltac:(unfold max_int64, Zlength; cbn; lia)
           ltac:(unfold max_int64, Zlength; cbn; lia)
           ltac:(cbn; lia)).
Defined.
